(** * Webpack Patcher: a shallow embedding of the patching engine

    The development follows the second-generation engine of the repository
    (class [WebpackPatcher], version 2.0.0, and its buffering front end
    [WebpackPatchRegistrar]).  Source text is a list of characters; objects
    of the host page that the engine only passes around are identified by an
    address; the engine's mutable fields live in one record that every
    method threads through a small state-and-exception monad. *)

From Stdlib Require Import String Ascii.
From stdpp Require Import gmap strings list fin_maps.

Local Open Scope string_scope.
Local Open Scope list_scope.

(** ** Host values *)

Abbreviation text := (list ascii).

Definition txt (s : string) : text := list_ascii_of_string s.
Global Arguments txt : simpl never.

(** What a JavaScript call can end with: a value or a thrown error. *)
Inductive js_error : Type :=
| Error (msg : string)
| TypeError (msg : string)
| CompileError
| UserThrow (label : string).

Inductive completion (A : Type) : Type :=
| Normal (a : A)
| Throw (e : js_error).
Arguments Normal {A} a.
Arguments Throw {A} e.

Definition cbind {A B} (c : completion A) (k : A -> completion B) : completion B :=
  match c with
  | Normal a => k a
  | Throw e => Throw e
  end.

Declare Scope completion_scope.
Delimit Scope completion_scope with cpl.
Notation "'try!' x := c 'in' k" := (cbind c (fun x => k))
  (at level 10, x name, c at level 100, k at level 200,
   format "'[v' 'try!'  x  :=  c  'in' '/' k ']'") : completion_scope.

(** ** String builtins of the host

    [String.prototype.includes], [replace] and [replaceAll] for a string
    pattern, and the expansion of dollar patterns in a replacement string. *)

Fixpoint prefixb (p s : text) : bool :=
  match p, s with
  | [], _ => true
  | _ :: _, [] => false
  | a :: p', b :: s' => if Ascii.eqb a b then prefixb p' s' else false
  end.

Fixpoint includes (s p : text) : bool :=
  prefixb p s ||
  match s with
  | [] => false
  | _ :: s' => includes s' p
  end.

(** The arguments a replacer function receives: the matched text, the
    captured groups, the offset of the match and the whole subject. *)
Record match_info : Type := MatchInfo {
  m_text : text;
  m_groups : list text;
  m_offset : nat;
  m_input : text
}.

Definition replacer_fn := match_info -> completion text.

(** [subject.replace(p, cb)] for a string [p]: the first occurrence only.
    Next to the new text the model returns whether the replacer was called;
    the engine's wrapper closures record exactly that in their flag
    [replacement_occurred]. *)
Fixpoint replace_first (p : text) (cb : replacer_fn) (whole : text)
    (off : nat) (s : text) : completion (text * bool) :=
  if prefixb p s then
    (try! r := cb (MatchInfo p [] off whole) in
     Normal (r ++ skipn (length p) s, true))%cpl
  else
    match s with
    | [] => Normal ([], false)
    | c :: s' =>
        (try! out := replace_first p cb whole (S off) s' in
         Normal (c :: out.1, out.2))%cpl
    end.

(** [subject.replaceAll(p, cb)] for a string [p]: every occurrence, left to
    right, without overlap.  [skip] counts the characters of the current
    match that are still to be dropped.  An empty [p] matches before every
    character and at the end. *)
Fixpoint replace_all (p : text) (cb : replacer_fn) (whole : text)
    (off skip : nat) (s : text) {struct s} : completion (text * bool) :=
  match skip with
  | S k =>
      match s with
      | [] => Normal ([], false)
      | _ :: s' => replace_all p cb whole (S off) k s'
      end
  | O =>
      if prefixb p s then
        (try! r := cb (MatchInfo p [] off whole) in
         match s with
         | [] => Normal (r, true)
         | c :: s' =>
             match p with
             | [] =>
                 try! out := replace_all p cb whole (S off) 0 s' in
                 Normal (r ++ c :: out.1, true)
             | _ :: p' =>
                 try! out := replace_all p cb whole (S off) (length p') s' in
                 Normal (r ++ out.1, true)
             end
         end)%cpl
      else
        match s with
        | [] => Normal ([], false)
        | c :: s' =>
            (try! out := replace_all p cb whole (S off) 0 s' in
             Normal (c :: out.1, out.2))%cpl
        end
  end.

(** A regular expression of the host is kept abstract: its [global] flag
    and its matcher.  [re_exec subject lastIndex] is the leftmost match at
    or after [lastIndex]: where it starts, the matched text and the captured
    groups.  An expression with the [y] flag has no value here, and the
    [lastIndex] an expression with the [g] flag carries from one call of
    [test] to the next is not kept: [re_test] is [test] on an expression
    whose [lastIndex] is 0, which is every call on an expression without
    the flag. *)
Record regexp : Type := RegExp {
  re_global : bool;
  re_exec : text -> nat -> option (nat * text * list text)
}.

Definition re_test (r : regexp) (s : text) : bool :=
  match re_exec r s 0 with
  | Some _ => true
  | None => false
  end.

(** All the matches a global expression yields on [s], scanning from
    [last]; an empty match advances the scan by one character. *)
Fixpoint re_match_all (fuel : nat) (r : regexp) (s : text) (last : nat)
    : list (nat * text * list text) :=
  match fuel with
  | O => []
  | S fuel' =>
      if decide (length s < last) then []
      else
        match re_exec r s last with
        | None => []
        | Some (i, m, gs) =>
            (i, m, gs) ::
            re_match_all fuel' r s (match m with [] => S i | _ => i + length m end)
        end
  end.

(** The result of a regular-expression replace, built from the matches:
    the text from [next] on, with each match that starts at or after
    [next] replaced by what the replacer returns for it. *)
Fixpoint re_build (cb : replacer_fn) (s : text) (next : nat)
    (ms : list (nat * text * list text)) : completion (text * bool) :=
  match ms with
  | [] => Normal (skipn next s, false)
  | (i, m, gs) :: ms' =>
      let pos := Nat.min i (length s) in
      (try! r := cb (MatchInfo m gs pos s) in
       if decide (next <= pos) then
         try! out := re_build cb s (pos + length m) ms' in
         Normal (firstn (pos - next) (skipn next s) ++ r ++ out.1, true)
       else
         try! out := re_build cb s next ms' in
         Normal (out.1, true))%cpl
  end.

Definition re_replace (r : regexp) (cb : replacer_fn) (s : text)
    : completion (text * bool) :=
  if re_global r then re_build cb s 0 (re_match_all (S (length s)) r s 0)
  else re_build cb s 0 (option_list (re_exec r s 0)).

(** [replaceAll] refuses an expression without the [global] flag. *)
Definition re_replaceAll (r : regexp) (cb : replacer_fn) (s : text)
    : completion (text * bool) :=
  if re_global r then re_replace r cb s
  else Throw (TypeError "replaceAll must be called with a global RegExp").

(** Dollar patterns of a replacement string when the pattern is a string
    (no captures): [$$], [$&], [$`] and [$'] expand, anything else stays. *)
Fixpoint get_substitution (matched before after tpl : text) : text :=
  match tpl with
  | [] => []
  | c :: rest =>
      if Ascii.eqb c "$" then
        match rest with
        | d :: rest' =>
            if Ascii.eqb d "$" then
              "$"%char :: get_substitution matched before after rest'
            else if Ascii.eqb d "&" then
              matched ++ get_substitution matched before after rest'
            else if Ascii.eqb d "`" then
              before ++ get_substitution matched before after rest'
            else if Ascii.eqb d "'" then
              after ++ get_substitution matched before after rest'
            else c :: get_substitution matched before after rest
        | [] => [c]
        end
      else c :: get_substitution matched before after rest
  end.

(** The replacer that a replacement string stands for. *)
Definition string_replacer (tpl : text) : replacer_fn :=
  fun m =>
    Normal (get_substitution (m_text m)
              (firstn (m_offset m) (m_input m))
              (skipn (m_offset m + length (m_text m)) (m_input m))
              tpl).

(** [subject.replaceAll(p, replacement)] with a replacement string. *)
Definition replaceAll_str (p tpl s : text) : completion text :=
  (try! out := replace_all p (string_replacer tpl) s 0 0 s in
   Normal out.1)%cpl.

(** ** Objects of the page *)

(** A value that is no object; of the numbers, the integers. *)
Inductive primitive : Type :=
| PUndefined
| PNull
| PBoolean (b : bool)
| PNumber (n : Z)
| PString (s : text).

(** What [eval] or [new Function] gave besides a function that takes new
    properties: a function that does not (it was frozen or sealed), or an
    object that cannot be called, open to new properties or not. *)
Inductive object_kind : Type :=
| SealedFunction
| OpenObject
| SealedObject.

(** A function object is known by where it comes from: the host page made
    it, or the engine compiled it from edited text, starting from another
    function.  Compiling always yields a new object.  The text a patch
    leaves need not evaluate to a function: [EvalOther] is the new object it
    gave then, and [EvalPrimitive] the value that is no object, which has no
    identity but its own. *)
Inductive fn_ref : Type :=
| HostRef (addr : nat)
| EvalRef (code : text) (from : fn_ref)
| EvalOther (kind : object_kind) (code : text) (from : fn_ref)
| EvalPrimitive (v : primitive).

Global Instance primitive_eq_dec : EqDecision primitive.
Proof. solve_decision. Defined.

Global Instance object_kind_eq_dec : EqDecision object_kind.
Proof. solve_decision. Defined.

Global Instance fn_ref_eq_dec : EqDecision fn_ref.
Proof. solve_decision. Defined.

(** What the variables [factory], [current_factory] and [patched_factory]
    of the source hold: the identity of the value, what [toString] gives
    for it, and the property [SYM_ORIGINAL_FACTORY] when the engine has set
    it (the identity and text of the factory the patched one replaces).
    The factories the page makes are functions; the text of a value that
    is no function is never read. *)
Record factory : Type := Factory {
  f_ref : fn_ref;
  f_src : text;
  f_original : option (fn_ref * text)
}.

(** [a !== b]: two objects differ when they are not the same object, two
    primitives when they are not the same value. *)
Definition not_same (a b : factory) : bool :=
  negb (bool_decide (f_ref a = f_ref b)).

(** [typeof f === "function"], for the call [f.apply(...)]. *)
Definition callable (f : factory) : bool :=
  match f_ref f with
  | HostRef _ | EvalRef _ _ | EvalOther SealedFunction _ _ => true
  | _ => false
  end.

(** Whether [f[SYM_ORIGINAL_FACTORY] = ...] succeeds in strict mode: it
    throws on a primitive and on an object that takes no new property. *)
Definition takes_marker (f : factory) : bool :=
  match f_ref f with
  | HostRef _ | EvalRef _ _ | EvalOther OpenObject _ _ => true
  | _ => false
  end.

Definition set_original (f orig : factory) : factory :=
  Factory (f_ref f) (f_src f) (Some (f_ref orig, f_src orig)).

(** Any other object the engine holds but never looks into. *)
Inductive objref : Type :=
| HostObj (addr : nat)
| EngineObj (serial : nat)
| BufferObj (serial : nat).

Global Instance objref_eq_dec : EqDecision objref.
Proof. solve_decision. Defined.

(** The function [__webpack_require__] as the setters see it. *)
Record wreq : Type := Wreq {
  w_addr : nat;
  w_src : text
}.

(** ** Patches *)

Inductive pattern : Type :=
| PStr (s : text)
| PRegExp (r : regexp).

Inductive replace_with : Type :=
| RText (s : text)
| RFn (f : replacer_fn).

Record replacement : Type := Replacement {
  r_match : pattern;
  r_replace : replace_with;
  r_global : bool
}.

(** One entry of a [find] array, or a lone [find] value. *)
Inductive identifier : Type :=
| IdStr (s : text)
| IdRegExp (r : regexp)
| IdOther.

(** The [find] property.  A string is a primitive and compares by value;
    an array or a regular expression is an object and compares by
    identity, which its address stands for. *)
Inductive find_value : Type :=
| FindStr (s : text)
| FindRegExp (addr : nat) (r : regexp)
| FindArray (addr : nat) (items : list identifier)
| FindUndefined.

(** A patch as the engine holds it.  The source keeps the objects the
    callers passed and changes them in place; the model keeps their
    values, and tells two [find] objects apart by their addresses. *)
Record patch : Type := Patch {
  p_find : find_value;
  p_replacements : list replacement;
  p_registrar_name : option string
}.

(** [a === b] on two [find] values. *)
Definition find_strict_eq (a b : find_value) : bool :=
  match a, b with
  | FindStr s, FindStr s' => bool_decide (s = s')
  | FindRegExp x _, FindRegExp y _ => bool_decide (x = y)
  | FindArray x _, FindArray y _ => bool_decide (x = y)
  | FindUndefined, FindUndefined => true
  | _, _ => false
  end.

(** The patterns a [find] value stands for, whatever object holds them. *)
Definition find_items (f : find_value) : list identifier :=
  match f with
  | FindStr s => [IdStr s]
  | FindRegExp _ r => [IdRegExp r]
  | FindArray _ items => items
  | FindUndefined => [IdOther]
  end.

(** ** Registrars, events and the log *)

Record registrar_obj : Type := RegistrarObj {
  reg_id : objref;
  reg_data : objref;
  reg_functions : objref
}.

Record reg_options : Type := RegOptions {
  o_name : option string;
  o_data : option objref;
  o_functions : option objref
}.

Inductive event_arg : Type :=
| ArgModule (module_id : string)
| ArgFactory (f : factory)
| ArgRequire (w : wreq)
| ArgFactories (addr : nat).

(** What a callback can call while it runs: the three functions of
    [window.WebpackPatcher].  Reading through the getters of that object
    changes nothing in the engine. *)
Inductive reentry (L : Type) : Type :=
| CallsAddEventListener (event : string) (callback : L)
| CallsRemoveEventListener (event : string) (callback : L)
| CallsRegister (o : reg_options) (ps : list patch).
Arguments CallsAddEventListener {L} event callback.
Arguments CallsRemoveEventListener {L} event callback.
Arguments CallsRegister {L} o ps.

(** A listener is a function of the page: its identity, the calls it
    makes into the engine, in order, and what it ends with when those
    calls have returned.  A callback that, while it runs, calls a module
    of the page (and through it a factory proxy), or writes to what it is
    handed or to what the getters give (the collection of factories, the
    array of patches, the set of patched ids), has no value here. *)
#[warnings="-register-all"] Inductive listener : Type := Listener {
  l_addr : nat;
  l_run : list event_arg -> completion unit;
  l_calls : list event_arg -> list (reentry listener)
}.

Inductive log_entry : Type :=
| WarnUnknownEvent (event : string)
| DebugAddedListener (event : string)
| DebugRemovedListener (event : string)
| ErrorInListener (event : string) (e : js_error)
| DebugCreatedRegistrar (name : string)
| DebugRegistered (name : string) (total : nat)
| DebugCacheAlreadyDetected
| DebugCapturedCache
| DebugDetected (module_count : nat)
| ErrorInOnDetect (e : js_error)
| DebugWrapped (module_count : nat)
| DebugHookInitialized
| LogInitialized
| LogFlushingPatches (count : nat)
| DebugPatchBufferFlushed
| LogFlushingListeners (count : nat)
| DebugListenerBufferFlushed
| DebugCacheHit (module_id : string)
| WarnRuleSkipped (i n : nat) (module_id : string)
| WarnNoReplacements (module_id : string)
| ErrorPatchFailed (e : js_error).

(** What reading [obj[key]] finds on a plain object: a property of its
    own, a member inherited from [Object.prototype], or nothing. *)
Inductive slot (A : Type) : Type :=
| Own (a : A)
| Inherited
| Missing.
Arguments Own {A} a.
Arguments Inherited {A}.
Arguments Missing {A}.

Definition object_prototype_keys : list string :=
  ["constructor"; "hasOwnProperty"; "isPrototypeOf"; "propertyIsEnumerable";
   "toLocaleString"; "toString"; "valueOf"; "__proto__";
   "__defineGetter__"; "__defineSetter__"; "__lookupGetter__";
   "__lookupSetter__"].

Definition inherited_key (k : string) : bool :=
  bool_decide (k ∈ object_prototype_keys).

(** ** The engine's state *)

Record event_table : Type := EventTable {
  webpack_detected : list listener;
  module_registered : list listener;
  module_patched : list listener
}.

(** An entry of the host's factory collection once the engine has seen it:
    a factory proxy around its target, or a factory stored as it is. *)
Inductive mf_entry : Type :=
| ProxyOf (module_id : string) (target : factory)
| Plain (f : factory).

(** The options of the constructor.  [main] takes them from the table
    [CONFIGURATIONS] of the script itself, whose entries hold a
    [filter_func] that tests the last line of the stack and no
    [on_detect]: the two callbacks are the script's own, a filter that
    answers and a callback that returns or throws. *)
Record engine_options : Type := EngineOptions {
  enable_cache : bool;
  use_eval : bool;
  on_detect : option (wreq -> nat -> completion unit);
  filter_func : option (wreq -> list text -> bool)
}.

(** The updates of the fields below are written [upd_field f e]: the
    state [e] with [field] changed by [f]. *)

(** The fields of a [WebpackPatcher] instance, under their names in the
    source, followed by: the two flags local to [hook_webpack], the global
    object [window.WebpackPatcher.Registrars], a counter naming the objects
    the engine creates, what went to the logger, and two records kept for
    the proofs only: the listener calls made and the module ids for which
    the matching loop was entered. *)
Record engine : Type := Engine {
  patches : list patch;
  patched_modules : gset string;
  module_factories : option (nat * gmap string mf_entry);
  webpack_require : option wreq;
  webpack_cache : option objref;
  hooked : bool;
  options : engine_options;
  factory_string_cache : gmap string text;
  registrars : gmap string registrar_obj;
  placeholder_id : text;
  event_listeners : event_table;
  hook_webpack_detected : bool;
  hook_cache_detected : bool;
  window_Registrars : gmap string registrar_obj;
  next_serial : nat;
  log : list log_entry;
  calls : list (string * nat * list event_arg);
  attempts : list string
}.

Definition upd_patches (f : (list patch) -> (list patch))
    (e : engine) : engine :=
  let 'Engine x0 x1 x2 x3 x4 x5 x6 x7 x8 x9 x10 x11 x12 x13 x14 x15 x16 x17 := e in
  Engine (f x0) x1 x2 x3 x4 x5 x6 x7 x8 x9 x10 x11 x12 x13 x14 x15 x16 x17.

Definition upd_patched_modules (f : (gset string) -> (gset string))
    (e : engine) : engine :=
  let 'Engine x0 x1 x2 x3 x4 x5 x6 x7 x8 x9 x10 x11 x12 x13 x14 x15 x16 x17 := e in
  Engine x0 (f x1) x2 x3 x4 x5 x6 x7 x8 x9 x10 x11 x12 x13 x14 x15 x16 x17.

Definition upd_module_factories (f : (option (nat * gmap string mf_entry)) -> (option (nat * gmap string mf_entry)))
    (e : engine) : engine :=
  let 'Engine x0 x1 x2 x3 x4 x5 x6 x7 x8 x9 x10 x11 x12 x13 x14 x15 x16 x17 := e in
  Engine x0 x1 (f x2) x3 x4 x5 x6 x7 x8 x9 x10 x11 x12 x13 x14 x15 x16 x17.

Definition upd_webpack_require (f : (option wreq) -> (option wreq))
    (e : engine) : engine :=
  let 'Engine x0 x1 x2 x3 x4 x5 x6 x7 x8 x9 x10 x11 x12 x13 x14 x15 x16 x17 := e in
  Engine x0 x1 x2 (f x3) x4 x5 x6 x7 x8 x9 x10 x11 x12 x13 x14 x15 x16 x17.

Definition upd_webpack_cache (f : (option objref) -> (option objref))
    (e : engine) : engine :=
  let 'Engine x0 x1 x2 x3 x4 x5 x6 x7 x8 x9 x10 x11 x12 x13 x14 x15 x16 x17 := e in
  Engine x0 x1 x2 x3 (f x4) x5 x6 x7 x8 x9 x10 x11 x12 x13 x14 x15 x16 x17.

Definition upd_hooked (f : bool -> bool)
    (e : engine) : engine :=
  let 'Engine x0 x1 x2 x3 x4 x5 x6 x7 x8 x9 x10 x11 x12 x13 x14 x15 x16 x17 := e in
  Engine x0 x1 x2 x3 x4 (f x5) x6 x7 x8 x9 x10 x11 x12 x13 x14 x15 x16 x17.

Definition upd_factory_string_cache (f : (gmap string text) -> (gmap string text))
    (e : engine) : engine :=
  let 'Engine x0 x1 x2 x3 x4 x5 x6 x7 x8 x9 x10 x11 x12 x13 x14 x15 x16 x17 := e in
  Engine x0 x1 x2 x3 x4 x5 x6 (f x7) x8 x9 x10 x11 x12 x13 x14 x15 x16 x17.

Definition upd_registrars (f : (gmap string registrar_obj) -> (gmap string registrar_obj))
    (e : engine) : engine :=
  let 'Engine x0 x1 x2 x3 x4 x5 x6 x7 x8 x9 x10 x11 x12 x13 x14 x15 x16 x17 := e in
  Engine x0 x1 x2 x3 x4 x5 x6 x7 (f x8) x9 x10 x11 x12 x13 x14 x15 x16 x17.

Definition upd_event_listeners (f : event_table -> event_table)
    (e : engine) : engine :=
  let 'Engine x0 x1 x2 x3 x4 x5 x6 x7 x8 x9 x10 x11 x12 x13 x14 x15 x16 x17 := e in
  Engine x0 x1 x2 x3 x4 x5 x6 x7 x8 x9 (f x10) x11 x12 x13 x14 x15 x16 x17.

Definition upd_hook_webpack_detected (f : bool -> bool)
    (e : engine) : engine :=
  let 'Engine x0 x1 x2 x3 x4 x5 x6 x7 x8 x9 x10 x11 x12 x13 x14 x15 x16 x17 := e in
  Engine x0 x1 x2 x3 x4 x5 x6 x7 x8 x9 x10 (f x11) x12 x13 x14 x15 x16 x17.

Definition upd_hook_cache_detected (f : bool -> bool)
    (e : engine) : engine :=
  let 'Engine x0 x1 x2 x3 x4 x5 x6 x7 x8 x9 x10 x11 x12 x13 x14 x15 x16 x17 := e in
  Engine x0 x1 x2 x3 x4 x5 x6 x7 x8 x9 x10 x11 (f x12) x13 x14 x15 x16 x17.

Definition upd_window_Registrars (f : (gmap string registrar_obj) -> (gmap string registrar_obj))
    (e : engine) : engine :=
  let 'Engine x0 x1 x2 x3 x4 x5 x6 x7 x8 x9 x10 x11 x12 x13 x14 x15 x16 x17 := e in
  Engine x0 x1 x2 x3 x4 x5 x6 x7 x8 x9 x10 x11 x12 (f x13) x14 x15 x16 x17.

Definition upd_next_serial (f : nat -> nat)
    (e : engine) : engine :=
  let 'Engine x0 x1 x2 x3 x4 x5 x6 x7 x8 x9 x10 x11 x12 x13 x14 x15 x16 x17 := e in
  Engine x0 x1 x2 x3 x4 x5 x6 x7 x8 x9 x10 x11 x12 x13 (f x14) x15 x16 x17.

Definition upd_log (f : (list log_entry) -> (list log_entry))
    (e : engine) : engine :=
  let 'Engine x0 x1 x2 x3 x4 x5 x6 x7 x8 x9 x10 x11 x12 x13 x14 x15 x16 x17 := e in
  Engine x0 x1 x2 x3 x4 x5 x6 x7 x8 x9 x10 x11 x12 x13 x14 (f x15) x16 x17.

Definition upd_calls (f : (list (string * nat * list event_arg)) -> (list (string * nat * list event_arg)))
    (e : engine) : engine :=
  let 'Engine x0 x1 x2 x3 x4 x5 x6 x7 x8 x9 x10 x11 x12 x13 x14 x15 x16 x17 := e in
  Engine x0 x1 x2 x3 x4 x5 x6 x7 x8 x9 x10 x11 x12 x13 x14 x15 (f x16) x17.

Definition upd_attempts (f : (list string) -> (list string))
    (e : engine) : engine :=
  let 'Engine x0 x1 x2 x3 x4 x5 x6 x7 x8 x9 x10 x11 x12 x13 x14 x15 x16 x17 := e in
  Engine x0 x1 x2 x3 x4 x5 x6 x7 x8 x9 x10 x11 x12 x13 x14 x15 x16 (f x17).

(** ** Methods as state transformers

    A method takes the state it runs in and gives back how it ended and the
    state it left; what was written before an error is thrown stays. *)

Definition M (S A : Type) : Type := S -> completion A * S.

Definition ret {S A} (a : A) : M S A := fun s => (Normal a, s).

Definition bind {S A B} (m : M S A) (k : A -> M S B) : M S B :=
  fun s =>
    match m s with
    | (Normal a, s') => k a s'
    | (Throw x, s') => (Throw x, s')
    end.

Definition throw {S A} (x : js_error) : M S A := fun s => (Throw x, s).

Definition get {S} : M S S := fun s => (Normal s, s).

Definition modify {S} (f : S -> S) : M S unit := fun s => (Normal tt, f s).

Definition lift {S A} (c : completion A) : M S A := fun s => (c, s).

(** [try { m } catch (x) { h x }] *)
Definition try_catch {S A} (m : M S A) (h : js_error -> M S A) : M S A :=
  fun s =>
    match m s with
    | (Normal a, s') => (Normal a, s')
    | (Throw x, s') => h x s'
    end.

Declare Scope method_scope.
Delimit Scope method_scope with M.
Notation "'let!' x := m 'in' k" := (bind m (fun x => k))
  (at level 10, x name, m at level 100, k at level 200,
   format "'[v' 'let!'  x  :=  m  'in' '/' k ']'") : method_scope.
Notation "m ;; k" := (bind m (fun _ => k))
  (at level 100, k at level 200, right associativity) : method_scope.

Definition logger (entry : log_entry) : M engine unit :=
  modify (upd_log (fun l => l ++ [entry])).

(** *** Event listeners *)

(** [this.event_listeners[event]] *)
Definition listeners_of (event : string) (t : event_table) : slot (list listener) :=
  if decide (event = "webpack_detected") then Own (webpack_detected t)
  else if decide (event = "module_registered") then Own (module_registered t)
  else if decide (event = "module_patched") then Own (module_patched t)
  else if inherited_key event then Inherited
  else Missing.

(** Writing the array of a known event back (the source changes the array
    in place). *)
Definition with_listeners (event : string) (l : list listener) (t : event_table)
    : event_table :=
  if decide (event = "webpack_detected") then
    EventTable l (module_registered t) (module_patched t)
  else if decide (event = "module_registered") then
    EventTable (webpack_detected t) l (module_patched t)
  else if decide (event = "module_patched") then
    EventTable (webpack_detected t) (module_registered t) l
  else t.

Definition add_event_listener (event : string) (callback : listener) : M engine unit :=
  (let! e := get in
   match listeners_of event (event_listeners e) with
   | Missing => logger (WarnUnknownEvent event)
   | Inherited => throw (TypeError "this.event_listeners[event].push is not a function")
   | Own l =>
       modify (upd_event_listeners (with_listeners event (l ++ [callback]))) ;;
       logger (DebugAddedListener event)
   end)%M.

(** [array.indexOf(callback)]: listeners compare by identity. *)
Fixpoint index_of (callback : listener) (l : list listener) : option nat :=
  match l with
  | [] => None
  | x :: l' =>
      if decide (l_addr x = l_addr callback) then Some 0
      else S <$> index_of callback l'
  end.

Definition remove_event_listener (event : string) (callback : listener) : M engine unit :=
  (let! e := get in
   match listeners_of event (event_listeners e) with
   | Missing => ret tt
   | Inherited => throw (TypeError "this.event_listeners[event].indexOf is not a function")
   | Own l =>
       match index_of callback l with
       | Some index =>
           modify (upd_event_listeners (with_listeners event (delete index l))) ;;
           logger (DebugRemovedListener event)
       | None => ret tt
       end
   end)%M.

(** *** Matching *)

Definition _matches_identifier (value : text) (identifier : identifier) : bool :=
  match identifier with
  | IdStr s => includes value s
  | IdRegExp r => re_test r value
  | IdOther => false
  end.

Definition _check_pattern_match (factory_str : text) (p : patch) : bool :=
  existsb (_matches_identifier factory_str) (find_items (p_find p)).

(** *** Registration *)

(** [window.WebpackPatcher.Registrars[name]]: the object is a plain [{}]. *)
Definition registrar_slot (name : string) (rs : gmap string registrar_obj)
    : slot registrar_obj :=
  match rs !! name with
  | Some r => Own r
  | None => if inherited_key name then Inherited else Missing
  end.

(** The inner loop of [register_patches]: the first registered patch whose
    [find] is strictly equal to the new one takes its replacements. *)
Fixpoint merge_into (p : patch) (existing : list patch) : option (list patch) :=
  match existing with
  | [] => None
  | q :: rest =>
      if find_strict_eq (p_find q) (p_find p) then
        Some (Patch (p_find q) (p_replacements q ++ p_replacements p)
                (p_registrar_name q) :: rest)
      else cons q <$> merge_into p rest
  end.

Definition add_patch (registrar_name : string) (p : patch) (existing : list patch)
    : list patch :=
  let p' := Patch (p_find p) (p_replacements p) (Some registrar_name) in
  match merge_into p' existing with
  | Some merged => merged
  | None => existing ++ [p']
  end.

Definition add_patches (registrar_name : string) (ps existing : list patch)
    : list patch :=
  foldl (fun acc p => add_patch registrar_name p acc) existing ps.

Definition hook_webpack : M engine unit :=
  (let! e := get in
   if hooked e then ret tt
   else
     modify (upd_hooked (fun _ => true)) ;;
     logger DebugHookInitialized)%M.

(** [options.name] is required: absent or empty, it is falsy. *)
Definition name_given (o : reg_options) : option string :=
  match o_name o with
  | Some n => if decide (n = EmptyString) then None else Some n
  | None => None
  end.

Definition fresh_obj : M engine objref :=
  (let! e := get in
   modify (upd_next_serial S) ;;
   ret (EngineObj (next_serial e)))%M.

Definition or_fresh (o : option objref) : M engine objref :=
  match o with
  | Some x => ret x
  | None => fresh_obj
  end.

(** What [register_patches] hands back: the registrar, or for a name
    that [Object.prototype] also has, that inherited member. *)
Inductive handle : Type :=
| Registrar (r : registrar_obj)
| PrototypeMember (key : string)
| Undefined.

(** The first block of [register_patches]: the registrar is created when
    [window.WebpackPatcher.Registrars[name]] is falsy, from the object the
    buffer kept for it or from the options. *)
Definition ensure_registrar (registrar_name : string) (o : reg_options)
    (existing_registrar : option registrar_obj) : M engine unit :=
  (let! e := get in
   match registrar_slot registrar_name (window_Registrars e) with
   | Missing =>
       let! registrar_obj :=
         match existing_registrar with
         | Some r => ret r
         | None =>
             let! d := or_fresh (o_data o) in
             let! f := or_fresh (o_functions o) in
             let! id := fresh_obj in
             ret (RegistrarObj id d f)
         end in
       modify (upd_window_Registrars (insert registrar_name registrar_obj)) ;;
       modify (upd_registrars (insert registrar_name registrar_obj)) ;;
       logger (DebugCreatedRegistrar registrar_name)
   | _ => ret tt
   end)%M.

(** [window.WebpackPatcher.Registrars[name]] as a value handed back. *)
Definition handle_of (name : string) (rs : gmap string registrar_obj) : handle :=
  match registrar_slot name rs with
  | Own r => Registrar r
  | Inherited => PrototypeMember name
  | Missing => Undefined
  end.

Definition register_patches (o : reg_options) (ps : list patch)
    (existing_registrar : option registrar_obj) : M engine handle :=
  match name_given o with
  | None => throw (Error "Registrar name is required")
  | Some registrar_name =>
      (ensure_registrar registrar_name o existing_registrar ;;
       modify (upd_patches (add_patches registrar_name ps)) ;;
       let! e1 := get in
       logger (DebugRegistered registrar_name (length (patches e1))) ;;
       hook_webpack ;;
       let! e2 := get in
       ret (handle_of registrar_name (window_Registrars e2)))%M
  end.

(** *** Dispatch *)

(** The calls a callback makes, one after the other; one that throws ends
    the callback there. *)
Fixpoint run_reentries (rs : list (reentry listener)) : M engine unit :=
  match rs with
  | [] => ret tt
  | CallsAddEventListener event callback :: rest =>
      (add_event_listener event callback ;; run_reentries rest)%M
  | CallsRemoveEventListener event callback :: rest =>
      (remove_event_listener event callback ;; run_reentries rest)%M
  | CallsRegister o ps :: rest =>
      (let! _ := register_patches o ps None in run_reentries rest)%M
  end.

(** One turn of the loop of [_emit_event]: the call is recorded, and an
    error the callback throws, itself or out of a call it makes, is caught
    and logged. *)
Definition call_listener (event : string) (args : list event_arg) (l : listener)
    : M engine unit :=
  (modify (upd_calls (fun c => c ++ [(event, l_addr l, args)])) ;;
   try_catch (run_reentries (l_calls l args) ;; lift (l_run l args))
     (fun x => logger (ErrorInListener event x)))%M.

(** The loop [for (const listener of this.event_listeners[event])]: the
    iterator of the array reads the element at its index from the array as
    it is then, so a listener removed or added by a callback changes what
    the later turns find.  [fuel] bounds the number of turns. *)
Fixpoint emit_loop (fuel : nat) (event : string) (args : list event_arg)
    (index : nat) : M engine unit :=
  match fuel with
  | O => ret tt
  | S fuel' =>
      (let! e := get in
       match listeners_of event (event_listeners e) with
       | Own ls =>
           match ls !! index with
           | Some l =>
               call_listener event args l ;;
               emit_loop fuel' event args (S index)
           | None => ret tt
           end
       | _ => ret tt
       end)%M
  end.

(** The turns a listener can give rise to when it is called with [args]:
    its own, and those of the listeners it subscribes. *)
Fixpoint listener_turns (args : list event_arg) (l : listener) : nat :=
  S (list_sum
       (map (fun r => match r with
                      | CallsAddEventListener _ callback =>
                          listener_turns args callback
                      | _ => 0
                      end)
            (l_calls l args))).

Definition turns (args : list event_arg) (ls : list listener) : nat :=
  list_sum (map (listener_turns args) ls).

(** [_emit_event].  The loop is given the turns of the listeners
    subscribed when it starts, which it never uses up before it reaches
    the end of the array ([emit_event_enough] below).  A callback that
    subscribes itself again on every call would keep the loop of the source
    going for ever; it has no value in [listener]. *)
Definition _emit_event (event : string) (args : list event_arg) : M engine unit :=
  (let! e := get in
   match listeners_of event (event_listeners e) with
   | Missing => ret tt
   | Inherited => throw (TypeError "this.event_listeners[event] is not iterable")
   | Own ls => emit_loop (turns args ls) event args 0
   end)%M.

(** What the dispatch amounts to over listeners that make no call into
    the engine: one turn for each, in the order of the array. *)
Fixpoint call_listeners (event : string) (args : list event_arg) (ls : list listener)
    : M engine unit :=
  match ls with
  | [] => ret tt
  | l :: ls' => (call_listener event args l ;; call_listeners event args ls')%M
  end.

(** *** Placeholders *)

Definition quote : ascii := "034"%char.

Definition placeholder_marker : text := txt "WEBPACKPATCHER_PLACEHOLDER_".

Definition placeholder_self (id : text) : text :=
  placeholder_marker ++ txt "SELF_" ++ id.
Definition placeholder_functions (id : text) : text :=
  placeholder_marker ++ txt "FUNCTIONS_" ++ id.
Definition placeholder_data (id : text) : text :=
  placeholder_marker ++ txt "DATA_" ++ id.

(** The text a registrar name gives inside a template literal. *)
Definition name_text (registrar_name : option string) : text :=
  match registrar_name with
  | Some n => txt n
  | None => txt "undefined"
  end.

Definition registrar_expr (registrar_name : option string) : text :=
  txt "window.WebpackPatcher.Registrars[" ++ [quote] ++ name_text registrar_name
    ++ [quote] ++ txt "]".

(** The table [placeholder_replacements], in the order of its keys. *)
Definition placeholder_replacements (id : text) (registrar_name : option string)
    : list (text * text) :=
  [ (placeholder_self id, registrar_expr registrar_name);
    (placeholder_functions id, registrar_expr registrar_name ++ txt ".functions");
    (placeholder_data id, registrar_expr registrar_name ++ txt ".data") ].

Fixpoint replace_placeholders (table : list (text * text)) (patched_code : text)
    : completion text :=
  match table with
  | [] => Normal patched_code
  | (placeholder, replacement) :: table' =>
      (try! next := replaceAll_str placeholder replacement patched_code in
       replace_placeholders table' next)%cpl
  end.

Global Arguments placeholder_replacements : simpl never.
Global Arguments replace_placeholders : simpl never.
Global Arguments registrar_expr : simpl never.

(** The digits of [Math.random().toString(36)] after the point give the
    id: at most eight of them. *)
Definition base36_digit (n : nat) : ascii :=
  nth (n mod 36) (txt "0123456789abcdefghijklmnopqrstuvwxyz") "0"%char.

Definition make_placeholder_id (random_digits : list nat) : text :=
  base36_digit <$> firstn 8 random_digits.

(** *** Construction *)

Definition new_engine (o : engine_options) (random_digits : list nat) : engine :=
  {| patches := [];
     patched_modules := ∅;
     module_factories := None;
     webpack_require := None;
     webpack_cache := None;
     hooked := false;
     options := o;
     factory_string_cache := ∅;
     registrars := ∅;
     placeholder_id := make_placeholder_id random_digits;
     event_listeners := EventTable [] [] [];
     hook_webpack_detected := false;
     hook_cache_detected := false;
     window_Registrars := ∅;
     next_serial := 0;
     log := [];
     calls := [];
     attempts := [] |}.

Definition initialize (o : engine_options) (random_digits : list nat) : engine :=
  snd ((hook_webpack ;; logger LogInitialized)%M (new_engine o random_digits)).

(** *** Patching a factory *)

(** The kinds of value the evaluation of a text can give: a function or
    another object, which takes new properties or not, or a primitive. *)
Inductive compiled : Type :=
| CFunction (extensible : bool)
| CObject (extensible : bool)
| CPrimitive (v : primitive).

(** The value of kind [c] that evaluating [code] gave, starting from
    [fac]. *)
Definition compiled_value (c : compiled) (code : text) (fac : factory) : factory :=
  Factory
    (match c with
     | CFunction true => EvalRef code (f_ref fac)
     | CFunction false => EvalOther SealedFunction code (f_ref fac)
     | CObject true => EvalOther OpenObject code (f_ref fac)
     | CObject false => EvalOther SealedObject code (f_ref fac)
     | CPrimitive v => EvalPrimitive v
     end)
    code None.

Section Patching.

(** What the page lets [eval] and [new Function] do with a text: the kind
    of value they give, or [None] when they throw. *)
Variable host_eval : text -> option compiled.
Variable host_new_function : text -> option compiled.

Definition _get_factory_string (module_id : string) (f : factory) : M engine text :=
  (let! e := get in
   match (if enable_cache (options e) then factory_string_cache e !! module_id
          else None) with
   | Some cached => logger (DebugCacheHit module_id) ;; ret cached
   | None =>
       (if enable_cache (options e) then
          modify (upd_factory_string_cache (insert module_id (f_src f)))
        else ret tt) ;;
       ret (f_src f)
   end)%M.

(** One turn of the loop over the rules: [replaceAll] when the rule or
    its expression is global, [replace] otherwise, with the rule's
    replacement wrapped in a function either way. *)
Definition apply_rule (r : replacement) (patched_code : text)
    : completion (text * bool) :=
  let cb : replacer_fn :=
    match r_replace r with
    | RFn f => f
    | RText s => fun _ => Normal s
    end in
  match r_match r with
  | PStr p =>
      if r_global r then replace_all p cb patched_code 0 0 patched_code
      else replace_first p cb patched_code 0 patched_code
  | PRegExp re =>
      if r_global r || re_global re then re_replaceAll re cb patched_code
      else re_replace re cb patched_code
  end.

Fixpoint run_rules (module_id : string) (n i : nat) (rs : list replacement)
    (patched_code : text) (total_replacements : nat) : M engine (text * nat) :=
  match rs with
  | [] => ret (patched_code, total_replacements)
  | r :: rs' =>
      (let! out := lift (apply_rule r patched_code) in
       (if out.2 then ret tt
        else logger (WarnRuleSkipped (S i) n module_id)) ;;
       run_rules module_id n (S i) rs' out.1
         (if out.2 then S total_replacements else total_replacements))%M
  end.

Definition patched_source (module_id : string) (patched_code : text) : text :=
  txt "// Webpack Module " ++ txt module_id ++ txt " - Patched by WebpackPatcher"
    ++ ["010"%char] ++ txt "0," ++ patched_code ++ ["010"%char]
    ++ txt "//# sourceURL=WebpackModule" ++ txt module_id.

Definition compile (eval : bool) (module_id : string) (patched_code : text)
    : completion compiled :=
  match (if eval then host_eval (patched_source module_id patched_code)
         else host_new_function (txt "return (" ++ patched_code ++ txt ")")) with
  | Some c => Normal c
  | None => Throw CompileError
  end.

Definition _apply_patch (fac : factory) (factory_str : text)
    (matches_and_replacements : list replacement) (module_id : string)
    (registrar_name : option string) : M engine (factory * text) :=
  try_catch
    (let! out := run_rules module_id (length matches_and_replacements) 0
                   matches_and_replacements factory_str 0 in
     if decide (out.2 = 0) then
       logger (WarnNoReplacements module_id) ;;
       ret (fac, factory_str)
     else
       let! e := get in
       let! patched_code :=
         lift (replace_placeholders
                 (placeholder_replacements (placeholder_id e) registrar_name)
                 out.1) in
       let! c := lift (compile (use_eval (options e)) module_id patched_code) in
       ret (compiled_value c patched_code fac, patched_code))%M
    (fun x => logger (ErrorPatchFailed x) ;; ret (fac, factory_str))%M.

(** The loop of [_get_or_patch_factory] over the registered patches. *)
Fixpoint patch_loop (module_id : string) (ps : list patch)
    (current_factory : factory) (current_factory_str : text)
    (any_patches_applied : bool) : M engine (factory * text * bool) :=
  match ps with
  | [] => ret (current_factory, current_factory_str, any_patches_applied)
  | p :: ps' =>
      if negb (_check_pattern_match current_factory_str p) then
        patch_loop module_id ps' current_factory current_factory_str
          any_patches_applied
      else
        (let! patch_result :=
           _apply_patch current_factory current_factory_str (p_replacements p)
             module_id (p_registrar_name p) in
         if not_same patch_result.1 current_factory then
           patch_loop module_id ps' patch_result.1 patch_result.2 true
         else
           patch_loop module_id ps' current_factory current_factory_str
             any_patches_applied)%M
  end.

(** [this.module_factories[module_id] = f] *)
Definition store_factory (module_id : string) (f : factory) : M engine unit :=
  (let! e := get in
   match module_factories e with
   | None => throw (TypeError "Cannot set properties of null")
   | Some (addr, m) =>
       modify (upd_module_factories (fun _ => Some (addr, <[module_id := Plain f]> m)))
   end)%M.

Definition _get_or_patch_factory (module_id : string) (fac : factory)
    : M engine factory :=
  match f_original fac with
  | Some _ => ret fac
  | None =>
      (let! e := get in
       if decide (module_id ∈ patched_modules e) then ret fac
       else
         modify (upd_attempts (fun a => a ++ [module_id])) ;;
         let! factory_str := _get_factory_string module_id fac in
         let! r := patch_loop module_id (patches e) fac factory_str false in
         let current_factory :=
           if r.2 then set_original r.1.1 fac else r.1.1 in
         (if r.2 then
            (if takes_marker r.1.1 then ret tt
             else throw (TypeError "Cannot create property on this value")) ;;
            store_factory module_id current_factory ;;
            _emit_event "module_patched"
              [ArgModule module_id; ArgFactory current_factory; ArgFactory fac]
          else ret tt) ;;
         modify (upd_patched_modules (fun s => {[module_id]} ∪ s)) ;;
         ret current_factory)%M
  end.

(** [_create_factory_proxy] and the [apply] trap of the proxy it makes:
    the factory that then runs with the caller's arguments. *)
Definition _create_factory_proxy (module_id : string) (fac : factory) : mf_entry :=
  ProxyOf module_id fac.

Definition call_entry (entry : mf_entry) : M engine factory :=
  match entry with
  | ProxyOf module_id factory_target => _get_or_patch_factory module_id factory_target
  | Plain f => ret f
  end.

(** The [apply] trap as a whole: the call of [apply] on what
    [_get_or_patch_factory] gave throws when that is no function. *)
Definition apply_trap (module_id : string) (factory_target : factory)
    : M engine factory :=
  (let! patched_factory := _get_or_patch_factory module_id factory_target in
   if callable patched_factory then ret patched_factory
   else throw (TypeError "patched_factory.apply is not a function"))%M.

(** The [toString] a factory proxy answers with: that of the original
    factory when the target carries one. *)
Definition _handle_factory_get_toString (factory_target : factory) : text :=
  match f_original factory_target with
  | Some (_, src) => src
  | None => f_src factory_target
  end.

End Patching.

Global Arguments apply_rule : simpl never.
Global Arguments compile : simpl never.
Global Arguments patched_source : simpl never.

(** *** Detection: the setters [hook_webpack] installs

    Each is what runs when the page assigns the property to a function
    [this]; before [hook_webpack] there is no setter.  [stack_lines] is the
    call stack of the assignment, cut in lines. *)

Definition passes_filter (e : engine) (this : wreq) (stack_lines : list text) : bool :=
  match filter_func (options e) with
  | Some filter => filter this stack_lines
  | None => true
  end.

Definition cache_setter (this : wreq) (cache_obj : objref) (stack_lines : list text)
    : M engine unit :=
  (let! e := get in
   if negb (hooked e) then ret tt
   else if hook_cache_detected e then logger DebugCacheAlreadyDetected
   else if negb (includes (w_src this) (txt "exports:{}")) then ret tt
   else if negb (passes_filter e this stack_lines) then ret tt
   else
     modify (upd_hook_cache_detected (fun _ => true)) ;;
     modify (upd_webpack_cache (fun _ => Some cache_obj)) ;;
     logger DebugCapturedCache)%M.

Definition modules_setter (this : wreq) (addr : nat) (found : gmap string factory)
    (stack_lines : list text) : M engine unit :=
  (let! e := get in
   if negb (hooked e) then ret tt
   else if hook_webpack_detected e then ret tt
   else if negb (includes (w_src this) (txt "exports:{}")) then ret tt
   else if negb (passes_filter e this stack_lines) then ret tt
   else
     modify (upd_hook_webpack_detected (fun _ => true)) ;;
     logger (DebugDetected (size found)) ;;
     modify (upd_webpack_require (fun _ => Some this)) ;;
     _emit_event "webpack_detected" [ArgRequire this; ArgFactories addr] ;;
     match on_detect (options e) with
     | Some cb =>
         try_catch (lift (cb this addr)) (fun x => logger (ErrorInOnDetect x))
     | None => ret tt
     end ;;
     modify (upd_module_factories
               (fun _ => Some (addr, map_imap (fun module_id f =>
                                        Some (_create_factory_proxy module_id f))
                                      found))) ;;
     logger (DebugWrapped (size found)))%M.

(** The [set] trap of the proxied collection: a factory registered after
    detection. *)
Definition factories_set_trap (module_id : string) (fac : factory) : M engine unit :=
  (let! e := get in
   match module_factories e with
   | None => ret tt
   | Some (addr, m) =>
       _emit_event "module_registered" [ArgModule module_id; ArgFactory fac] ;;
       modify (upd_module_factories
                 (fun _ => Some (addr, <[module_id := _create_factory_proxy module_id fac]> m)))
   end)%M.

(** ** The buffering front end *)

Record WebpackPatchRegistrar : Type := FrontEnd {
  patcher : option engine;
  patch_buffer : list (reg_options * list patch * registrar_obj);
  event_listener_buffer : list (string * listener);
  is_flushing : bool;
  buffer_serial : nat
}.

Definition new_registrar (p : option engine) : WebpackPatchRegistrar :=
  FrontEnd p [] [] false 0.

(** Running a method of [this.patcher]. *)
Definition on_patcher {A} (m : M engine A) : M WebpackPatchRegistrar A :=
  fun r =>
    match patcher r with
    | Some e =>
        let (res, e') := m e in
        (res, FrontEnd (Some e') (patch_buffer r) (event_listener_buffer r)
                (is_flushing r) (buffer_serial r))
    | None => (Throw (TypeError "Cannot read properties of null"), r)
    end.

Definition set_is_flushing (b : bool) : M WebpackPatchRegistrar unit :=
  modify (fun r => FrontEnd (patcher r) (patch_buffer r) (event_listener_buffer r)
                     b (buffer_serial r)).

Definition set_patch_buffer (b : list (reg_options * list patch * registrar_obj))
    : M WebpackPatchRegistrar unit :=
  modify (fun r => FrontEnd (patcher r) b (event_listener_buffer r)
                     (is_flushing r) (buffer_serial r)).

Definition set_event_listener_buffer (b : list (string * listener))
    : M WebpackPatchRegistrar unit :=
  modify (fun r => FrontEnd (patcher r) (patch_buffer r) b
                     (is_flushing r) (buffer_serial r)).

Fixpoint flush_patches (buffered : list (reg_options * list patch * registrar_obj))
    : M WebpackPatchRegistrar unit :=
  match buffered with
  | [] => ret tt
  | (o, ps, registrar) :: rest =>
      (on_patcher (register_patches o ps (Some registrar)) ;;
       flush_patches rest)%M
  end.

Fixpoint flush_listeners (buffered : list (string * listener))
    : M WebpackPatchRegistrar unit :=
  match buffered with
  | [] => ret tt
  | (event, callback) :: rest =>
      (on_patcher (add_event_listener event callback) ;;
       flush_listeners rest)%M
  end.

Definition _flush_buffers : M WebpackPatchRegistrar unit :=
  (let! r := get in
   if is_flushing r then ret tt
   else
     set_is_flushing true ;;
     match patch_buffer r with
     | [] => ret tt
     | _ =>
         on_patcher (logger (LogFlushingPatches (length (patch_buffer r)))) ;;
         flush_patches (patch_buffer r) ;;
         set_patch_buffer [] ;;
         on_patcher (logger DebugPatchBufferFlushed)
     end ;;
     match event_listener_buffer r with
     | [] => ret tt
     | _ =>
         on_patcher (logger (LogFlushingListeners (length (event_listener_buffer r)))) ;;
         flush_listeners (event_listener_buffer r) ;;
         set_event_listener_buffer [] ;;
         on_patcher (logger DebugListenerBufferFlushed)
     end ;;
     set_is_flushing false)%M.

(** [set_patcher]: the warning of the second call goes to the logger of
    the patcher that is turned away. *)
Definition set_patcher (p : engine) : M WebpackPatchRegistrar unit :=
  (let! r := get in
   match patcher r with
   | Some _ => ret tt
   | None =>
       modify (fun r => FrontEnd (Some p) (patch_buffer r) (event_listener_buffer r)
                          (is_flushing r) (buffer_serial r)) ;;
       _flush_buffers
   end)%M.

Definition buffer_obj : M WebpackPatchRegistrar objref :=
  (let! r := get in
   modify (fun r => FrontEnd (patcher r) (patch_buffer r) (event_listener_buffer r)
                      (is_flushing r) (S (buffer_serial r))) ;;
   ret (BufferObj (buffer_serial r)))%M.

Definition or_buffer_obj (o : option objref) : M WebpackPatchRegistrar objref :=
  match o with
  | Some x => ret x
  | None => buffer_obj
  end.

(** The public [register]. *)
Definition register (o : reg_options) (ps : list patch)
    : M WebpackPatchRegistrar handle :=
  (let! r := get in
   match patcher r with
   | Some _ => on_patcher (register_patches o ps None)
   | None =>
       let! d := or_buffer_obj (o_data o) in
       let! f := or_buffer_obj (o_functions o) in
       let! id := buffer_obj in
       let registrar_obj := RegistrarObj id d f in
       let! r' := get in
       set_patch_buffer (patch_buffer r' ++ [(o, ps, registrar_obj)]) ;;
       ret (Registrar registrar_obj)
   end)%M.



(** What the read-only accessors give. *)
Inductive accessor_value : Type :=
| Null
| RequireFunction (w : wreq)
| FactoriesObject (addr : nat)
| CacheObject (o : objref)
| CacheCopy (o : objref)
| CacheWrapper.

Definition webpackRequire (r : WebpackPatchRegistrar) : accessor_value :=
  match patcher r with
  | Some e =>
      match webpack_require e with
      | Some w => RequireFunction w
      | None => Null
      end
  | None => Null
  end.

Definition moduleFactories (r : WebpackPatchRegistrar) : accessor_value :=
  match patcher r with
  | Some e =>
      match module_factories e with
      | Some (addr, _) => FactoriesObject addr
      | None => Null
      end
  | None => Null
  end.

(** [get webpack_cache() {return this._Webpack_cache}] *)
Definition moduleCache (r : WebpackPatchRegistrar) : accessor_value :=
  CacheWrapper.

(** [_Webpack_cache.getAll()] *)
Definition moduleCache_getAll (r : WebpackPatchRegistrar) : accessor_value :=
  match patcher r with
  | Some e =>
      match webpack_cache e with
      | Some o => CacheCopy o
      | None => Null
      end
  | None => Null
  end.

Definition isWebpackDetected (r : WebpackPatchRegistrar) : bool :=
  match patcher r with
  | Some e => bool_decide (is_Some (webpack_require e))
  | None => false
  end.

(** [main] for a host that has a configuration: the front end is made
    without a patcher, the engine is initialized and handed over. *)
Definition main (o : engine_options) (random_digits : list nat)
    : WebpackPatchRegistrar :=
  snd (set_patcher (initialize o random_digits) (new_registrar None)).

(** ** Notions the properties are stated with *)

(** [e'] is [e] with more written to the logger, and nothing else. *)
Definition only_logged (e e' : engine) : Prop :=
  ∃ entries, e' = upd_log (fun l => l ++ entries) e.

(** No rule of the list finds anything to replace in [factory_str]. *)
Definition no_rule_substitutes (rs : list replacement) (factory_str : text) : Prop :=
  Forall (fun r => ∃ c, apply_rule r factory_str = Normal (c, false)) rs.


(** *** Sample values *)

Definition sample_options : engine_options := EngineOptions false true None None.
Definition sample_engine : engine := initialize sample_options [10; 11; 12].
Definition accept_all (_ : text) : option compiled := Some (CFunction true).
Definition reject_all (_ : text) : option compiled := None.

Definition sample_source : text := txt "function a(){return foo(1)+bar(2)}".
Definition sample_factory : factory := Factory (HostRef 1) sample_source None.
Definition rule_foo_baz : replacement :=
  Replacement (PStr (txt "foo(1)")) (RText (txt "baz(1)")) false.
Definition rule_absent : replacement :=
  Replacement (PStr (txt "qux(9)")) (RText (txt "zap(9)")) false.

(** The text [s] with the first occurrence of [p] replaced by [r], and
    what the placeholder pass makes of a text: both as plain functions, to
    name the texts the engine is expected to produce. *)
Fixpoint subst_first (p r s : text) : text :=
  if prefixb p s then r ++ skipn (length p) s
  else
    match s with
    | [] => []
    | c :: s' => c :: subst_first p r s'
    end.

Definition resolved (id : text) (registrar_name : option string) (code : text) : text :=
  match replace_placeholders (placeholder_replacements id registrar_name) code with
  | Normal t => t
  | Throw _ => code
  end.

(** A rule that replaces the first occurrence of a string by a string. *)
Definition literal_rule (m r : text) : replacement :=
  Replacement (PStr m) (RText r) false.

(** The function object [eval] gives for [code], starting from [fac]. *)
Definition compiled_from (fac : factory) (code : text) : factory :=
  Factory (EvalRef code (f_ref fac)) code None.

(** The three events of the engine. *)
Definition known_event (event : string) : Prop :=
  event = "webpack_detected" ∨ event = "module_registered" ∨ event = "module_patched".

(** An assignment of the factory collection is accepted when the hook is
    installed, nothing was detected before, the function that receives it
    has the marker text and the filter lets it through. *)
Definition accepted (e : engine) (this : wreq) (stack_lines : list text) : bool :=
  hooked e && negb (hook_webpack_detected e) &&
  includes (w_src this) (txt "exports:{}") && passes_filter e this stack_lines.

(** ** Histories

    What can happen to an engine once it is initialized: the calls of its
    public methods, the assignments its setters and its [set] trap see,
    and the page calling a factory proxy.  A proxy exists only once the
    factory collection has been detected. *)

Inductive op : Type :=
| Register (o : reg_options) (ps : list patch)
| AddListener (event : string) (callback : listener)
| RemoveListener (event : string) (callback : listener)
| SetModules (this : wreq) (addr : nat) (found : gmap string factory)
    (stack_lines : list text)
| SetCache (this : wreq) (cache_obj : objref) (stack_lines : list text)
| SetFactory (module_id : string) (fac : factory)
| CallProxy (module_id : string) (factory_target : factory).

Section Histories.

Variable host_eval : text -> option compiled.
Variable host_new_function : text -> option compiled.

Definition run_op (x : op) (e : engine) : engine :=
  match x with
  | Register o ps => snd (register_patches o ps None e)
  | AddListener event callback => snd (add_event_listener event callback e)
  | RemoveListener event callback => snd (remove_event_listener event callback e)
  | SetModules this addr found stack_lines =>
      snd (modules_setter this addr found stack_lines e)
  | SetCache this cache_obj stack_lines =>
      snd (cache_setter this cache_obj stack_lines e)
  | SetFactory module_id fac => snd (factories_set_trap module_id fac e)
  | CallProxy module_id factory_target =>
      match module_factories e with
      | Some _ =>
          snd (call_entry host_eval host_new_function
                 (_create_factory_proxy module_id factory_target) e)
      | None => e
      end
  end.

Definition run_ops (xs : list op) (e : engine) : engine :=
  foldl (fun acc x => run_op x acc) e xs.

End Histories.

(** A front end that holds the engine [e]. *)
Definition attached (e : engine) (r : WebpackPatchRegistrar) : Prop :=
  patcher r = Some e.

(** What the inner steps of patching and the calls a callback makes leave
    alone. *)
Definition patching_frame (e e' : engine) : Prop :=
  patched_modules e' = patched_modules e ∧
  fst <$> module_factories e' = fst <$> module_factories e ∧
  webpack_require e' = webpack_require e ∧
  webpack_cache e' = webpack_cache e ∧
  options e' = options e ∧
  placeholder_id e' = placeholder_id e ∧
  hook_webpack_detected e' = hook_webpack_detected e ∧
  hook_cache_detected e' = hook_cache_detected e ∧
  attempts e' = attempts e.

(** A method returns normally from every state, and relates the state
    it leaves to the one it found by [R]. *)
Definition returns {A} (R : engine -> engine -> Prop) (m : M engine A) : Prop :=
  ∀ e, ∃ a, fst (m e) = Normal a ∧ R e (snd (m e)).

(** A method, however it ends, relates the state it leaves to the one it
    found by [R]. *)
Definition keeps {A} (R : engine -> engine -> Prop) (m : M engine A) : Prop :=
  ∀ e, R e (snd (m e)).

(** A relation on states that holds across the calls a callback can make
    into the engine. *)
Definition reentrant (R : engine -> engine -> Prop) : Prop :=
  (∀ event callback, keeps R (add_event_listener event callback)) ∧
  (∀ event callback, keeps R (remove_event_listener event callback)) ∧
  (∀ o ps, keeps R (register_patches o ps None)).

(** A listener that makes no call into the engine, and an engine all of
    whose listeners for an event are such. *)
Definition passive (l : listener) : Prop := ∀ args, l_calls l args = [].

Definition passive_event (event : string) (e : engine) : Prop :=
  ∀ ls, listeners_of event (event_listeners e) = Own ls -> Forall passive ls.

(** An identifier whose [test] does not depend on the calls made before: a
    string, or an expression without the [g] flag.  For the others the
    [lastIndex] they carry decides where [test] starts, and the answer
    [re_test] gives is that of an expression whose [lastIndex] is 0. *)
Definition stateless_identifier (i : identifier) : Prop :=
  match i with
  | IdRegExp r => re_global r = false
  | _ => True
  end.

Definition stateless_find (p : patch) : Prop :=
  Forall stateless_identifier (find_items (p_find p)).

(** The turns that the loop of a dispatch has before it when it stands at
    [index]: those of the listeners from there on in the array as it is. *)
Definition remaining (event : string) (args : list event_arg) (index : nat)
    (e : engine) : nat :=
  match listeners_of event (event_listeners e) with
  | Own ls => turns args (drop index ls)
  | _ => 0
  end.

(** The turns that the calls of a callback add. *)
Definition added_turns (args : list event_arg) (rs : list (reentry listener)) : nat :=
  list_sum (map (fun r => match r with
                          | CallsAddEventListener _ callback =>
                              listener_turns args callback
                          | _ => 0
                          end) rs).

(** The lines that a dispatch over [ls] logs: one for each listener that
    throws, in order. *)
Definition listener_errors (event : string) (args : list event_arg)
    (ls : list listener) : list log_entry :=
  omap (fun l => match l_run l args with
                 | Throw x => Some (ErrorInListener event x)
                 | Normal _ => None
                 end) ls.

(** What no method but the patching of a factory touches. *)
Definition quiet (e e' : engine) : Prop :=
  patched_modules e' = patched_modules e ∧
  attempts e' = attempts e ∧
  options e' = options e ∧
  placeholder_id e' = placeholder_id e.

(** What only the detection of the factory collection touches. *)
Definition detection_unchanged (e e' : engine) : Prop :=
  hook_webpack_detected e' = hook_webpack_detected e ∧
  webpack_require e' = webpack_require e ∧
  fst <$> module_factories e' = fst <$> module_factories e.

(** Until then nothing is known of them. *)
Definition undetected_is_empty (e : engine) : Prop :=
  hook_webpack_detected e = false ->
  webpack_require e = None ∧ module_factories e = None.

(** How many times the matching loop was entered for a module id. *)
Definition attempts_for (module_id : string) (e : engine) : nat :=
  length (filter (fun x => x = module_id) (attempts e)).

(** A page whose [eval] or [new Function] gives, when it does not throw,
    a function or an object that takes a new property. *)
Definition gives_extensible (host : text -> option compiled) : Prop :=
  ∀ code c, host code = Some c -> c = CFunction true ∨ c = CObject true.

(** No two registered patches have strictly equal [find] values. *)
Fixpoint distinct_finds (ps : list patch) : Prop :=
  match ps with
  | [] => True
  | q :: rest =>
      Forall (fun p => find_strict_eq (p_find q) (p_find p) = false) rest ∧
      distinct_finds rest
  end.

(** Two [find] values that hold the same patterns, whatever objects hold
    them. *)
Definition same_find_set (a b : find_value) : Prop := find_items a = find_items b.

(** *** More sample values *)

Definition sample_wreq : wreq := Wreq 7 (txt "function r(e){var t={exports:{}}}").
Definition detected_engine : engine :=
  snd (modules_setter sample_wreq 9 ∅ [] sample_engine).

(** A factory the engine has patched before, registered again. *)
Definition marked_factory : factory :=
  Factory (EvalRef (txt "function(){}") (HostRef 1)) (txt "function(){}")
    (Some (HostRef 1, sample_source)).

Definition quiet_listener : listener :=
  Listener 5 (fun _ => Normal tt) (fun _ => []).

Definition patch_array_1 : patch :=
  Patch (FindArray 1 [IdStr (txt "foo(1)")]) [rule_foo_baz] None.
Definition patch_array_2 : patch :=
  Patch (FindArray 2 [IdStr (txt "foo(1)")]) [rule_absent] None.

Definition nameless : reg_options := RegOptions None None None.

Definition demo_options : reg_options := RegOptions (Some "demo") None None.
Definition sample_front : WebpackPatchRegistrar := main sample_options [10; 11; 12].
Definition sample_patch : patch :=
  Patch (FindStr (txt "foo(1)")) [rule_foo_baz] None.
Definition sample_history : list op :=
  [Register demo_options [sample_patch];
   SetModules sample_wreq 9 {[ "42" := sample_factory ]} []].

(** ** Placeholders in a text

    The notions the resolution of placeholders is stated with. *)

(** The characters a placeholder marker is made of. *)
Definition marker_char (c : ascii) : bool :=
  existsb (Ascii.eqb c) (txt "ABCDEFGHIJKLMNOPQRSTUVWXYZ_").

(** The first entry of a table whose token starts the text. *)
Fixpoint find_token (table : list (text * text)) (s : text) : option (text * text) :=
  match table with
  | [] => None
  | (p, r) :: table' => if prefixb p s then Some (p, r) else find_token table' s
  end.

(** One pass over the text that replaces, from left to right, every token
    of the table by its replacement: the simultaneous substitution the
    three passes of the engine are meant to amount to. *)
Fixpoint substitute_all (table : list (text * text)) (skip : nat) (s : text) : text :=
  match s with
  | [] => []
  | c :: s' =>
      match skip with
      | S k => substitute_all table k s'
      | O =>
          match find_token table s with
          | Some (p, r) => r ++ substitute_all table (length p - 1) s'
          | None => c :: substitute_all table 0 s'
          end
      end
  end.

(** No token of the table starts inside [x] when [x] is followed by [y]. *)
Definition no_token_inside (table : list (text * text)) (x y : text) : Prop :=
  ∀ x1 x2, x = x1 ++ x2 -> x2 ≠ [] -> find_token table (x2 ++ y) = None.

(** Wherever the marker occurs in the text, it starts one of the three
    placeholder tokens. *)
Fixpoint markers_are_tokens (id : text) (s : text) : bool :=
  (if prefixb placeholder_marker s then
     prefixb (placeholder_self id) s || prefixb (placeholder_functions id) s
     || prefixb (placeholder_data id) s
   else true) &&
  match s with
  | [] => true
  | _ :: s' => markers_are_tokens id s'
  end.

(** A registrar name that can stand in a replacement string as it is: no
    dollar sign, and no placeholder marker. *)
Definition plain_name (registrar_name : option string) : bool :=
  forallb (fun c => negb (Ascii.eqb c "$")) (name_text registrar_name) &&
  negb (includes (name_text registrar_name) placeholder_marker).

(** A registrar named after a placeholder token. *)
Definition token_named_engine : engine := sample_engine.
Definition token_name : string :=
  string_of_list_ascii (placeholder_data (placeholder_id token_named_engine)).
Definition rule_insert_data : replacement :=
  Replacement (PStr (txt "foo(1)"))
    (RText (placeholder_data (placeholder_id token_named_engine))) false.

(** The marker starts one of the tokens of the table wherever it occurs
    in [s]. *)
Definition intact (marker : text) (table : list (text * text)) (s : text) : Prop :=
  ∀ a b, s = a ++ b -> prefixb marker b = true ->
         ∃ p r, (p, r) ∈ table ∧ prefixb p b = true.

Definition rule_insert_data_demo : replacement :=
  Replacement (PStr (txt "foo(1)"))
    (RText (placeholder_data (placeholder_id sample_engine))) false.
Definition resolved_sample : text :=
  txt "function a(){return window.WebpackPatcher.Registrars[" ++ [quote]
    ++ txt "demo" ++ [quote] ++ txt "].data+bar(2)}".

Definition lower_case (c : ascii) : bool :=
  existsb (Ascii.eqb c) (txt "abcdefghijklmnopqrstuvwxyz").

(** The expression [/playerIsRadio:([a-z])/]: the leftmost place, at or
    after [last], where the literal is followed by a lower-case letter. *)
Fixpoint exec_radio (s : text) (i last : nat) : option (nat * text * list text) :=
  match s with
  | [] => None
  | c :: s' =>
      let here :=
        if decide (last <= i)%nat then
          if prefixb (txt "playerIsRadio:") s then
            match nth_error s 14 with
            | Some g => if lower_case g then Some (i, txt "playerIsRadio:" ++ [g], [[g]])
                        else None
            | None => None
            end
          else None
        else None in
      match here with
      | Some m => Some m
      | None => exec_radio s' (S i) last
      end
  end.

Definition re_radio : regexp := RegExp false (fun s last => exec_radio s 0 last).

(** [(_, g) => "radioFlag:false,x:" + g] *)
Definition replacer_radio : replacer_fn :=
  fun m => Normal (txt "radioFlag:false,x:" ++ concat (firstn 1 (m_groups m))).

Definition rule_radio : replacement :=
  Replacement (PRegExp re_radio) (RFn replacer_radio) false.
Definition dollar_name : option string := Some "a$&b".

(** ** The logger

    Class [Logger]: a prefix and a threshold.  What a method prints is a
    line of the console: the console method, the prefix and the arguments
    of the call. *)

Inductive console_method : Type :=
| ConsoleDebug
| ConsoleLog
| ConsoleWarn
| ConsoleError.

(** [this.log_levels[name]]: the table is an object literal. *)
Definition log_levels (name : string) : slot nat :=
  if decide (name = "debug") then Own 0
  else if decide (name = "log") then Own 1
  else if decide (name = "warn") then Own 2
  else if decide (name = "error") then Own 3
  else if inherited_key name then Inherited
  else Missing.

(** The value kept as [current_level]: a number of the table, or a member
    of [Object.prototype], which compares false with every number. *)
Inductive level : Type :=
| LevelNumber (n : nat)
| LevelPrototypeMember (key : string).

Record Logger : Type := MakeLogger {
  logger_prefix : string;
  current_level : level
}.

(** [new Logger(prefix, log_level)]; the level defaults to ["log"], and a
    name the table does not know is read as ["log"] too. *)
Definition new_Logger (prefix : string) (log_level : option string) : Logger :=
  let name := default "log" log_level in
  MakeLogger prefix
    match log_levels name with
    | Own n => LevelNumber n
    | Inherited => LevelPrototypeMember name
    | Missing => LevelNumber 1
    end.

(** [this.current_level <= n] *)
Definition level_le (l : level) (n : nat) : bool :=
  match l with
  | LevelNumber k => bool_decide (k <= n)
  | LevelPrototypeMember _ => false
  end.

Section LoggerMethods.

Context {A : Type}.

Definition Logger_debug (L : Logger) (args : A)
    : list (console_method * string * A) :=
  if level_le (current_level L) 0 then [(ConsoleDebug, logger_prefix L, args)]
  else [].

Definition Logger_log (L : Logger) (args : A)
    : list (console_method * string * A) :=
  if level_le (current_level L) 1 then [(ConsoleLog, logger_prefix L, args)]
  else [].

Definition Logger_warn (L : Logger) (args : A)
    : list (console_method * string * A) :=
  if level_le (current_level L) 2 then [(ConsoleWarn, logger_prefix L, args)]
  else [].

Definition Logger_error (L : Logger) (args : A)
    : list (console_method * string * A) :=
  if level_le (current_level L) 3 then [(ConsoleError, logger_prefix L, args)]
  else [].

(** The method of the logger that stands behind a console method. *)
Definition Logger_call (L : Logger) (m : console_method) (args : A)
    : list (console_method * string * A) :=
  match m with
  | ConsoleDebug => Logger_debug L args
  | ConsoleLog => Logger_log L args
  | ConsoleWarn => Logger_warn L args
  | ConsoleError => Logger_error L args
  end.

End LoggerMethods.

(** How grave a console method is. *)
Definition severity (m : console_method) : nat :=
  match m with
  | ConsoleDebug => 0
  | ConsoleLog => 1
  | ConsoleWarn => 2
  | ConsoleError => 3
  end.

(** The method of the logger the engine calls for each of its lines. *)
Definition method_of (entry : log_entry) : console_method :=
  match entry with
  | WarnUnknownEvent _ => ConsoleWarn
  | DebugAddedListener _ => ConsoleDebug
  | DebugRemovedListener _ => ConsoleDebug
  | ErrorInListener _ _ => ConsoleError
  | DebugCreatedRegistrar _ => ConsoleDebug
  | DebugRegistered _ _ => ConsoleDebug
  | DebugCacheAlreadyDetected => ConsoleDebug
  | DebugCapturedCache => ConsoleDebug
  | DebugDetected _ => ConsoleDebug
  | ErrorInOnDetect _ => ConsoleError
  | DebugWrapped _ => ConsoleDebug
  | DebugHookInitialized => ConsoleDebug
  | LogInitialized => ConsoleLog
  | LogFlushingPatches _ => ConsoleLog
  | DebugPatchBufferFlushed => ConsoleDebug
  | LogFlushingListeners _ => ConsoleLog
  | DebugListenerBufferFlushed => ConsoleDebug
  | DebugCacheHit _ => ConsoleDebug
  | WarnRuleSkipped _ _ _ => ConsoleWarn
  | WarnNoReplacements _ => ConsoleWarn
  | ErrorPatchFailed _ => ConsoleError
  end.

(** What reaches the console of the lines an engine logged, when its
    logger is [L]. *)
Definition printed (L : Logger) (entries : list log_entry)
    : list (console_method * string * log_entry) :=
  entries ≫= (fun entry => Logger_call L (method_of entry) entry).

(** The logger [main] makes. *)
Definition main_logger : Logger := new_Logger "[WebpackPatcher]" (Some "debug").

(** ** The cache of factory strings *)

(** What [clear_cache] does besides changing the engine: the warning it
    sends to the logger when the cache is disabled.  (The lines in the
    field [log] are those of the methods above.) *)
Inductive clear_cache_report : Type :=
| WarnCacheDisabled
| NoReport.

(** [clear_cache(module_id = null)]: an absent or empty id is falsy and
    clears every entry. *)
Definition clear_cache (module_id : option string) : M engine clear_cache_report :=
  (let! e := get in
   if negb (enable_cache (options e)) then ret WarnCacheDisabled
   else
     match module_id with
     | Some id =>
         if decide (id = EmptyString) then
           modify (upd_factory_string_cache (fun _ => ∅)) ;; ret NoReport
         else
           modify (upd_factory_string_cache (delete id)) ;; ret NoReport
     | None => modify (upd_factory_string_cache (fun _ => ∅)) ;; ret NoReport
     end)%M.

(** ** The traps that read

    A property key is one of the engine's symbols or a name. *)
Inductive prop_key : Type :=
| SYM_PROXY_INNER_GET
| SYM_PROXY_INNER_VALUE
| SYM_ORIGINAL_FACTORY
| PropName (name : string).

Global Instance prop_key_eq_dec : EqDecision prop_key.
Proof. solve_decision. Defined.

(** What reading a property of a factory proxy gives: [true], the target,
    the [toString] of a function bound to it (calling it gives the text), or
    whatever the function [owner] has under the key. *)
Inductive prop_value : Type :=
| PropTrue
| PropFactory (f : factory)
| PropToString (owner : fn_ref) (text_given : text)
| PropOf (owner : fn_ref) (key : prop_key).

(** [factory_target[SYM_ORIGINAL_FACTORY] || factory_target] *)
Definition actual_factory (factory_target : factory) : fn_ref * text :=
  match f_original factory_target with
  | Some original => original
  | None => (f_ref factory_target, f_src factory_target)
  end.

Definition _handle_factory_get (factory_target : factory) (prop : prop_key)
    : prop_value :=
  match prop with
  | SYM_PROXY_INNER_GET => PropTrue
  | SYM_PROXY_INNER_VALUE => PropFactory factory_target
  | _ =>
      let actual := actual_factory factory_target in
      if decide (prop = PropName "toString") then PropToString actual.1 actual.2
      else PropOf actual.1 prop
  end.

(** The [get] trap of the proxied collection, for the id of a module: a
    factory proxy is answered with its target, anything else as it is;
    [None] is what the collection has for an id it does not hold. *)
Definition factories_get_trap (module_id : string) (e : engine) : option factory :=
  match module_factories e with
  | Some (_, m) =>
      match m !! module_id with
      | Some (ProxyOf _ factory_target) =>
          match _handle_factory_get factory_target SYM_PROXY_INNER_GET with
          | PropTrue =>
              match _handle_factory_get factory_target SYM_PROXY_INNER_VALUE with
              | PropFactory f => Some f
              | _ => None
              end
          | _ => None
          end
      | Some (Plain f) => Some f
      | None => None
      end
  | None => None
  end.

(** What the page's own code finds in the collection it holds, and calls:
    the entry itself. *)
Definition stored_entry (module_id : string) (e : engine) : option mf_entry :=
  match module_factories e with
  | Some (_, m) => m !! module_id
  | None => None
  end.

(** The [toString] of an entry of the collection. *)
Definition entry_toString (entry : mf_entry) : text :=
  match entry with
  | ProxyOf _ factory_target => _handle_factory_get_toString factory_target
  | Plain f => f_src f
  end.

(** ** The wrapper around the cache of modules

    [_Webpack_cache]: four arrow functions over [this.patcher.webpack_cache],
    the object the page assigned as its cache.  The objects of the page are
    kept by address: [h o] holds the own properties of [o].  The cache of
    webpack is a plain object, so a key it does not have itself is looked
    up in [Object.prototype]. *)

Inductive js_value : Type :=
| JsUndefined
| JsNull
| JsBool (b : bool)
| JsNumber (n : Z)
| JsNaN
| JsString (s : string)
| JsObject (o : objref).

(** [ToBoolean] *)
Definition truthy (v : js_value) : bool :=
  match v with
  | JsUndefined | JsNull | JsNaN => false
  | JsBool b => b
  | JsNumber n => negb (bool_decide (n = 0%Z))
  | JsString s => negb (bool_decide (s = EmptyString))
  | JsObject _ => true
  end.

Definition heap : Type := objref -> gmap string js_value.

Definition heap_update (o : objref) (f : gmap string js_value -> gmap string js_value)
    (h : heap) : heap :=
  fun o' => if decide (o' = o) then f (h o') else h o'.

(** What a read hands back: a value, or the member of [Object.prototype]
    found under the key. *)
Inductive cache_read : Type :=
| ReadValue (v : js_value)
| ReadPrototypeMember (key : string).

(** [this.patcher?.webpack_cache] *)
Definition captured_cache (r : WebpackPatchRegistrar) : option objref :=
  match patcher r with
  | Some e => webpack_cache e
  | None => None
  end.

(** [get: (module_id) => this.patcher?.webpack_cache?.[module_id] || null] *)
Definition cache_get (module_id : string) (r : WebpackPatchRegistrar) (h : heap)
    : cache_read :=
  match captured_cache r with
  | Some o =>
      match h o !! module_id with
      | Some v => if truthy v then ReadValue v else ReadValue JsNull
      | None =>
          if inherited_key module_id then ReadPrototypeMember module_id
          else ReadValue JsNull
      end
  | None => ReadValue JsNull
  end.

(** [getAll]: a copy of the own properties, or [null]. *)
Definition cache_getAll (r : WebpackPatchRegistrar) (h : heap)
    : option (gmap string js_value) :=
  match captured_cache r with
  | Some o => Some (h o)
  | None => None
  end.

(** [delete: (module_id) => ... delete this.patcher.webpack_cache[module_id]] *)
Definition cache_delete (module_id : string) (r : WebpackPatchRegistrar) (h : heap)
    : heap :=
  match captured_cache r with
  | Some o => heap_update o (delete module_id) h
  | None => h
  end.

(** [set: (module_id, value) => ... this.patcher.webpack_cache[module_id] = value].
    Assigning [__proto__] runs the setter of [Object.prototype], which makes
    no own property; the change of prototype is not followed. *)
Definition cache_set (module_id : string) (value : js_value)
    (r : WebpackPatchRegistrar) (h : heap) : heap :=
  match captured_cache r with
  | Some o =>
      if decide (module_id = "__proto__") then h
      else heap_update o (insert module_id value) h
  | None => h
  end.

(** *** Sample values *)

(** An engine with the cache of factory strings enabled. *)
Definition caching_options : engine_options := EngineOptions true true None None.
Definition caching_engine : engine := initialize caching_options [10; 11; 12].

(** ** What a method touches

    Relations between the state a method finds and the one it leaves, for
    the properties of whole histories. *)

(** The state without its log and its record of listener calls. *)
Definition erase_log_calls (e : engine) : engine :=
  upd_calls (fun _ => []) (upd_log (fun _ => []) e).

(** [e'] is [e] but for the log and the record of listener calls. *)
Definition same_but_log_calls (e e' : engine) : Prop :=
  erase_log_calls e' = erase_log_calls e.

(** The lines the rules and the compilation of a patch write. *)
Definition patching_line (entry : log_entry) : bool :=
  match entry with
  | WarnRuleSkipped _ _ _ | WarnNoReplacements _ | ErrorPatchFailed _ => true
  | _ => false
  end.

(** [e'] is [e] with more lines in the log, all of kind [p], and nothing
    else changed. *)
Definition logged_only (p : log_entry -> bool) (e e' : engine) : Prop :=
  ∃ entries, e' = upd_log (fun l => l ++ entries) e ∧ forallb p entries = true.

(** The log of [e'] is that of [e] and then lines of kind [p]. *)
Definition log_extends (p : log_entry -> bool) (e e' : engine) : Prop :=
  ∃ entries, log e' = log e ++ entries ∧ forallb p entries = true.

(** The listener calls of [e'] are those of [e] and then calls for events
    of kind [q]. *)
Definition calls_extend (q : string -> bool) (e e' : engine) : Prop :=
  ∃ added, calls e' = calls e ++ added ∧ forallb (fun c => q c.1.1) added = true.

Definition not_cache_hit (entry : log_entry) : bool :=
  match entry with
  | DebugCacheHit _ => false
  | _ => true
  end.

Definition not_webpack_detected (event : string) : bool :=
  negb (bool_decide (event = "webpack_detected")).

(** The calls recorded for one event. *)
Definition calls_for (event : string) (e : engine)
    : list (string * nat * list event_arg) :=
  filter (fun c => c.1.1 = event) (calls e).

(** The calls a dispatch of [event] with [args] to the listeners [ls]
    makes. *)
Definition dispatch (event : string) (args : list event_arg) (ls : list listener)
    : list (string * nat * list event_arg) :=
  (fun l => (event, l_addr l, args)) <$> ls.

(** The warnings of [k] rules in a row that found nothing, the first of
    them at position [i] (from 0) of [n] rules. *)
Definition skipped_lines (module_id : string) (n i k : nat) : list log_entry :=
  (fun j => WarnRuleSkipped (S j) n module_id) <$> seq i k.

(** A rule that replaces a string by a string, once or everywhere. *)
Definition text_rule (m r : text) (global : bool) : replacement :=
  Replacement (PStr m) (RText r) global.

(** The collection of factories once every module in it is wrapped. *)
Definition wrapped (found : gmap string factory) : gmap string mf_entry :=
  map_imap (fun module_id f => Some (_create_factory_proxy module_id f)) found.

(** ** Replaying the buffers

    What the flush of the buffered calls is expected to amount to: the
    registrations one after the other, then the subscriptions. *)

(** A field of the state is left as it was. *)
Definition unchanged {A} (field : engine -> A) (e e' : engine) : Prop :=
  field e' = field e.

(** The name a buffered registration was made under. *)
Definition registration_name (b : reg_options * list patch * registrar_obj) : string :=
  default EmptyString (name_given b.1.1).

Definition replayed_patches
    (buffered : list (reg_options * list patch * registrar_obj))
    (ps : list patch) : list patch :=
  foldl (fun acc b => add_patches (registration_name b) b.1.2 acc) ps buffered.

(** Each name goes to the object of the first registration made under it,
    unless the name is taken already. *)
Definition replayed_registrars
    (buffered : list (reg_options * list patch * registrar_obj))
    (rs : gmap string registrar_obj) : gmap string registrar_obj :=
  foldl (fun acc b =>
           match registrar_slot (registration_name b) acc with
           | Missing => <[registration_name b := b.2]> acc
           | _ => acc
           end) rs buffered.

Definition replayed_listeners (buffered : list (string * listener))
    (t : event_table) : event_table :=
  foldl (fun acc b =>
           match listeners_of b.1 acc with
           | Own l => with_listeners b.1 (l ++ [b.2]) acc
           | _ => acc
           end) t buffered.

(** ** Invariants of histories *)

(** Every id with a stored factory string is in [patched_modules], and no
    line of the log reports a text read back from the cache. *)
Definition cache_covered (e : engine) : Prop :=
  (∀ module_id, is_Some (factory_string_cache e !! module_id) ->
                module_id ∈ patched_modules e) ∧
  forallb not_cache_hit (log e) = true.

(** The registrars of [e] are registrars of [e'], under the same names. *)
Definition registrars_kept (e e' : engine) : Prop :=
  window_Registrars e ⊆ window_Registrars e'.

(** An assignment of the cache is accepted when the hook is installed, no
    cache was captured before, the function that receives it has the
    marker text and the filter lets it through. *)
Definition cache_accepted (e : engine) (this : wreq) (stack_lines : list text) : bool :=
  hooked e && negb (hook_cache_detected e) &&
  includes (w_src this) (txt "exports:{}") && passes_filter e this stack_lines.

(** Every entry of the collection is a proxy made for the id it is stored
    under, or a factory that carries the original-factory marker, stored
    for an id that is in [patched_modules]. *)
Definition well_keyed (e : engine) : Prop :=
  ∀ module_id entry,
    stored_entry module_id e = Some entry ->
    match entry with
    | ProxyOf id _ => id = module_id
    | Plain f => f_original f ≠ None ∧ module_id ∈ patched_modules e
    end.

(** ** Identifiers

    The shape of a name of JavaScript, over the characters the engine
    uses. *)
Definition identifier_start (c : ascii) : bool :=
  existsb (Ascii.eqb c)
    (txt "ABCDEFGHIJKLMNOPQRSTUVWXYZabcdefghijklmnopqrstuvwxyz_$").

Definition identifier_part (c : ascii) : bool :=
  identifier_start c || existsb (Ascii.eqb c) (txt "0123456789").

Definition is_identifier (s : text) : bool :=
  match s with
  | [] => false
  | c :: s' => identifier_start c && forallb identifier_part s'
  end.

(** *** More sample values *)

(** The sample history, run: one patch registered, then detection with one
    module in the collection. *)
Definition patched_history_engine : engine :=
  run_ops accept_all accept_all sample_history sample_engine.

Definition sample_listener : listener :=
  Listener 6 (fun _ => Throw (UserThrow "boom")) (fun _ => []).

(** A front end that buffered one registration and one subscription. *)
Definition buffered_registrar_obj : registrar_obj :=
  RegistrarObj (BufferObj 2) (BufferObj 0) (BufferObj 1).
Definition buffering_front : WebpackPatchRegistrar :=
  FrontEnd None [(demo_options, [sample_patch], buffered_registrar_obj)]
    [("module_patched", quiet_listener)] false 3.

(** A front end whose second buffered registration has no name. *)
Definition broken_front : WebpackPatchRegistrar :=
  FrontEnd None
    [(demo_options, [sample_patch], buffered_registrar_obj);
     (nameless, [], RegistrarObj (BufferObj 5) (BufferObj 3) (BufferObj 4))]
    [("module_patched", quiet_listener)] false 6.

(** An engine that captured the cache object at address 3, and a front end
    that holds it. *)
Definition cache_engine : engine :=
  snd (cache_setter sample_wreq (HostObj 3) [] sample_engine).
Definition cache_front : WebpackPatchRegistrar :=
  FrontEnd (Some cache_engine) [] [] false 0.
Definition empty_heap : heap := fun _ => ∅.

(** A module that the sample patch does not match. *)
Definition unmatched_factory : factory :=
  Factory (HostRef 2) (txt "function b(){return bar(2)}") None.

(** A page on which every text evaluates to [undefined]. *)
Definition undefined_host (_ : text) : option compiled :=
  Some (CPrimitive PUndefined).


(** * The first version of the library

    The repository also carries version 1.0.0 of the script: a class
    [WebpackPatcher] that hooks [push] of the array in which webpack
    collects its chunks, and edits the functions a chunk brings.  It shares
    nothing with the second engine but the shape of a replacement rule, so
    it lives in a name space of its own, with the source's names. *)

Module V1.

(** A module id as the patcher sees it: a number.  [register_patches]
    passes every key through [parseInt], which gives an integer or [NaN]. *)
Inductive module_number : Type :=
| IdNumber (n : Z)
| IdNaN.

Global Instance module_number_eq_dec : EqDecision module_number.
Proof. solve_decision. Defined.

Global Instance module_number_countable : Countable module_number.
Proof.
  refine (inj_countable'
            (fun x => match x with IdNumber n => Some n | IdNaN => None end)
            (fun o => match o with Some n => IdNumber n | None => IdNaN end) _).
  by intros [].
Defined.

(** [mod_id == id] on two numbers: [NaN] equals nothing.  A [Map] or a
    [Set] compares keys otherwise ([NaN] is a key like any other), which is
    what the finite maps below do. *)
Definition loose_eq (a b : module_number) : bool :=
  match a, b with
  | IdNumber x, IdNumber y => bool_decide (x = y)
  | _, _ => false
  end.

(** A function: one the page made, or one the patcher got from
    [new Function("return " + code)()].  The patcher never compares two
    functions, so a compiled one is known by its code. *)
Inductive function_value : Type :=
| HostFunction (addr : nat) (src : text)
| NewFunction (code : text).

Definition toString (f : function_value) : text :=
  match f with
  | HostFunction _ src => src
  | NewFunction code => code
  end.

(** What the patching methods accept as a method: a function, or the text
    of one. *)
Inductive method_value : Type :=
| MFunction (f : function_value)
| MText (code : text).

(** A value of the object a chunk brings, or one that
    [new Function("return " + code)()] gave: a function, a primitive, an
    object of the page, or the object, no function, that evaluating [code]
    made. *)
Inductive js_value : Type :=
| JsFunction (f : function_value)
| JsPrimitive (p : primitive)
| JsObject (o : objref)
| JsNewObject (code : text).

Definition value_of (m : method_value) : js_value :=
  match m with
  | MFunction f => JsFunction f
  | MText code => JsPrimitive (PString code)
  end.

(** One entry of [methods] in the [PATCHES] structure. *)
Record method_patch : Type := MethodPatch {
  identifiers : list identifier;
  matches_and_replacements : list replacement
}.

(** An element of the array: an array of two or more elements.
    [chunk_ids] is its element 0 when that is an array of numbers, [None]
    when it is a value that can neither be iterated nor has [some]
    ([undefined], [null], a number, a plain object); [chunk_exports] is the
    own enumerable entries of its element 1, in the order of
    [Object.entries] and with distinct keys, or [None] when that element is
    [null] or [undefined].  An address the store has no chunk for stands
    for any value [e] whose [e[0]] is [undefined]: something that is not an
    array, or an empty array. *)
Record chunk : Type := Chunk {
  chunk_ids : option (list module_number);
  chunk_exports : option (list (string * js_value))
}.

(** What the patcher hands to its logger.  The durations a benchmarking
    patcher prints are left out; [timed] tells the two wordings apart. *)
Inductive log_line : Type :=
| DebugPatchedMethod (name : string) (module_id : module_number) (timed : bool)
| DebugReachedMax (n : nat) (module_id : module_number)
| DebugSuccessfullyPatched (patched_count : nat) (module_id : module_number)
                           (total : nat) (timed : bool)
| ErrorPatchingModule (module_id : module_number) (e : js_error) (timed : bool)
| DebugTargetAdded (module_id : module_number)
| DebugPushHooked
| WarnReplacementSkipped (i n : nat) (method_name : string)
                         (module_id : module_number)
| DebugReplacementTimed (i n : nat) (replacement_occurred : bool)
| WarnNoReplacements (method_name : string) (module_id : module_number)
| DebugPatchedMethodIs (patched_method : js_value)
| DebugReplacementsApplied (total_replacements : nat)
| ErrorReplacementFailed (e : js_error) (timed : bool).

(** The fields of the patcher, and the objects of the page it reaches:
    [global_obj] is the array, as the addresses of its elements, and
    [chunks] holds the elements themselves, so that the array, the cache of
    found modules and a caller of [push] share one chunk.  The cache of
    function texts is keyed by the string [module_id + "_" + method_name];
    the text of a number has no underscore, so the pair stands for it. *)
Record patcher : Type := Patcher {
  global_obj : list nat;
  chunks : gmap nat chunk;
  patch_targets : gmap module_number (list method_patch);
  patched_modules : gset module_number;
  patch_counts : gmap module_number nat;
  hooked : bool;
  benchmark : bool;
  _module_cache : gmap module_number nat;
  _function_string_cache : gmap (module_number * string) text;
  log : list log_line
}.

Definition upd_global_obj (f : list nat -> list nat) (p : patcher) : patcher :=
  Patcher (f (global_obj p)) (chunks p) (patch_targets p) (patched_modules p)
    (patch_counts p) (hooked p) (benchmark p) (_module_cache p)
    (_function_string_cache p) (log p).

Definition upd_chunks (f : gmap nat chunk -> gmap nat chunk) (p : patcher)
    : patcher :=
  Patcher (global_obj p) (f (chunks p)) (patch_targets p) (patched_modules p)
    (patch_counts p) (hooked p) (benchmark p) (_module_cache p)
    (_function_string_cache p) (log p).

Definition upd_patch_targets
    (f : gmap module_number (list method_patch) -> gmap module_number (list method_patch))
    (p : patcher) : patcher :=
  Patcher (global_obj p) (chunks p) (f (patch_targets p)) (patched_modules p)
    (patch_counts p) (hooked p) (benchmark p) (_module_cache p)
    (_function_string_cache p) (log p).

Definition upd_patched_modules (f : gset module_number -> gset module_number)
    (p : patcher) : patcher :=
  Patcher (global_obj p) (chunks p) (patch_targets p) (f (patched_modules p))
    (patch_counts p) (hooked p) (benchmark p) (_module_cache p)
    (_function_string_cache p) (log p).

Definition upd_patch_counts
    (f : gmap module_number nat -> gmap module_number nat) (p : patcher)
    : patcher :=
  Patcher (global_obj p) (chunks p) (patch_targets p) (patched_modules p)
    (f (patch_counts p)) (hooked p) (benchmark p) (_module_cache p)
    (_function_string_cache p) (log p).

Definition upd_hooked (f : bool -> bool) (p : patcher) : patcher :=
  Patcher (global_obj p) (chunks p) (patch_targets p) (patched_modules p)
    (patch_counts p) (f (hooked p)) (benchmark p) (_module_cache p)
    (_function_string_cache p) (log p).

Definition upd_module_cache
    (f : gmap module_number nat -> gmap module_number nat) (p : patcher)
    : patcher :=
  Patcher (global_obj p) (chunks p) (patch_targets p) (patched_modules p)
    (patch_counts p) (hooked p) (benchmark p) (f (_module_cache p))
    (_function_string_cache p) (log p).

Definition upd_function_string_cache
    (f : gmap (module_number * string) text -> gmap (module_number * string) text)
    (p : patcher) : patcher :=
  Patcher (global_obj p) (chunks p) (patch_targets p) (patched_modules p)
    (patch_counts p) (hooked p) (benchmark p) (_module_cache p)
    (f (_function_string_cache p)) (log p).

Definition upd_log (f : list log_line -> list log_line) (p : patcher) : patcher :=
  Patcher (global_obj p) (chunks p) (patch_targets p) (patched_modules p)
    (patch_counts p) (hooked p) (benchmark p) (_module_cache p)
    (_function_string_cache p) (f (log p)).

(** [new WebpackPatcher(global_obj_key, logger, benchmark)], with
    [window[global_obj_key]] the array [elements] over the store [heap]. *)
Definition new_WebpackPatcher (elements : list nat) (heap : gmap nat chunk)
    (benchmark : bool) : patcher :=
  Patcher elements heap ∅ ∅ ∅ false benchmark ∅ ∅ [].

Definition logger (line : log_line) : M patcher unit :=
  modify (upd_log (fun l => l ++ [line])).

(** A line that only a benchmarking patcher prints. *)
Definition when_benchmark (line : log_line) : M patcher unit :=
  (let! p := get in
   if benchmark p then logger line else ret tt)%M.

(** *** [get_module] *)

(** The loop over the array: the first element one of whose ids equals
    [id].  Reading the ids of an element that has none throws. *)
Fixpoint find_in_global_obj (id : module_number) (elements : list nat)
    (heap : gmap nat chunk) : completion (option nat) :=
  match elements with
  | [] => Normal None
  | e :: rest =>
      match heap !! e with
      | Some (Chunk (Some ids) _) =>
          if existsb (fun mod_id => loose_eq mod_id id) ids then Normal (Some e)
          else find_in_global_obj id rest heap
      | _ => Throw (TypeError "Cannot read properties of undefined (reading 'some')")
      end
  end.

Definition get_module (id : module_number) : M patcher (option nat) :=
  (let! p := get in
   match _module_cache p !! id with
   | Some e => ret (Some e)
   | None =>
       let! found := lift (find_in_global_obj id (global_obj p) (chunks p)) in
       match found with
       | Some e =>
           modify (upd_module_cache (fun c => <[id := e]> c)) ;;
           ret (Some e)
       | None => ret None
       end
   end)%M.

(** *** The cache of function texts *)

Definition _get_cached_function_string (func : method_value)
    (module_id : module_number) (method_name : string) : M patcher text :=
  match func with
  | MText code => ret code
  | MFunction f =>
      (let! p := get in
       match _function_string_cache p !! (module_id, method_name) with
       | Some func_str => ret func_str
       | None =>
           modify (upd_function_string_cache
                     (fun c => <[(module_id, method_name) := toString f]> c)) ;;
           ret (toString f)
       end)%M
  end.

Definition _set_cached_function_string (func_str : text)
    (module_id : module_number) (method_name : string) : M patcher unit :=
  modify (upd_function_string_cache
            (fun c => <[(module_id, method_name) := func_str]> c)).

Definition does_method_match (method : method_value)
    (string_or_regex : identifier) (module_id : module_number)
    (method_name : string) : M patcher bool :=
  (let! method_str := _get_cached_function_string method module_id method_name in
   match string_or_regex with
   | IdStr s => ret (includes method_str s)
   | IdRegExp r => ret (re_test r method_str)
   | IdOther => ret false
   end)%M.

(** *** [patch_method_with_regexp_or_raw_string] *)

Section Patching.

(** What [new Function(source)()] gives: the kind of the value, or [None]
    when it throws. *)
Variable host_new_function : text -> option compiled.

(** The loop over the rules. *)
Fixpoint run_rules (method_name : string) (module_id : module_number)
    (n i : nat) (rs : list replacement) (patched_code : text)
    (total_replacements : nat) : M patcher (text * nat) :=
  match rs with
  | [] => ret (patched_code, total_replacements)
  | r :: rs' =>
      (let! out := lift (apply_rule r patched_code) in
       (if out.2 then ret tt
        else logger (WarnReplacementSkipped (S i) n method_name module_id)) ;;
       when_benchmark (DebugReplacementTimed (S i) n out.2) ;;
       run_rules method_name module_id n (S i) rs' out.1
         (if out.2 then S total_replacements else total_replacements))%M
  end.

Definition new_Function (patched_code : text) : completion js_value :=
  match host_new_function (txt "return " ++ patched_code) with
  | Some (CFunction _) => Normal (JsFunction (NewFunction patched_code))
  | Some (CObject _) => Normal (JsNewObject patched_code)
  | Some (CPrimitive v) => Normal (JsPrimitive v)
  | None => Throw CompileError
  end.

Definition patch_method_with_regexp_or_raw_string
    (original_method : method_value)
    (matches_and_replacements : list replacement)
    (module_id : module_number) (method_name : string)
    : M patcher js_value :=
  try_catch
    (let! original_code :=
       _get_cached_function_string original_method module_id method_name in
     let! out := run_rules method_name module_id
                   (length matches_and_replacements) 0
                   matches_and_replacements original_code 0 in
     if decide (out.2 = 0) then
       logger (WarnNoReplacements method_name module_id) ;;
       ret (value_of original_method)
     else
       let! patched_method := lift (new_Function out.1) in
       logger (DebugPatchedMethodIs patched_method) ;;
       _set_cached_function_string out.1 module_id method_name ;;
       when_benchmark (DebugReplacementsApplied out.2) ;;
       ret patched_method)%M
    (fun e =>
       let! p := get in
       logger (ErrorReplacementFailed e (benchmark p)) ;;
       ret (value_of original_method))%M.

(** *** [patch_module] *)

(** [identifiers.every(identifier => this.does_method_match(...))] *)
Fixpoint every_identifier (method : method_value) (ids : list identifier)
    (module_id : module_number) (name : string) : M patcher bool :=
  match ids with
  | [] => ret true
  | identifier :: rest =>
      (let! b := does_method_match method identifier module_id name in
       if b then every_identifier method rest module_id name else ret false)%M
  end.

(** [methods.find(({identifiers}) => identifiers.every(...))] *)
Fixpoint find_method (method : method_value) (methods : list method_patch)
    (module_id : module_number) (name : string)
    : M patcher (option method_patch) :=
  match methods with
  | [] => ret None
  | m :: rest =>
      (let! b := every_identifier method (identifiers m) module_id name in
       if b then ret (Some m) else find_method method rest module_id name)%M
  end.

(** [module_exports[name] = value] on an object that has the key. *)
Definition assign (name : string) (value : js_value)
    (entries : list (string * js_value)) : list (string * js_value) :=
  map (fun kv => if String.eqb kv.1 name then (kv.1, value) else kv) entries.

Definition set_export (module : nat) (name : string) (value : js_value)
    (heap : gmap nat chunk) : gmap nat chunk :=
  match heap !! module with
  | Some (Chunk ids (Some entries)) =>
      <[module := Chunk ids (Some (assign name value entries))]> heap
  | _ => heap
  end.

(** The loop over [Object.entries(module_exports)], a list made before the
    first turn.  [break] ends it, [continue] goes to the next entry. *)
Fixpoint patch_entries (module : nat) (module_id : module_number)
    (methods : list method_patch) (current_patch_count : nat)
    (entries : list (string * js_value)) (patched_count : nat)
    : M patcher nat :=
  match entries with
  | [] => ret patched_count
  | (name, JsFunction f) :: rest =>
      (let! p := get in
       match patch_targets p !! module_id with
       | None =>
           throw (TypeError "Cannot read properties of undefined (reading 'length')")
       | Some targets =>
           if decide (length targets <= current_patch_count + patched_count)
           then ret patched_count
           else
             let! matching_method :=
               find_method (MFunction f) methods module_id name in
             match matching_method with
             | Some m =>
                 let! patched_method :=
                   patch_method_with_regexp_or_raw_string (MFunction f)
                     (matches_and_replacements m) module_id name in
                 modify (upd_chunks (set_export module name patched_method)) ;;
                 logger (DebugPatchedMethod name module_id (benchmark p)) ;;
                 patch_entries module module_id methods current_patch_count
                   rest (S patched_count)
             | None =>
                 patch_entries module module_id methods current_patch_count
                   rest patched_count
             end
       end)%M
  | _ :: rest =>
      patch_entries module module_id methods current_patch_count rest
        patched_count
  end.

Definition patch_module (module : nat) (module_id : module_number)
    (methods : list method_patch) : M patcher bool :=
  try_catch
    (let! p := get in
     match chunks p !! module with
     | Some (Chunk _ (Some entries)) =>
         let current_patch_count := default 0 (patch_counts p !! module_id) in
         let! patched_count :=
           patch_entries module module_id methods current_patch_count entries 0 in
         if decide (0 < patched_count) then
           modify (upd_patched_modules (fun s => {[module_id]} ∪ s)) ;;
           modify (upd_patch_counts
                     (fun c => <[module_id := current_patch_count + patched_count]> c)) ;;
           let! p' := get in
           match patch_targets p' !! module_id with
           | None =>
               throw (TypeError "Cannot read properties of undefined (reading 'length')")
           | Some all_methods =>
               (if decide (length all_methods <= current_patch_count + patched_count)
                then
                  logger (DebugReachedMax (length all_methods) module_id) ;;
                  modify (upd_patch_targets (fun t => delete module_id t))
                else ret tt) ;;
               logger (DebugSuccessfullyPatched patched_count module_id
                         (current_patch_count + patched_count) (benchmark p)) ;;
               ret true
           end
         else ret false
     | _ => throw (TypeError "Cannot convert undefined or null to object")
     end)%M
    (fun e =>
       let! p := get in
       logger (ErrorPatchingModule module_id e (benchmark p)) ;;
       ret false)%M.

(** *** The hook on [push] *)

(** The loop over the ids of one pushed chunk. *)
Fixpoint scan_ids (module : nat) (module_ids : list module_number)
    : M patcher unit :=
  match module_ids with
  | [] => ret tt
  | module_id :: rest =>
      (let! p := get in
       match patch_targets p !! module_id with
       | Some patch_methods =>
           if decide (module_id ∈ patched_modules p) then ret tt
           else
             logger (DebugTargetAdded module_id) ;;
             let! _ := patch_module module module_id patch_methods in
             ret tt
       | None => ret tt
       end ;;
       scan_ids module rest)%M
  end.

(** The loop over the arguments of [push]. *)
Fixpoint scan_args (args : list nat) : M patcher unit :=
  match args with
  | [] => ret tt
  | module :: rest =>
      (let! p := get in
       match chunks p !! module with
       | Some (Chunk (Some module_ids) _) => scan_ids module module_ids
       | Some (Chunk None _) => throw (TypeError "module_ids is not iterable")
       | None => ret tt
       end ;;
       scan_args rest)%M
  end.

(** The function the hook puts in place of [push]; [original_push] is the
    [push] the array had before. *)
Definition hooked_push {R} (original_push : list nat -> M patcher R)
    (args : list nat) : M patcher R :=
  (scan_args args ;; original_push args)%M.

Definition _hook_webpack_array_push : M patcher unit :=
  (modify (upd_hooked (fun _ => true)) ;;
   logger DebugPushHooked)%M.

(** *** Registration *)

Definition register_patch (module_id : module_number)
    (methods : list method_patch) : M patcher unit :=
  (let! p := get in
   match patch_targets p !! module_id with
   | Some existing_methods =>
       modify (upd_patch_targets
                 (fun t => <[module_id := existing_methods ++ methods]> t))
   | None =>
       modify (upd_patch_targets (fun t => <[module_id := methods]> t)) ;;
       modify (upd_patch_counts (fun c => <[module_id := 0]> c))
   end ;;
   let! existing_module := get_module module_id in
   match existing_module with
   | Some module =>
       if decide (0 < length methods)
       then let! _ := patch_module module module_id methods in ret tt
       else ret tt
   | None => ret tt
   end ;;
   let! p' := get in
   if hooked p' then ret tt else _hook_webpack_array_push)%M.

(** [register_patches]: the entries of [patches] in the order of
    [Object.entries], each key already through [parseInt]. *)
Fixpoint register_patches (patches : list (module_number * list method_patch))
    : M patcher unit :=
  match patches with
  | [] => ret tt
  | (id, methods) :: rest =>
      (register_patch id methods ;; register_patches rest)%M
  end.

(** *** What the page does with the array *)

(** [Array.prototype.push]. *)
Definition array_push (args : list nat) : M patcher nat :=
  (modify (upd_global_obj (fun a => a ++ args)) ;;
   let! p := get in
   ret (length (global_obj p)))%M.

(** [global_obj.push(...args)]: the hook once it is installed, the array's
    own [push] before. *)
Definition push (args : list nat) : M patcher nat :=
  (let! p := get in
   if hooked p then hooked_push array_push args else array_push args)%M.

(** One step of a page that uses the patcher: it makes a new array of ids
    and exports, pushes values, or registers patches; an error thrown to
    the page leaves what was done before it. *)
Inductive op : Type :=
| NewChunk (addr : nat) (c : chunk)
| Push (args : list nat)
| RegisterPatches (patches : list (module_number * list method_patch)).

Definition run_op (o : op) (p : patcher) : patcher :=
  match o with
  | NewChunk addr c =>
      match chunks p !! addr with
      | Some _ => p
      | None => upd_chunks (fun h => <[addr := c]> h) p
      end
  | Push args => snd (push args p)
  | RegisterPatches patches => snd (register_patches patches p)
  end.

Definition run_ops (ops : list op) (p : patcher) : patcher :=
  foldl (fun s o => run_op o s) p ops.

End Patching.

(** *** What the properties speak of *)

(** The functions a chunk holds, by name. *)
Definition export_of (module : nat) (name : string) (p : patcher)
    : option js_value :=
  match chunks p !! module with
  | Some (Chunk _ (Some entries)) =>
      snd <$> List.find (fun kv => String.eqb kv.1 name) entries
  | _ => None
  end.

(** The names of a chunk's entries, in order. *)
Definition export_names (module : nat) (p : patcher) : option (list string) :=
  match chunks p !! module with
  | Some (Chunk _ (Some entries)) => Some (map fst entries)
  | _ => None
  end.

(** Every pushed array has ids that can be iterated. *)
Definition iterable_ids (args : list nat) (p : patcher) : Prop :=
  ∀ module c, module ∈ args -> chunks p !! module = Some c ->
              is_Some (chunk_ids c).

(** No id of a pushed array is waiting to be patched. *)
Definition nothing_to_patch (args : list nat) (p : patcher) : Prop :=
  ∀ module c ids module_id,
    module ∈ args -> chunks p !! module = Some c ->
    chunk_ids c = Some ids -> module_id ∈ ids ->
    patch_targets p !! module_id = None ∨ module_id ∈ patched_modules p.

(** The count kept for a module stays within the configurations registered
    for it, and reaches their number only when there are none. *)
Definition counts_within_targets (p : patcher) : Prop :=
  ∀ module_id methods,
    patch_targets p !! module_id = Some methods ->
    ∃ n, patch_counts p !! module_id = Some n ∧
         n <= length methods ∧ (n = length methods -> methods = []).

(** The patcher's own fields but the log and the two caches. *)
Definition bookkeeping (p : patcher)
    : gmap module_number (list method_patch) * gset module_number
      * gmap module_number nat * bool * bool :=
  (patch_targets p, patched_modules p, patch_counts p, hooked p, benchmark p).

(** [ensures m Q p]: run from [p], the method [m] ends with a completion
    and in a state that satisfy [Q]. *)
Definition ensures {A} (m : M patcher A)
    (Q : completion A -> patcher -> Prop) (p : patcher) : Prop :=
  Q (fst (m p)) (snd (m p)).

(** The text the patcher works on for a function: the cached one when the
    cache has the key, the function's own otherwise. *)
Definition text_of (f : function_value) (module_id : module_number)
    (method_name : string) (p : patcher) : text :=
  default (toString f) (_function_string_cache p !! (module_id, method_name)).

Definition remembering (module_id : module_number) (method_name : string)
    (s : text) (p : patcher) : patcher :=
  upd_function_string_cache (fun c => <[(module_id, method_name) := s]> c) p.

(** A step that leaves everything but the cache of texts and the log. *)
Definition text_step (p p' : patcher) : Prop :=
  global_obj p' = global_obj p ∧ chunks p' = chunks p ∧
  patch_targets p' = patch_targets p ∧
  patched_modules p' = patched_modules p ∧
  patch_counts p' = patch_counts p ∧ hooked p' = hooked p ∧
  benchmark p' = benchmark p ∧ _module_cache p' = _module_cache p.

(** A step that leaves the array, the hook, the cache of found modules and
    the ids of every chunk. *)
Definition page_step (p p' : patcher) : Prop :=
  global_obj p' = global_obj p ∧ hooked p' = hooked p ∧
  benchmark p' = benchmark p ∧ _module_cache p' = _module_cache p ∧
  ∀ a, chunk_ids <$> (chunks p' !! a) = chunk_ids <$> (chunks p !! a).

(** A step of the loop over the entries: a [page_step] that also leaves
    the registrations, the set of patched modules and the counts. *)
Definition entries_step (p p' : patcher) : Prop :=
  page_step p p' ∧ patch_targets p' = patch_targets p ∧
  patched_modules p' = patched_modules p ∧
  patch_counts p' = patch_counts p.

(** A value that is no function. *)
Definition not_function (v : js_value) : bool :=
  match v with
  | JsFunction _ => false
  | _ => true
  end.

(** *** Sample values *)

Definition method_source : text := txt "function(e){return foo(1)}".
Definition sample_method : function_value := HostFunction 1 method_source.
Definition other_method : function_value :=
  HostFunction 2 (txt "function(e){return bar(2)}").

Definition rule_foo : replacement :=
  Replacement (PStr (txt "foo(1)")) (RText (txt "baz(1)")) false.
Definition rule_none : replacement :=
  Replacement (PStr (txt "absent")) (RText (txt "x")) false.

Definition sample_method_patch : method_patch :=
  MethodPatch [IdStr (txt "foo(1)")] [rule_foo].
Definition failing_method_patch : method_patch :=
  MethodPatch [IdStr (txt "foo(1)")] [rule_none].

Definition sample_chunk : chunk :=
  Chunk (Some [IdNumber 5]) (Some [("a", JsFunction sample_method);
                                   ("b", JsObject (HostObj 8))]).

Definition sample_patcher : patcher :=
  new_WebpackPatcher [] {[ 10 := sample_chunk ]} false.

Definition accept (_ : text) : option compiled := Some (CFunction true).
Definition refuse (_ : text) : option compiled := None.

(** The sample patcher after one registration, on a page that refuses
    [new Function]. *)
Definition registered_patcher : patcher :=
  snd (register_patch refuse (IdNumber 5) [sample_method_patch] sample_patcher).

(** The sample patcher after it read the text of the sample method. *)
Definition reading_patcher : patcher :=
  snd (_get_cached_function_string (MFunction sample_method) (IdNumber 5) "a"
         sample_patcher).

Definition sample_ops : list op :=
  [RegisterPatches [(IdNumber 5, [sample_method_patch])];
   NewChunk 20 sample_chunk;
   Push [20];
   RegisterPatches [(IdNumber 5, [failing_method_patch]); (IdNaN, [])];
   Push [20; 99]].

End V1.

(** * Properties *)

(** ** Stepping through a method *)

Lemma bind_get {S A} (k : S -> M S A) s : bind get k s = k s s.
Proof. done. Qed.

Lemma bind_ret {S A B} (a : A) (k : A -> M S B) s : bind (ret a) k s = k a s.
Proof. done. Qed.

Lemma bind_modify {S A} (f : S -> S) (k : unit -> M S A) s :
  bind (modify f) k s = k tt (f s).
Proof. done. Qed.

Lemma bind_throw {S A B} x (k : A -> M S B) s :
  bind (throw x) k s = (Throw x, s).
Proof. done. Qed.

Lemma bind_logger {A} entry (k : unit -> M engine A) e :
  bind (logger entry) k e = k tt (upd_log (fun l => l ++ [entry]) e).
Proof. done. Qed.

Lemma bind_normal {S A B} (m : M S A) (k : A -> M S B) s a s' :
  m s = (Normal a, s') -> bind m k s = k a s'.
Proof. intros H. unfold bind. by rewrite H. Qed.

Lemma bind_assoc {S A B C} (m : M S A) (k : A -> M S B) (h : B -> M S C) s :
  bind (bind m k) h s = bind m (fun a => bind (k a) h) s.
Proof. unfold bind. destruct (m s) as [[a|x] s']; done. Qed.


(** ** Bookkeeping on states *)

Lemma only_logged_refl e : only_logged e e.
Proof. exists []. destruct e; simpl. by rewrite app_nil_r. Qed.

Lemma only_logged_trans e1 e2 e3 :
  only_logged e1 e2 -> only_logged e2 e3 -> only_logged e1 e3.
Proof.
  intros [l1 ->] [l2 ->]. exists (l1 ++ l2).
  destruct e1; simpl. by rewrite app_assoc.
Qed.

Lemma only_logged_logger entry e : only_logged e (snd (logger entry e)).
Proof. by exists [entry]. Qed.

Lemma only_logged_options e e' : only_logged e e' -> options e' = options e.
Proof. intros [l ->]. by destruct e. Qed.

Lemma only_logged_placeholder_id e e' :
  only_logged e e' -> placeholder_id e' = placeholder_id e.
Proof. intros [l ->]. by destruct e. Qed.

(** ** A rule that finds nothing leaves the text alone *)

Lemma replace_first_no_hit p cb whole s : ∀ off c,
  replace_first p cb whole off s = Normal (c, false) -> c = s.
Proof.
  induction s as [|a s IH]; intros off c; simpl.
  - destruct (prefixb p []); [|by intros [= <-]].
    destruct (cb _); simpl; intros [=].
  - destruct (prefixb p (a :: s)).
    { destruct (cb _); simpl; intros [=]. }
    destruct (replace_first p cb whole (S off) s) as [[out hit]|] eqn:E;
      simpl; [|done].
    intros [= <- ->]. f_equal. by eapply IH.
Qed.

Lemma replace_all_no_hit p cb whole s : ∀ off c,
  replace_all p cb whole off 0 s = Normal (c, false) -> c = s.
Proof.
  induction s as [|a s IH]; intros off c; simpl.
  - destruct (prefixb p []); [|by intros [= <-]].
    destruct (cb _); simpl; intros [=].
  - destruct (prefixb p (a :: s)).
    { destruct (cb _); simpl; [|done].
      destruct p; destruct (replace_all _ _ _ _ _ _); simpl; intros [=]. }
    destruct (replace_all p cb whole (S off) 0 s) as [[out hit]|] eqn:E;
      simpl; [|done].
    intros [= <- ->]. f_equal. by eapply IH.
Qed.

Lemma re_build_no_hit cb s next ms c :
  re_build cb s next ms = Normal (c, false) -> ms = [] ∧ c = skipn next s.
Proof.
  destruct ms as [|[[i m] gs] ms]; simpl.
  - by intros [= <-].
  - destruct (cb _); simpl; [|done].
    destruct (decide _); destruct (re_build _ _ _ _); simpl; intros [=].
Qed.

Lemma apply_rule_no_hit r s c : apply_rule r s = Normal (c, false) -> c = s.
Proof.
  unfold apply_rule. destruct (r_match r) as [p|re].
  - destruct (r_global r).
    + apply replace_all_no_hit.
    + apply replace_first_no_hit.
  - unfold re_replaceAll, re_replace.
    destruct (r_global r || re_global re); destruct (re_global re);
      try done; intros [_ ->]%re_build_no_hit; done.
Qed.

(** ** The loop over the rules *)

Lemma run_rules_only_logged module_id n rs : ∀ i code total e,
  only_logged e (snd (run_rules module_id n i rs code total e)).
Proof.
  induction rs as [|r rs IH]; intros i code total e; simpl.
  - apply only_logged_refl.
  - unfold bind at 1, lift. destruct (apply_rule r code) as [[c hit]|x]; simpl.
    + destruct hit; simpl.
      * apply IH.
      * unfold bind at 1, logger, modify.
        eapply only_logged_trans; [apply (only_logged_logger (WarnRuleSkipped (S i) n module_id) e)|apply IH].
    + apply only_logged_refl.
Qed.


(** The completion of the loop does not depend on the state it runs in. *)
Lemma run_rules_fst_state module_id n rs : ∀ i code total e e',
  fst (run_rules module_id n i rs code total e)
  = fst (run_rules module_id n i rs code total e').
Proof.
  induction rs as [|r rs IH]; intros i code total e e'; simpl; [done|].
  unfold bind at 1 3, lift. destruct (apply_rule r code) as [[c hit]|x]; simpl; [|done].
  destruct hit; simpl; apply IH.
Qed.

Section ApplyPatch.

Variable host_eval : text -> option compiled.
Variable host_new_function : text -> option compiled.

Abbreviation apply_patch := (_apply_patch host_eval host_new_function).

(** [_apply_patch] always returns, and writes to the logger only. *)
Lemma apply_patch_returns fac factory_str rs module_id registrar_name e :
  ∃ res e', apply_patch fac factory_str rs module_id registrar_name e
            = (Normal res, e') ∧ only_logged e e'.
Proof.
  pose proof (run_rules_only_logged module_id (length rs) rs 0 factory_str 0 e) as Hlog.
  unfold _apply_patch, try_catch, bind, get, lift, ret, logger, modify.
  destruct (run_rules _ _ _ _ _ _ e) as [[[code total]|x] e1]; simpl in *.
  - destruct (decide (total = 0)).
    + eexists _, _. split; [reflexivity|].
      eapply only_logged_trans; [exact Hlog|by eexists [_]].
    + destruct (replace_placeholders _ code) as [pc|x]; simpl.
      * destruct (compile _ _ _ _ pc) as [c|x]; simpl.
        -- eexists _, _. split; [reflexivity|done].
        -- eexists _, _. split; [reflexivity|].
           eapply only_logged_trans; [exact Hlog|by eexists [_]].
      * eexists _, _. split; [reflexivity|].
        eapply only_logged_trans; [exact Hlog|by eexists [_]].
  - eexists _, _. split; [reflexivity|].
    eapply only_logged_trans; [exact Hlog|by eexists [_]].
Qed.


(** ** Chaining *)

Lemma replace_first_literal p r whole s : ∀ off,
  replace_first p (fun _ => Normal r) whole off s
  = Normal (subst_first p r s, includes s p).
Proof.
  induction s as [|a s IH]; intros off; simpl.
  - destruct (prefixb p []); simpl; [done|done].
  - destruct (prefixb p (a :: s)); simpl; [done|].
    by rewrite IH.
Qed.

Lemma apply_rule_literal m r s :
  apply_rule (literal_rule m r) s = Normal (subst_first m r s, includes s m).
Proof. unfold apply_rule. simpl. apply replace_first_literal. Qed.

Lemma replace_all_total p tpl whole s : ∀ off skip,
  ∃ out, replace_all p (string_replacer tpl) whole off skip s = Normal out.
Proof.
  induction s as [|a s IH]; intros off skip; destruct skip; simpl; eauto.
  - destruct (prefixb p []); simpl; eauto.
  - destruct (prefixb p (a :: s)); simpl.
    + destruct p.
      * destruct (IH (S off) 0) as [out ->]. simpl. eauto.
      * destruct (IH (S off) (length p)) as [out ->]. simpl. eauto.
    + destruct (IH (S off) 0) as [out ->]. simpl. eauto.
Qed.

Lemma replace_placeholders_total table : ∀ code,
  ∃ out, replace_placeholders table code = Normal out.
Proof.
  induction table as [|[p r] table IH]; intros code.
  - by exists code.
  - unfold replace_placeholders; fold replace_placeholders. unfold replaceAll_str.
    destruct (replace_all_total p r code code 0 0) as [out ->]. simpl. apply IH.
Qed.

Lemma replace_placeholders_resolved id registrar_name code :
  replace_placeholders (placeholder_replacements id registrar_name) code
  = Normal (resolved id registrar_name code).
Proof.
  unfold resolved.
  by destruct (replace_placeholders_total
                 (placeholder_replacements id registrar_name) code) as [out ->].
Qed.

Lemma eval_ref_fresh r : ∀ code, EvalRef code r ≠ r.
Proof.
  induction r as [a|c r IH|k c r IH|v]; intros code; try done.
  intros [= -> H]. by apply (IH c).
Qed.

Lemma eval_other_fresh r : ∀ k code, EvalOther k code r ≠ r.
Proof.
  induction r as [a|c r IH|k' c r IH|v]; intros k code; try done.
  intros [= -> -> H]. by apply (IH k' c).
Qed.

(** What a text evaluates to is not the function it was made from. *)
Lemma compiled_value_not_same c code fac :
  callable fac = true -> not_same (compiled_value c code fac) fac = true.
Proof.
  intros Hc. unfold not_same. apply negb_true_iff, bool_decide_eq_false.
  unfold compiled_value. cbn [f_ref].
  destruct c as [[]|[]|v];
    [apply eval_ref_fresh|apply eval_other_fresh|apply eval_other_fresh
    |apply eval_other_fresh|].
  intros H. unfold callable in Hc. by rewrite <- H in Hc.
Qed.

Lemma compiled_not_same fac code : not_same (compiled_from fac code) fac = true.
Proof.
  unfold not_same, compiled_from. simpl.
  rewrite bool_decide_eq_false_2; [done|apply eval_ref_fresh].
Qed.

(** The rules of a list run one after the other on the text as the
    earlier ones left it. *)
Lemma run_rules_app module_id n rs1 : ∀ rs2 i code total e,
  run_rules module_id n i (rs1 ++ rs2) code total e
  = bind (run_rules module_id n i rs1 code total)
      (fun out => run_rules module_id n (i + length rs1) rs2 out.1 out.2) e.
Proof.
  induction rs1 as [|r rs1 IH]; intros rs2 i code total e; simpl.
  - unfold bind, ret. by rewrite Nat.add_0_r.
  - unfold bind at 1 3, lift.
    destruct (apply_rule r code) as [[c hit]|x]; simpl; [|done].
    unfold bind at 1 3. destruct hit; simpl.
    + rewrite IH. by rewrite Nat.add_succ_r.
    + rewrite IH. by rewrite Nat.add_succ_r.
Qed.

(** A patch of two literal rules that both find their match, the second
    one in the text the first one made. *)
Lemma apply_patch_two_rules fac s m1 r1 m2 r2 module_id registrar_name e :
  includes s m1 = true ->
  includes (subst_first m1 r1 s) m2 = true ->
  compile host_eval host_new_function (use_eval (options e)) module_id
    (resolved (placeholder_id e) registrar_name
       (subst_first m2 r2 (subst_first m1 r1 s))) = Normal (CFunction true) ->
  apply_patch fac s [literal_rule m1 r1; literal_rule m2 r2] module_id
    registrar_name e
  = (let code := resolved (placeholder_id e) registrar_name
                   (subst_first m2 r2 (subst_first m1 r1 s)) in
     (Normal (compiled_from fac code, code), e)).
Proof.
  intros H1 H2 Hc.
  unfold _apply_patch, try_catch, bind, get, lift, ret; simpl.
  unfold bind, lift, ret. rewrite apply_rule_literal, H1. simpl.
  rewrite apply_rule_literal, H2. simpl.
  rewrite replace_placeholders_resolved. simpl. by rewrite Hc.
Qed.

Lemma apply_patch_one_rule fac s m r module_id registrar_name e :
  includes s m = true ->
  compile host_eval host_new_function (use_eval (options e)) module_id
    (resolved (placeholder_id e) registrar_name (subst_first m r s)) = Normal (CFunction true) ->
  apply_patch fac s [literal_rule m r] module_id registrar_name e
  = (let code := resolved (placeholder_id e) registrar_name (subst_first m r s) in
     (Normal (compiled_from fac code, code), e)).
Proof.
  intros H1 Hc.
  unfold _apply_patch, try_catch, bind, get, lift, ret; simpl.
  unfold bind, lift, ret. rewrite apply_rule_literal, H1. simpl.
  rewrite replace_placeholders_resolved. simpl. by rewrite Hc.
Qed.



(** A patch whose rules substitute and whose text compiles hands the
    factory compiled and the edited text to the patches after it. *)
Lemma patch_loop_applied module_id p ps cur str any e out e1 c :
  _check_pattern_match str p = true ->
  run_rules module_id (length (p_replacements p)) 0 (p_replacements p) str 0 e
    = (Normal out, e1) ->
  out.2 ≠ 0 ->
  let code := resolved (placeholder_id e1) (p_registrar_name p) out.1 in
  compile host_eval host_new_function (use_eval (options e1)) module_id code
    = Normal c ->
  not_same (compiled_value c code cur) cur = true ->
  patch_loop host_eval host_new_function module_id (p :: ps) cur str any e
  = patch_loop host_eval host_new_function module_id ps
      (compiled_value c code cur) code true e1.
Proof.
  intros Hm Hr Hn code Hc Hs. simpl. rewrite Hm. simpl.
  unfold bind at 1. unfold _apply_patch, try_catch.
  rewrite (bind_normal _ _ _ _ _ Hr). rewrite decide_False by done.
  rewrite bind_get, replace_placeholders_resolved. fold code.
  unfold bind at 1, lift at 1. unfold bind at 1, lift at 1. rewrite Hc.
  unfold ret. cbn [fst snd]. by rewrite Hs.
Qed.


End ApplyPatch.

(** ** Methods that return normally *)

Global Instance patching_frame_preorder : PreOrder patching_frame.
Proof.
  split.
  - intros e. unfold patching_frame. tauto.
  - intros e1 e2 e3 H12 H23. unfold patching_frame in *.
    destruct H12 as (?&?&?&?&?&?&?&?&?).
    destruct H23 as (?&?&?&?&?&?&?&?&?).
    repeat split; congruence.
Qed.

Lemma only_logged_frame e e' : only_logged e e' -> patching_frame e e'.
Proof. intros [l ->]. destruct e; unfold patching_frame; simpl; tauto. Qed.

Section Returns.

Context (R : engine -> engine -> Prop) `{!PreOrder R}.

Lemma returns_ret {A} (a : A) : returns R (ret a).
Proof. intros e. exists a. split; [done|reflexivity]. Qed.

Lemma returns_get : returns R get.
Proof. intros e. exists e. split; [done|reflexivity]. Qed.

Lemma returns_modify f : (∀ e, R e (f e)) -> returns R (modify f).
Proof. intros H e. exists tt. split; [done|apply H]. Qed.

Lemma returns_bind {A B} (m : M engine A) (k : A -> M engine B) :
  returns R m -> (∀ a, returns R (k a)) -> returns R (bind m k).
Proof.
  intros Hm Hk e. destruct (Hm e) as (a & Ha & HR).
  unfold bind. destruct (m e) as [c e1]; simpl in *. subst c.
  destruct (Hk a e1) as (b & Hb & HR'). exists b. split; [done|].
  by etrans.
Qed.

Lemma returns_catch_lift {A} (c : completion A) (h : js_error -> M engine A) :
  (∀ x, returns R (h x)) -> returns R (try_catch (lift c) h).
Proof.
  intros Hh e. unfold try_catch, lift. destruct c as [a|x]; simpl.
  - exists a. split; [done|reflexivity].
  - apply Hh.
Qed.

End Returns.

Lemma returns_weaken {A} (R R' : engine -> engine -> Prop) (m : M engine A) :
  (∀ e e', R e e' -> R' e e') -> returns R m -> returns R' m.
Proof. intros H Hm e. destruct (Hm e) as (a & ? & ?). eauto. Qed.

Lemma logger_frame entry : returns patching_frame (logger entry).
Proof.
  apply returns_modify. intros e.
  apply only_logged_frame. by exists [entry].
Qed.

(** One step of a frame proof, following the shape of the method. *)
Ltac frame_step :=
  first
    [ apply returns_ret; apply _
    | apply returns_get; apply _
    | apply logger_frame
    | apply returns_bind; [apply _| |intros ?]
    | apply returns_modify; intros []; unfold patching_frame; simpl; tauto ].
Ltac frame_steps := repeat frame_step.

Lemma listeners_of_known event t :
  known_event event -> ∃ l, listeners_of event t = Own l.
Proof.
  intros [-> | [-> | ->]]; unfold listeners_of; simpl; eauto.
Qed.

(** ** Methods that may throw *)

Section Keeps.

Context (R : engine -> engine -> Prop) `{!PreOrder R}.

Lemma returns_keeps {A} (m : M engine A) : returns R m -> keeps R m.
Proof. intros H e. by destruct (H e) as (a & _ & ?). Qed.

Lemma keeps_ret {A} (a : A) : keeps R (ret a).
Proof. intros e. reflexivity. Qed.

Lemma keeps_throw {A} x : keeps R (@throw engine A x).
Proof. intros e. reflexivity. Qed.

Lemma keeps_get : keeps R get.
Proof. intros e. reflexivity. Qed.

Lemma keeps_modify f : (∀ e, R e (f e)) -> keeps R (modify f).
Proof. intros H e. apply H. Qed.

Lemma keeps_bind {A B} (m : M engine A) (k : A -> M engine B) :
  keeps R m -> (∀ a, keeps R (k a)) -> keeps R (bind m k).
Proof.
  intros Hm Hk e. specialize (Hm e). unfold bind.
  destruct (m e) as [[a|x] e1]; simpl in *; [|done].
  etrans; [exact Hm|apply Hk].
Qed.

Lemma keeps_lift {A} (c : completion A) : keeps R (lift c).
Proof. intros e. reflexivity. Qed.

Lemma keeps_try_catch {A} (m : M engine A) (h : js_error -> M engine A) :
  keeps R m -> (∀ x, keeps R (h x)) -> keeps R (try_catch m h).
Proof.
  intros Hm Hh e. specialize (Hm e). unfold try_catch.
  destruct (m e) as [[a|x] e1]; simpl in *; [done|].
  etrans; [exact Hm|apply Hh].
Qed.

End Keeps.

Lemma keeps_weaken {A} (R R' : engine -> engine -> Prop) (m : M engine A) :
  (∀ e e', R e e' -> R' e e') -> keeps R m -> keeps R' m.
Proof. intros H Hm e. apply H, Hm. Qed.

Global Instance quiet_preorder : PreOrder quiet.
Proof.
  split.
  - intros e. unfold quiet. tauto.
  - intros e1 e2 e3 (?&?&?&?) (?&?&?&?). unfold quiet. repeat split; congruence.
Qed.

Global Instance detection_unchanged_preorder : PreOrder detection_unchanged.
Proof.
  split.
  - intros e. unfold detection_unchanged. tauto.
  - intros e1 e2 e3 (?&?&?) (?&?&?). unfold detection_unchanged.
    repeat split; congruence.
Qed.

Lemma frame_quiet e e' : patching_frame e e' -> quiet e e'.
Proof. unfold patching_frame, quiet. tauto. Qed.

Lemma frame_detection_unchanged e e' :
  patching_frame e e' -> detection_unchanged e e'.
Proof. unfold patching_frame, detection_unchanged. tauto. Qed.

(** One step of a proof that a method keeps a frame. *)
Ltac quiet_step :=
  first
    [ apply keeps_ret; apply _
    | apply keeps_get; apply _
    | apply keeps_throw; apply _
    | apply keeps_bind; [apply _| |intros ?]
    | apply keeps_modify; intros [];
      first [ unfold quiet; simpl; tauto
            | unfold detection_unchanged; simpl; tauto
            | unfold patching_frame; simpl; tauto ] ].
Ltac quiet_steps := repeat quiet_step.

Ltac quiet_methods :=
  repeat first
    [ quiet_step
    | match goal with
      | |- keeps _ (match ?x with _ => _ end) => destruct x
      | |- keeps _ (logger _) => unfold logger
      | |- keeps _ hook_webpack => unfold hook_webpack
      | |- keeps _ (or_fresh _) => unfold or_fresh
      | |- keeps _ fresh_obj => unfold fresh_obj
      | |- keeps _ (ensure_registrar _ _ _) => unfold ensure_registrar
      end ].

Lemma add_event_listener_frame event callback :
  keeps patching_frame (add_event_listener event callback).
Proof. unfold add_event_listener; quiet_methods. Qed.

Lemma remove_event_listener_frame event callback :
  keeps patching_frame (remove_event_listener event callback).
Proof. unfold remove_event_listener; quiet_methods. Qed.

Lemma register_patches_frame o ps existing :
  keeps patching_frame (register_patches o ps existing).
Proof. unfold register_patches; quiet_methods. Qed.

Lemma patching_frame_reentrant : reentrant patching_frame.
Proof.
  split; [apply add_event_listener_frame|].
  split; [apply remove_event_listener_frame|].
  intros; apply register_patches_frame.
Qed.

Lemma patching_frame_calls f : keeps patching_frame (modify (upd_calls f)).
Proof. intros []. unfold patching_frame; simpl; tauto. Qed.

Lemma patching_frame_logger entry : keeps patching_frame (logger entry).
Proof. intros []. unfold patching_frame; simpl; tauto. Qed.

(** ** Dispatch *)

Section Dispatch.

Context (R : engine -> engine -> Prop) `{!PreOrder R} (HR : reentrant R).
Context (event : string) (args : list event_arg).
Hypothesis Hcalls :
  ∀ l, keeps R (modify (upd_calls (fun c => c ++ [(event, l_addr l, args)]))).
Hypothesis Hlog : ∀ x, keeps R (logger (ErrorInListener event x)).

Lemma run_reentries_keeps rs : keeps R (run_reentries rs).
Proof.
  destruct HR as (Hadd & Hrem & Hreg).
  induction rs as [|[event' callback|event' callback|o ps] rs IH]; simpl.
  - by apply keeps_ret.
  - apply keeps_bind; [done|apply Hadd|done].
  - apply keeps_bind; [done|apply Hrem|done].
  - apply keeps_bind; [done|apply Hreg|done].
Qed.

Lemma call_listener_keeps l : keeps R (call_listener event args l).
Proof.
  unfold call_listener. apply keeps_bind; [done|apply Hcalls|intros _].
  apply keeps_try_catch; [done| |apply Hlog].
  apply keeps_bind; [done|apply run_reentries_keeps|intros _].
  by apply keeps_lift.
Qed.

Lemma emit_loop_keeps fuel : ∀ index,
  keeps R (emit_loop fuel event args index).
Proof.
  induction fuel as [|fuel IH]; intros index; simpl; [by apply keeps_ret|].
  apply keeps_bind; [done|by apply keeps_get|]. intros e.
  destruct (listeners_of event (event_listeners e)) as [ls| |];
    try by apply keeps_ret.
  destruct (ls !! index); [|by apply keeps_ret].
  apply keeps_bind; [done|apply call_listener_keeps|done].
Qed.

Lemma emit_event_keeps : keeps R (_emit_event event args).
Proof.
  unfold _emit_event. apply keeps_bind; [done|by apply keeps_get|]. intros e.
  destruct (listeners_of event (event_listeners e));
    [apply emit_loop_keeps|by apply keeps_throw|by apply keeps_ret].
Qed.

End Dispatch.

(** A turn of the loop returns whatever the callback does, and so does
    the loop. *)
Lemma call_listener_returns event args l e :
  ∃ e', call_listener event args l e = (Normal tt, e').
Proof.
  unfold call_listener. rewrite bind_modify. unfold try_catch.
  destruct ((run_reentries (l_calls l args) ;; lift (l_run l args))%M _)
    as [[[]|x] e']; by eexists.
Qed.

Lemma emit_loop_returns fuel event args : ∀ index e,
  ∃ e', emit_loop fuel event args index e = (Normal tt, e').
Proof.
  induction fuel as [|fuel IH]; intros index e; simpl; [by eexists|].
  rewrite bind_get.
  destruct (listeners_of event (event_listeners e)) as [ls| |];
    try by eexists.
  destruct (ls !! index) as [l|]; [|by eexists].
  destruct (call_listener_returns event args l e) as [e1 He1].
  rewrite (bind_normal _ _ _ _ _ He1). apply IH.
Qed.

Lemma emit_event_frame event args :
  known_event event -> returns patching_frame (_emit_event event args).
Proof.
  intros Hk e.
  pose proof (emit_event_keeps patching_frame patching_frame_reentrant
                event args (fun _ => patching_frame_calls _)
                (fun _ => patching_frame_logger _) e) as Hf.
  revert Hf. unfold _emit_event. rewrite bind_get.
  destruct (listeners_of_known event (event_listeners e) Hk) as [l ->].
  destruct (emit_loop_returns (turns args l) event args 0 e) as [e' ->].
  by exists tt.
Qed.

(** *** The turns given to the loop are enough *)

Lemma listener_turns_eq args l :
  listener_turns args l = S (added_turns args (l_calls l args)).
Proof. by destruct l. Qed.

Lemma turns_cons args l ls : turns args (l :: ls) = (listener_turns args l + turns args ls)%nat.
Proof. done. Qed.

Lemma turns_app args ls1 ls2 : turns args (ls1 ++ ls2) = (turns args ls1 + turns args ls2)%nat.
Proof. unfold turns. by rewrite map_app, list_sum_app. Qed.

Lemma turns_drop_le args ls : ∀ n, (turns args (drop n ls) ≤ turns args ls)%nat.
Proof.
  induction ls as [|l ls IH]; intros [|n]; simpl; try lia.
  rewrite turns_cons. specialize (IH n). lia.
Qed.

Lemma turns_drop_S args ls : ∀ n, (turns args (drop (S n) ls) ≤ turns args (drop n ls))%nat.
Proof.
  induction ls as [|l ls IH]; intros [|n]; simpl; try lia.
  - rewrite drop_0, turns_cons. lia.
  - apply IH.
Qed.

Lemma turns_drop_snoc args ls callback n :
  (turns args (drop n (ls ++ [callback]))
   ≤ turns args (drop n ls) + listener_turns args callback)%nat.
Proof.
  rewrite drop_app, turns_app.
  pose proof (turns_drop_le args [callback] (n - length ls)) as H.
  rewrite turns_cons in H. unfold turns at 2 in H. simpl in H. lia.
Qed.

Lemma turns_drop_delete args ls : ∀ i n,
  (turns args (drop n (delete i ls)) ≤ turns args (drop n ls))%nat.
Proof.
  induction ls as [|l ls IH]; intros i n; [by destruct i|].
  destruct i as [|i]; simpl.
  - destruct n as [|n]; simpl.
    + rewrite drop_0, turns_cons. lia.
    + apply turns_drop_S.
  - destruct n as [|n]; simpl.
    + rewrite !turns_cons. specialize (IH i 0). rewrite !drop_0 in IH. lia.
    + apply IH.
Qed.

Lemma listeners_of_with_cases event event' l t :
  event = event' ∧ known_event event ∧
    listeners_of event (with_listeners event' l t) = Own l ∨
  listeners_of event (with_listeners event' l t) = listeners_of event t.
Proof.
  unfold listeners_of, with_listeners, known_event.
  repeat (destruct (decide _) as [?|?]); subst; simpl; try congruence; auto 6.
Qed.

Lemma remaining_upd_log event args n f e :
  remaining event args n (upd_log f e) = remaining event args n e.
Proof. by destruct e. Qed.

Lemma remaining_upd_calls event args n f e :
  remaining event args n (upd_calls f e) = remaining event args n e.
Proof. by destruct e. Qed.

Lemma add_event_listener_remaining event args n event' callback e :
  (remaining event args n (snd (add_event_listener event' callback e))
   ≤ remaining event args n e + listener_turns args callback)%nat.
Proof.
  unfold add_event_listener. rewrite bind_get.
  destruct (listeners_of event' (event_listeners e)) as [l| |] eqn:Hl;
    [|simpl; lia|unfold logger, modify; simpl; rewrite remaining_upd_log; lia].
  rewrite bind_modify. unfold logger, modify. simpl.
  rewrite remaining_upd_log. unfold remaining.
  replace (event_listeners (upd_event_listeners _ e))
    with (with_listeners event' (l ++ [callback]) (event_listeners e))
    by (by destruct e).
  destruct (listeners_of_with_cases event event' (l ++ [callback]) (event_listeners e))
    as [(-> & _ & ->) | ->].
  - rewrite Hl. apply turns_drop_snoc.
  - lia.
Qed.

Lemma remove_event_listener_remaining event args n event' callback e :
  (remaining event args n (snd (remove_event_listener event' callback e))
   ≤ remaining event args n e)%nat.
Proof.
  unfold remove_event_listener. rewrite bind_get.
  destruct (listeners_of event' (event_listeners e)) as [l| |] eqn:Hl;
    [|simpl; lia|simpl; lia].
  destruct (index_of callback l) as [i|]; [|simpl; lia].
  rewrite bind_modify. unfold logger, modify. simpl.
  rewrite remaining_upd_log. unfold remaining.
  replace (event_listeners (upd_event_listeners _ e))
    with (with_listeners event' (delete i l) (event_listeners e))
    by (by destruct e).
  destruct (listeners_of_with_cases event event' (delete i l) (event_listeners e))
    as [(-> & _ & ->) | ->].
  - rewrite Hl. apply turns_drop_delete.
  - lia.
Qed.

Global Instance same_listeners_preorder :
  PreOrder (fun e e' : engine => event_listeners e' = event_listeners e).
Proof. split; [done|]. intros e1 e2 e3 H1 H2. congruence. Qed.

Lemma register_patches_same_listeners o ps existing :
  keeps (fun e e' => event_listeners e' = event_listeners e)
    (register_patches o ps existing).
Proof.
  unfold register_patches.
  repeat first
    [ apply keeps_ret; apply _
    | apply keeps_get; apply _
    | apply keeps_throw; apply _
    | apply keeps_bind; [apply _| |intros ?]
    | apply keeps_modify; by intros []
    | match goal with
      | |- keeps _ (match ?x with _ => _ end) => destruct x
      | |- keeps _ (logger _) => unfold logger
      | |- keeps _ hook_webpack => unfold hook_webpack
      | |- keeps _ (or_fresh _) => unfold or_fresh
      | |- keeps _ fresh_obj => unfold fresh_obj
      | |- keeps _ (ensure_registrar _ _ _) => unfold ensure_registrar
      end ].
Qed.

Lemma run_reentries_remaining event args n rs : ∀ e,
  (remaining event args n (snd (run_reentries rs e))
   ≤ remaining event args n e + added_turns args rs)%nat.
Proof.
  induction rs as [|[event' callback|event' callback|o ps] rs IH]; intros e;
    simpl; [lia| | |].
  - pose proof (add_event_listener_remaining event args n event' callback e) as H.
    unfold bind. destruct (add_event_listener event' callback e) as [[[]|x] e1];
      simpl in *; [|unfold added_turns; simpl; lia].
    specialize (IH e1). unfold added_turns in *. simpl. lia.
  - pose proof (remove_event_listener_remaining event args n event' callback e) as H.
    unfold bind. destruct (remove_event_listener event' callback e) as [[[]|x] e1];
      simpl in *; [|lia].
    specialize (IH e1). unfold added_turns in *. simpl. lia.
  - pose proof (register_patches_same_listeners o ps None e) as H.
    unfold bind. destruct (register_patches o ps None e) as [[h|x] e1];
      simpl in *; unfold remaining at 2; rewrite <- H;
      fold (remaining event args n e1); [|lia].
    specialize (IH e1). unfold added_turns in *. simpl. lia.
Qed.

Lemma call_listener_remaining event args n l e :
  (S (remaining event args n (snd (call_listener event args l e)))
   ≤ remaining event args n e + listener_turns args l)%nat.
Proof.
  unfold call_listener. rewrite bind_modify, listener_turns_eq.
  set (e0 := upd_calls _ e).
  pose proof (run_reentries_remaining event args n (l_calls l args) e0) as H.
  unfold e0 in H at 2. rewrite remaining_upd_calls in H.
  unfold try_catch, bind at 1.
  destruct (run_reentries (l_calls l args) e0) as [[[]|x] e1]; simpl in *.
  - unfold lift. destruct (l_run l args) as [[]|x]; simpl;
      [|unfold logger, modify; simpl; rewrite remaining_upd_log]; lia.
  - unfold logger, modify. simpl. rewrite remaining_upd_log. lia.
Qed.

(** More turns than those of the listeners from [index] on change
    nothing: the loop ends at the end of the array before it has used
    them. *)
Lemma emit_loop_enough event args fuel : ∀ k index e,
  (remaining event args index e ≤ fuel)%nat ->
  emit_loop (fuel + k)%nat event args index e = emit_loop fuel event args index e.
Proof.
  induction fuel as [|fuel IH]; intros k index e Hr.
  - destruct k as [|k]; [done|]. simpl. rewrite bind_get.
    unfold remaining in Hr.
    destruct (listeners_of event (event_listeners e)) as [ls| |]; try done.
    destruct (ls !! index) as [l|] eqn:Hi; [|done].
    rewrite (drop_S _ _ _ Hi), turns_cons, listener_turns_eq in Hr. lia.
  - simpl. rewrite !bind_get.
    destruct (listeners_of event (event_listeners e)) as [ls| |] eqn:Hl; try done.
    destruct (ls !! index) as [l|] eqn:Hi; [|done].
    destruct (call_listener_returns event args l e) as [e1 He1].
    rewrite !(bind_normal _ _ _ _ _ He1). apply IH.
    pose proof (call_listener_remaining event args (S index) l e) as H.
    rewrite He1 in H. simpl in H. unfold remaining in Hr, H at 2.
    rewrite Hl in Hr, H. rewrite (drop_S _ _ _ Hi), turns_cons in Hr. lia.
Qed.

(** So the turns [_emit_event] gives its loop are never used up before
    the loop has reached the end of the array: with any number more, the
    dispatch is the same. *)
Lemma emit_event_enough event args ls k e :
  listeners_of event (event_listeners e) = Own ls ->
  emit_loop (turns args ls + k)%nat event args 0 e = _emit_event event args e.
Proof.
  intros Hl. unfold _emit_event. rewrite bind_get, Hl.
  apply emit_loop_enough. unfold remaining. by rewrite Hl, drop_0.
Qed.

(** *** Listeners that make no call into the engine *)

Lemma call_listener_passive event args l e :
  l_calls l args = [] ->
  call_listener event args l e
  = (Normal tt,
     match l_run l args with
     | Normal _ => upd_calls (fun c => c ++ [(event, l_addr l, args)]) e
     | Throw x =>
         upd_log (fun lg => lg ++ [ErrorInListener event x])
           (upd_calls (fun c => c ++ [(event, l_addr l, args)]) e)
     end).
Proof.
  intros Hp. unfold call_listener. rewrite bind_modify, Hp.
  unfold try_catch, run_reentries. rewrite bind_ret. unfold lift.
  by destruct (l_run l args) as [[]|x].
Qed.

Lemma listener_turns_passive args l : l_calls l args = [] -> listener_turns args l = 1.
Proof. intros H. destruct l as [a run cs]. simpl in *. by rewrite H. Qed.

Lemma turns_passive args ls : Forall passive ls -> turns args ls = length ls.
Proof.
  unfold turns. induction 1 as [|l ls Hl _ IH]; [done|].
  simpl. by rewrite listener_turns_passive, IH.
Qed.

Lemma call_listener_passive_listeners event args l e :
  l_calls l args = [] ->
  event_listeners (snd (call_listener event args l e)) = event_listeners e.
Proof.
  intros Hp. rewrite call_listener_passive by done. simpl.
  destruct (l_run l args); by destruct e.
Qed.

Lemma emit_loop_passive event args ls : ∀ index e,
  Forall passive ls ->
  listeners_of event (event_listeners e) = Own ls ->
  emit_loop (length (drop index ls)) event args index e
  = call_listeners event args (drop index ls) e.
Proof.
  intros index e Hp. remember (length (drop index ls)) as n eqn:Hn.
  revert index e Hn. induction n as [|n IH]; intros index e Hn Hl.
  - symmetry in Hn. apply nil_length_inv in Hn. by rewrite Hn.
  - destruct (drop index ls) as [|l rest] eqn:Hd; [done|].
    assert (ls !! index = Some l) as Hi.
    { rewrite <- (Nat.add_0_r index), <- lookup_drop, Hd. done. }
    assert (drop (S index) ls = rest) as Hrest.
    { rewrite (drop_S _ _ _ Hi) in Hd. congruence. }
    simpl. rewrite bind_get, Hl, Hi.
    assert (passive l) as Hpl.
    { rewrite Forall_forall in Hp. apply Hp.
      apply list_elem_of_lookup. by exists index. }
    pose proof (call_listener_passive_listeners event args l e (Hpl args)) as Hev.
    destruct (call_listener_returns event args l e) as [e1 He1].
    rewrite He1 in Hev. simpl in Hev.
    rewrite !(bind_normal _ _ _ _ _ He1).
    rewrite <- Hrest. apply IH.
    + rewrite Hrest. simpl in Hn. congruence.
    + by rewrite Hev.
Qed.

Lemma emit_event_passive event args ls e :
  listeners_of event (event_listeners e) = Own ls ->
  Forall passive ls ->
  _emit_event event args e = call_listeners event args ls e.
Proof.
  intros Hl Hp. unfold _emit_event. rewrite bind_get, Hl.
  rewrite turns_passive by done.
  exact (emit_loop_passive event args ls 0 e Hp Hl).
Qed.

(** The record of listener calls after such a dispatch: one call for each
    listener, in subscription order, whatever the earlier ones threw. *)
Lemma call_listeners_calls event args ls : ∀ e,
  Forall passive ls ->
  calls (snd (call_listeners event args ls e))
  = calls e ++ ((fun l => (event, l_addr l, args)) <$> ls).
Proof.
  induction ls as [|l ls IH]; intros e Hp; simpl.
  - by rewrite app_nil_r.
  - apply Forall_cons in Hp as [Hl Hp]. unfold bind at 1.
    rewrite call_listener_passive by done.
    rewrite IH by done. destruct (l_run l args); destruct e; simpl;
      by rewrite <- app_assoc.
Qed.

Lemma get_factory_string_frame module_id fac :
  returns patching_frame (_get_factory_string module_id fac).
Proof.
  unfold _get_factory_string.
  apply returns_bind; [apply _|apply returns_get; apply _|]. intros e0.
  destruct (enable_cache (options e0)).
  - destruct (factory_string_cache e0 !! module_id) as [cached|]; frame_steps.
  - frame_steps.
Qed.

Section PatchingFrames.

Variable host_eval : text -> option compiled.
Variable host_new_function : text -> option compiled.

Lemma apply_patch_frame fac factory_str rs module_id registrar_name :
  returns patching_frame
    (_apply_patch host_eval host_new_function fac factory_str rs module_id
       registrar_name).
Proof.
  intros e.
  destruct (apply_patch_returns host_eval host_new_function fac factory_str rs
              module_id registrar_name e) as (res & e' & -> & Hlog).
  exists res. split; [done|]. by apply only_logged_frame.
Qed.

Lemma patch_loop_frame module_id ps : ∀ cur str any,
  returns patching_frame
    (patch_loop host_eval host_new_function module_id ps cur str any).
Proof.
  induction ps as [|p ps IH]; intros cur str any; simpl.
  - apply returns_ret; apply _.
  - destruct (negb (_check_pattern_match str p)); [apply IH|].
    apply returns_bind; [apply _|apply apply_patch_frame|].
    intros r. destruct (not_same r.1 cur); apply IH.
Qed.

End PatchingFrames.

Lemma emit_event_keeps_frame event args : keeps patching_frame (_emit_event event args).
Proof.
  apply emit_event_keeps;
    [apply _|apply patching_frame_reentrant
    |intros; apply patching_frame_calls|intros; apply patching_frame_logger].
Qed.

Lemma on_detect_frame (c : completion unit) :
  returns patching_frame (try_catch (lift c) (fun x => logger (ErrorInOnDetect x))).
Proof. apply returns_catch_lift; [apply _|]. intros x. apply logger_frame. Qed.

Lemma emit_event_quiet event args :
  keeps quiet (_emit_event event args) ∧
  keeps detection_unchanged (_emit_event event args).
Proof.
  split; (eapply keeps_weaken; [|apply emit_event_keeps_frame]).
  - apply frame_quiet.
  - apply frame_detection_unchanged.
Qed.

Lemma on_detect_quiet (c : completion unit) :
  keeps quiet (try_catch (lift c) (fun x => logger (ErrorInOnDetect x))) ∧
  keeps detection_unchanged (try_catch (lift c) (fun x => logger (ErrorInOnDetect x))).
Proof.
  split; (eapply keeps_weaken; [|apply returns_keeps, on_detect_frame]).
  - apply frame_quiet.
  - apply frame_detection_unchanged.
Qed.

Ltac quiet_auto :=
  repeat first
    [ apply emit_event_quiet
    | apply on_detect_quiet
    | quiet_step
    | match goal with
      | |- keeps _ (match ?x with _ => _ end) => destruct x
      | |- keeps _ (logger _) => unfold logger
      | |- keeps _ hook_webpack => unfold hook_webpack
      | |- keeps _ (or_fresh _) => unfold or_fresh
      | |- keeps _ fresh_obj => unfold fresh_obj
      | |- keeps _ (ensure_registrar _ _ _) => unfold ensure_registrar
      end ].

Lemma add_event_listener_quiet event callback :
  keeps quiet (add_event_listener event callback) ∧
  keeps detection_unchanged (add_event_listener event callback).
Proof. split; unfold add_event_listener; quiet_auto. Qed.

Lemma remove_event_listener_quiet event callback :
  keeps quiet (remove_event_listener event callback) ∧
  keeps detection_unchanged (remove_event_listener event callback).
Proof. split; unfold remove_event_listener; quiet_auto. Qed.

Lemma register_patches_quiet o ps existing :
  keeps quiet (register_patches o ps existing) ∧
  keeps detection_unchanged (register_patches o ps existing).
Proof. split; unfold register_patches; quiet_auto. Qed.

Lemma cache_setter_quiet this cache_obj stack_lines :
  keeps quiet (cache_setter this cache_obj stack_lines) ∧
  keeps detection_unchanged (cache_setter this cache_obj stack_lines).
Proof. split; unfold cache_setter; quiet_auto. Qed.

Lemma modules_setter_quiet this addr found stack_lines :
  keeps quiet (modules_setter this addr found stack_lines).
Proof.
  unfold modules_setter. quiet_auto.
Qed.

Lemma modules_setter_rejected this addr found stack_lines e :
  accepted e this stack_lines = false ->
  modules_setter this addr found stack_lines e = (Normal tt, e).
Proof.
  unfold accepted, modules_setter. rewrite bind_get.
  destruct (hooked e); [|done].
  destruct (hook_webpack_detected e); [done|].
  destruct (includes _ _); [|done].
  destruct (passes_filter _ _ _); done.
Qed.

Lemma modules_setter_accepted this addr found stack_lines e :
  accepted e this stack_lines = true ->
  ∃ e', modules_setter this addr found stack_lines e = (Normal tt, e') ∧
        hook_webpack_detected e' = true ∧
        webpack_require e' = Some this ∧
        fst <$> module_factories e' = Some addr.
Proof.
  unfold accepted, modules_setter. rewrite bind_get.
  destruct (hooked e); [|done].
  destruct (hook_webpack_detected e); [done|].
  destruct (includes _ _); [|done].
  destruct (passes_filter _ _ _); [|done].
  intros _. cbn [negb].
  rewrite bind_modify, bind_logger, bind_modify.
  set (e1 := upd_webpack_require _ _).
  assert (webpack_require e1 = Some this ∧ hook_webpack_detected e1 = true)
    as Hw by (by destruct e).
  clearbody e1.
  destruct (emit_event_frame "webpack_detected"
              [ArgRequire this; ArgFactories addr]
              (or_introl eq_refl) e1) as ([] & Hn & Hfr).
  destruct (_emit_event "webpack_detected" _ e1) as [c e2] eqn:He; simpl in *.
  subst c. rewrite (bind_normal _ _ _ _ _ He).
  assert (webpack_require e2 = Some this ∧ hook_webpack_detected e2 = true) as Hw2.
  { destruct Hfr as (?&?&?&?&?&?&?&?&?). destruct Hw.
    split; congruence. }
  clear Hfr Hw He.
  assert (∃ e3, (match on_detect (options e) with
                 | Some cb => try_catch (lift (cb this addr))
                                (fun x => logger (ErrorInOnDetect x))
                 | None => ret tt
                 end) e2 = (Normal tt, e3) ∧
                webpack_require e3 = Some this ∧ hook_webpack_detected e3 = true)
    as (e3 & He3 & Hw3).
  { destruct (on_detect (options e)) as [cb|].
    - destruct (on_detect_frame (cb this addr) e2) as ([] & Hn' & Hfr).
      destruct (try_catch _ _ e2) as [c e3]; simpl in *. subst c.
      exists e3. split; [done|].
      destruct Hfr as (?&?&?&?&?&?&?&?&?). destruct Hw2.
      split; congruence.
    - by exists e2. }
  rewrite (bind_normal _ _ _ _ _ He3), bind_modify.
  unfold logger, modify. eexists. split; [reflexivity|].
  destruct e3; simpl in *. tauto.
Qed.

Lemma modules_setter_detected this addr found stack_lines e :
  hook_webpack_detected e = true ->
  modules_setter this addr found stack_lines e = (Normal tt, e).
Proof.
  intros Hd. apply modules_setter_rejected.
  unfold accepted. rewrite Hd. by destruct (hooked e).
Qed.

Lemma modules_setter_undetected this addr found stack_lines e :
  undetected_is_empty e ->
  undetected_is_empty (snd (modules_setter this addr found stack_lines e)).
Proof.
  intros H. destruct (accepted e this stack_lines) eqn:Ha.
  - destruct (modules_setter_accepted this addr found stack_lines e Ha)
      as (e' & -> & Hf & _). intros Hf'. simpl in Hf'. congruence.
  - by rewrite modules_setter_rejected.
Qed.

Lemma factories_set_trap_quiet module_id fac :
  keeps quiet (factories_set_trap module_id fac) ∧
  keeps detection_unchanged (factories_set_trap module_id fac).
Proof.
  split; [unfold factories_set_trap; quiet_auto|].
  intros e. unfold factories_set_trap. rewrite bind_get.
  destruct (module_factories e) as [[addr m]|] eqn:Hm; [|reflexivity].
  destruct (emit_event_frame "module_registered"
              [ArgModule module_id; ArgFactory fac]
              (or_intror (or_introl eq_refl)) e) as ([] & Hn & Hfr).
  destruct (_emit_event "module_registered" _ e) as [c e1] eqn:He; simpl in *.
  subst c. rewrite (bind_normal _ _ _ _ _ He). unfold modify. simpl.
  apply frame_detection_unchanged in Hfr. destruct Hfr as (Hf & Hw & Ha).
  rewrite Hm in Ha. destruct e1; simpl in *.
  unfold detection_unchanged; simpl. rewrite Hm. simpl. tauto.
Qed.

(** ** Patching a factory, lazily and once *)

Section GetOrPatch.

Variable host_eval : text -> option compiled.
Variable host_new_function : text -> option compiled.

Abbreviation get_or_patch := (_get_or_patch_factory host_eval host_new_function).

(** A target that carries the original-factory marker is handed back. *)
Lemma get_or_patch_marked module_id fac e :
  f_original fac ≠ None -> get_or_patch module_id fac e = (Normal fac, e).
Proof.
  intros H. unfold _get_or_patch_factory. by destruct (f_original fac).
Qed.

(** Once the id is in [patched_modules], the target is handed back and
    nothing is matched, replaced, logged or stored. *)
Lemma get_or_patch_again module_id fac e :
  module_id ∈ patched_modules e -> get_or_patch module_id fac e = (Normal fac, e).
Proof.
  intros H. unfold _get_or_patch_factory. destruct (f_original fac); [done|].
  rewrite bind_get. by rewrite decide_True.
Qed.

Lemma store_factory_frame module_id f e :
  is_Some (module_factories e) ->
  ∃ e', store_factory module_id f e = (Normal tt, e') ∧ patching_frame e e'.
Proof.
  intros [[addr m] Hm]. unfold store_factory. rewrite bind_get, Hm.
  unfold modify. eexists. split; [reflexivity|].
  destruct e; simpl in *. subst. unfold patching_frame; simpl. tauto.
Qed.

(** The first call for an id, on a target without the marker: the loop is
    entered once.  When the call returns, the id is in [patched_modules]
    whatever the patches did; the one way out before that is the
    assignment of the marker to a value that cannot take it. *)
Lemma get_or_patch_first module_id fac e :
  f_original fac = None ->
  module_id ∉ patched_modules e ->
  is_Some (module_factories e) ->
  ∃ e1,
    patching_frame (upd_attempts (fun a => a ++ [module_id]) e) e1 ∧
    ((∃ f, get_or_patch module_id fac e
             = (Normal f, upd_patched_modules (fun s => {[module_id]} ∪ s) e1)) ∨
     get_or_patch module_id fac e
       = (Throw (TypeError "Cannot create property on this value"), e1)).
Proof.
  intros Ho Hn Hm. unfold _get_or_patch_factory. rewrite Ho, bind_get.
  rewrite decide_False by done. rewrite bind_modify.
  set (e0 := upd_attempts _ e).
  assert (is_Some (module_factories e0)) as Hm0 by (by destruct e).
  destruct (get_factory_string_frame module_id fac e0) as (str & Hs & Hf1).
  destruct (_get_factory_string module_id fac e0) as [c e1] eqn:E1; simpl in *.
  subst c. rewrite (bind_normal _ _ _ _ _ E1).
  destruct (patch_loop_frame host_eval host_new_function module_id (patches e)
              fac str false e1) as (r & Hr & Hf2).
  destruct (patch_loop _ _ _ _ _ _ _ e1) as [c e2] eqn:E2; simpl in *.
  subst c. rewrite (bind_normal _ _ _ _ _ E2).
  assert (patching_frame e0 e2) as Hf02 by (by etrans).
  destruct r as [[cur s] any]; simpl. destruct any.
  - destruct (takes_marker cur).
    + assert (is_Some (module_factories e2)) as Hm2.
      { destruct Hf02 as (_&Ha&_). destruct Hm0 as [x Hx]. rewrite Hx in Ha.
        destruct (module_factories e2); [done|discriminate]. }
      destruct (store_factory_frame module_id (set_original cur fac) e2 Hm2)
        as (e3 & E3 & Hf3).
      rewrite bind_assoc, bind_ret, bind_assoc, (bind_normal _ _ _ _ _ E3).
      destruct (emit_event_frame "module_patched"
                  [ArgModule module_id; ArgFactory (set_original cur fac); ArgFactory fac]
                  (or_intror (or_intror eq_refl)) e3) as ([] & Hn4 & Hf4).
      destruct (_emit_event "module_patched" _ e3) as [c e4] eqn:E4; simpl in *.
      subst c. rewrite (bind_normal _ _ _ _ _ E4). rewrite bind_modify.
      exists e4. split; [by repeat (etrans; [eassumption|])|].
      left. by eexists.
    + exists e2. split; [done|]. right. done.
  - rewrite bind_ret, bind_modify. exists e2. split; [done|]. left. by eexists.
Qed.

End GetOrPatch.

(** What an attempt leaves of the fields it does not write. *)
Lemma attempt_frame module_id e e1 :
  patching_frame (upd_attempts (fun a => a ++ [module_id]) e) e1 ->
  patching_frame e (upd_attempts (fun _ => attempts e) e1) ∧
  attempts e1 = attempts e ++ [module_id].
Proof.
  intros H. destruct e, e1; unfold patching_frame in *; simpl in *. tauto.
Qed.

(** ** Histories *)

Section HistoryProperties.

Variable host_eval : text -> option compiled.
Variable host_new_function : text -> option compiled.

Abbreviation step := (run_op host_eval host_new_function).
Abbreviation steps := (run_ops host_eval host_new_function).

Lemma steps_app xs ys e : steps (xs ++ ys) e = steps ys (steps xs e).
Proof. apply foldl_app. Qed.

(** What a call of a factory proxy does to the state: nothing, one
    attempt that ends with the id recorded, or one attempt that ends at the
    assignment of the marker. *)
Lemma call_proxy_cases module_id fac e :
  is_Some (module_factories e) ->
  step (CallProxy module_id fac) e = e ∨
  (f_original fac = None ∧ (module_id ∉ patched_modules e) ∧
   ∃ e1, patching_frame (upd_attempts (fun a => a ++ [module_id]) e) e1 ∧
         (step (CallProxy module_id fac) e
            = upd_patched_modules (fun s => {[module_id]} ∪ s) e1 ∨
          step (CallProxy module_id fac) e = e1)).
Proof.
  intros Hm. unfold run_op. destruct Hm as [mf Hmf]. rewrite Hmf. simpl.
  destruct (f_original fac) eqn:Ho.
  { left. rewrite get_or_patch_marked; [done|congruence]. }
  destruct (decide (module_id ∈ patched_modules e)) as [Hin|Hn].
  { left. by rewrite get_or_patch_again. }
  right. repeat split; [done|].
  destruct (get_or_patch_first host_eval host_new_function module_id fac e Ho Hn)
    as (e1 & Hfr & [[f ->] | ->]); [by rewrite Hmf| |]; exists e1; auto.
Qed.

Lemma call_proxy_frame module_id fac e :
  is_Some (module_factories e) ->
  let e' := step (CallProxy module_id fac) e in
  fst <$> module_factories e' = fst <$> module_factories e ∧
  webpack_require e' = webpack_require e ∧
  webpack_cache e' = webpack_cache e ∧
  options e' = options e ∧
  placeholder_id e' = placeholder_id e ∧
  hook_webpack_detected e' = hook_webpack_detected e ∧
  hook_cache_detected e' = hook_cache_detected e ∧
  patched_modules e ⊆ patched_modules e'.
Proof.
  intros Hm e'. unfold e'.
  destruct (call_proxy_cases module_id fac e Hm)
    as [->|(_ & _ & e1 & Hfr & [-> | ->])]; [done| |];
    destruct e, e1; unfold patching_frame in *; simpl in *;
    destruct Hfr as (-> & ? & ? & ? & ? & ? & ? & ? & ?);
    repeat split; try done; set_solver.
Qed.

Lemma step_detection_unchanged x e :
  (∀ this addr found stack_lines, x ≠ SetModules this addr found stack_lines) ->
  detection_unchanged e (step x e).
Proof.
  intros Hx. destruct x.
  - apply register_patches_quiet.
  - apply add_event_listener_quiet.
  - apply remove_event_listener_quiet.
  - by destruct (Hx this addr found stack_lines).
  - apply cache_setter_quiet.
  - apply factories_set_trap_quiet.
  - destruct (module_factories e) eqn:Hm;
      [|unfold run_op; rewrite Hm; reflexivity].
    destruct (call_proxy_frame module_id factory_target e) as (?&?&?&?&?&?&?&?);
      [by rewrite Hm|]. unfold detection_unchanged. tauto.
Qed.

Lemma step_detected_stays x e :
  hook_webpack_detected e = true -> detection_unchanged e (step x e).
Proof.
  intros Hd. destruct x;
    try (apply step_detection_unchanged; intros; discriminate).
  simpl. rewrite modules_setter_detected by done. reflexivity.
Qed.

Lemma steps_detected_stay xs : ∀ e,
  hook_webpack_detected e = true -> detection_unchanged e (steps xs e).
Proof.
  induction xs as [|x xs IH]; intros e Hd; simpl; [reflexivity|].
  pose proof (step_detected_stays x e Hd) as Hs.
  etrans; [exact Hs|]. apply IH. destruct Hs as (-> & _). done.
Qed.

Lemma step_undetected x e : undetected_is_empty e -> undetected_is_empty (step x e).
Proof.
  intros H.
  destruct x; try (
    match goal with |- undetected_is_empty (step ?x _) =>
      assert (detection_unchanged e (step x e)) as (Hf & Hw & Ha)
        by (apply step_detection_unchanged; intros; discriminate)
    end;
    intros Hd; rewrite Hf in Hd; destruct (H Hd) as [Hw0 Hm0];
    rewrite Hw, Hw0; split; [done|];
    rewrite Hm0 in Ha; by destruct (module_factories _)).
  simpl. by apply modules_setter_undetected.
Qed.

Lemma initialize_undetected o random_digits :
  undetected_is_empty (initialize o random_digits).
Proof. done. Qed.

Lemma steps_undetected xs : ∀ e,
  undetected_is_empty e -> undetected_is_empty (steps xs e).
Proof.
  induction xs as [|x xs IH]; intros e H; simpl; [done|].
  apply IH. by apply step_undetected.
Qed.

Lemma step_quiet x e :
  (∀ module_id fac, x ≠ CallProxy module_id fac) -> quiet e (step x e).
Proof.
  intros Hx. destruct x; simpl.
  - apply register_patches_quiet.
  - apply add_event_listener_quiet.
  - apply remove_event_listener_quiet.
  - apply modules_setter_quiet.
  - apply cache_setter_quiet.
  - apply factories_set_trap_quiet.
  - by destruct (Hx module_id factory_target).
Qed.

(** [patched_modules] only grows. *)
Lemma step_patched_grows x e module_id :
  module_id ∈ patched_modules e -> module_id ∈ patched_modules (step x e).
Proof.
  intros Hin. destruct x;
    try (match goal with |- _ ∈ patched_modules (step ?x _) =>
           assert (quiet e (step x e)) as (-> & _)
             by (apply step_quiet; intros; discriminate)
         end; done).
  destruct (module_factories e) eqn:Hm; [|unfold run_op; by rewrite Hm].
  destruct (call_proxy_frame module_id0 factory_target e) as (_&_&_&_&_&_&_&Hs);
    [by rewrite Hm|]. by apply Hs.
Qed.

Lemma steps_patched_grow xs : ∀ e module_id,
  module_id ∈ patched_modules e -> module_id ∈ patched_modules (steps xs e).
Proof.
  induction xs as [|x xs IH]; intros e module_id H; simpl; [done|].
  apply IH. by apply step_patched_grows.
Qed.

(** Once an id is recorded, no step enters the loop for it. *)
Lemma step_attempts_for x e module_id :
  module_id ∈ patched_modules e ->
  attempts_for module_id (step x e) = attempts_for module_id e.
Proof.
  intros Hin. unfold attempts_for. destruct x;
    try (match goal with |- context [step ?x _] =>
           assert (quiet e (step x e)) as (_ & -> & _)
             by (apply step_quiet; intros; discriminate)
         end; done).
  destruct (module_factories e) eqn:Hm; [|unfold run_op; by rewrite Hm].
  destruct (call_proxy_cases module_id0 factory_target e)
    as [->|(_ & Hn & e1 & Hfr & He)]; [by rewrite Hm|done|].
  apply attempt_frame in Hfr as [_ Ha].
  assert (attempts (step (CallProxy module_id0 factory_target) e) = attempts e1)
    as -> by (destruct He as [-> | ->]; [by destruct e1|done]).
  rewrite Ha, filter_app, length_app.
  rewrite (filter_cons_False _ module_id0), filter_nil; [simpl; lia|].
  intros ->. done.
Qed.

Lemma steps_attempts_for xs : ∀ e module_id,
  module_id ∈ patched_modules e ->
  attempts_for module_id (steps xs e) = attempts_for module_id e.
Proof.
  induction xs as [|x xs IH]; intros e module_id H; simpl; [done|].
  rewrite IH by (by apply step_patched_grows). by apply step_attempts_for.
Qed.

End HistoryProperties.

(** ** The claims on patching at most once and on the accessors *)

Section HistoryClaims.

Variable host_eval : text -> option compiled.
Variable host_new_function : text -> option compiled.

Abbreviation step' := (run_op host_eval host_new_function).
Abbreviation steps' := (run_ops host_eval host_new_function).
Abbreviation get_or_patch' := (_get_or_patch_factory host_eval host_new_function).

(** C1 (amended). The first call of a factory proxy for an id, on a target
    without the original-factory marker, enters the matching loop once;
    when it returns, the id is in [patched_modules] whatever the patches
    did, and it returns unless the marker could not be put on what a
    patch compiled.  Once the id is in the set, it stays there, no step of
    any continuation enters the loop for it again, and a call for it
    returns with the engine as it was.  A target that carries the marker
    is handed back at once, nothing matched and nothing added. *)
Theorem patching_attempted_at_most_once o random_digits xs ys module_id fac :
  let e1 := steps' xs (initialize o random_digits) in
  let e2 := step' (CallProxy module_id fac) e1 in
  let e3 := steps' ys e2 in
  is_Some (module_factories e1) ->
  f_original fac = None ->
  module_id ∉ patched_modules e1 ->
  attempts e2 = attempts e1 ++ [module_id] ∧
  ((∃ f, get_or_patch' module_id fac e1 = (Normal f, e2) ∧
         module_id ∈ patched_modules e2) ∨
   get_or_patch' module_id fac e1
     = (Throw (TypeError "Cannot create property on this value"), e2)) ∧
  (module_id ∈ patched_modules e2 ->
   module_id ∈ patched_modules e3 ∧
   attempts_for module_id e3 = attempts_for module_id e2 ∧
   ∀ g, ∃ f, get_or_patch' module_id g e3 = (Normal f, e3)) ∧
  (∀ g e, f_original g ≠ None -> get_or_patch' module_id g e = (Normal g, e)).
Proof.
  intros e1 e2 e3 Hm Ho Hn.
  assert (e2 = snd (get_or_patch' module_id fac e1)) as He2.
  { unfold e2, run_op. destruct Hm as [mf ->]. done. }
  destruct (get_or_patch_first host_eval host_new_function module_id fac e1
              Ho Hn Hm) as (e' & Hfr & Hc).
  apply attempt_frame in Hfr as [_ Ha].
  split; [|split; [|split]].
  - rewrite He2. destruct Hc as [[f ->] | ->]; simpl; [by destruct e'|done].
  - rewrite He2. destruct Hc as [[f ->] | ->]; simpl; [left|by right].
    exists f. split; [done|]. destruct e'; simpl. set_solver.
  - intros H2.
    assert (module_id ∈ patched_modules e3) as H3
      by (by apply (steps_patched_grow host_eval host_new_function)).
    split; [done|].
    split; [by apply (steps_attempts_for host_eval host_new_function)|].
    intros g. destruct (f_original g) eqn:Hg.
    + exists g. apply get_or_patch_marked. congruence.
    + exists g. by apply get_or_patch_again.
  - intros g e. apply get_or_patch_marked.
Qed.

(** C8 (amended). Until the factory collection is detected,
    [webpackRequire] and [moduleFactories] give [null]; from the accepted
    assignment on, each gives the object detected then.  [moduleCache]
    gives the cache wrapper at every moment, never [null] and never the
    detected cache itself. *)
Theorem accessors_follow_detection o random_digits xs this addr found stack_lines
    ys r1 r3 :
  let e1 := steps' xs (initialize o random_digits) in
  let e2 := step' (SetModules this addr found stack_lines) e1 in
  let e3 := steps' ys e2 in
  hook_webpack_detected e1 = false ->
  hook_webpack_detected e2 = true ->
  attached e1 r1 ->
  attached e3 r3 ->
  (webpackRequire r1 = Null ∧ moduleFactories r1 = Null ∧
   moduleCache r1 = CacheWrapper) ∧
  (webpackRequire r3 = RequireFunction this ∧
   moduleFactories r3 = FactoriesObject addr ∧
   moduleCache r3 = CacheWrapper) ∧
  (∀ r, patcher r = None ->
        webpackRequire r = Null ∧ moduleFactories r = Null ∧
        moduleCache r = CacheWrapper).
Proof.
  intros e1 e2 e3 Hf1 Hf2 Hr1 Hr3. split; [|split].
  - assert (undetected_is_empty e1) as Hu
      by apply steps_undetected, initialize_undetected.
    destruct (Hu Hf1) as [Hw Hm].
    unfold webpackRequire, moduleFactories, moduleCache. rewrite Hr1, Hw, Hm. done.
  - destruct (accepted e1 this stack_lines) eqn:Ha.
    + destruct (modules_setter_accepted this addr found stack_lines e1 Ha)
        as (e' & He' & _ & Hw & Hm).
      assert (e2 = e') as He2 by (unfold e2; simpl; by rewrite He').
      destruct (steps_detected_stay host_eval host_new_function ys e2 Hf2)
        as (_ & Hw3 & Hm3).
      fold e3 in Hw3, Hm3. rewrite He2, Hw in Hw3. rewrite He2, Hm in Hm3.
      unfold webpackRequire, moduleFactories, moduleCache. rewrite Hr3, Hw3.
      destruct (module_factories e3) as [[a m]|]; simpl in Hm3; [|done].
      by injection Hm3 as ->.
    + exfalso. unfold e2 in Hf2. simpl in Hf2.
      rewrite modules_setter_rejected in Hf2 by done. simpl in Hf2. congruence.
  - intros r Hr. unfold webpackRequire, moduleFactories, moduleCache. by rewrite Hr.
Qed.

End HistoryClaims.

(** ** Registration *)

Lemma ensure_registrar_spec name o existing e :
  ∃ e', ensure_registrar name o existing e = (Normal tt, e') ∧
        patches e' = patches e ∧ hooked e' = hooked e ∧
        match registrar_slot name (window_Registrars e) with
        | Missing =>
            ∃ r, window_Registrars e' = <[name:=r]> (window_Registrars e) ∧
                 registrars e' = <[name:=r]> (registrars e) ∧
                 match existing with
                 | Some x => r = x
                 | None =>
                     (∀ d, o_data o = Some d -> reg_data r = d) ∧
                     (∀ f, o_functions o = Some f -> reg_functions r = f)
                 end
        | _ => e' = e
        end.
Proof.
  unfold ensure_registrar. rewrite bind_get.
  destruct (registrar_slot name (window_Registrars e));
    [by exists e|by exists e|].
  destruct existing as [x|].
  - rewrite bind_ret, bind_modify, bind_modify. unfold logger, modify.
    eexists. split; [reflexivity|]. destruct e; simpl.
    split; [done|]. split; [done|]. by exists x.
  - unfold or_fresh, fresh_obj.
    destruct (o_data o) as [d|], (o_functions o) as [f|];
      repeat first [rewrite bind_assoc | rewrite bind_get | rewrite bind_ret
                   | rewrite bind_modify];
      unfold logger, modify; (eexists; split; [reflexivity|]);
      destruct e; simpl; (split; [done|]); (split; [done|]);
      eexists; (split; [done|]); (split; [done|]); simpl;
      split; congruence.
Qed.

Lemma register_patches_spec o ps existing name e :
  name_given o = Some name ->
  ∃ e1 e', ensure_registrar name o existing e = (Normal tt, e1) ∧
           register_patches o ps existing e
             = (Normal (handle_of name (window_Registrars e1)), e') ∧
           patches e' = add_patches name ps (patches e) ∧
           window_Registrars e' = window_Registrars e1 ∧
           registrars e' = registrars e1.
Proof.
  intros Hn. unfold register_patches. rewrite Hn.
  destruct (ensure_registrar_spec name o existing e) as (e1 & He1 & Hp & _ & _).
  exists e1. rewrite (bind_normal _ _ _ _ _ He1), bind_modify, bind_get, bind_logger.
  unfold hook_webpack. rewrite bind_assoc, bind_get.
  set (e2 := upd_log _ _).
  assert (patches e2 = add_patches name ps (patches e) ∧
          window_Registrars e2 = window_Registrars e1 ∧
          registrars e2 = registrars e1) as (H1 & H2 & H3).
  { unfold e2. destruct e1; simpl in *. by subst. }
  clearbody e2.
  destruct (hooked e2).
  - rewrite bind_ret, bind_get. unfold ret.
    eexists. split; [done|]. rewrite H2. split; [reflexivity|]. done.
  - rewrite bind_assoc, bind_modify, bind_logger, bind_get. unfold ret.
    set (e3 := upd_log _ _).
    assert (patches e3 = patches e2 ∧
            window_Registrars e3 = window_Registrars e2 ∧
            registrars e3 = registrars e2) as (H1' & H2' & H3').
    { unfold e3. by destruct e2. }
    exists e3. rewrite H1', H2', H3', H2. done.
Qed.

(** C5. A registrar name that a plain object inherits from
    [Object.prototype] finds the slot of [Registrars] already truthy on
    the first call: no registrar is made from the options supplied, and
    the call hands back the inherited member. *)
Theorem register_inherited_name o ps name e :
  name_given o = Some name ->
  inherited_key name = true ->
  window_Registrars e !! name = None ->
  ∃ e', register_patches o ps None e = (Normal (PrototypeMember name), e') ∧
        window_Registrars e' = window_Registrars e ∧
        registrars e' = registrars e.
Proof.
  intros Hn Hi Hw.
  destruct (register_patches_spec o ps None name e Hn)
    as (e1 & e' & He1 & -> & _ & Hw' & Hr').
  destruct (ensure_registrar_spec name o None e) as (e1' & He1' & _ & _ & Hs).
  rewrite He1 in He1'. injection He1' as <-.
  unfold registrar_slot in Hs. rewrite Hw, Hi in Hs. subst e1.
  exists e'. unfold handle_of, registrar_slot. rewrite Hw, Hi. done.
Qed.

(** For any other name the registrar is made on the first call, from the
    data and functions supplied, and handed back as it is by every later
    call with that name, whatever that call supplies. *)
Lemma register_creates_then_reuses o ps name e :
  name_given o = Some name ->
  inherited_key name = false ->
  window_Registrars e !! name = None ->
  ∃ r e', register_patches o ps None e = (Normal (Registrar r), e') ∧
          window_Registrars e' !! name = Some r ∧
          (∀ d, o_data o = Some d -> reg_data r = d) ∧
          (∀ f, o_functions o = Some f -> reg_functions r = f) ∧
          ∀ o2 ps2 existing e2,
            name_given o2 = Some name ->
            window_Registrars e2 !! name = Some r ->
            ∃ e3, register_patches o2 ps2 existing e2 = (Normal (Registrar r), e3) ∧
                  window_Registrars e3 = window_Registrars e2.
Proof.
  intros Hn Hi Hw.
  destruct (register_patches_spec o ps None name e Hn)
    as (e1 & e' & He1 & -> & _ & Hw' & _).
  destruct (ensure_registrar_spec name o None e) as (e1' & He1' & _ & _ & Hs).
  rewrite He1 in He1'. injection He1' as <-.
  unfold registrar_slot in Hs. rewrite Hw, Hi in Hs.
  destruct Hs as (r & Hr & _ & Hd & Hf).
  exists r, e'. unfold handle_of, registrar_slot.
  rewrite Hw', Hr, lookup_insert_eq. repeat split; try done.
  intros o2 ps2 existing e2 Hn2 Hw2.
  destruct (register_patches_spec o2 ps2 existing name e2 Hn2)
    as (e3 & e4 & He3 & -> & _ & Hw4 & _).
  destruct (ensure_registrar_spec name o2 existing e2) as (e3' & He3' & _ & _ & Hs).
  rewrite He3 in He3'. injection He3' as <-.
  unfold registrar_slot in Hs. rewrite Hw2 in Hs. subst e3.
  exists e4. unfold handle_of, registrar_slot. by rewrite Hw2.
Qed.

(** *** Merging patches *)

Lemma merge_into_none p existing :
  merge_into p existing = None ->
  Forall (fun q => find_strict_eq (p_find q) (p_find p) = false) existing.
Proof.
  induction existing as [|q rest IH]; simpl; [by constructor|].
  destruct (find_strict_eq (p_find q) (p_find p)) eqn:E; [done|].
  destruct (merge_into p rest); [done|]. intros _. constructor; auto.
Qed.

Lemma merge_into_some p existing merged :
  merge_into p existing = Some merged ->
  ∃ l q r,
    existing = l ++ q :: r ∧
    Forall (fun x => find_strict_eq (p_find x) (p_find p) = false) l ∧
    find_strict_eq (p_find q) (p_find p) = true ∧
    merged = l ++ Patch (p_find q) (p_replacements q ++ p_replacements p)
                     (p_registrar_name q) :: r.
Proof.
  revert merged. induction existing as [|q rest IH]; intros merged; simpl; [done|].
  destruct (find_strict_eq (p_find q) (p_find p)) eqn:E.
  - intros [= <-]. exists [], q, rest. repeat split; [constructor|done].
  - destruct (merge_into p rest) as [m|]; [|done]. intros [= <-].
    destruct (IH m eq_refl) as (l & q' & r & -> & Hl & Hq & ->).
    exists (q :: l), q', r. repeat split; [by constructor|done].
Qed.

Lemma distinct_finds_by_find ps qs :
  p_find <$> ps = p_find <$> qs -> distinct_finds ps -> distinct_finds qs.
Proof.
  revert qs. induction ps as [|p ps IH]; intros [|q qs]; simpl; try done.
  intros [= Hpq Hrest] [Hall Hd]. split; [|by apply IH].
  rewrite <- Hpq. clear -Hall Hrest.
  assert (Forall (fun f => find_strict_eq (p_find p) f = false) (p_find <$> ps))
    as H1 by (by apply Forall_fmap).
  apply (Forall_fmap p_find (fun f => find_strict_eq (p_find p) f = false) qs).
  exact (eq_ind _ (Forall (fun f => find_strict_eq (p_find p) f = false)) H1 _ Hrest).
Qed.

Lemma distinct_finds_snoc ps p :
  distinct_finds ps ->
  Forall (fun q => find_strict_eq (p_find q) (p_find p) = false) ps ->
  distinct_finds (ps ++ [p]).
Proof.
  induction ps as [|q ps IH]; simpl.
  - intros _ _. split; [constructor|done].
  - intros [Hall Hd] Hp. apply Forall_cons in Hp as [Hq Hp]. split; [|by apply IH].
    apply Forall_app. split; [done|]. by constructor.
Qed.

Lemma add_patch_distinct name p existing :
  distinct_finds existing -> distinct_finds (add_patch name p existing).
Proof.
  intros Hd. unfold add_patch.
  destruct (merge_into _ existing) as [merged|] eqn:E.
  - apply merge_into_some in E as (l & q & r & -> & _ & _ & ->).
    eapply distinct_finds_by_find; [|exact Hd].
    by rewrite !fmap_app, !fmap_cons.
  - apply merge_into_none in E. by apply distinct_finds_snoc.
Qed.

Lemma add_patches_distinct name ps : ∀ existing,
  distinct_finds existing -> distinct_finds (add_patches name ps existing).
Proof.
  unfold add_patches. induction ps as [|p ps IH]; intros existing Hd; simpl; [done|].
  apply IH. by apply add_patch_distinct.
Qed.

(** C6 (amended). Registering patches keeps the patch list free of two
    entries with strictly equal [find] values (the same string, or the
    very same array or expression object); a new patch whose [find] is
    strictly equal to that of a registered one adds no entry: its
    replacements go to the end of the first such entry's list. *)
Theorem patches_merge_on_strictly_equal_find o ps existing name e :
  name_given o = Some name ->
  distinct_finds (patches e) ->
  distinct_finds (patches (snd (register_patches o ps existing e))) ∧
  ∀ p q,
    q ∈ patches e ->
    find_strict_eq (p_find q) (p_find p) = true ->
    ∃ l q' r,
      patches e = l ++ q' :: r ∧
      Forall (fun x => find_strict_eq (p_find x) (p_find p) = false) l ∧
      find_strict_eq (p_find q') (p_find p) = true ∧
      patches (snd (register_patches o [p] existing e))
        = l ++ Patch (p_find q') (p_replacements q' ++ p_replacements p)
                 (p_registrar_name q') :: r.
Proof.
  intros Hn Hd. split.
  - destruct (register_patches_spec o ps existing name e Hn)
      as (e1 & e' & _ & Hreg & Hp & _).
    rewrite Hreg. simpl. rewrite Hp. by apply add_patches_distinct.
  - intros p q Hq Heq.
    destruct (register_patches_spec o [p] existing name e Hn)
      as (e1 & e' & _ & Hreg & Hp & _).
    rewrite Hreg. simpl. rewrite Hp.
    unfold add_patches, add_patch. simpl.
    destruct (merge_into _ (patches e)) as [merged|] eqn:E.
    + apply merge_into_some in E as (l & q' & r & Hex & Hl & Hq' & ->).
      simpl in *. by exists l, q', r.
    + apply merge_into_none in E. simpl in E.
      rewrite Forall_forall in E. rewrite (E q Hq) in Heq. done.
Qed.

(** ** Errors and the caller *)

Lemma emit_event_returns event args e :
  known_event event -> ∃ e', _emit_event event args e = (Normal tt, e').
Proof.
  intros Hk. destruct (emit_event_frame event args Hk e) as ([] & Hn & _).
  exists (snd (_emit_event event args e)).
  by destruct (_emit_event event args e) as [c e']; simpl in *; subst.
Qed.

Lemma call_listeners_log event args ls : ∀ e,
  Forall passive ls ->
  log (snd (call_listeners event args ls e))
  = log e ++ listener_errors event args ls.
Proof.
  induction ls as [|l ls IH]; intros e Hp; simpl.
  - by rewrite app_nil_r.
  - apply Forall_cons in Hp as [Hl Hp]. unfold bind at 1.
    rewrite call_listener_passive by done.
    rewrite IH by done. unfold listener_errors. simpl.
    destruct (l_run l args); destruct e; simpl; [done|].
    by rewrite <- app_assoc.
Qed.

(** A dispatch over listeners that make no call into the engine: each is
    called once, in the order of subscription, and each error is logged. *)
Lemma emit_event_passive_returns event args e :
  known_event event ->
  passive_event event e ->
  ∃ l e', listeners_of event (event_listeners e) = Own l ∧
          _emit_event event args e = (Normal tt, e') ∧
          calls e' = calls e ++ ((fun x => (event, l_addr x, args)) <$> l) ∧
          log e' = log e ++ listener_errors event args l.
Proof.
  intros Hk Hp.
  destruct (listeners_of_known event (event_listeners e) Hk) as [l Hl].
  destruct (emit_event_returns event args e Hk) as [e' He].
  exists l, e'. split; [done|]. split; [done|].
  specialize (Hp l Hl).
  rewrite (emit_event_passive event args l e Hl Hp) in He.
  pose proof (call_listeners_calls event args l e Hp) as Hc.
  pose proof (call_listeners_log event args l e Hp) as Hg.
  rewrite He in Hc, Hg. done.
Qed.

Section Errors.

Variable host_eval : text -> option compiled.
Variable host_new_function : text -> option compiled.


End Errors.

(** ** Listeners *)



Lemma inherited_not_known event :
  inherited_key event = true -> ∀ t, listeners_of event t = Inherited.
Proof.
  intros Hi t. unfold listeners_of.
  repeat (destruct (decide _) as [->|_]; [by vm_compute in Hi|]).
  by rewrite Hi.
Qed.

(** C10. An event name that a plain object inherits from
    [Object.prototype] is none of the three known events, yet
    [add_event_listener] does not take it for unknown: it logs no warning
    and throws a type error to its caller. *)
Theorem inherited_event_name_throws event callback e :
  inherited_key event = true ->
  ¬ known_event event ∧
  add_event_listener event callback e
  = (Throw (TypeError "this.event_listeners[event].push is not a function"), e).
Proof.
  intros Hi. split.
  - intros [-> | [-> | ->]]; by vm_compute in Hi.
  - unfold add_event_listener. rewrite bind_get.
    by rewrite (inherited_not_known event Hi).
Qed.

(** For any other name that is not a known event the listener is turned
    away with a warning, and emitting that name calls nothing. *)
Lemma unknown_event_is_ignored event callback args e :
  ¬ known_event event ->
  inherited_key event = false ->
  add_event_listener event callback e
    = (Normal tt, upd_log (fun l => l ++ [WarnUnknownEvent event]) e) ∧
  _emit_event event args e = (Normal tt, e).
Proof.
  intros Hk Hi.
  assert (listeners_of event (event_listeners e) = Missing) as Hl.
  { unfold listeners_of.
    repeat (destruct (decide _) as [->|_];
            [exfalso; apply Hk; unfold known_event; tauto|]).
    by rewrite Hi. }
  unfold add_event_listener, _emit_event. rewrite !bind_get, Hl. done.
Qed.

(** ** Texts: prefixes and occurrences *)

Lemma prefixb_nil s : prefixb [] s = true.
Proof. by destruct s. Qed.

Lemma prefixb_cons a p b s :
  prefixb (a :: p) (b :: s) = bool_decide (a = b) && prefixb p s.
Proof.
  simpl. destruct (Ascii.eqb_spec a b) as [->|Hne].
  - by rewrite bool_decide_eq_true_2.
  - by rewrite bool_decide_eq_false_2.
Qed.

Lemma prefixb_spec p : ∀ s, prefixb p s = true ↔ ∃ r, s = p ++ r.
Proof.
  induction p as [|a p IH]; intros s.
  - rewrite prefixb_nil. split; [by exists s|done].
  - destruct s as [|b s]; simpl.
    + split; [done|]. by intros [r Hr].
    + destruct (Ascii.eqb_spec a b) as [->|Hne].
      * rewrite IH. split; intros [r Hr]; exists r; [by rewrite Hr|].
        by injection Hr.
      * split; [done|]. intros [r Hr]. injection Hr. congruence.
Qed.

Lemma prefixb_app p r : prefixb p (p ++ r) = true.
Proof. apply prefixb_spec. by exists r. Qed.

Lemma prefixb_refl p : prefixb p p = true.
Proof. apply prefixb_spec. exists []. by rewrite app_nil_r. Qed.

Lemma prefixb_app_same a : ∀ x y, prefixb (a ++ x) (a ++ y) = prefixb x y.
Proof.
  induction a as [|c a IH]; intros x y; simpl; [done|].
  by rewrite Ascii.eqb_refl.
Qed.

Lemma prefixb_app_l a b s : prefixb (a ++ b) s = true -> prefixb a s = true.
Proof.
  rewrite !prefixb_spec. intros [r ->]. exists (b ++ r). by rewrite app_assoc.
Qed.

(** A prefix of [x ++ y] lies within [x], or [x] is a prefix of it. *)
Lemma prefixb_app_cases p : ∀ x y,
  prefixb p (x ++ y) = true -> prefixb p x = true ∨ prefixb x p = true.
Proof.
  induction p as [|a p IH]; intros x y; [by left|].
  destruct x as [|b x]; [by right|]. simpl.
  destruct (Ascii.eqb_spec a b) as [->|Hne]; [|done].
  rewrite Ascii.eqb_refl. apply IH.
Qed.

Lemma includes_nil_r s : includes s [] = true.
Proof. destruct s; done. Qed.

Lemma includes_cons c s p :
  includes (c :: s) p = prefixb p (c :: s) || includes s p.
Proof. done. Qed.

Lemma includes_false_prefix s p : includes s p = false -> prefixb p s = false.
Proof. destruct s; simpl; by intros [? _]%orb_false_iff. Qed.

(** A pattern occurs in a text exactly when it starts one of its suffixes. *)
Lemma includes_spec p : ∀ s, includes s p = true ↔ ∃ a b, s = a ++ p ++ b.
Proof.
  induction s as [|c s IH].
  - simpl. rewrite orb_false_r, prefixb_spec. split.
    + intros [r Hr]. by exists [], r.
    + intros (a & b & H). destruct a; [by exists b|done].
  - rewrite includes_cons, orb_true_iff, prefixb_spec, IH. split.
    + intros [[r Hr]|(a & b & ->)]; [by exists [], r|by exists (c :: a), b].
    + intros (a & b & H). destruct a as [|c' a]; [left; by exists b|].
      right. injection H as -> ->. by exists a, b.
Qed.

Lemma includes_pattern_prefix s a b :
  includes s (a ++ b) = true -> includes s a = true.
Proof.
  rewrite !includes_spec. intros (x & y & ->). exists x, (b ++ y).
  by rewrite <- app_assoc.
Qed.

(** ** Texts: the scan of [replaceAll] without the callback *)

Lemma substitute_all_skip table : ∀ s k,
  substitute_all table k s = substitute_all table 0 (skipn k s).
Proof.
  induction s as [|c s IH]; intros k; destruct k; try done.
  simpl. apply IH.
Qed.

Lemma substitute_all_nil table k : substitute_all table k [] = [].
Proof. by destruct k. Qed.

Lemma find_token_some table s p r :
  find_token table s = Some (p, r) -> prefixb p s = true ∧ (p, r) ∈ table.
Proof.
  induction table as [|[q t] table IH]; simpl; [done|].
  destruct (prefixb q s) eqn:E.
  - intros [= -> ->]. split; [done|]. apply list_elem_of_here.
  - intros H. destruct (IH H). split; [done|]. by apply list_elem_of_further.
Qed.

Lemma find_token_none table s :
  find_token table s = None ↔ ∀ p r, (p, r) ∈ table -> prefixb p s = false.
Proof.
  induction table as [|[q t] table IH]; simpl.
  - split; [|done]. intros _ p r H. by apply elem_of_nil in H.
  - destruct (prefixb q s) eqn:E.
    + split; [done|]. intros H. rewrite (H q t) in E; [done|apply list_elem_of_here].
    + rewrite IH. split.
      * intros H p r [[= -> ->]|Hin]%elem_of_cons; [done|by eapply H].
      * intros H p r Hin. eapply H. by apply list_elem_of_further.
Qed.

Lemma find_token_app table1 table2 s :
  find_token (table1 ++ table2) s
  = match find_token table1 s with
    | Some x => Some x
    | None => find_token table2 s
    end.
Proof.
  induction table1 as [|[q t] table1 IH]; simpl; [done|].
  by destruct (prefixb q s).
Qed.

(** A token found at the head of the text is replaced, and the scan goes
    on behind it. *)
Lemma substitute_all_token table p r rest :
  p ≠ [] ->
  find_token table (p ++ rest) = Some (p, r) ->
  substitute_all table 0 (p ++ rest) = r ++ substitute_all table 0 rest.
Proof.
  intros Hp Hf. destruct p as [|c p]; [done|]. simpl app.
  unfold substitute_all; fold substitute_all. simpl app in Hf. rewrite Hf.
  f_equal. rewrite substitute_all_skip.
  replace (length (c :: p) - 1) with (length p) by (simpl; lia).
  by rewrite drop_app_length.
Qed.

Lemma substitute_all_copy table c s :
  find_token table (c :: s) = None ->
  substitute_all table 0 (c :: s) = c :: substitute_all table 0 s.
Proof. intros Hf. simpl. by rewrite Hf. Qed.

Lemma substitute_all_through table y : ∀ x,
  no_token_inside table x y ->
  substitute_all table 0 (x ++ y) = x ++ substitute_all table 0 y.
Proof.
  induction x as [|c x IH]; intros H; [done|].
  simpl app. rewrite substitute_all_copy.
  - f_equal. apply IH. intros x1 x2 -> Hx2. by apply (H (c :: x1) x2).
  - by apply (H [] (c :: x)).
Qed.

Lemma substitute_all_empty_table : ∀ s, substitute_all [] 0 s = s.
Proof. induction s as [|c s IH]; simpl; [done|]. by rewrite IH. Qed.

(** ** Tokens that share a marker

    The argument for the placeholder pass, for any marker and any table
    of tokens built on it. *)

Section Tokens.

Variable marker : text.
Variable U : ascii -> bool.
Variable all : list (text * text).

Hypothesis marker_nonempty : marker ≠ [].
Hypothesis marker_chars : forallb U marker = true.
Hypothesis token_starts : ∀ p r, (p, r) ∈ all -> prefixb marker p = true.
Hypothesis token_inner : ∀ p r, (p, r) ∈ all ->
  ∀ p1 p2 rest, p = p1 ++ p2 -> p1 ≠ [] -> p2 ≠ [] ->
  prefixb marker (p2 ++ rest) = false.
Hypothesis token_distinct : ∀ p r q t, (p, r) ∈ all -> (q, t) ∈ all ->
  (q, t) ≠ (p, r) -> ∀ rest, prefixb q (p ++ rest) = false.
Hypothesis replacement_first : ∀ p r, (p, r) ∈ all ->
  ∃ c r', r = c :: r' ∧ U c = false.
Hypothesis replacement_last : ∀ p r, (p, r) ∈ all ->
  ∃ r' c, r = r' ++ [c] ∧ U c = false.
Hypothesis replacement_clean : ∀ p r, (p, r) ∈ all -> includes r marker = false.

Lemma token_nonempty p r : (p, r) ∈ all -> p ≠ [].
Proof.
  intros Hin ->. apply token_starts in Hin.
  destruct marker; [done|discriminate].
Qed.

Lemma token_needs_marker p r s :
  (p, r) ∈ all -> prefixb marker s = false -> prefixb p s = false.
Proof.
  intros Hin Hm. destruct (prefixb p s) eqn:E; [|done].
  apply token_starts in Hin. apply prefixb_spec in Hin as [x ->].
  apply prefixb_app_l in E. congruence.
Qed.

Lemma intact_suffix a b : intact marker all (a ++ b) -> intact marker all b.
Proof.
  intros H x y -> Hy. apply (H (a ++ x) y); [by rewrite app_assoc|done].
Qed.

(** The marker does not start inside a replacement, whatever follows. *)
Lemma marker_not_inside_replacement p r r1 r2 y :
  (p, r) ∈ all -> r = r1 ++ r2 -> r2 ≠ [] -> prefixb marker (r2 ++ y) = false.
Proof.
  intros Hin -> Hr2. destruct (prefixb marker (r2 ++ y)) eqn:E; [|done].
  exfalso. apply prefixb_app_cases in E as [E|E].
  - pose proof (replacement_clean p _ Hin) as Hc.
    assert (includes (r1 ++ r2) marker = true) as Hi; [|congruence].
    apply includes_spec. apply prefixb_spec in E as [z ->].
    by exists r1, z.
  - destruct (replacement_last p _ Hin) as (r' & c & Hr & Hc).
    assert (∃ r2', r2 = r2' ++ [c]) as [r2' ->].
    { destruct (exists_last Hr2) as (r2' & c' & ->).
      rewrite app_assoc in Hr. apply app_inj_tail in Hr as [_ ->]. by exists r2'. }
    apply prefixb_spec in E as [z Hz].
    rewrite forallb_forall in marker_chars.
    rewrite (marker_chars c) in Hc; [done|].
    rewrite Hz. apply in_or_app. left. apply in_or_app. right. by left.
Qed.

(** A text of marker characters at the head of the output was copied
    from the head of the input. *)
Lemma copied_prefix table u :
  (∀ x, x ∈ table -> x ∈ all) ->
  forallb U u = true ->
  ∀ s, prefixb u (substitute_all table 0 s) = true -> prefixb u s = true.
Proof.
  intros Hsub. induction u as [|m u IH]; intros Hu s; [done|].
  simpl in Hu. apply andb_true_iff in Hu as [Hm Hu].
  destruct s as [|c s]; [done|]. simpl substitute_all.
  destruct (find_token table (c :: s)) as [[p r]|] eqn:Ft.
  - apply find_token_some in Ft as [_ Hin].
    destruct (replacement_first p r (Hsub _ Hin)) as (c0 & r' & -> & Hc0).
    simpl. destruct (Ascii.eqb_spec m c0) as [->|]; [congruence|done].
  - simpl. destruct (Ascii.eqb m c); [|done]. by apply IH.
Qed.

(** A token of the full table that the table does not hold is copied. *)
Lemma other_token_copied table p r rest :
  (∀ x, x ∈ table -> x ∈ all) ->
  (p, r) ∈ all -> (p, r) ∉ table ->
  substitute_all table 0 (p ++ rest) = p ++ substitute_all table 0 rest.
Proof.
  intros Hsub Hin Hnot. apply substitute_all_through.
  intros p1 p2 -> Hp2. apply find_token_none. intros q t Hq.
  destruct p1 as [|c p1].
  - simpl. eapply (token_distinct _ r q t); [done|by apply Hsub|].
    intros [= -> ->]. done.
  - eapply token_needs_marker; [by apply Hsub|].
    by eapply (token_inner _ r Hin (c :: p1) p2).
Qed.

(** One more pass of [replaceAll], for a further token, gives what the
    single simultaneous pass over the longer table gives. *)
Lemma pass_absorbed table P R :
  (∀ x, x ∈ table ++ [(P, R)] -> x ∈ all) ->
  ∀ n s, (length s <= n)%nat -> intact marker all s ->
  substitute_all [(P, R)] 0 (substitute_all table 0 s)
  = substitute_all (table ++ [(P, R)]) 0 s.
Proof.
  intros Hsub.
  assert (∀ x, x ∈ table -> x ∈ all) as Hsub1.
  { intros x Hx. apply Hsub, elem_of_app. by left. }
  assert ((P, R) ∈ all) as HP.
  { apply Hsub, elem_of_app. right. apply list_elem_of_singleton. done. }
  induction n as [|n IH]; intros s Hlen Hint.
  { destruct s; [done|simpl in Hlen; lia]. }
  destruct (find_token table s) as [[T RT]|] eqn:Ft.
  - (* a token of the table starts the text *)
    pose proof (find_token_some _ _ _ _ Ft) as [Hpre HT].
    apply prefixb_spec in Hpre as [rest ->].
    assert (T ≠ []) as HTne by (eapply token_nonempty; eauto).
    rewrite (substitute_all_token table T RT rest HTne Ft).
    rewrite substitute_all_through.
    + rewrite (substitute_all_token (table ++ [(P, R)]) T RT rest HTne)
        by (by rewrite find_token_app, Ft).
      f_equal. apply IH; [|by eapply intact_suffix].
      rewrite length_app in Hlen. destruct T; [done|simpl in Hlen; lia].
    + intros r1 r2 -> Hr2. apply find_token_none.
      intros q t [= -> ->]%list_elem_of_singleton.
      eapply token_needs_marker; [exact HP|].
      by eapply (marker_not_inside_replacement T (r1 ++ r2) r1 r2);
        [apply Hsub1| |].
  - destruct (prefixb P s) eqn:Fp.
    + (* the further token starts the text *)
      apply prefixb_spec in Fp as [rest ->].
      assert (P ≠ []) as HPne by (eapply token_nonempty; eauto).
      rewrite substitute_all_through.
      * rewrite (substitute_all_token [(P, R)] P R _ HPne)
          by (simpl; by rewrite prefixb_app).
        rewrite (substitute_all_token (table ++ [(P, R)]) P R rest HPne)
          by (rewrite find_token_app, Ft; simpl; by rewrite prefixb_app).
        f_equal. apply IH; [|by eapply intact_suffix].
        rewrite length_app in Hlen. destruct P; [done|simpl in Hlen; lia].
      * intros p1 p2 -> Hp2. destruct p1 as [|c p1]; [done|].
        apply find_token_none. intros q t Hq.
        eapply token_needs_marker; [by apply Hsub1|].
        by eapply (token_inner _ R HP (c :: p1) p2).
    + (* no token starts the text *)
      destruct s as [|c s]; [done|].
      assert (find_token (table ++ [(P, R)]) (c :: s) = None) as Fall.
      { rewrite find_token_app, Ft. simpl. by rewrite Fp. }
      rewrite (substitute_all_copy (table ++ [(P, R)]) c s Fall).
      rewrite (substitute_all_copy table c s Ft).
      rewrite substitute_all_copy.
      * f_equal. apply IH; [simpl in Hlen; lia|].
        by apply (intact_suffix [c] s).
      * simpl. destruct (prefixb P (c :: substitute_all table 0 s)) eqn:E; [|done].
        exfalso.
        rewrite <- (substitute_all_copy table c s Ft) in E.
        assert (prefixb marker (c :: s) = true) as Hm.
        { apply (copied_prefix table marker Hsub1 marker_chars).
          apply token_starts in HP. apply prefixb_spec in HP as [z ->].
          by apply prefixb_app_l in E. }
        destruct (Hint [] (c :: s) eq_refl Hm) as (p & r & Hin & Hp).
        destruct (decide ((p, r) ∈ table ++ [(P, R)])) as [Hyes|Hno].
        -- rewrite find_token_none in Fall. rewrite (Fall p r Hyes) in Hp. done.
        -- apply prefixb_spec in Hp as [rest Hrest]. rewrite Hrest in E.
           rewrite (other_token_copied table p r rest Hsub1 Hin) in E.
           ++ rewrite (token_distinct p r P R Hin HP) in E; [done|].
              intros Heq. apply Hno. rewrite <- Heq. apply elem_of_app. right.
              by apply list_elem_of_singleton.
           ++ intros Hp'. apply Hno. apply elem_of_app. by left.
Qed.

Lemma includes_app_false x y :
  (∀ x1 x2, x = x1 ++ x2 -> x2 ≠ [] -> prefixb marker (x2 ++ y) = false) ->
  includes y marker = false ->
  includes (x ++ y) marker = false.
Proof.
  induction x as [|c x IH]; intros H Hy; [done|].
  simpl app. rewrite includes_cons. apply orb_false_iff. split.
  - by apply (H [] (c :: x)).
  - apply IH; [|done]. intros x1 x2 -> Hx2. by apply (H (c :: x1) x2).
Qed.

(** The simultaneous pass leaves no marker behind. *)
Lemma substituted_clean : ∀ n s,
  (length s <= n)%nat -> intact marker all s ->
  includes (substitute_all all 0 s) marker = false.
Proof.
  induction n as [|n IH]; intros s Hlen Hint.
  { destruct s; [|simpl in Hlen; lia]. simpl.
    destruct marker; [done|done]. }
  destruct (find_token all s) as [[T RT]|] eqn:Ft.
  - pose proof (find_token_some _ _ _ _ Ft) as [Hpre HT].
    apply prefixb_spec in Hpre as [rest ->].
    assert (T ≠ []) as HTne by (eapply token_nonempty; eauto).
    rewrite (substitute_all_token all T RT rest HTne Ft).
    apply includes_app_false.
    + intros r1 r2 -> Hr2. eapply marker_not_inside_replacement; eauto.
    + apply IH; [|by eapply intact_suffix].
      rewrite length_app in Hlen. destruct T; [done|simpl in Hlen; lia].
  - destruct s as [|c s].
    { simpl. destruct marker; [done|done]. }
    rewrite (substitute_all_copy all c s Ft). rewrite includes_cons.
    apply orb_false_iff. split.
    + destruct (prefixb marker (c :: substitute_all all 0 s)) eqn:E; [|done].
      exfalso. rewrite <- (substitute_all_copy all c s Ft) in E.
      apply (copied_prefix all marker (fun x H => H) marker_chars) in E.
      destruct (Hint [] (c :: s) eq_refl E) as (p & r & Hin & Hp).
      rewrite find_token_none in Ft. rewrite (Ft p r Hin) in Hp. done.
    + apply IH; [simpl in Hlen; lia|]. by apply (intact_suffix [c] s).
Qed.

End Tokens.

(** ** The placeholder tokens of an engine *)

(** The scan of [replaceAll] with a replacement string that holds no
    dollar sign is the plain scan. *)
Lemma get_substitution_plain matched before after tpl :
  forallb (fun c => negb (Ascii.eqb c "$")) tpl = true ->
  get_substitution matched before after tpl = tpl.
Proof.
  induction tpl as [|c tpl IH]; simpl; [done|].
  intros [Hc Ht]%andb_true_iff. apply negb_true_iff in Hc. rewrite Hc.
  by rewrite IH.
Qed.

Lemma replace_all_plain p tpl whole :
  p ≠ [] ->
  forallb (fun c => negb (Ascii.eqb c "$")) tpl = true ->
  ∀ s off skip, ∃ hit,
    replace_all p (string_replacer tpl) whole off skip s
    = Normal (substitute_all [(p, tpl)] skip s, hit).
Proof.
  intros Hp Ht. induction s as [|c s IH]; intros off skip.
  - destruct skip; simpl; [|by eexists].
    destruct p as [|a p]; [done|]. simpl. by eexists.
  - destruct skip as [|k]; simpl.
    + destruct (prefixb p (c :: s)) eqn:E.
      * unfold string_replacer at 1. rewrite get_substitution_plain by done.
        simpl. destruct p as [|a p]; [done|].
        destruct (IH (S off) (length p)) as [hit ->]. simpl.
        rewrite Nat.sub_0_r. by eexists.
      * destruct (IH (S off) 0) as [hit ->]. simpl. by eexists.
    + apply IH.
Qed.

Lemma replaceAll_str_plain p tpl s :
  p ≠ [] ->
  forallb (fun c => negb (Ascii.eqb c "$")) tpl = true ->
  replaceAll_str p tpl s = Normal (substitute_all [(p, tpl)] 0 s).
Proof.
  intros Hp Ht. unfold replaceAll_str.
  by destruct (replace_all_plain p tpl s Hp Ht s 0 0) as [hit ->].
Qed.

(** A stronger form of the case analysis on a prefix of [x ++ y]. *)
Lemma prefixb_app_split p : ∀ x y,
  prefixb p (x ++ y) = true ->
  prefixb p x = true ∨ ∃ z, p = x ++ z ∧ prefixb z y = true.
Proof.
  induction p as [|a p IH]; intros x y; [by left|].
  destruct x as [|b x]; [right; by exists (a :: p)|]. simpl.
  destruct (Ascii.eqb_spec a b) as [->|Hne]; [|done].
  intros [H|(z & -> & Hz)]%IH; [by left|right]. by exists z.
Qed.

(** A character that is no marker character separates occurrences. *)
Lemma includes_separated marker U c x y :
  marker ≠ [] ->
  forallb U marker = true ->
  U c = false ->
  includes x marker = false ->
  includes y marker = false ->
  includes (x ++ c :: y) marker = false.
Proof.
  intros Hne HU Hc Hx Hy.
  assert (∀ z, prefixb marker (c :: z) = false) as Hhead.
  { intros z. destruct marker as [|m marker']; [done|]. simpl.
    destruct (Ascii.eqb_spec m c) as [->|]; [|done].
    simpl in HU. apply andb_true_iff in HU as [HU _]. congruence. }
  induction x as [|d x IH].
  - simpl app. rewrite includes_cons, Hhead, Hy. done.
  - simpl app. rewrite includes_cons.
    rewrite includes_cons in Hx. apply orb_false_iff in Hx as [Hp Hx].
    rewrite IH by done. rewrite orb_false_r.
    destruct (prefixb marker (d :: x ++ c :: y)) eqn:E; [|done].
    apply (prefixb_app_split marker (d :: x) (c :: y)) in E
      as [E|(z & -> & Hz)]; [congruence|].
    destruct z as [|c' z].
    { rewrite app_nil_r in Hp. by rewrite prefixb_refl in Hp. }
    simpl in Hz. destruct (Ascii.eqb_spec c' c) as [->|]; [|done].
    rewrite forallb_app in HU. apply andb_true_iff in HU as [_ HU].
    simpl in HU. apply andb_true_iff in HU as [HU _]. congruence.
Qed.

Lemma placeholder_marker_nonempty : placeholder_marker ≠ [].
Proof. done. Qed.

Lemma placeholder_marker_chars : forallb marker_char placeholder_marker = true.
Proof. reflexivity. Qed.

Section EnginePlaceholders.

Variable id : text.
Variable registrar_name : option string.

Hypothesis id_chars : Forall (fun c => c ≠ "W"%char) id.
Hypothesis name_plain : plain_name registrar_name = true.

Abbreviation table := (placeholder_replacements id registrar_name).

Lemma name_has_no_dollar :
  forallb (fun c => negb (Ascii.eqb c "$")) (name_text registrar_name) = true.
Proof. unfold plain_name in name_plain. by apply andb_true_iff in name_plain as [? _]. Qed.

Lemma name_has_no_marker :
  includes (name_text registrar_name) placeholder_marker = false.
Proof.
  unfold plain_name in name_plain.
  apply andb_true_iff in name_plain as [_ H]. by apply negb_true_iff in H.
Qed.

Lemma table_entries p r :
  (p, r) ∈ table ->
  (p = placeholder_self id ∧ r = registrar_expr registrar_name) ∨
  (p = placeholder_functions id ∧
   r = registrar_expr registrar_name ++ txt ".functions") ∨
  (p = placeholder_data id ∧ r = registrar_expr registrar_name ++ txt ".data").
Proof.
  unfold placeholder_replacements.
  intros [[= -> ->]|[[= -> ->]|[[= -> ->]|H]%elem_of_cons]%elem_of_cons]%elem_of_cons;
    [tauto|tauto|tauto|by apply elem_of_nil in H].
Qed.

Lemma registrar_expr_no_dollar suffix :
  forallb (fun c => negb (Ascii.eqb c "$")) suffix = true ->
  forallb (fun c => negb (Ascii.eqb c "$"))
    (registrar_expr registrar_name ++ suffix) = true.
Proof.
  intros Hs. unfold registrar_expr.
  rewrite !forallb_app, name_has_no_dollar, Hs. done.
Qed.

Lemma table_no_dollar p r :
  (p, r) ∈ table -> forallb (fun c => negb (Ascii.eqb c "$")) r = true.
Proof.
  intros [[-> ->]|[[-> ->]|[-> ->]]]%table_entries.
  - rewrite <- (app_nil_r (registrar_expr _)). by apply registrar_expr_no_dollar.
  - by apply registrar_expr_no_dollar.
  - by apply registrar_expr_no_dollar.
Qed.

Lemma registrar_expr_clean suffix :
  includes (txt "]" ++ suffix) placeholder_marker = false ->
  includes (registrar_expr registrar_name ++ suffix) placeholder_marker = false.
Proof.
  intros Hs. unfold registrar_expr. rewrite <- !app_assoc.
  apply (includes_separated placeholder_marker marker_char quote
           (txt "window.WebpackPatcher.Registrars[")
           (name_text registrar_name ++ [quote] ++ txt "]" ++ suffix));
    [done|done|done|done|].
  apply (includes_separated placeholder_marker marker_char quote
           (name_text registrar_name) (txt "]" ++ suffix));
    [done|done|done|apply name_has_no_marker|done].
Qed.

Lemma table_clean p r :
  (p, r) ∈ table -> includes r placeholder_marker = false.
Proof.
  intros [[-> ->]|[[-> ->]|[-> ->]]]%table_entries.
  - rewrite <- (app_nil_r (registrar_expr _)). by apply registrar_expr_clean.
  - by apply registrar_expr_clean.
  - by apply registrar_expr_clean.
Qed.

Lemma table_first p r :
  (p, r) ∈ table -> ∃ c r', r = c :: r' ∧ marker_char c = false.
Proof.
  intros [[-> ->]|[[-> ->]|[-> ->]]]%table_entries;
    unfold registrar_expr; by eexists "w"%char, _.
Qed.

Lemma table_last p r :
  (p, r) ∈ table -> ∃ r' c, r = r' ++ [c] ∧ marker_char c = false.
Proof.
  intros [[-> ->]|[[-> ->]|[-> ->]]]%table_entries; unfold registrar_expr.
  - exists (txt "window.WebpackPatcher.Registrars[" ++ [quote]
            ++ name_text registrar_name ++ [quote]), "]"%char.
    split; [|done]. by rewrite <- !app_assoc.
  - exists (txt "window.WebpackPatcher.Registrars[" ++ [quote]
            ++ name_text registrar_name ++ [quote] ++ txt "].function"), "s"%char.
    split; [|done]. by rewrite <- !app_assoc.
  - exists (txt "window.WebpackPatcher.Registrars[" ++ [quote]
            ++ name_text registrar_name ++ [quote] ++ txt "].dat"), "a"%char.
    split; [|done]. by rewrite <- !app_assoc.
Qed.

Lemma table_starts p r :
  (p, r) ∈ table -> prefixb placeholder_marker p = true.
Proof.
  intros [[-> ->]|[[-> ->]|[-> ->]]]%table_entries; apply prefixb_app.
Qed.

(** The tail of a token holds no [W]. *)
Lemma token_tail p r :
  (p, r) ∈ table -> ∃ tail, p = "W"%char :: tail ∧ Forall (fun c => c ≠ "W"%char) tail.
Proof.
  intros [[-> ->]|[[-> ->]|[-> ->]]]%table_entries;
    unfold placeholder_self, placeholder_functions, placeholder_data;
    eexists; (split; [reflexivity|]);
    repeat (apply Forall_cons; split; [done|]); exact id_chars.
Qed.

Lemma table_inner p r :
  (p, r) ∈ table ->
  ∀ p1 p2 rest, p = p1 ++ p2 -> p1 ≠ [] -> p2 ≠ [] ->
  prefixb placeholder_marker (p2 ++ rest) = false.
Proof.
  intros Hin p1 p2 rest Hp Hp1 Hp2.
  destruct (token_tail p r Hin) as (tail & -> & Htail).
  destruct p1 as [|a p1]; [done|]. injection Hp as _ ->.
  destruct p2 as [|b p2]; [done|].
  apply Forall_app in Htail as [_ Htail]. apply Forall_cons in Htail as [Hb _].
  change placeholder_marker with ("W"%char :: tail placeholder_marker).
  simpl app. rewrite prefixb_cons.
  rewrite bool_decide_eq_false_2; [done|congruence].
Qed.

Lemma table_distinct p r q t :
  (p, r) ∈ table -> (q, t) ∈ table -> (q, t) ≠ (p, r) ->
  ∀ rest, prefixb q (p ++ rest) = false.
Proof.
  intros [[-> ->]|[[-> ->]|[-> ->]]]%table_entries
         [[-> ->]|[[-> ->]|[-> ->]]]%table_entries Hne rest; try done;
    unfold placeholder_self, placeholder_functions, placeholder_data;
    rewrite <- !app_assoc; rewrite prefixb_app_same; done.
Qed.

Lemma table_nonempty p r : (p, r) ∈ table -> p ≠ [].
Proof. intros Hin ->. by apply table_starts in Hin. Qed.

Lemma markers_are_tokens_intact : ∀ s,
  markers_are_tokens id s = true -> intact placeholder_marker table s.
Proof.
  assert (∀ s, markers_are_tokens id s = true ->
               prefixb placeholder_marker s = true ->
               ∃ p r, (p, r) ∈ table ∧ prefixb p s = true) as Hhead.
  { intros s Hs Hm. destruct s as [|c s]; [done|].
    unfold markers_are_tokens in Hs; fold markers_are_tokens in Hs.
    rewrite Hm in Hs. apply andb_true_iff in Hs as [Hs _].
    apply orb_true_iff in Hs as [Hs|Hs]; [apply orb_true_iff in Hs as [Hs|Hs]|];
      eexists _, _; (split; [|exact Hs]); unfold placeholder_replacements.
    - apply list_elem_of_here.
    - apply list_elem_of_further, list_elem_of_here.
    - do 2 apply list_elem_of_further. apply list_elem_of_here. }
  intros s Hs a. revert s Hs. induction a as [|c a IH]; intros s Hs b -> Hb.
  - by apply Hhead.
  - simpl in Hs. apply andb_true_iff in Hs as [_ Hs]. by eapply IH.
Qed.

(** The three passes of the engine amount to the single simultaneous
    substitution, on a text in which the marker only starts tokens. *)
Lemma three_passes_are_one code :
  markers_are_tokens id code = true ->
  replace_placeholders table code = Normal (substitute_all table 0 code).
Proof.
  intros Hcode. apply markers_are_tokens_intact in Hcode.
  pose proof (pass_absorbed placeholder_marker marker_char table
                placeholder_marker_nonempty placeholder_marker_chars
                table_starts table_inner table_distinct table_first table_last
                table_clean) as Habs.
  unfold placeholder_replacements in *.
  unfold replace_placeholders.
  rewrite replaceAll_str_plain;
    [|eapply table_nonempty, list_elem_of_here
     |eapply table_no_dollar, list_elem_of_here].
  unfold cbind at 1.
  rewrite replaceAll_str_plain;
    [|eapply table_nonempty, list_elem_of_further, list_elem_of_here
     |eapply table_no_dollar, list_elem_of_further, list_elem_of_here].
  unfold cbind at 1.
  rewrite replaceAll_str_plain;
    [|eapply table_nonempty; do 2 apply list_elem_of_further; apply list_elem_of_here
     |eapply table_no_dollar; do 2 apply list_elem_of_further; apply list_elem_of_here].
  unfold cbind. f_equal.
  rewrite <- (substitute_all_empty_table code) at 1.
  set (S := (placeholder_self id, registrar_expr registrar_name)) in *.
  set (F := (placeholder_functions id,
             registrar_expr registrar_name ++ txt ".functions")) in *.
  set (D := (placeholder_data id, registrar_expr registrar_name ++ txt ".data")) in *.
  assert (substitute_all [S] 0 (substitute_all [] 0 code)
          = substitute_all [S] 0 code) as ->.
  { apply (Habs [] S.1 S.2) with (n := length code); [|lia|exact Hcode].
    intros x ->%list_elem_of_singleton. apply list_elem_of_here. }
  assert (substitute_all [F] 0 (substitute_all [S] 0 code)
          = substitute_all [S; F] 0 code) as ->.
  { apply (Habs [S] F.1 F.2) with (n := length code); [|lia|exact Hcode].
    intros x [-> | ->%list_elem_of_singleton]%elem_of_cons;
      [apply list_elem_of_here|apply list_elem_of_further, list_elem_of_here]. }
  apply (Habs [S; F] D.1 D.2) with (n := length code); [|lia|exact Hcode].
  by intros x Hx.
Qed.

(** After it no marker is left, and so none of the three tokens. *)
Lemma no_marker_left code :
  markers_are_tokens id code = true ->
  includes (substitute_all table 0 code) placeholder_marker = false.
Proof.
  intros Hcode. apply markers_are_tokens_intact in Hcode.
  by apply (substituted_clean placeholder_marker marker_char table
              placeholder_marker_nonempty placeholder_marker_chars
              table_starts table_inner table_first table_last table_clean
              (length code) code).
Qed.

End EnginePlaceholders.

Lemma base36_digit_not_W n : base36_digit n ≠ "W"%char.
Proof.
  unfold base36_digit.
  assert (n mod 36 < 36) as H by (apply Nat.mod_upper_bound; lia).
  revert H. generalize (n mod 36). intros k Hk.
  do 36 (destruct k as [|k]; [done|]). lia.
Qed.

Lemma make_placeholder_id_chars random_digits :
  Forall (fun c => c ≠ "W"%char) (make_placeholder_id random_digits).
Proof.
  unfold make_placeholder_id. apply Forall_fmap, Forall_forall.
  intros n _. apply base36_digit_not_W.
Qed.

Lemma not_same_refl fac : not_same fac fac = false.
Proof. unfold not_same. by rewrite bool_decide_eq_true_2. Qed.

Section Resolution.

Variable host_eval : text -> option compiled.
Variable host_new_function : text -> option compiled.

(** A patch application that hands back another factory went through
    the rules, the placeholder pass and the compiler. *)
Lemma apply_patch_success fac factory_str rs module_id registrar_name e f' code' e' :
  _apply_patch host_eval host_new_function fac factory_str rs module_id
    registrar_name e = (Normal (f', code'), e') ->
  not_same f' fac = true ->
  ∃ code total,
    fst (run_rules module_id (length rs) 0 rs factory_str 0 e)
      = Normal (code, total) ∧
    replace_placeholders
      (placeholder_replacements (placeholder_id e) registrar_name) code
      = Normal code' ∧
    ∃ c, f' = compiled_value c code' fac.
Proof.
  pose proof (run_rules_only_logged module_id (length rs) rs 0 factory_str 0 e) as Hl.
  unfold _apply_patch, try_catch, bind, get, lift, ret, logger, modify.
  destruct (run_rules _ _ _ _ _ _ e) as [[[code total]|x] e1]; simpl in *.
  - destruct (decide (total = 0)).
    + intros [= <- <- <-]. by rewrite not_same_refl.
    + rewrite (only_logged_placeholder_id _ _ Hl), (only_logged_options _ _ Hl).
      destruct (replace_placeholders _ code) as [pc|x] eqn:Hp; simpl.
      * destruct (compile _ _ _ _ pc) as [c|x]; simpl.
        -- intros [= <- <- <-] _. exists code, total. eauto.
        -- intros [= <- <- <-]. by rewrite not_same_refl.
      * intros [= <- <- <-]. by rewrite not_same_refl.
  - intros [= <- <- <-]. by rewrite not_same_refl.
Qed.

(** C4 (amended). A successful patch application, by an engine whose id
    the constructor made, for a registrar name without dollar sign and
    without marker, on an edited text in which the marker starts nothing
    but the three tokens: the patched source holds none of the three
    tokens, and it is the edited text with every token replaced, in one
    pass from left to right, by the registrar expression of its kind. *)
Theorem placeholders_are_resolved fac factory_str rs module_id registrar_name e
    random_digits f' code' e' :
  placeholder_id e = make_placeholder_id random_digits ->
  plain_name registrar_name = true ->
  (∀ code total,
     fst (run_rules module_id (length rs) 0 rs factory_str 0 e)
       = Normal (code, total) ->
     markers_are_tokens (placeholder_id e) code = true) ->
  _apply_patch host_eval host_new_function fac factory_str rs module_id
    registrar_name e = (Normal (f', code'), e') ->
  not_same f' fac = true ->
  includes code' (placeholder_self (placeholder_id e)) = false ∧
  includes code' (placeholder_functions (placeholder_id e)) = false ∧
  includes code' (placeholder_data (placeholder_id e)) = false ∧
  f_src f' = code' ∧
  ∃ code total,
    fst (run_rules module_id (length rs) 0 rs factory_str 0 e)
      = Normal (code, total) ∧
    code' = substitute_all
              (placeholder_replacements (placeholder_id e) registrar_name) 0 code.
Proof.
  intros Hid Hname Hcode Happly Hsucc.
  destruct (apply_patch_success _ _ _ _ _ _ _ _ _ Happly Hsucc)
    as (code & total & Hrun & Hph & c & ->).
  pose proof (Hcode code total Hrun) as Hc.
  assert (Forall (fun c => c ≠ "W"%char) (placeholder_id e)) as Hchars.
  { rewrite Hid. apply make_placeholder_id_chars. }
  rewrite (three_passes_are_one _ _ Hchars Hname code Hc) in Hph.
  injection Hph as <-.
  pose proof (no_marker_left _ _ Hchars Hname code Hc) as Hclean.
  assert (∀ kind, includes
                    (substitute_all
                       (placeholder_replacements (placeholder_id e) registrar_name)
                       0 code)
                    (placeholder_marker ++ kind) = false) as Hnone.
  { intros kind. destruct (includes _ (placeholder_marker ++ kind)) eqn:E; [|done].
    apply includes_pattern_prefix in E. congruence. }
  repeat split; try apply Hnone. by exists code, total.
Qed.

End Resolution.

(** * The properties at sample values *)



Lemma sample_history_detected :
  is_Some (module_factories
             (run_ops accept_all accept_all sample_history sample_engine)).
Proof. by eexists. Qed.

Lemma sample_history_unpatched :
  "42" ∉ patched_modules
           (run_ops accept_all accept_all sample_history sample_engine).
Proof.
  assert (patched_modules
            (run_ops accept_all accept_all sample_history sample_engine) = ∅)
    as -> by reflexivity.
  apply not_elem_of_empty.
Qed.

Lemma patching_attempted_at_most_once_witness :
  let e1 := run_ops accept_all accept_all sample_history sample_engine in
  let e2 := run_op accept_all accept_all (CallProxy "42" sample_factory) e1 in
  let e3 := run_ops accept_all accept_all [CallProxy "42" sample_factory] e2 in
  attempts e2 = attempts e1 ++ ["42"] ∧
  ((∃ f, _get_or_patch_factory accept_all accept_all "42" sample_factory e1
           = (Normal f, e2) ∧
         "42" ∈ patched_modules e2) ∨
   _get_or_patch_factory accept_all accept_all "42" sample_factory e1
     = (Throw (TypeError "Cannot create property on this value"), e2)) ∧
  ("42" ∈ patched_modules e2 ->
   "42" ∈ patched_modules e3 ∧
   attempts_for "42" e3 = attempts_for "42" e2 ∧
   ∀ g, ∃ f, _get_or_patch_factory accept_all accept_all "42" g e3
             = (Normal f, e3)) ∧
  (∀ g e, f_original g ≠ None ->
          _get_or_patch_factory accept_all accept_all "42" g e = (Normal g, e)).
Proof.
  apply (patching_attempted_at_most_once accept_all accept_all sample_options
           [10; 11; 12] sample_history [CallProxy "42" sample_factory] "42"
           sample_factory sample_history_detected eq_refl
           sample_history_unpatched).
Defined.

(** The first call of a proxy whose target is an already patched factory
    does not put the module id in [patched_modules]. *)
Lemma marked_target_is_not_recorded :
  is_Some (module_factories detected_engine) ∧
  f_original marked_factory ≠ None ∧
  ("7" ∉ patched_modules detected_engine) ∧
  ("7" ∉ patched_modules
           (run_op accept_all accept_all (CallProxy "7" marked_factory)
              detected_engine)).
Proof.
  split; [by eexists|]. split; [done|].
  assert (run_op accept_all accept_all (CallProxy "7" marked_factory)
            detected_engine = detected_engine) as -> by reflexivity.
  split; apply not_elem_of_empty.
Qed.

Lemma register_inherited_name_witness :
  ∃ e', register_patches
          (RegOptions (Some "toString") (Some (HostObj 1)) (Some (HostObj 2)))
          [] None sample_engine
        = (Normal (PrototypeMember "toString"), e') ∧
        window_Registrars e' = window_Registrars sample_engine ∧
        registrars e' = registrars sample_engine.
Proof.
  apply (register_inherited_name
           (RegOptions (Some "toString") (Some (HostObj 1)) (Some (HostObj 2)))
           [] "toString" sample_engine); reflexivity.
Defined.

(** Two patches whose [find] arrays hold the same pattern, in two array
    objects, are kept as two entries. *)
Lemma equal_find_sets_in_two_entries :
  ∃ p q,
    patches (snd (register_patches demo_options [patch_array_1; patch_array_2]
                    None sample_engine)) = [p; q] ∧
    same_find_set (p_find p) (p_find q).
Proof. eexists _, _. split; reflexivity. Qed.

Lemma patches_merge_on_strictly_equal_find_witness :
  distinct_finds
    (patches (snd (register_patches demo_options [sample_patch; sample_patch]
                     None sample_engine))).
Proof.
  apply (proj1 (patches_merge_on_strictly_equal_find demo_options
                  [sample_patch; sample_patch] None "demo" sample_engine
                  eq_refl I)).
Defined.



(** Before anything is detected [moduleCache] already gives an object. *)
Lemma module_cache_is_never_absent :
  isWebpackDetected sample_front = false ∧ moduleCache sample_front ≠ Null.
Proof. split; [reflexivity|discriminate]. Qed.

Lemma accessors_follow_detection_witness :
  let e1 := sample_engine in
  let e3 := run_op accept_all accept_all (SetModules sample_wreq 9 ∅ []) e1 in
  let r1 := FrontEnd (Some e1) [] [] false 0 in
  let r3 := FrontEnd (Some e3) [] [] false 0 in
  (webpackRequire r1 = Null ∧ moduleFactories r1 = Null ∧
   moduleCache r1 = CacheWrapper) ∧
  (webpackRequire r3 = RequireFunction sample_wreq ∧
   moduleFactories r3 = FactoriesObject 9 ∧
   moduleCache r3 = CacheWrapper).
Proof.
  intros e1 e3 r1 r3.
  pose proof (accessors_follow_detection accept_all accept_all sample_options
                [10; 11; 12] [] sample_wreq 9 ∅ [] [] r1 r3
                eq_refl eq_refl eq_refl eq_refl) as (H1 & H3 & _).
  exact (conj H1 H3).
Defined.




Lemma inherited_event_name_throws_witness :
  ¬ known_event "toString" ∧
  add_event_listener "toString" quiet_listener sample_engine
  = (Throw (TypeError "this.event_listeners[event].push is not a function"),
     sample_engine).
Proof.
  apply (inherited_event_name_throws "toString" quiet_listener sample_engine).
  reflexivity.
Defined.

(** A registrar named after the data token: the patched source still
    holds the token. *)
Lemma token_named_registrar_keeps_token :
  ∃ f' code' e',
    _apply_patch accept_all accept_all sample_factory sample_source
      [rule_insert_data] "42" (Some token_name) token_named_engine
    = (Normal (f', code'), e') ∧
    not_same f' sample_factory = true ∧
    includes code' (placeholder_data (placeholder_id token_named_engine)) = true.
Proof. eexists _, _, _. split; [vm_compute; reflexivity|]. split; reflexivity. Qed.

(** The demonstration rule on the sample source: what the rule loop
    leaves, and what the whole application hands back. *)
Lemma sample_rules_run :
  fst (run_rules "42" 1 0 [rule_insert_data_demo] sample_source 0 sample_engine)
  = Normal (txt "function a(){return "
              ++ placeholder_data (placeholder_id sample_engine)
              ++ txt "+bar(2)}", 1).
Proof. vm_compute. reflexivity. Qed.

Lemma sample_rules_markers :
  markers_are_tokens (placeholder_id sample_engine)
    (txt "function a(){return "
       ++ placeholder_data (placeholder_id sample_engine)
       ++ txt "+bar(2)}") = true.
Proof. vm_compute. reflexivity. Qed.

Lemma sample_application :
  _apply_patch accept_all accept_all sample_factory sample_source
    [rule_insert_data_demo] "42" (Some "demo") sample_engine
  = (Normal (compiled_from sample_factory resolved_sample, resolved_sample),
     sample_engine).
Proof. vm_compute. reflexivity. Qed.

Lemma placeholders_are_resolved_witness :
  includes resolved_sample (placeholder_self (placeholder_id sample_engine)) = false ∧
  includes resolved_sample (placeholder_functions (placeholder_id sample_engine))
    = false ∧
  includes resolved_sample (placeholder_data (placeholder_id sample_engine)) = false ∧
  f_src (compiled_from sample_factory resolved_sample) = resolved_sample ∧
  ∃ code total,
    fst (run_rules "42" 1 0 [rule_insert_data_demo] sample_source 0 sample_engine)
      = Normal (code, total) ∧
    resolved_sample
    = substitute_all
        (placeholder_replacements (placeholder_id sample_engine) (Some "demo")) 0 code.
Proof.
  refine (placeholders_are_resolved accept_all accept_all sample_factory
            sample_source [rule_insert_data_demo] "42" (Some "demo") sample_engine
            [10; 11; 12] (compiled_from sample_factory resolved_sample)
            resolved_sample sample_engine eq_refl eq_refl _ sample_application
            eq_refl).
  intros code total Hrun.
  pose proof (eq_trans (eq_sym Hrun) sample_rules_run) as Hcode.
  injection Hcode as -> _. exact sample_rules_markers.
Defined.

(** ** The engine on the examples of its documentation *)

(** The source [function a(){return foo(1)+bar(2)}] with the rule that
    replaces [foo(1)] by [baz(1)]. *)
Example patch_foo_baz :
  fst (_apply_patch accept_all accept_all sample_factory sample_source
         [rule_foo_baz] "42" (Some "demo") sample_engine)
  = Normal (compiled_from sample_factory (txt "function a(){return baz(1)+bar(2)}"),
            txt "function a(){return baz(1)+bar(2)}").
Proof. reflexivity. Qed.

(** A replacer function changes the one fragment it matches. *)
Example patch_radio :
  apply_rule rule_radio (txt "isPlayable(){const{a,b,playerIsRadio:c,d}=e}")
  = Normal (txt "isPlayable(){const{a,b,radioFlag:false,x:c,d}=e}", true).
Proof. reflexivity. Qed.

(** When the page refuses to compile, the factory given is handed back
    and the error is logged. *)
Example patch_refused :
  _apply_patch reject_all reject_all sample_factory sample_source
    [rule_foo_baz] "42" (Some "demo") sample_engine
  = (Normal (sample_factory, sample_source),
     upd_log (fun l => l ++ [ErrorPatchFailed CompileError]) sample_engine).
Proof. reflexivity. Qed.

(** A registrar name with a dollar pattern: [replaceAll] expands the
    pattern inside the replacement string, here to the token itself. *)
Example dollar_in_name_is_expanded :
  resolved (placeholder_id sample_engine) dollar_name
    (placeholder_data (placeholder_id sample_engine))
  = txt "window.WebpackPatcher.Registrars[" ++ [quote] ++ txt "a"
      ++ placeholder_data (placeholder_id sample_engine) ++ txt "b" ++ [quote]
      ++ txt "].data".
Proof. reflexivity. Qed.

(** Two calls of the public [register] with one name, once the engine is
    attached, hand back the same registrar. *)
Example register_twice :
  let r1 := register demo_options [sample_patch] sample_front in
  let r2 := register (RegOptions (Some "demo") (Some (HostObj 3)) None)
              [] (snd r1) in
  fst r1 = fst r2 ∧
  fst r1 = Normal (Registrar (RegistrarObj (EngineObj 2) (EngineObj 0) (EngineObj 1))).
Proof. split; reflexivity. Qed.

(** * More of the engine *)

(** ** The logger *)

(** X1. A logger made with a level name that [Object.prototype] does not
    have prints the line of a method, with the prefix, exactly when the
    method is at least as grave as the level: at ["debug"] every method
    prints, at ["warn"] only [warn] and [error], at ["error"] only [error],
    and at ["log"], at a name the table does not know and without a name,
    every method but [debug].  So errors are always printed. *)
Theorem logger_threshold prefix log_level :
  inherited_key (default "log" log_level) = false ->
  let name := default "log" log_level in
  let threshold :=
    if decide (name = "debug") then 0
    else if decide (name = "warn") then 2
    else if decide (name = "error") then 3
    else 1 in
  (∀ (m : console_method) (args : log_entry),
     Logger_call (new_Logger prefix log_level) m args
     = if bool_decide (threshold <= severity m)%nat then [(m, prefix, args)]
       else []) ∧
  (∀ args : log_entry,
     Logger_call (new_Logger prefix log_level) ConsoleError args
     = [(ConsoleError, prefix, args)]).
Proof.
  intros Hname name threshold. unfold new_Logger. fold name.
  fold name in Hname. clearbody name.
  assert (∀ n, (n <= 3)%nat ->
            ∀ (m : console_method) (args : log_entry),
              Logger_call (MakeLogger prefix (LevelNumber n)) m args
              = if bool_decide (n <= severity m)%nat then [(m, prefix, args)]
                else []) as Hcall.
  { intros n Hn m args. destruct m; reflexivity. }
  assert (∃ n, (n <= 3)%nat ∧ n = threshold ∧
               match log_levels name with
               | Own k => LevelNumber k
               | Inherited => LevelPrototypeMember name
               | Missing => LevelNumber 1
               end = LevelNumber n) as (n & Hn & <- & ->).
  { unfold log_levels, threshold.
    repeat case_decide; subst; try discriminate;
      try (eexists; split; [|split; [reflexivity|reflexivity]]; lia).
    rewrite Hname. exists 1. split; [lia|]. by split. }
  split; [by apply Hcall|].
  intros args. rewrite Hcall by done. simpl.
  rewrite bool_decide_eq_true_2; [done|lia].
Qed.

Lemma logger_threshold_witness :
  (∀ (m : console_method) (args : log_entry),
     Logger_call (new_Logger "[WebpackPatcher]" (Some "error")) m args
     = if bool_decide (3 <= severity m)%nat then [(m, "[WebpackPatcher]", args)]
       else []) ∧
  (∀ args : log_entry,
     Logger_call (new_Logger "[WebpackPatcher]" (Some "error")) ConsoleError args
     = [(ConsoleError, "[WebpackPatcher]", args)]).
Proof. apply (logger_threshold "[WebpackPatcher]" (Some "error")). reflexivity. Defined.

(** X2. A logger made with a level name that [Object.prototype] has, such
    as ["constructor"], prints nothing, whatever the method: not even an
    error. *)
Theorem logger_inherited_level_is_silent prefix name :
  inherited_key name = true ->
  ∀ (m : console_method) (args : log_entry),
    Logger_call (new_Logger prefix (Some name)) m args = [].
Proof.
  intros Hname m args. unfold new_Logger, log_levels. simpl.
  assert (name ≠ "debug" ∧ name ≠ "log" ∧ name ≠ "warn" ∧ name ≠ "error")
    as (? & ? & ? & ?).
  { repeat split; intros ->; vm_compute in Hname; discriminate. }
  repeat case_decide; try done. rewrite Hname. by destruct m.
Qed.

Lemma logger_inherited_level_is_silent_witness :
  Logger_call (new_Logger "[WebpackPatcher]" (Some "constructor")) ConsoleError
    (ErrorPatchFailed CompileError) = [].
Proof.
  apply (logger_inherited_level_is_silent "[WebpackPatcher]" "constructor").
  reflexivity.
Defined.

(** X3. The logger [main] makes is at level ["debug"]: every line an engine
    logs reaches the console, in order, under the prefix and through the
    console method of its kind. *)
Theorem main_logger_prints_every_line entries :
  printed main_logger entries
  = (fun entry => (method_of entry, "[WebpackPatcher]", entry)) <$> entries.
Proof.
  unfold printed. induction entries as [|entry entries IH]; [done|].
  cbn [mbind list_bind fmap list_fmap]. rewrite IH.
  by destruct (method_of entry).
Qed.

(** ** The cache of factory strings *)

(** X4. With the cache enabled, the text of a module is taken from its
    factory once: a later call for the same id hands back the stored text
    whatever factory it is given.  After [clear_cache] for that id the
    text is taken from the factory given again, and the entries of the
    other ids are as they were; after [clear_cache] with no id, or with an
    empty one, every id is taken from its factory again. *)
Theorem factory_string_cache_round_trip module_id f g e :
  enable_cache (options e) = true ->
  factory_string_cache e !! module_id = None ->
  module_id ≠ EmptyString ->
  let e1 := snd (_get_factory_string module_id f e) in
  let e2 := snd (clear_cache (Some module_id) e1) in
  fst (_get_factory_string module_id f e) = Normal (f_src f) ∧
  fst (_get_factory_string module_id g e1) = Normal (f_src f) ∧
  fst (clear_cache (Some module_id) e1) = Normal NoReport ∧
  fst (_get_factory_string module_id g e2) = Normal (f_src g) ∧
  (∀ other, other ≠ module_id ->
            factory_string_cache e2 !! other = factory_string_cache e !! other) ∧
  (∀ falsy other h,
     falsy = None ∨ falsy = Some EmptyString ->
     fst (_get_factory_string other h (snd (clear_cache falsy e1)))
     = Normal (f_src h)).
Proof.
  intros Hon Hmiss Hid. cbv zeta.
  assert (_get_factory_string module_id f e
          = (Normal (f_src f),
             upd_factory_string_cache (insert module_id (f_src f)) e)) as H1.
  { unfold _get_factory_string. rewrite bind_get, Hon, Hmiss. cbn [negb].
    by rewrite bind_modify. }
  rewrite H1. cbn [fst snd].
  set (e1 := upd_factory_string_cache _ e).
  assert (enable_cache (options e1) = true) as Hon1 by (by destruct e).
  assert (factory_string_cache e1 = <[module_id := f_src f]> (factory_string_cache e))
    as Hc1 by (by destruct e).
  assert (clear_cache (Some module_id) e1
          = (Normal NoReport, upd_factory_string_cache (delete module_id) e1)) as H2.
  { unfold clear_cache. rewrite bind_get, Hon1. cbn [negb].
    destruct (decide (module_id = EmptyString)); [done|]. by rewrite bind_modify. }
  rewrite H2. cbn [fst snd].
  set (e2 := upd_factory_string_cache (delete module_id) e1).
  assert (enable_cache (options e2) = true) as Hon2 by (by destruct e).
  assert (factory_string_cache e2 = delete module_id (factory_string_cache e1))
    as Hc2 by (by destruct e).
  repeat split.
  - unfold _get_factory_string. rewrite bind_get, Hon1, Hc1, lookup_insert_eq.
    by rewrite bind_logger.
  - unfold _get_factory_string.
    rewrite bind_get, Hon2, Hc2, lookup_delete_eq. cbn [negb].
    by rewrite bind_modify.
  - intros other Hother.
    rewrite Hc2, Hc1, lookup_delete_ne, lookup_insert_ne; done.
  - intros falsy other h Hfalsy.
    assert (clear_cache falsy e1
            = (Normal NoReport, upd_factory_string_cache (fun _ => ∅) e1)) as H3.
    { unfold clear_cache. rewrite bind_get, Hon1. cbn [negb].
      destruct Hfalsy as [-> | ->]; [|rewrite decide_True by done];
        by rewrite bind_modify. }
    rewrite H3. cbn [snd]. unfold _get_factory_string. rewrite bind_get.
    replace (enable_cache (options (upd_factory_string_cache (fun _ => ∅) e1)))
      with true by (by destruct e).
    replace (factory_string_cache (upd_factory_string_cache (fun _ => ∅) e1))
      with (∅ : gmap string text) by (by destruct e).
    rewrite lookup_empty. by rewrite bind_modify.
Qed.

Lemma factory_string_cache_round_trip_witness :
  let e1 := snd (_get_factory_string "42" sample_factory caching_engine) in
  let e2 := snd (clear_cache (Some "42") e1) in
  fst (_get_factory_string "42" sample_factory caching_engine)
    = Normal (f_src sample_factory) ∧
  fst (_get_factory_string "42" marked_factory e1) = Normal (f_src sample_factory) ∧
  fst (clear_cache (Some "42") e1) = Normal NoReport ∧
  fst (_get_factory_string "42" marked_factory e2) = Normal (f_src marked_factory) ∧
  (∀ other, other ≠ "42" ->
            factory_string_cache e2 !! other
            = factory_string_cache caching_engine !! other) ∧
  (∀ falsy other h,
     falsy = None ∨ falsy = Some EmptyString ->
     fst (_get_factory_string other h (snd (clear_cache falsy e1)))
     = Normal (f_src h)).
Proof.
  apply (factory_string_cache_round_trip "42" sample_factory marked_factory
           caching_engine); [reflexivity|reflexivity|discriminate].
Defined.

(** ** What a method touches *)

Global Instance same_but_log_calls_preorder : PreOrder same_but_log_calls.
Proof.
  split.
  - by intros e.
  - intros e1 e2 e3 H12 H23. unfold same_but_log_calls in *. congruence.
Qed.

Global Instance logged_only_preorder p : PreOrder (logged_only p).
Proof.
  split.
  - intros e. exists []. split; [|done]. destruct e; simpl. by rewrite app_nil_r.
  - intros e1 e2 e3 (l1 & -> & H1) (l2 & -> & H2). exists (l1 ++ l2). split.
    + destruct e1; simpl. by rewrite app_assoc.
    + by rewrite forallb_app, H1, H2.
Qed.

Global Instance log_extends_preorder p : PreOrder (log_extends p).
Proof.
  split.
  - intros e. exists []. by rewrite app_nil_r.
  - intros e1 e2 e3 (l1 & E1 & H1) (l2 & E2 & H2). exists (l1 ++ l2). split.
    + by rewrite E2, E1, app_assoc.
    + by rewrite forallb_app, H1, H2.
Qed.

Global Instance calls_extend_preorder q : PreOrder (calls_extend q).
Proof.
  split.
  - intros e. exists []. by rewrite app_nil_r.
  - intros e1 e2 e3 (l1 & E1 & H1) (l2 & E2 & H2). exists (l1 ++ l2). split.
    + by rewrite E2, E1, app_assoc.
    + by rewrite forallb_app, H1, H2.
Qed.

Lemma logged_only_only_logged p e e' : logged_only p e e' -> only_logged e e'.
Proof. intros (l & -> & _). by exists l. Qed.

Lemma logged_only_same p e e' : logged_only p e e' -> same_but_log_calls e e'.
Proof. intros (l & -> & _). by destruct e. Qed.

Lemma logged_only_log_extends p e e' : logged_only p e e' -> log_extends p e e'.
Proof. intros (l & -> & H). exists l. split; [by destruct e|done]. Qed.

Lemma logged_only_calls p e e' : logged_only p e e' -> calls e' = calls e.
Proof. intros (l & -> & _). by destruct e. Qed.

Lemma log_extends_weaken (p p' : log_entry -> bool) e e' :
  (∀ entry, p entry = true -> p' entry = true) ->
  log_extends p e e' -> log_extends p' e e'.
Proof.
  intros Hp (l & E & H). exists l. split; [done|].
  apply forallb_forall. intros x Hx. apply Hp.
  by apply (proj1 (forallb_forall p l) H).
Qed.

Section MoreKeeps.

Context (R : engine -> engine -> Prop) `{!PreOrder R}.

Lemma returns_try_catch {A} (m : M engine A) (h : js_error -> M engine A) :
  keeps R m -> (∀ x, returns R (h x)) -> returns R (try_catch m h).
Proof.
  intros Hm Hh e. specialize (Hm e). unfold try_catch.
  destruct (m e) as [[a|x] e1]; simpl in *.
  - by exists a.
  - destruct (Hh x e1) as (b & Hb & HR). exists b. split; [done|]. by etrans.
Qed.

Lemma returns_lift_normal {A} (a : A) : returns R (lift (Normal a)).
Proof. intros e. exists a. split; [done|reflexivity]. Qed.

End MoreKeeps.

(** One step of a proof that a method keeps a relation; [solve_modify]
    settles the changes of fields. *)
Ltac keeps_step solve_modify :=
  first
    [ assumption
    | match goal with
      | H : context [patch_loop] |- keeps _ (patch_loop _ _ _ _ _ _ _) =>
          solve [apply H]
      | H : context [_emit_event] |- keeps _ (_emit_event _ _) =>
          solve [apply H; reflexivity]
      | H : context [register_patches] |- keeps _ (register_patches _ _ _) =>
          solve [apply H]
      | |- keeps _ (_emit_event _ _) =>
          apply emit_event_keeps;
          [apply _
          |split; [intros ? ?|split; [intros ? ?|intros ? ?]]
          |intros ?
          |intros ?]
      end
    | apply keeps_ret; apply _
    | apply keeps_get; apply _
    | apply keeps_throw; apply _
    | apply keeps_lift; apply _
    | apply keeps_bind; [apply _| |intros ?]
    | apply keeps_try_catch; [apply _| |intros ?]
    | apply keeps_modify; solve_modify
    | match goal with
      | |- keeps _ (match ?x with _ => _ end) => destruct x
      | |- keeps _ (logger _) => unfold logger
      | |- keeps _ hook_webpack => unfold hook_webpack
      | |- keeps _ (or_fresh _) => unfold or_fresh
      | |- keeps _ fresh_obj => unfold fresh_obj
      | |- keeps _ (ensure_registrar _ _ _) => unfold ensure_registrar
      | |- keeps _ (add_event_listener _ _) => unfold add_event_listener
      | |- keeps _ (remove_event_listener _ _) => unfold remove_event_listener
      | |- keeps _ (register_patches _ _ _) => unfold register_patches
      | |- keeps _ (cache_setter _ _ _) => unfold cache_setter
      | |- keeps _ (modules_setter _ _ _ _) => unfold modules_setter
      | |- keeps _ (factories_set_trap _ _) => unfold factories_set_trap
      | |- keeps _ (store_factory _ _) => unfold store_factory
      | |- keeps _ (_get_factory_string _ _) => unfold _get_factory_string
      | |- keeps _ (_apply_patch _ _ _ _ _ _ _) => unfold _apply_patch
      | |- keeps _ (_get_or_patch_factory _ _ _ _) => unfold _get_or_patch_factory
      end ].
Ltac keeps_steps solve_modify := repeat keeps_step solve_modify.

Ltac same_modify := intros []; red; reflexivity.
Ltac logged_modify := intros ?; eexists [_]; split; reflexivity.
Ltac log_modify :=
  intros [];
  first [ eexists [_]; split; [reflexivity|reflexivity]
        | exists []; split; [simpl; by rewrite app_nil_r|reflexivity] ].

(** *** The patching of one factory writes to the log only *)

Section PatchingLogs.

Variable host_eval : text -> option compiled.
Variable host_new_function : text -> option compiled.

Lemma run_rules_logged module_id n rs : ∀ i code total,
  keeps (logged_only patching_line) (run_rules module_id n i rs code total).
Proof.
  induction rs as [|r rs IH]; intros i code total; simpl.
  - apply keeps_ret; apply _.
  - apply keeps_bind; [apply _|apply keeps_lift; apply _|]. intros out.
    apply keeps_bind; [apply _| |intros _; apply IH].
    destruct out.2; keeps_steps logged_modify.
Qed.

Lemma apply_patch_logged fac factory_str rs module_id registrar_name :
  returns (logged_only patching_line)
    (_apply_patch host_eval host_new_function fac factory_str rs module_id
       registrar_name).
Proof.
  unfold _apply_patch. apply returns_try_catch; [apply _| |].
  - apply keeps_bind; [apply _|apply run_rules_logged|]. intros out.
    keeps_steps logged_modify.
  - intros x. apply returns_bind; [apply _| |intros _; apply returns_ret; apply _].
    apply returns_modify. logged_modify.
Qed.

Lemma patch_loop_logged module_id ps : ∀ cur str any,
  returns (logged_only patching_line)
    (patch_loop host_eval host_new_function module_id ps cur str any).
Proof.
  induction ps as [|p ps IH]; intros cur str any; simpl.
  - apply returns_ret; apply _.
  - destruct (negb (_check_pattern_match str p)); [apply IH|].
    apply returns_bind; [apply _|apply apply_patch_logged|]. intros res.
    destruct (not_same res.1 cur); apply IH.
Qed.

End PatchingLogs.

(** What two states have in common when they differ by log and calls. *)
Lemma same_fields e e' :
  same_but_log_calls e e' ->
  patches e' = patches e ∧
  patched_modules e' = patched_modules e ∧
  module_factories e' = module_factories e ∧
  webpack_require e' = webpack_require e ∧
  webpack_cache e' = webpack_cache e ∧
  hooked e' = hooked e ∧
  options e' = options e ∧
  factory_string_cache e' = factory_string_cache e ∧
  registrars e' = registrars e ∧
  placeholder_id e' = placeholder_id e ∧
  event_listeners e' = event_listeners e ∧
  hook_webpack_detected e' = hook_webpack_detected e ∧
  hook_cache_detected e' = hook_cache_detected e ∧
  window_Registrars e' = window_Registrars e ∧
  next_serial e' = next_serial e ∧
  attempts e' = attempts e.
Proof.
  intros H. destruct e, e'. unfold same_but_log_calls, erase_log_calls in H.
  simpl in H. injection H as -> -> -> -> -> -> -> -> -> -> -> -> -> -> -> ->.
  simpl. repeat split.
Qed.

(** A dispatch over listeners that make no call into the engine leaves
    all but the log and the record of calls. *)
Lemma call_listeners_same event args ls :
  Forall passive ls -> keeps same_but_log_calls (call_listeners event args ls).
Proof.
  induction 1 as [|l ls Hl _ IH]; simpl; [apply keeps_ret; apply _|].
  apply keeps_bind; [apply _| |intros _; apply IH].
  intros e. rewrite call_listener_passive by done. simpl.
  destruct (l_run l args); by destruct e.
Qed.

Lemma emit_event_same event args e :
  passive_event event e ->
  same_but_log_calls e (snd (_emit_event event args e)).
Proof.
  intros Hp.
  destruct (listeners_of event (event_listeners e)) as [ls| |] eqn:Hl.
  - rewrite (emit_event_passive event args ls e Hl (Hp ls Hl)).
    apply call_listeners_same. by apply Hp.
  - unfold _emit_event. by rewrite bind_get, Hl.
  - unfold _emit_event. by rewrite bind_get, Hl.
Qed.

Lemma emit_event_log event args :
  keeps (log_extends not_cache_hit) (_emit_event event args).
Proof. keeps_steps log_modify. Qed.

(** The text [_get_factory_string] hands back, and the state it leaves:
    the text is stored under the id when the cache is enabled. *)
Lemma get_factory_string_anatomy module_id fac e :
  ∃ src e1,
    _get_factory_string module_id fac e = (Normal src, e1) ∧
    calls e1 = calls e ∧
    erase_log_calls e1
    = erase_log_calls
        (if enable_cache (options e)
         then upd_factory_string_cache (insert module_id src) e else e) ∧
    ((enable_cache (options e) = true ->
      factory_string_cache e !! module_id = None) ->
     src = f_src fac ∧ log e1 = log e).
Proof.
  unfold _get_factory_string. rewrite bind_get.
  destruct (enable_cache (options e)) eqn:Hon.
  - destruct (factory_string_cache e !! module_id) as [cached|] eqn:Hc.
    + rewrite bind_logger. eexists _, _. split; [reflexivity|].
      split; [by destruct e|]. split.
      * destruct e; simpl in *. unfold erase_log_calls; simpl.
        by rewrite insert_id.
      * intros H. by specialize (H eq_refl).
    + rewrite bind_modify. eexists _, _. split; [reflexivity|].
      split; [by destruct e|]. split; [done|]. intros _. by destruct e.
  - rewrite bind_ret. eexists _, _. split; [reflexivity|]. done.
Qed.

Lemma patch_loop_unapplied host_eval host_new_function module_id ps :
  ∀ cur str e g code e',
    patch_loop host_eval host_new_function module_id ps cur str false e
      = (Normal (g, code, false), e') ->
    g = cur ∧ code = str.
Proof.
  induction ps as [|p ps IH]; intros cur str e g code e'; simpl.
  - unfold ret. by intros [= <- <-].
  - destruct (negb (_check_pattern_match str p)); [apply IH|].
    unfold bind at 1.
    destruct (_apply_patch _ _ _ _ _ _ _ e) as [[res|x] e1]; [|done].
    destruct (not_same res.1 cur); [|apply IH].
    intros H. exfalso. revert H. clear.
    generalize res.1 res.2 e1. clear. induction ps as [|q ps IH]; intros c s e; simpl.
    + by unfold ret.
    + destruct (negb (_check_pattern_match s q)); [apply IH|].
      unfold bind at 1.
      destruct (_apply_patch _ _ _ _ _ _ _ e) as [[res|x] e1]; [|done].
      destruct (not_same res.1 c); apply IH.
Qed.

Section Anatomy.

Variable host_eval : text -> option compiled.
Variable host_new_function : text -> option compiled.

Abbreviation patch_factory := (_get_or_patch_factory host_eval host_new_function).
Abbreviation loop := (patch_loop host_eval host_new_function).

(** The first call of a proxy for an id, on a target without the marker,
    step by step. *)
Lemma get_or_patch_anatomy module_id fac e addr m :
  f_original fac = None ->
  module_id ∉ patched_modules e ->
  module_factories e = Some (addr, m) ->
  ∃ src e1 g code any e2,
    _get_factory_string module_id fac
      (upd_attempts (fun a => a ++ [module_id]) e) = (Normal src, e1) ∧
    loop module_id (patches e) fac src false e1 = (Normal (g, code, any), e2) ∧
    logged_only patching_line e1 e2 ∧
    patch_factory module_id fac e
    = if any then
        if takes_marker g then
          let patched := set_original g fac in
          (Normal patched,
           upd_patched_modules (fun s => {[module_id]} ∪ s)
             (snd (_emit_event "module_patched"
                     [ArgModule module_id; ArgFactory patched; ArgFactory fac]
                     (upd_module_factories
                        (fun _ => Some (addr, <[module_id := Plain patched]> m)) e2))))
        else (Throw (TypeError "Cannot create property on this value"), e2)
      else
        (Normal fac, upd_patched_modules (fun s => {[module_id]} ∪ s) e2).
Proof.
  intros Ho Hn Hm. unfold _get_or_patch_factory. rewrite Ho, bind_get.
  rewrite decide_False by done. rewrite bind_modify.
  set (e0 := upd_attempts _ e).
  destruct (get_factory_string_anatomy module_id fac e0)
    as (src & e1 & E1 & _ & Hs1 & _).
  rewrite (bind_normal _ _ _ _ _ E1).
  assert (module_factories e1 = Some (addr, m) ∧ patches e1 = patches e) as [Hm1 Hp1].
  { apply same_fields in Hs1. destruct Hs1 as (Hp & _ & Hmf & _).
    rewrite Hp, Hmf. subst e0. destruct (enable_cache _); by destruct e. }
  destruct (patch_loop_logged host_eval host_new_function module_id (patches e)
              fac src false e1) as (r & Hr & Hlog).
  destruct (patch_loop _ _ _ _ _ _ _ e1) as [c e2] eqn:E2; simpl in *.
  subst c. rewrite (bind_normal _ _ _ _ _ E2).
  destruct r as [[g code] any].
  exists src, e1, g, code, any, e2. split; [done|]. split; [done|]. split; [done|].
  assert (module_factories e2 = Some (addr, m)) as Hm2.
  { apply logged_only_same, same_fields in Hlog. destruct Hlog as (_ & _ & -> & _).
    done. }
  simpl. destruct any.
  - destruct (takes_marker g); [|done].
    rewrite bind_assoc, bind_ret, bind_assoc.
    unfold store_factory at 1. rewrite bind_assoc, bind_get, Hm2.
    rewrite bind_modify.
    set (e3 := upd_module_factories _ e2).
    destruct (emit_event_frame "module_patched"
                [ArgModule module_id; ArgFactory (set_original g fac); ArgFactory fac]
                (or_intror (or_intror eq_refl)) e3) as ([] & Hn4 & _).
    destruct (_emit_event "module_patched" _ e3) as [c e4] eqn:E4; simpl in *.
    subst c. rewrite (bind_normal _ _ _ _ _ E4). by rewrite bind_modify.
  - destruct (patch_loop_unapplied _ _ _ _ _ _ _ _ _ _ E2) as [-> _].
    by rewrite bind_ret, bind_modify.
Qed.

End Anatomy.

(** ** The first call of a module *)

Section FirstCall.

Variable host_eval : text -> option compiled.
Variable host_new_function : text -> option compiled.

Lemma patch_loop_no_match module_id ps cur str any e :
  Forall (fun p => _check_pattern_match str p = false) ps ->
  patch_loop host_eval host_new_function module_id ps cur str any e
  = (Normal (cur, str, any), e).
Proof.
  induction 1 as [|p ps Hp _ IH]; simpl; [done|]. by rewrite Hp.
Qed.

Lemma patch_loop_skip_prefix module_id ps1 : ∀ ps2 cur str any e,
  Forall (fun p => _check_pattern_match str p = false) ps1 ->
  patch_loop host_eval host_new_function module_id (ps1 ++ ps2) cur str any e
  = patch_loop host_eval host_new_function module_id ps2 cur str any e.
Proof.
  induction ps1 as [|p ps1 IH]; intros ps2 cur str any e H; simpl; [done|].
  inversion H as [|? ? Hp Hrest]; subst. rewrite Hp. simpl. by apply IH.
Qed.

(** X5. The first call of a module that no registered patch matches: the
    factory given is the one that runs; nothing is logged, no listener is
    called, the collection of factories is as it was, and the id is in
    [patched_modules] from then on. *)
Theorem unmatched_module_runs_as_is module_id fac e addr m :
  f_original fac = None ->
  module_id ∉ patched_modules e ->
  module_factories e = Some (addr, m) ->
  (enable_cache (options e) = true ->
   factory_string_cache e !! module_id = None) ->
  Forall (fun p => _check_pattern_match (f_src fac) p = false) (patches e) ->
  ∃ e',
    _get_or_patch_factory host_eval host_new_function module_id fac e
      = (Normal fac, e') ∧
    module_factories e' = Some (addr, m) ∧
    log e' = log e ∧
    calls e' = calls e ∧
    patches e' = patches e ∧
    patched_modules e' = {[module_id]} ∪ patched_modules e.
Proof.
  intros Ho Hn Hm Hmiss Hnone.
  destruct (get_or_patch_anatomy host_eval host_new_function module_id fac e addr m
              Ho Hn Hm) as (src & e1 & g & code & any & e2 & E1 & E2 & _ & ->).
  set (e0 := upd_attempts _ e) in E1.
  destruct (get_factory_string_anatomy module_id fac e0)
    as (src' & e1' & E1' & Hc1 & Hs1 & Hsrc).
  rewrite E1 in E1'. injection E1' as <- <-.
  destruct Hsrc as [-> Hl1]; [by destruct e|].
  rewrite patch_loop_no_match in E2 by done. injection E2 as <- <- <- <-.
  eexists. split; [reflexivity|].
  apply same_fields in Hs1.
  destruct Hs1 as (Hp & Hpm & Hmf & _).
  assert (module_factories e0 = Some (addr, m) ∧ patches e0 = patches e ∧
          patched_modules e0 = patched_modules e ∧ log e0 = log e ∧
          calls e0 = calls e) as (Hm0 & Hp0 & Hpm0 & Hl0 & Hc0)
    by (by destruct e).
  assert (module_factories e1 = Some (addr, m) ∧ patches e1 = patches e ∧
          patched_modules e1 = patched_modules e) as (Hm1 & Hp1 & Hpm1).
  { rewrite Hmf, Hp, Hpm. destruct (enable_cache (options e0)); by destruct e. }
  destruct e1; simpl in *. repeat split; congruence.
Qed.

(** X6. The first call of a module that one registered patch matches,
    with one rule that finds its text, when the text compiles to a
    function, no [find] holds an expression with the [g] flag and the
    [module_patched] listeners make no call into the engine: the factory
    compiled from the edited text is the one that runs; it carries the
    original factory as its marker and replaces the proxy in the
    collection, where the page reads it back; every [module_patched]
    listener is called once with the id, the patched factory and the
    original one. *)
Theorem matched_module_is_patched_on_first_call module_id fac e addr m
    ps1 find mtext rtext name ps2 :
  let code := resolved (placeholder_id e) name
                (subst_first mtext rtext (f_src fac)) in
  let patched := set_original (compiled_from fac code) fac in
  f_original fac = None ->
  module_id ∉ patched_modules e ->
  module_factories e = Some (addr, m) ->
  (enable_cache (options e) = true ->
   factory_string_cache e !! module_id = None) ->
  patches e = ps1 ++ Patch find [literal_rule mtext rtext] name :: ps2 ->
  Forall stateless_find (patches e) ->
  passive_event "module_patched" e ->
  Forall (fun p => _check_pattern_match (f_src fac) p = false) ps1 ->
  _check_pattern_match (f_src fac) (Patch find [literal_rule mtext rtext] name)
    = true ->
  includes (f_src fac) mtext = true ->
  compile host_eval host_new_function (use_eval (options e)) module_id code
    = Normal (CFunction true) ->
  Forall (fun p => _check_pattern_match code p = false) ps2 ->
  ∃ e',
    _get_or_patch_factory host_eval host_new_function module_id fac e
      = (Normal patched, e') ∧
    f_original patched = Some (f_ref fac, f_src fac) ∧
    f_src patched = code ∧
    module_factories e' = Some (addr, <[module_id := Plain patched]> m) ∧
    factories_get_trap module_id e' = Some patched ∧
    calls e' = calls e ++ dispatch "module_patched"
                 [ArgModule module_id; ArgFactory patched; ArgFactory fac]
                 (module_patched (event_listeners e)) ∧
    patched_modules e' = {[module_id]} ∪ patched_modules e.
Proof.
  intros code patched Ho Hn Hm Hmiss Hps _ Hpassive Hps1 Hfind Hinc Hcomp Hps2.
  destruct (get_or_patch_anatomy host_eval host_new_function module_id fac e addr m
              Ho Hn Hm) as (src & e1 & g & code' & any & e2 & E1 & E2 & _ & ->).
  set (e0 := upd_attempts _ e) in E1.
  destruct (get_factory_string_anatomy module_id fac e0)
    as (src' & e1' & E1' & Hc1 & Hs1 & Hsrc).
  rewrite E1 in E1'. injection E1' as <- <-.
  destruct Hsrc as [-> Hl1]; [by destruct e|].
  apply same_fields in Hs1.
  destruct Hs1 as (Hp & Hpm & Hmf & _ & _ & _ & Hopt & _ & _ & Hid & Hev & _).
  assert (options e1 = options e ∧ placeholder_id e1 = placeholder_id e ∧
          event_listeners e1 = event_listeners e ∧
          patched_modules e1 = patched_modules e ∧ calls e1 = calls e)
    as (Hopt1 & Hid1 & Hev1 & Hpm1 & Hcalls1).
  { rewrite Hopt, Hid, Hev, Hpm, Hc1.
    destruct (enable_cache (options e0)); by destruct e. }
  rewrite Hps, patch_loop_skip_prefix in E2 by done.
  simpl in E2. rewrite Hfind in E2. simpl in E2.
  rewrite (bind_normal _ _ _ _ _
             (apply_patch_one_rule host_eval host_new_function fac (f_src fac)
                mtext rtext module_id name e1 Hinc
                ltac:(by rewrite Hopt1, Hid1))) in E2.
  rewrite Hid1 in E2. fold code in E2. cbn [fst snd] in E2.
  rewrite compiled_not_same in E2.
  rewrite patch_loop_no_match in E2 by done.
  injection E2 as <- <- <- <-.
  change (takes_marker (compiled_from fac code)) with true.
  cbv zeta iota. fold patched.
  set (args := [ArgModule module_id; ArgFactory patched; ArgFactory fac]).
  set (e3 := upd_module_factories _ e1).
  assert (event_listeners e3 = event_listeners e) as He3
    by (subst e3; rewrite <- Hev1; by destruct e1).
  assert (passive_event "module_patched" e3) as Hpassive3
    by (intros ls; rewrite He3; apply Hpassive).
  destruct (emit_event_passive_returns "module_patched" args e3
              (or_intror (or_intror eq_refl)) Hpassive3)
    as (l & e4 & Hl & E4 & Hcalls & _).
  pose proof (emit_event_same "module_patched" args e3 Hpassive3) as Hsame.
  rewrite E4 in Hsame |- *. cbn [snd] in Hsame |- *.
  apply same_fields in Hsame.
  destruct Hsame as (_ & Hpm4 & Hmf4 & _).
  assert (module_patched (event_listeners e) = l) as <-.
  { rewrite He3 in Hl. unfold listeners_of in Hl. simpl in Hl. congruence. }
  assert (module_factories e3 = Some (addr, <[module_id := Plain patched]> m) ∧
          patched_modules e3 = patched_modules e ∧ calls e3 = calls e)
    as (Hm3 & Hpm3 & Hc3).
  { subst e3. rewrite <- Hpm1, <- Hcalls1. by destruct e1. }
  eexists. split; [reflexivity|]. split; [done|]. split; [done|].
  assert (module_factories
            (upd_patched_modules (fun s => {[module_id]} ∪ s) e4)
          = Some (addr, <[module_id := Plain patched]> m)) as Hfinal.
  { rewrite <- Hm3, <- Hmf4. by destruct e4. }
  split; [done|]. split.
  { unfold factories_get_trap. by rewrite Hfinal, lookup_insert_eq. }
  split.
  { rewrite <- Hc3. unfold dispatch. rewrite <- Hcalls. by destruct e4. }
  rewrite <- Hpm3, <- Hpm4. by destruct e4.
Qed.

Lemma run_rules_one_literal module_id m r s e :
  includes s m = true ->
  run_rules module_id 1 0 [literal_rule m r] s 0 e
  = (Normal (subst_first m r s, 1), e).
Proof.
  intros H. cbn [run_rules]. unfold lift at 1. unfold bind at 1.
  rewrite apply_rule_literal, H. cbn [fst snd]. by rewrite bind_ret.
Qed.

(** X19. When the text a patch made evaluates to a value that takes no
    property (a value that is no object, or a frozen function or object),
    the assignment of the original-factory marker throws, and the error
    leaves [_get_or_patch_factory]: nothing is stored in the collection,
    no listener is called, the id is not in [patched_modules], and the
    next call for the id enters the matching loop again. *)
Theorem unmarkable_value_escapes module_id fac e addr m
    ps1 find mtext rtext name ps2 c :
  let code := resolved (placeholder_id e) name
                (subst_first mtext rtext (f_src fac)) in
  callable fac = true ->
  f_original fac = None ->
  module_id ∉ patched_modules e ->
  module_factories e = Some (addr, m) ->
  (enable_cache (options e) = true ->
   factory_string_cache e !! module_id = None) ->
  patches e = ps1 ++ Patch find [literal_rule mtext rtext] name :: ps2 ->
  Forall stateless_find (patches e) ->
  Forall (fun p => _check_pattern_match (f_src fac) p = false) ps1 ->
  _check_pattern_match (f_src fac) (Patch find [literal_rule mtext rtext] name)
    = true ->
  includes (f_src fac) mtext = true ->
  compile host_eval host_new_function (use_eval (options e)) module_id code
    = Normal c ->
  takes_marker (compiled_value c code fac) = false ->
  Forall (fun p => _check_pattern_match code p = false) ps2 ->
  ∃ e',
    _get_or_patch_factory host_eval host_new_function module_id fac e
      = (Throw (TypeError "Cannot create property on this value"), e') ∧
    module_factories e' = Some (addr, m) ∧
    calls e' = calls e ∧
    patched_modules e' = patched_modules e ∧
    attempts e' = attempts e ++ [module_id] ∧
    attempts (snd (_get_or_patch_factory host_eval host_new_function
                     module_id fac e'))
    = attempts e ++ [module_id; module_id].
Proof.
  intros code Hcallable Ho Hn Hm Hmiss Hps _ Hps1 Hfind Hinc Hcomp Htakes Hps2.
  destruct (get_or_patch_anatomy host_eval host_new_function module_id fac e addr m
              Ho Hn Hm) as (src & e1 & g & code' & any & e2 & E1 & E2 & _ & ->).
  set (e0 := upd_attempts _ e) in E1.
  destruct (get_factory_string_anatomy module_id fac e0)
    as (src' & e1' & E1' & Hc1 & Hs1 & Hsrc).
  rewrite E1 in E1'. injection E1' as <- <-.
  destruct Hsrc as [-> Hl1]; [by destruct e|].
  apply same_fields in Hs1.
  destruct Hs1 as (Hp & Hpm & Hmf & _ & _ & _ & Hopt & _ & _ & Hid & _ & _ & _ & _
                   & _ & Hat).
  assert (options e1 = options e ∧ placeholder_id e1 = placeholder_id e ∧
          module_factories e1 = Some (addr, m) ∧
          patched_modules e1 = patched_modules e ∧ calls e1 = calls e ∧
          attempts e1 = attempts e ++ [module_id])
    as (Hopt1 & Hid1 & Hmf1 & Hpm1 & Hcalls1 & Hat1).
  { rewrite Hopt, Hid, Hmf, Hpm, Hc1, Hat.
    destruct (enable_cache (options e0)); by destruct e. }
  rewrite Hps, patch_loop_skip_prefix in E2 by done.
  rewrite (patch_loop_applied host_eval host_new_function module_id _ ps2 fac
             (f_src fac) false e1 (subst_first mtext rtext (f_src fac), 1) e1 c
             Hfind (run_rules_one_literal _ _ _ _ _ Hinc) ltac:(done)) in E2.
  - cbn [fst snd p_registrar_name] in E2. rewrite Hid1 in E2. fold code in E2.
    rewrite patch_loop_no_match in E2 by done.
    injection E2 as <- <- <- <-. rewrite Htakes.
    exists e1. split; [done|]. split; [done|]. split; [done|]. split; [done|].
    split; [done|].
    destruct (get_or_patch_first host_eval host_new_function module_id fac e1 Ho)
      as (e3 & Hfr & Hcase); [by rewrite Hpm1|by rewrite Hmf1|].
    apply attempt_frame in Hfr as [_ Ha3].
    assert (attempts (snd (_get_or_patch_factory host_eval host_new_function
                             module_id fac e1)) = attempts e3) as ->.
    { destruct Hcase as [[f ->] | ->]; [by destruct e3|done]. }
    rewrite Ha3, Hat1, <- app_assoc. done.
  - cbn [fst snd p_registrar_name]. by rewrite Hopt1, Hid1.
  - by apply compiled_value_not_same.
Qed.

End FirstCall.

(** ** Rules *)

Section Rules.

Variable host_eval : text -> option compiled.
Variable host_new_function : text -> option compiled.

Lemma run_rules_skipped module_id n rs s : ∀ i total e,
  no_rule_substitutes rs s ->
  run_rules module_id n i rs s total e
  = (Normal (s, total),
     upd_log (fun l => l ++ skipped_lines module_id n i (length rs)) e).
Proof.
  induction rs as [|r rs IH]; intros i total e H.
  - simpl. unfold ret, skipped_lines. simpl. destruct e; simpl.
    by rewrite app_nil_r.
  - inversion H as [|? ? [c Hc] Hrest]; subst.
    pose proof (apply_rule_no_hit _ _ _ Hc) as ->.
    cbn [run_rules]. unfold lift at 1. unfold bind at 1. rewrite Hc. cbn [snd fst].
    rewrite bind_logger, IH by done.
    unfold skipped_lines. simpl. destruct e; simpl. by rewrite <- app_assoc.
Qed.

(** X7. One rule that substitutes is enough for a patch to apply, whatever
    its [match] and its replacement are: the rules before and after it
    that find nothing are skipped, each with a warning that carries its
    position, and what the patch hands back is compiled from the text the
    one rule edited, with the placeholders resolved. *)
Theorem one_matching_rule_suffices fac s rs1 r s' rs2 module_id name e c :
  let rules := rs1 ++ r :: rs2 in
  let code := resolved (placeholder_id e) name s' in
  no_rule_substitutes rs1 s ->
  apply_rule r s = Normal (s', true) ->
  no_rule_substitutes rs2 s' ->
  compile host_eval host_new_function (use_eval (options e)) module_id code
    = Normal c ->
  _apply_patch host_eval host_new_function fac s rules module_id name e
  = (Normal (compiled_value c code fac, code),
     upd_log (fun l => l ++ skipped_lines module_id (length rules) 0 (length rs1)
                         ++ skipped_lines module_id (length rules)
                              (S (length rs1)) (length rs2)) e).
Proof.
  intros rules code H1 Hm H2 Hc. unfold _apply_patch, try_catch.
  fold rules.
  assert (run_rules module_id (length rules) 0 rules s 0 e
          = (Normal (s', 1),
             upd_log (fun l => l ++ skipped_lines module_id (length rules) 0
                                      (length rs1)
                                 ++ skipped_lines module_id (length rules)
                                      (S (length rs1)) (length rs2)) e)) as Hrun.
  { subst rules. rewrite run_rules_app.
    rewrite (bind_normal _ _ _ _ _ (run_rules_skipped _ _ _ _ _ _ _ H1)).
    cbn [fst snd run_rules]. unfold lift at 1. unfold bind at 1.
    rewrite Hm. cbn [fst snd]. rewrite bind_ret.
    rewrite run_rules_skipped by done.
    destruct e; simpl. by rewrite <- app_assoc. }
  rewrite (bind_normal _ _ _ _ _ Hrun). cbn [fst snd].
  rewrite decide_False by done. rewrite bind_get.
  set (e1 := upd_log _ e).
  assert (placeholder_id e1 = placeholder_id e ∧ options e1 = options e)
    as [-> ->] by (by destruct e).
  rewrite replace_placeholders_resolved. unfold lift at 1. unfold bind at 1.
  fold code. unfold lift at 1. unfold bind at 1. by rewrite Hc.
Qed.

(** A rule that throws makes the whole patch fail: the factory and the
    text given come back, and the error is the last line logged. *)
Lemma apply_patch_of_throwing_rules fac s rs module_id name e x :
  fst (run_rules module_id (length rs) 0 rs s 0 e) = Throw x ->
  ∃ e', _apply_patch host_eval host_new_function fac s rs module_id name e
        = (Normal (fac, s), e') ∧
        only_logged e e' ∧
        last (log e') = Some (ErrorPatchFailed x).
Proof.
  intros Hthrow. unfold _apply_patch, try_catch.
  pose proof (run_rules_only_logged module_id (length rs) rs 0 s 0 e) as Hlog.
  unfold bind at 1.
  destruct (run_rules module_id (length rs) 0 rs s 0 e) as [c e1]; simpl in *.
  subst c. rewrite bind_logger. eexists. split; [reflexivity|]. split.
  - eapply only_logged_trans; [exact Hlog|]. apply only_logged_logger.
  - destruct e1; simpl. by rewrite last_snoc.
Qed.

Lemma run_rules_reaches_throw module_id n r rs2 x0 :
  (∀ code, apply_rule r code = Throw x0) ->
  ∀ rs1 i code total e,
    ∃ x, fst (run_rules module_id n i (rs1 ++ r :: rs2) code total e) = Throw x.
Proof.
  intros Hr. induction rs1 as [|q rs1 IH]; intros i code total e.
  - exists x0. simpl. unfold lift at 1. unfold bind at 1. by rewrite Hr.
  - cbn [app run_rules]. unfold lift at 1. unfold bind at 1.
    destruct (apply_rule q code) as [out|x]; [|by exists x]. cbn [fst snd].
    destruct out.2.
    + rewrite bind_ret. apply IH.
    + rewrite bind_logger. apply IH.
Qed.

(** X8. A rule with [global] set whose [match] is a regular expression
    without the [g] flag can never be applied: [replaceAll] refuses it, so
    every patch that holds such a rule fails whatever its other rules do.
    The factory and the text given come back unchanged and the error is
    the last line logged. *)
Theorem global_rule_needs_global_regexp fac s rs1 re replace rs2 module_id name e :
  re_global re = false ->
  ∃ x e',
    _apply_patch host_eval host_new_function fac s
      (rs1 ++ Replacement (PRegExp re) replace true :: rs2) module_id name e
    = (Normal (fac, s), e') ∧
    only_logged e e' ∧
    last (log e') = Some (ErrorPatchFailed x).
Proof.
  intros Hre.
  destruct (run_rules_reaches_throw module_id
              (length (rs1 ++ Replacement (PRegExp re) replace true :: rs2))
              (Replacement (PRegExp re) replace true) rs2
              (TypeError "replaceAll must be called with a global RegExp")
              ltac:(intros code; unfold apply_rule, re_replaceAll; simpl;
                    by rewrite Hre) rs1 0 s 0 e) as [x Hx].
  exists x. by apply apply_patch_of_throwing_rules.
Qed.

Lemma replace_all_verbatim p r whole :
  p ≠ [] ->
  ∀ s off skip,
    replace_all p (fun _ => Normal r) whole off skip s
    = Normal (substitute_all [(p, r)] skip s, includes (skipn skip s) p).
Proof.
  intros Hp. destruct p as [|a p']; [done|].
  induction s as [|c s IH]; intros off skip.
  - destruct skip; reflexivity.
  - destruct skip as [|k].
    + cbn [replace_all substitute_all find_token skipn].
      rewrite includes_cons.
      destruct (prefixb (a :: p') (c :: s)) eqn:Hpre.
      * cbn [cbind]. rewrite IH. cbn [cbind fst snd length].
        replace (S (length p') - 1) with (length p') by lia. done.
      * rewrite IH. cbn [cbind fst snd skipn]. done.
    + cbn [replace_all substitute_all skipn]. apply IH.
Qed.

(** X9. A rule whose [match] and [replace] are both strings puts the
    replacement in verbatim, dollar signs included: once, at the first
    occurrence, or with [global] at every occurrence from left to right
    without overlap; the rule counts as applied exactly when the text
    holds the match. *)
Theorem text_rule_inserts_verbatim m r global s :
  m ≠ [] ->
  apply_rule (text_rule m r global) s
  = Normal (if global then substitute_all [(m, r)] 0 s else subst_first m r s,
            includes s m).
Proof.
  intros Hm. destruct global.
  - unfold apply_rule, text_rule. simpl. by rewrite replace_all_verbatim.
  - apply apply_rule_literal.
Qed.

End Rules.

(** ** Listeners *)

Lemma listeners_of_with event l t :
  known_event event -> listeners_of event (with_listeners event l t) = Own l.
Proof. intros [-> | [-> | ->]]; reflexivity. Qed.

Lemma with_listeners_with event l1 l2 t :
  with_listeners event l2 (with_listeners event l1 t) = with_listeners event l2 t.
Proof. unfold with_listeners. repeat case_decide; reflexivity. Qed.

Lemma with_listeners_same event l t :
  listeners_of event t = Own l -> with_listeners event l t = t.
Proof.
  unfold listeners_of, with_listeners. destruct t.
  repeat case_decide; simpl; try congruence; by destruct (inherited_key event).
Qed.

Lemma listeners_of_own_known event t l :
  listeners_of event t = Own l -> known_event event.
Proof.
  unfold listeners_of, known_event. repeat case_decide; try tauto;
    by destruct (inherited_key event).
Qed.

Lemma index_of_app callback l1 l2 :
  index_of callback (l1 ++ l2)
  = match index_of callback l1 with
    | Some i => Some i
    | None => (fun i => length l1 + i) <$> index_of callback l2
    end.
Proof.
  induction l1 as [|x l1 IH]; simpl.
  - by destruct (index_of callback l2).
  - case_decide; [done|]. rewrite IH.
    destruct (index_of callback l1); [done|]. by destruct (index_of callback l2).
Qed.

Lemma index_of_lt callback l i : index_of callback l = Some i -> i < length l.
Proof.
  revert i. induction l as [|x l IH]; intros i; simpl; [done|].
  case_decide; [intros [= <-]; lia|].
  destruct (index_of callback l) as [j|]; [|done].
  intros [= <-]. specialize (IH j eq_refl). lia.
Qed.

Lemma delete_app_lt {A} (l1 l2 : list A) i :
  i < length l1 -> delete i (l1 ++ l2) = delete i l1 ++ l2.
Proof.
  revert i. induction l1 as [|x l1 IH]; intros i Hi; simpl in *; [lia|].
  destruct i; [done|]. simpl. f_equal. apply IH. lia.
Qed.

Lemma delete_app_length {A} (l1 : list A) x : delete (length l1) (l1 ++ [x]) = l1.
Proof. induction l1 as [|y l1 IH]; simpl; [done|]. by f_equal. Qed.

Lemma add_event_listener_known event callback e l :
  listeners_of event (event_listeners e) = Own l ->
  add_event_listener event callback e
  = (Normal tt,
     upd_log (fun x => x ++ [DebugAddedListener event])
       (upd_event_listeners (with_listeners event (l ++ [callback])) e)).
Proof.
  intros Hl. unfold add_event_listener. rewrite bind_get, Hl.
  by rewrite bind_modify.
Qed.

Lemma remove_event_listener_known event callback e l :
  listeners_of event (event_listeners e) = Own l ->
  remove_event_listener event callback e
  = (Normal tt,
     match index_of callback l with
     | Some i =>
         upd_log (fun x => x ++ [DebugRemovedListener event])
           (upd_event_listeners (with_listeners event (delete i l)) e)
     | None => e
     end).
Proof.
  intros Hl. unfold remove_event_listener. rewrite bind_get, Hl.
  destruct (index_of callback l); [|done]. by rewrite bind_modify.
Qed.

(** X10. Adding a listener to one of the three events and then removing
    it: both calls return.  If the callback was not subscribed before, the
    subscriptions are what they were.  If it was, it is the older
    subscription that is removed and the new one stays, at the end of the
    list. *)
Theorem add_then_remove_listener event callback e :
  known_event event ->
  let e1 := snd (add_event_listener event callback e) in
  let e2 := snd (remove_event_listener event callback e1) in
  ∃ l,
    listeners_of event (event_listeners e) = Own l ∧
    fst (add_event_listener event callback e) = Normal tt ∧
    fst (remove_event_listener event callback e1) = Normal tt ∧
    listeners_of event (event_listeners e2)
    = Own (match index_of callback l with
           | Some i => delete i l ++ [callback]
           | None => l
           end) ∧
    (index_of callback l = None -> event_listeners e2 = event_listeners e).
Proof.
  intros Hk. cbv zeta.
  destruct (listeners_of_known event (event_listeners e) Hk) as [l Hl].
  exists l. split; [done|].
  rewrite (add_event_listener_known _ _ _ _ Hl). cbn [fst snd].
  split; [done|].
  set (e1 := upd_log _ _).
  assert (event_listeners e1
          = with_listeners event (l ++ [callback]) (event_listeners e)) as He1
    by (by destruct e).
  assert (listeners_of event (event_listeners e1) = Own (l ++ [callback])) as Hl1.
  { rewrite He1. by apply listeners_of_with. }
  rewrite (remove_event_listener_known _ _ _ _ Hl1). cbn [fst snd].
  split; [done|].
  rewrite index_of_app. simpl. rewrite decide_True by done.
  destruct (index_of callback l) as [i|] eqn:Hi.
  - split; [|done].
    replace (event_listeners (upd_log _ (upd_event_listeners _ e1)))
      with (with_listeners event (delete i (l ++ [callback])) (event_listeners e1))
      by (by destruct e1).
    rewrite listeners_of_with by done.
    by rewrite delete_app_lt by (by eapply index_of_lt).
  - simpl. rewrite Nat.add_0_r.
    replace (event_listeners (upd_log _ (upd_event_listeners _ e1)))
      with (with_listeners event (delete (length l) (l ++ [callback]))
              (event_listeners e1))
      by (by destruct e1).
    rewrite delete_app_length, He1, with_listeners_with.
    split; [by apply listeners_of_with|]. intros _.
    by apply with_listeners_same.
Qed.

(** Subscribing [n] times in a row. *)
Lemma add_event_listener_times event callback n : ∀ e l,
  listeners_of event (event_listeners e) = Own l ->
  listeners_of event
    (event_listeners (Nat.iter n (fun x => snd (add_event_listener event callback x)) e))
  = Own (l ++ replicate n callback).
Proof.
  induction n as [|n IH]; intros e l Hl.
  - simpl. by rewrite app_nil_r.
  - simpl. specialize (IH e l Hl).
    rewrite (add_event_listener_known _ _ _ _ IH). cbn [snd].
    set (e' := Nat.iter _ _ _) in *.
    replace (event_listeners (upd_log _ (upd_event_listeners _ e')))
      with (with_listeners event ((l ++ replicate n callback) ++ [callback])
              (event_listeners e'))
      by (by destruct e').
    rewrite listeners_of_with by (by eapply listeners_of_own_known).
    f_equal. rewrite <- app_assoc. f_equal. symmetry. apply replicate_cons_app.
Qed.

Lemma passive_event_listeners event e e' :
  event_listeners e' = event_listeners e ->
  passive_event event e -> passive_event event e'.
Proof. intros H Hp ls. rewrite H. apply Hp. Qed.

(** X11. Subscriptions are not told apart by their callback: a callback
    added [n] times to an event is subscribed [n] times, after those that
    were there; and when the listeners of the event make no call into the
    engine, a dispatch of the event calls it once for each subscription. *)
Theorem listeners_are_not_deduplicated event callback n args e :
  known_event event ->
  let e' := Nat.iter n (fun x => snd (add_event_listener event callback x)) e in
  ∃ l,
    listeners_of event (event_listeners e) = Own l ∧
    listeners_of event (event_listeners e') = Own (l ++ replicate n callback) ∧
    (passive callback ->
     Forall passive l ->
     _emit_event event args e'
     = (Normal tt, snd (_emit_event event args e')) ∧
     calls (snd (_emit_event event args e'))
     = calls e' ++ dispatch event args (l ++ replicate n callback)).
Proof.
  intros Hk. cbv zeta.
  destruct (listeners_of_known event (event_listeners e) Hk) as [l Hl].
  exists l. split; [done|].
  pose proof (add_event_listener_times event callback n e l Hl) as Hn.
  split; [done|]. intros Hcb Hpl.
  assert (passive_event event
            (Nat.iter n (fun x => snd (add_event_listener event callback x)) e))
    as Hp.
  { intros ls. rewrite Hn. intros [= <-]. apply Forall_app. split; [done|].
    by apply Forall_replicate. }
  destruct (emit_event_passive_returns event args
              (Nat.iter n (fun x => snd (add_event_listener event callback x)) e)
              Hk Hp)
    as (l' & e2 & Hl' & -> & Hcalls & _).
  rewrite Hn in Hl'. injection Hl' as <-. done.
Qed.

(** ** Detection and the collection of factories *)

Lemma on_detect_anatomy (cb : option (wreq -> nat -> completion unit)) this addr e :
  ∃ e',
    (match cb with
     | Some f => try_catch (lift (f this addr)) (fun x => logger (ErrorInOnDetect x))
     | None => ret tt
     end) e = (Normal tt, e') ∧
    same_but_log_calls e e' ∧ calls e' = calls e ∧
    log_extends not_cache_hit e e'.
Proof.
  destruct cb as [f|]; [|by exists e].
  unfold try_catch, lift. destruct (f this addr) as [[]|x].
  - by exists e.
  - eexists. split; [reflexivity|]. split; [by destruct e|].
    split; [by destruct e|]. exists [ErrorInOnDetect x]. by destruct e.
Qed.

(** An accepted assignment of the collection of factories, step by step. *)
Lemma modules_setter_anatomy this addr found stack_lines e :
  accepted e this stack_lines = true ->
  passive_event "webpack_detected" e ->
  ∃ e3,
    modules_setter this addr found stack_lines e
    = (Normal tt,
       upd_log (fun l => l ++ [DebugWrapped (size found)])
         (upd_module_factories (fun _ => Some (addr, wrapped found)) e3)) ∧
    same_but_log_calls
      (upd_webpack_require (fun _ => Some this)
         (upd_hook_webpack_detected (fun _ => true) e)) e3 ∧
    calls e3 = calls e ++ dispatch "webpack_detected"
                 [ArgRequire this; ArgFactories addr]
                 (webpack_detected (event_listeners e)).
Proof.
  unfold accepted, modules_setter. rewrite bind_get.
  destruct (hooked e); [|done].
  destruct (hook_webpack_detected e) eqn:Hd; [done|].
  destruct (includes _ _); [|done].
  destruct (passes_filter _ _ _); [|done].
  intros _ Hpassive. cbn [negb].
  rewrite bind_modify, bind_logger, bind_modify.
  set (e0 := upd_webpack_require _ (upd_hook_webpack_detected _ e)).
  set (e1 := upd_webpack_require _ _).
  assert (same_but_log_calls e0 e1 ∧ calls e1 = calls e ∧
          event_listeners e1 = event_listeners e) as (Hs1 & Hc1 & Hev1)
    by (by destruct e).
  clearbody e1.
  set (args := [ArgRequire this; ArgFactories addr]).
  pose proof (passive_event_listeners _ _ _ Hev1 Hpassive) as Hpassive1.
  destruct (emit_event_passive_returns "webpack_detected" args e1
              (or_introl eq_refl) Hpassive1)
    as (l & e2 & Hl & E2 & Hc2 & _).
  pose proof (emit_event_same "webpack_detected" args e1 Hpassive1) as Hs2.
  rewrite E2 in Hs2. cbn [snd] in Hs2.
  rewrite (bind_normal _ _ _ _ _ E2).
  destruct (on_detect_anatomy (on_detect (options e)) this addr e2)
    as (e3 & E3 & Hs3 & Hc3 & _).
  rewrite (bind_normal _ _ _ _ _ E3), bind_modify.
  exists e3. split; [reflexivity|]. split.
  - etrans; [exact Hs1|]. by etrans.
  - rewrite Hc3, Hc2, Hc1. unfold dispatch. f_equal.
    rewrite Hev1 in Hl. unfold listeners_of in Hl. simpl in Hl. congruence.
Qed.

Lemma wrapped_lookup found module_id :
  wrapped found !! module_id = ProxyOf module_id <$> found !! module_id.
Proof. unfold wrapped. rewrite map_lookup_imap. by destruct (found !! module_id). Qed.

(** What an accepted assignment leaves in the collection. *)
Lemma modules_setter_entries this addr found stack_lines e :
  accepted e this stack_lines = true ->
  passive_event "webpack_detected" e ->
  let e' := snd (modules_setter this addr found stack_lines e) in
  fst (modules_setter this addr found stack_lines e) = Normal tt ∧
  webpack_require e' = Some this ∧
  (∀ module_id,
     stored_entry module_id e' = ProxyOf module_id <$> found !! module_id ∧
     factories_get_trap module_id e' = found !! module_id) ∧
  calls e' = calls e ++ dispatch "webpack_detected"
               [ArgRequire this; ArgFactories addr]
               (webpack_detected (event_listeners e)).
Proof.
  intros Ha Hpassive. cbv zeta.
  destruct (modules_setter_anatomy this addr found stack_lines e Ha Hpassive)
    as (e3 & -> & Hs & Hc). cbn [fst snd].
  apply same_fields in Hs. destruct Hs as (_ & _ & _ & Hw & _).
  split; [done|]. split.
  { transitivity (webpack_require e3); [by destruct e3|].
    rewrite Hw. by destruct e. }
  split.
  - intros module_id.
    assert (module_factories
              (upd_log (fun l => l ++ [DebugWrapped (size found)])
                 (upd_module_factories (fun _ => Some (addr, wrapped found)) e3))
            = Some (addr, wrapped found)) as Hm by (by destruct e3).
    unfold stored_entry, factories_get_trap. rewrite Hm, wrapped_lookup.
    by destruct (found !! module_id).
  - rewrite <- Hc. by destruct e3.
Qed.

(** X12. When the assignment of the collection of factories is accepted
    and the listeners of [webpack_detected] make no call into the engine
    (and, as every callback here, write nothing into the collection they
    are handed), every module in it is stored as a proxy made for its own
    id and around its own factory, and the page reads each of them back
    through the proxied collection as the factory it had stored.  The
    listeners of [webpack_detected] are called once each, in order, with
    the function and the collection detected. *)
Theorem detection_wraps_every_module this addr found stack_lines e :
  accepted e this stack_lines = true ->
  passive_event "webpack_detected" e ->
  let e' := snd (modules_setter this addr found stack_lines e) in
  fst (modules_setter this addr found stack_lines e) = Normal tt ∧
  webpack_require e' = Some this ∧
  (∀ module_id,
     stored_entry module_id e' = ProxyOf module_id <$> found !! module_id ∧
     factories_get_trap module_id e' = found !! module_id) ∧
  calls e' = calls e ++ dispatch "webpack_detected"
               [ArgRequire this; ArgFactories addr]
               (webpack_detected (event_listeners e)).
Proof. exact (modules_setter_entries this addr found stack_lines e). Qed.

(** What the [set] trap leaves in the collection. *)
Lemma set_trap_entries module_id fac e addr m :
  module_factories e = Some (addr, m) ->
  passive_event "module_registered" e ->
  let e' := snd (factories_set_trap module_id fac e) in
  fst (factories_set_trap module_id fac e) = Normal tt ∧
  stored_entry module_id e' = Some (ProxyOf module_id fac) ∧
  factories_get_trap module_id e' = Some fac ∧
  (∀ other, other ≠ module_id ->
            stored_entry other e' = stored_entry other e ∧
            factories_get_trap other e' = factories_get_trap other e) ∧
  calls e' = calls e ++ dispatch "module_registered"
               [ArgModule module_id; ArgFactory fac]
               (module_registered (event_listeners e)).
Proof.
  intros Hm Hpassive. cbv zeta. unfold factories_set_trap. rewrite bind_get, Hm.
  set (args := [ArgModule module_id; ArgFactory fac]).
  destruct (emit_event_passive_returns "module_registered" args e
              (or_intror (or_introl eq_refl)) Hpassive)
    as (l & e1 & Hl & E1 & Hc1 & _).
  rewrite (bind_normal _ _ _ _ _ E1). unfold modify. cbn [fst snd].
  set (e2 := upd_module_factories _ e1).
  assert (module_factories e2
          = Some (addr, <[module_id := ProxyOf module_id fac]> m)) as Hm2
    by (by destruct e1).
  split; [done|]. unfold stored_entry, factories_get_trap. rewrite Hm2, Hm.
  rewrite lookup_insert_eq. split; [done|]. split; [done|]. split.
  - intros other Hne. by rewrite lookup_insert_ne.
  - replace (calls e2) with (calls e1) by (by destruct e1).
    rewrite Hc1. unfold dispatch. f_equal.
    unfold listeners_of in Hl. simpl in Hl. congruence.
Qed.

(** X13. A factory the page assigns through the proxied collection, when
    the listeners of [module_registered] make no call into the engine, is
    stored as a proxy made for that id, and reads back through the
    collection as the factory assigned, not as the proxy.  The other ids
    keep their entries, and the listeners of [module_registered] are
    called once each, in order, with the id and the factory. *)
Theorem registered_factory_reads_back module_id fac e addr m :
  module_factories e = Some (addr, m) ->
  passive_event "module_registered" e ->
  let e' := snd (factories_set_trap module_id fac e) in
  fst (factories_set_trap module_id fac e) = Normal tt ∧
  stored_entry module_id e' = Some (ProxyOf module_id fac) ∧
  factories_get_trap module_id e' = Some fac ∧
  (∀ other, other ≠ module_id ->
            stored_entry other e' = stored_entry other e ∧
            factories_get_trap other e' = factories_get_trap other e) ∧
  calls e' = calls e ++ dispatch "module_registered"
               [ArgModule module_id; ArgFactory fac]
               (module_registered (event_listeners e)).
Proof. exact (set_trap_entries module_id fac e addr m). Qed.

(** ** The buffers of the front end *)

Global Instance unchanged_preorder {A} (field : engine -> A) :
  PreOrder (unchanged field).
Proof.
  split.
  - by intros e.
  - intros e1 e2 e3 H12 H23. unfold unchanged in *. congruence.
Qed.

Lemma register_patches_listeners o ps existing :
  keeps (unchanged event_listeners) (register_patches o ps existing).
Proof. keeps_steps same_modify. Qed.

Lemma on_patcher_run {A} (m : M engine A) e pb lb fl bs :
  on_patcher m (FrontEnd (Some e) pb lb fl bs)
  = ((m e).1, FrontEnd (Some (m e).2) pb lb fl bs).
Proof. unfold on_patcher. simpl. by destruct (m e). Qed.

Lemma flush_patches_spec buffered : ∀ e pb lb fl bs,
  Forall (fun b => name_given b.1.1 ≠ None) buffered ->
  ∃ e',
    flush_patches buffered (FrontEnd (Some e) pb lb fl bs)
    = (Normal tt, FrontEnd (Some e') pb lb fl bs) ∧
    patches e' = replayed_patches buffered (patches e) ∧
    window_Registrars e' = replayed_registrars buffered (window_Registrars e) ∧
    event_listeners e' = event_listeners e.
Proof.
  induction buffered as [|[[o ps] reg] buffered IH]; intros e pb lb fl bs Hn.
  - by exists e.
  - inversion Hn as [|? ? Hname Hrest]; subst. simpl in Hname.
    destruct (name_given o) as [name|] eqn:Ho; [|done].
    destruct (register_patches_spec o ps (Some reg) name e Ho)
      as (e1 & e2 & E1 & E2 & Hp & Hw & _).
    destruct (ensure_registrar_spec name o (Some reg) e)
      as (e1' & E1' & _ & _ & Hslot).
    rewrite E1 in E1'. injection E1' as <-.
    pose proof (register_patches_listeners o ps (Some reg) e) as Hev.
    rewrite E2 in Hev. cbn [snd] in Hev.
    destruct (IH e2 pb lb fl bs Hrest) as (e' & E' & Hp' & Hw' & Hev').
    exists e'. split.
    { cbn [flush_patches]. unfold bind at 1. rewrite on_patcher_run, E2.
      cbn [fst snd]. exact E'. }
    change (replayed_patches ((o, ps, reg) :: buffered) (patches e))
      with (replayed_patches buffered
              (add_patches (registration_name (o, ps, reg)) ps (patches e))).
    change (replayed_registrars ((o, ps, reg) :: buffered) (window_Registrars e))
      with (replayed_registrars buffered
              match registrar_slot (registration_name (o, ps, reg))
                      (window_Registrars e) with
              | Missing => <[registration_name (o, ps, reg) := reg]>
                             (window_Registrars e)
              | _ => window_Registrars e
              end).
    replace (registration_name (o, ps, reg)) with name
      by (unfold registration_name; simpl; by rewrite Ho).
    split; [by rewrite Hp', Hp|]. split; [|by rewrite Hev'].
    rewrite Hw', Hw.
    destruct (registrar_slot name (window_Registrars e)).
    + by rewrite Hslot.
    + by rewrite Hslot.
    + destruct Hslot as (x & -> & _ & ->). done.
Qed.

Lemma listeners_of_not_inherited event t :
  inherited_key event = false -> listeners_of event t ≠ Inherited.
Proof. unfold listeners_of. repeat case_decide; try done. by intros ->. Qed.

Lemma flush_listeners_spec buffered : ∀ e pb lb fl bs,
  Forall (fun b => inherited_key b.1 = false) buffered ->
  ∃ e',
    flush_listeners buffered (FrontEnd (Some e) pb lb fl bs)
    = (Normal tt, FrontEnd (Some e') pb lb fl bs) ∧
    event_listeners e' = replayed_listeners buffered (event_listeners e) ∧
    patches e' = patches e ∧
    window_Registrars e' = window_Registrars e.
Proof.
  induction buffered as [|[event callback] buffered IH]; intros e pb lb fl bs Hn.
  - by exists e.
  - inversion Hn as [|? ? Hev Hrest]; subst. simpl in Hev.
    assert (∃ e1, add_event_listener event callback e = (Normal tt, e1) ∧
                  event_listeners e1
                  = match listeners_of event (event_listeners e) with
                    | Own l => with_listeners event (l ++ [callback])
                                 (event_listeners e)
                    | _ => event_listeners e
                    end ∧
                  patches e1 = patches e ∧
                  window_Registrars e1 = window_Registrars e)
      as (e1 & E1 & Hl1 & Hp1 & Hw1).
    { destruct (listeners_of event (event_listeners e)) as [l| |] eqn:Hl.
      - rewrite (add_event_listener_known _ _ _ _ Hl). eexists.
        split; [reflexivity|]. by destruct e.
      - by apply listeners_of_not_inherited in Hl.
      - unfold add_event_listener. rewrite bind_get, Hl. eexists.
        split; [reflexivity|]. by destruct e. }
    destruct (IH e1 pb lb fl bs Hrest) as (e' & E' & Hl' & Hp' & Hw').
    exists e'. split.
    { cbn [flush_listeners]. unfold bind at 1. rewrite on_patcher_run, E1.
      cbn [fst snd]. exact E'. }
    change (replayed_listeners ((event, callback) :: buffered) (event_listeners e))
      with (replayed_listeners buffered
              match listeners_of event (event_listeners e) with
              | Own l => with_listeners event (l ++ [callback]) (event_listeners e)
              | _ => event_listeners e
              end).
    rewrite Hl', Hl1, Hp', Hp1, Hw', Hw1. done.
Qed.

(** X14. Attaching the engine to a front end that buffered calls: when
    every buffered registration has a name and no buffered event name is
    one that [Object.prototype] has, the attachment returns and both
    buffers are empty afterwards.  The engine is left as by the buffered
    registrations made one after the other, each name going to the object
    handed back when the call was buffered unless the name was taken, and
    then by the buffered subscriptions in their order. *)
Theorem attachment_replays_the_buffers r p :
  patcher r = None ->
  is_flushing r = false ->
  Forall (fun b => name_given b.1.1 ≠ None) (patch_buffer r) ->
  Forall (fun b => inherited_key b.1 = false) (event_listener_buffer r) ->
  ∃ e',
    set_patcher p r = (Normal tt, FrontEnd (Some e') [] [] false (buffer_serial r)) ∧
    patches e' = replayed_patches (patch_buffer r) (patches p) ∧
    window_Registrars e'
    = replayed_registrars (patch_buffer r) (window_Registrars p) ∧
    event_listeners e'
    = replayed_listeners (event_listener_buffer r) (event_listeners p).
Proof.
  destruct r as [pt pb lb fl bs]. simpl. intros -> -> Hpb Hlb.
  unfold set_patcher. rewrite bind_get. cbn [patcher]. rewrite bind_modify.
  cbn [patch_buffer event_listener_buffer is_flushing buffer_serial].
  unfold _flush_buffers. rewrite bind_get. cbn [is_flushing].
  unfold set_is_flushing at 1. rewrite bind_modify.
  cbn [patcher patch_buffer event_listener_buffer is_flushing buffer_serial].
  assert (∃ e1,
            (match pb with
             | [] => ret tt
             | _ :: _ =>
                 (on_patcher (logger (LogFlushingPatches (length pb))) ;;
                  flush_patches pb ;;
                  set_patch_buffer [] ;;
                  on_patcher (logger DebugPatchBufferFlushed))%M
             end) (FrontEnd (Some p) pb lb true bs)
            = (Normal tt, FrontEnd (Some e1) (match pb with [] => pb | _ => [] end)
                            lb true bs) ∧
            patches e1 = replayed_patches pb (patches p) ∧
            window_Registrars e1 = replayed_registrars pb (window_Registrars p) ∧
            event_listeners e1 = event_listeners p) as (e1 & E1 & Hp1 & Hw1 & Hl1).
  { destruct pb as [|b pb']; [by exists p|].
    set (pb := b :: pb') in *.
    unfold bind at 1. rewrite on_patcher_run. cbn [fst snd logger modify].
    set (p0 := upd_log _ p).
    destruct (flush_patches_spec pb p0 pb lb true bs Hpb)
      as (e1 & E1 & Hp1 & Hw1 & Hl1).
    unfold bind at 1. rewrite E1. unfold set_patch_buffer. rewrite bind_modify.
    cbn [patcher patch_buffer event_listener_buffer is_flushing buffer_serial].
    rewrite on_patcher_run. cbn [fst snd logger modify].
    eexists. split; [reflexivity|].
    assert (patches p0 = patches p ∧ window_Registrars p0 = window_Registrars p ∧
            event_listeners p0 = event_listeners p) as (Ha & Hb & Hc)
      by (by destruct p).
    rewrite Ha, Hb, Hc in *. by destruct e1. }
  unfold bind at 1. rewrite E1.
  assert (∃ e2,
            (match lb with
             | [] => ret tt
             | _ :: _ =>
                 (on_patcher (logger (LogFlushingListeners (length lb))) ;;
                  flush_listeners lb ;;
                  set_event_listener_buffer [] ;;
                  on_patcher (logger DebugListenerBufferFlushed))%M
             end) (FrontEnd (Some e1) (match pb with [] => pb | _ => [] end)
                     lb true bs)
            = (Normal tt, FrontEnd (Some e2) (match pb with [] => pb | _ => [] end)
                            (match lb with [] => lb | _ => [] end) true bs) ∧
            patches e2 = patches e1 ∧
            window_Registrars e2 = window_Registrars e1 ∧
            event_listeners e2 = replayed_listeners lb (event_listeners e1))
    as (e2 & E2 & Hp2 & Hw2 & Hl2).
  { destruct lb as [|b lb']; [by exists e1|].
    set (lb := b :: lb') in *.
    unfold bind at 1. rewrite on_patcher_run. cbn [fst snd logger modify].
    set (p0 := upd_log _ e1).
    destruct (flush_listeners_spec lb p0 (match pb with [] => pb | _ => [] end)
                lb true bs Hlb) as (e2 & E2 & Hl2 & Hp2 & Hw2).
    unfold bind at 1. rewrite E2. unfold set_event_listener_buffer.
    rewrite bind_modify.
    cbn [patcher patch_buffer event_listener_buffer is_flushing buffer_serial].
    rewrite on_patcher_run. cbn [fst snd logger modify].
    eexists. split; [reflexivity|].
    assert (patches p0 = patches e1 ∧ window_Registrars p0 = window_Registrars e1 ∧
            event_listeners p0 = event_listeners e1) as (Ha & Hb & Hc)
      by (by destruct e1).
    rewrite Ha, Hb, Hc in *. by destruct e2. }
  unfold bind at 1. rewrite E2. unfold set_is_flushing, modify.
  cbn [patcher patch_buffer event_listener_buffer is_flushing buffer_serial].
  exists e2. split.
  { by destruct pb, lb. }
  rewrite Hp2, Hw2, Hl2, Hp1, Hw1, Hl1. done.
Qed.

Lemma match_nonempty {A B} (l : list A) (x y : B) :
  l ≠ [] -> match l with [] => x | _ :: _ => y end = y.
Proof. by destruct l. Qed.

Lemma flush_patches_nameless o ps reg after before : ∀ e pb lb fl bs,
  name_given o = None ->
  Forall (fun b => name_given b.1.1 ≠ None) before ->
  ∃ e',
    flush_patches (before ++ (o, ps, reg) :: after) (FrontEnd (Some e) pb lb fl bs)
    = (Throw (Error "Registrar name is required"),
       FrontEnd (Some e') pb lb fl bs) ∧
    patches e' = replayed_patches before (patches e) ∧
    event_listeners e' = event_listeners e.
Proof.
  induction before as [|[[o1 ps1] reg1] before IH]; intros e pb lb fl bs Ho Hn.
  - exists e. split; [|done].
    cbn [app flush_patches]. unfold bind at 1. rewrite on_patcher_run.
    unfold register_patches. by rewrite Ho.
  - inversion Hn as [|? ? Hname Hrest]; subst. simpl in Hname.
    destruct (name_given o1) as [name|] eqn:Ho1; [|done].
    destruct (register_patches_spec o1 ps1 (Some reg1) name e Ho1)
      as (e1 & e2 & _ & E2 & Hp & _).
    pose proof (register_patches_listeners o1 ps1 (Some reg1) e) as Hev.
    rewrite E2 in Hev. cbn [snd] in Hev.
    destruct (IH e2 pb lb fl bs Ho Hrest) as (e' & E' & Hp' & Hev').
    exists e'. split.
    { cbn [app flush_patches]. unfold bind at 1. rewrite on_patcher_run, E2.
      cbn [fst snd]. exact E'. }
    change (replayed_patches ((o1, ps1, reg1) :: before) (patches e))
      with (replayed_patches before
              (add_patches (registration_name (o1, ps1, reg1)) ps1 (patches e))).
    replace (registration_name (o1, ps1, reg1)) with name
      by (unfold registration_name; simpl; by rewrite Ho1).
    split; [by rewrite Hp', Hp|]. by rewrite Hev'.
Qed.

(** X15. When one of the buffered registrations has no name, attaching the
    engine throws "Registrar name is required".  The registrations
    buffered before it are made; the rest of the buffer and every buffered
    subscription are not, and never will be: the buffers stay as they
    were and the front end stays in its flushing state, in which a flush
    does nothing and a second attachment is ignored. *)
Theorem nameless_buffered_registration_stops_the_flush r p before o ps reg after :
  patcher r = None ->
  is_flushing r = false ->
  patch_buffer r = before ++ (o, ps, reg) :: after ->
  Forall (fun b => name_given b.1.1 ≠ None) before ->
  name_given o = None ->
  ∃ e',
    let r' := FrontEnd (Some e') (patch_buffer r) (event_listener_buffer r) true
                (buffer_serial r) in
    set_patcher p r = (Throw (Error "Registrar name is required"), r') ∧
    patches e' = replayed_patches before (patches p) ∧
    event_listeners e' = event_listeners p ∧
    _flush_buffers r' = (Normal tt, r') ∧
    ∀ p2, set_patcher p2 r' = (Normal tt, r').
Proof.
  destruct r as [pt pb lb fl bs]. simpl. intros -> -> -> Hn Ho.
  set (pb := before ++ (o, ps, reg) :: after).
  destruct (flush_patches_nameless o ps reg after before
              (upd_log (fun l => l ++ [LogFlushingPatches (length pb)]) p)
              pb lb true bs Ho Hn) as (e' & E' & Hp' & Hev').
  exists e'. split; [|split; [|split; [|split]]].
  - unfold set_patcher. rewrite bind_get. cbn [patcher]. rewrite bind_modify.
    cbn [patch_buffer event_listener_buffer is_flushing buffer_serial].
    unfold _flush_buffers. rewrite bind_get. cbn [is_flushing].
    unfold set_is_flushing at 1. rewrite bind_modify.
    cbn [patcher patch_buffer event_listener_buffer is_flushing buffer_serial].
    rewrite match_nonempty by (subst pb; by destruct before).
    unfold bind at 1. unfold bind at 1. unfold bind at 1.
    rewrite on_patcher_run. cbn [fst snd logger modify].
    unfold bind at 1. subst pb. by rewrite E'.
  - rewrite Hp'. by destruct p.
  - rewrite Hev'. by destruct p.
  - unfold _flush_buffers. by rewrite bind_get.
  - intros p2. unfold set_patcher. by rewrite bind_get.
Qed.

(** ** Patches of two registrars with one [find] *)

Lemma merge_into_fresh p existing :
  Forall (fun q => find_strict_eq (p_find q) (p_find p) = false) existing ->
  merge_into p existing = None.
Proof.
  induction 1 as [|q existing Hq _ IH]; simpl; [done|]. by rewrite Hq, IH.
Qed.

Lemma merge_into_last p q existing :
  Forall (fun x => find_strict_eq (p_find x) (p_find p) = false) existing ->
  find_strict_eq (p_find q) (p_find p) = true ->
  merge_into p (existing ++ [q])
  = Some (existing ++ [Patch (p_find q) (p_replacements q ++ p_replacements p)
                         (p_registrar_name q)]).
Proof.
  intros H Hq. induction H as [|x existing Hx _ IH]; simpl.
  - by rewrite Hq.
  - by rewrite Hx, IH.
Qed.

Section TwoRegistrars.

Variable host_eval : text -> option compiled.
Variable host_new_function : text -> option compiled.

(** X16. Two registrars that register a patch with the same [find]
    string: the engine keeps one patch, with the rule of the first
    followed by the rule of the second, under the name of the first.
    When that patch is applied, the placeholders that the second
    registrar's rule wrote resolve to the registrar of the first. *)
Theorem merged_rules_run_under_the_first_name o1 o2 name1 name2 find
    m1 r1 m2 r2 e :
  let e1 := snd (register_patches o1
                   [Patch (FindStr find) [literal_rule m1 r1] None] None e) in
  let e2 := snd (register_patches o2
                   [Patch (FindStr find) [literal_rule m2 r2] None] None e1) in
  let merged := Patch (FindStr find) [literal_rule m1 r1; literal_rule m2 r2]
                  (Some name1) in
  name_given o1 = Some name1 ->
  name_given o2 = Some name2 ->
  Forall (fun q => find_strict_eq (p_find q) (FindStr find) = false) (patches e) ->
  patches e2 = patches e ++ [merged] ∧
  ∀ fac s module_id e',
    let code := resolved (placeholder_id e') (Some name1)
                  (subst_first m2 r2 (subst_first m1 r1 s)) in
    includes s find = true ->
    includes s m1 = true ->
    includes (subst_first m1 r1 s) m2 = true ->
    compile host_eval host_new_function (use_eval (options e')) module_id code
      = Normal (CFunction true) ->
    patch_loop host_eval host_new_function module_id [merged] fac s false e'
    = (Normal (compiled_from fac code, code, true), e').
Proof.
  intros e1 e2 merged Ho1 Ho2 Hfresh. split.
  - subst e1 e2.
    destruct (register_patches_spec o1
                [Patch (FindStr find) [literal_rule m1 r1] None] None name1 e Ho1)
      as (x1 & e1 & _ & E1 & Hp1 & _).
    rewrite E1. cbn [snd].
    destruct (register_patches_spec o2
                [Patch (FindStr find) [literal_rule m2 r2] None] None name2 e1 Ho2)
      as (x2 & e2 & _ & E2 & Hp2 & _).
    rewrite E2. cbn [snd]. rewrite Hp2, Hp1.
    unfold add_patches. cbn [foldl]. unfold add_patch at 2. cbn [p_find p_replacements].
    rewrite merge_into_fresh by done.
    unfold add_patch. cbn [p_find p_replacements].
    rewrite merge_into_last; [done|done|].
    simpl. by rewrite bool_decide_eq_true.
  - intros fac s module_id e' code Hfind Hm1 Hm2 Hc.
    cbn [patch_loop]. unfold _check_pattern_match, merged. cbn [p_find find_items existsb].
    unfold _matches_identifier. rewrite Hfind. cbn [orb negb p_replacements p_registrar_name].
    rewrite (bind_normal _ _ _ _ _
               (apply_patch_two_rules host_eval host_new_function fac s m1 r1 m2 r2
                  module_id (Some name1) e' Hm1 Hm2 Hc)).
    cbn [fst snd]. by rewrite compiled_not_same.
Qed.

End TwoRegistrars.

(** ** Histories: what never happens *)

Lemma register_patches_log o ps existing :
  keeps (log_extends not_cache_hit) (register_patches o ps existing).
Proof. keeps_steps log_modify. Qed.

Lemma add_event_listener_log event callback :
  keeps (log_extends not_cache_hit) (add_event_listener event callback).
Proof. keeps_steps log_modify. Qed.

Lemma remove_event_listener_log event callback :
  keeps (log_extends not_cache_hit) (remove_event_listener event callback).
Proof. keeps_steps log_modify. Qed.

Lemma cache_setter_log this cache_obj stack_lines :
  keeps (log_extends not_cache_hit) (cache_setter this cache_obj stack_lines).
Proof. keeps_steps log_modify. Qed.

Lemma modules_setter_log this addr found stack_lines :
  keeps (log_extends not_cache_hit) (modules_setter this addr found stack_lines).
Proof. keeps_steps log_modify. Qed.

Lemma factories_set_trap_log module_id fac :
  keeps (log_extends not_cache_hit) (factories_set_trap module_id fac).
Proof. keeps_steps log_modify. Qed.

Lemma register_patches_string_cache o ps existing :
  keeps (unchanged factory_string_cache) (register_patches o ps existing).
Proof. keeps_steps same_modify. Qed.

Lemma emit_event_string_cache event args :
  keeps (unchanged factory_string_cache) (_emit_event event args).
Proof. keeps_steps same_modify. Qed.

Lemma emit_event_patched_modules event args :
  keeps (unchanged patched_modules) (_emit_event event args).
Proof. keeps_steps same_modify. Qed.

Lemma add_event_listener_string_cache event callback :
  keeps (unchanged factory_string_cache) (add_event_listener event callback).
Proof. keeps_steps same_modify. Qed.

Lemma remove_event_listener_string_cache event callback :
  keeps (unchanged factory_string_cache) (remove_event_listener event callback).
Proof. keeps_steps same_modify. Qed.

Lemma cache_setter_string_cache this cache_obj stack_lines :
  keeps (unchanged factory_string_cache) (cache_setter this cache_obj stack_lines).
Proof. keeps_steps same_modify. Qed.

Lemma modules_setter_string_cache this addr found stack_lines :
  keeps (unchanged factory_string_cache)
    (modules_setter this addr found stack_lines).
Proof. keeps_steps same_modify. Qed.

Lemma factories_set_trap_string_cache module_id fac :
  keeps (unchanged factory_string_cache) (factories_set_trap module_id fac).
Proof. keeps_steps same_modify. Qed.

Lemma log_extends_forallb p e e' :
  log_extends p e e' -> forallb p (log e) = true -> forallb p (log e') = true.
Proof. intros (l & -> & Hl) H. by rewrite forallb_app, H, Hl. Qed.

Lemma patching_line_not_hit entry :
  patching_line entry = true -> not_cache_hit entry = true.
Proof. by destruct entry. Qed.

Section NeverHit.

Variable host_eval : text -> option compiled.
Variable host_new_function : text -> option compiled.

Abbreviation op_step := (run_op host_eval host_new_function).
Abbreviation op_steps := (run_ops host_eval host_new_function).

Hypothesis eval_extensible : gives_extensible host_eval.
Hypothesis new_function_extensible : gives_extensible host_new_function.

(** What such a page compiles takes the marker. *)
Lemma apply_patch_takes_marker fac factory_str rs module_id registrar_name e
    f' code' e' :
  _apply_patch host_eval host_new_function fac factory_str rs module_id
    registrar_name e = (Normal (f', code'), e') ->
  not_same f' fac = true ->
  takes_marker f' = true.
Proof.
  unfold _apply_patch, try_catch, bind, get, lift, ret, logger, modify.
  destruct (run_rules _ _ _ _ _ _ e) as [[[code total]|x] e1]; simpl in *.
  - destruct (decide (total = 0)).
    + intros [= <- <- <-]. by rewrite not_same_refl.
    + destruct (replace_placeholders _ code) as [pc|x] eqn:Hp; simpl.
      * unfold compile.
        destruct (use_eval (options e1)).
        -- destruct (host_eval _) as [c|] eqn:Hc; simpl.
           ++ intros [= <- <- <-] _.
              by destruct (eval_extensible _ _ Hc) as [-> | ->].
           ++ intros [= <- <- <-]. by rewrite not_same_refl.
        -- destruct (host_new_function _) as [c|] eqn:Hc; simpl.
           ++ intros [= <- <- <-] _.
              by destruct (new_function_extensible _ _ Hc) as [-> | ->].
           ++ intros [= <- <- <-]. by rewrite not_same_refl.
      * intros [= <- <- <-]. by rewrite not_same_refl.
  - intros [= <- <- <-]. by rewrite not_same_refl.
Qed.

Lemma patch_loop_takes_marker module_id ps : ∀ cur str any e g code any' e',
  patch_loop host_eval host_new_function module_id ps cur str any e
    = (Normal (g, code, any'), e') ->
  (any = true -> takes_marker cur = true) ->
  any' = true -> takes_marker g = true.
Proof.
  induction ps as [|p ps IH]; intros cur str any e g code any' e'; simpl.
  - unfold ret. intros [= <- <- <- <-]. auto.
  - destruct (negb (_check_pattern_match str p)); [apply IH|].
    unfold bind at 1.
    destruct (_apply_patch _ _ _ _ _ _ _ e) as [[[f' code'] |x] e1] eqn:Ea; [|done].
    cbn [fst snd]. destruct (not_same f' cur) eqn:Hs; [|apply IH].
    intros Hloop _. eapply IH; [exact Hloop|].
    intros _. by eapply apply_patch_takes_marker.
Qed.

Lemma step_string_cache x e :
  (∀ module_id fac, x ≠ CallProxy module_id fac) ->
  factory_string_cache (op_step x e) = factory_string_cache e ∧
  log_extends not_cache_hit e (op_step x e).
Proof.
  intros Hx. destruct x; simpl.
  - split; [apply register_patches_string_cache|apply register_patches_log].
  - split; [apply add_event_listener_string_cache|apply add_event_listener_log].
  - split; [apply remove_event_listener_string_cache
           |apply remove_event_listener_log].
  - split; [apply modules_setter_string_cache|apply modules_setter_log].
  - split; [apply cache_setter_string_cache|apply cache_setter_log].
  - split; [apply factories_set_trap_string_cache|apply factories_set_trap_log].
  - by destruct (Hx module_id factory_target).
Qed.

Lemma call_proxy_cache_covered module_id fac e :
  cache_covered e -> cache_covered (op_step (CallProxy module_id fac) e).
Proof.
  intros [Hdom Hlog]. simpl.
  destruct (module_factories e) as [[addr m]|] eqn:Hm; [|done]. simpl.
  destruct (f_original fac) eqn:Ho.
  { rewrite get_or_patch_marked by congruence. done. }
  destruct (decide (module_id ∈ patched_modules e)) as [Hin|Hn].
  { by rewrite get_or_patch_again. }
  destruct (get_or_patch_anatomy host_eval host_new_function module_id fac e addr m
              Ho Hn Hm) as (src & e1 & g & code & any & e2 & E1 & E2 & Hl2 & ->).
  set (e0 := upd_attempts _ e) in E1.
  destruct (get_factory_string_anatomy module_id fac e0)
    as (src' & e1' & E1' & _ & Hs1 & Hsrc).
  rewrite E1 in E1'. injection E1' as <- <-.
  assert (factory_string_cache e0 = factory_string_cache e ∧
          patched_modules e0 = patched_modules e ∧ log e0 = log e ∧
          options e0 = options e) as (Hc0 & Hp0 & Hl0 & Ho0) by (by destruct e).
  destruct Hsrc as [-> Hl1].
  { intros _. rewrite Hc0.
    destruct (factory_string_cache e !! module_id) eqn:Hc; [|done].
    destruct Hn. apply Hdom. by rewrite Hc. }
  apply same_fields in Hs1.
  destruct Hs1 as (_ & Hp1 & _ & _ & _ & _ & _ & Hc1 & _).
  assert (patched_modules e1 = patched_modules e ∧
          ∀ other, other ≠ module_id ->
                   factory_string_cache e1 !! other = factory_string_cache e !! other)
    as [Hp1' Hc1'].
  { rewrite Hp1, Hc1. destruct (enable_cache (options e0)).
    - split; [by destruct e|]. intros other Hne.
      replace (factory_string_cache (upd_factory_string_cache _ e0))
        with (<[module_id := f_src fac]> (factory_string_cache e0))
        by (by destruct e).
      by rewrite lookup_insert_ne, Hc0.
    - split; [done|]. intros. by rewrite Hc0. }
  assert (forallb not_cache_hit (log e2) = true) as Hlog2.
  { eapply log_extends_forallb.
    - eapply log_extends_weaken; [apply patching_line_not_hit|].
      by apply logged_only_log_extends.
    - by rewrite Hl1, Hl0. }
  pose proof (logged_only_same _ _ _ Hl2) as Hs2. apply same_fields in Hs2.
  destruct Hs2 as (_ & Hp2 & _ & _ & _ & _ & _ & Hc2 & _).
  assert (∀ ef, patched_modules ef = patched_modules e2 ->
                factory_string_cache ef = factory_string_cache e2 ->
                forallb not_cache_hit (log ef) = true ->
                cache_covered (upd_patched_modules (fun s => {[module_id]} ∪ s) ef))
    as Hfinal.
  { intros ef Hpf Hcf Hlf. split.
    - intros other Hsome.
      replace (patched_modules (upd_patched_modules _ ef))
        with ({[module_id]} ∪ patched_modules ef) by (by destruct ef).
      replace (factory_string_cache (upd_patched_modules _ ef))
        with (factory_string_cache ef) in Hsome by (by destruct ef).
      destruct (decide (other = module_id)) as [->|Hne];
        [by apply elem_of_union_l, elem_of_singleton|].
      rewrite Hcf, Hc2, Hc1' in Hsome by done.
      rewrite Hpf, Hp2, Hp1'. apply elem_of_union_r. by apply Hdom.
    - by destruct ef. }
  destruct any; cbn [snd].
  - rewrite (patch_loop_takes_marker _ _ _ _ _ _ _ _ _ _ E2) by done.
    cbn [snd].
    set (e3 := upd_module_factories _ e2).
    pose proof (emit_event_patched_modules "module_patched"
                  [ArgModule module_id; ArgFactory (set_original g fac);
                   ArgFactory fac] e3) as Hp4.
    pose proof (emit_event_string_cache "module_patched"
                  [ArgModule module_id; ArgFactory (set_original g fac);
                   ArgFactory fac] e3) as Hc4.
    pose proof (emit_event_log "module_patched"
                  [ArgModule module_id; ArgFactory (set_original g fac);
                   ArgFactory fac] e3) as Hl4.
    unfold unchanged in Hp4, Hc4.
    apply Hfinal.
    + rewrite Hp4. by destruct e2.
    + rewrite Hc4. by destruct e2.
    + eapply log_extends_forallb; [exact Hl4|]. by destruct e2.
  - by apply Hfinal.
Qed.

Lemma step_cache_covered x e : cache_covered e -> cache_covered (op_step x e).
Proof.
  intros Hc. destruct x;
    try (destruct Hc as [Hdom Hlog];
         match goal with
         | |- cache_covered (op_step ?x e) =>
             destruct (step_string_cache x e ltac:(done)) as [Hc1 Hl1];
             pose proof (step_quiet host_eval host_new_function x e ltac:(done))
               as (Hq & _)
         end;
         split;
         [intros id Hid; rewrite Hq; apply Hdom; by rewrite <- Hc1
         |by eapply log_extends_forallb]).
  by apply call_proxy_cache_covered.
Qed.

End NeverHit.

(** X17. On a page whose [eval] and [new Function] give, when they do not
    throw, values that take a property, the stored factory strings are
    never read back.  In every history of an initialized engine, with the
    cache enabled or not, no call logs a cache hit, and an id that has a
    stored string is in [patched_modules] already, so that its matching
    loop is not entered again. *)
Theorem factory_string_cache_is_never_hit host_eval host_new_function
    o random_digits xs :
  gives_extensible host_eval ->
  gives_extensible host_new_function ->
  let e := run_ops host_eval host_new_function xs (initialize o random_digits) in
  (∀ module_id, DebugCacheHit module_id ∉ log e) ∧
  (∀ module_id, is_Some (factory_string_cache e !! module_id) ->
                module_id ∈ patched_modules e).
Proof.
  intros Hext1 Hext2. cbv zeta.
  assert (cache_covered
            (run_ops host_eval host_new_function xs (initialize o random_digits)))
    as [Hdom Hlog].
  { assert (cache_covered (initialize o random_digits)) as H0.
    { split; [|done]. intros id [x Hx].
      change (factory_string_cache (initialize o random_digits))
        with (∅ : gmap string text) in Hx.
      by rewrite lookup_empty in Hx. }
    revert H0. generalize (initialize o random_digits).
    induction xs as [|x xs IH]; intros e He; [done|].
    simpl. apply IH. by apply step_cache_covered. }
  split; [|done]. intros module_id Hin. apply list_elem_of_In in Hin.
  by apply (proj1 (forallb_forall _ _) Hlog) in Hin.
Qed.

(** ** Histories: detection happens once *)

Ltac calls_modify :=
  intros []; exists []; split; [simpl; by rewrite app_nil_r|reflexivity].

Lemma emit_event_calls_extend q event args :
  q event = true -> keeps (calls_extend q) (_emit_event event args).
Proof.
  intros Hq. apply emit_event_keeps; [apply _| | |].
  - split; [intros ? ?|split; intros ? ?]; keeps_steps calls_modify.
  - intros l. apply keeps_modify. intros []. exists [(event, l_addr l, args)].
    split; [done|]. simpl. by rewrite Hq.
  - intros x. keeps_steps calls_modify.
Qed.

Lemma logged_only_calls_extend p q e e' : logged_only p e e' -> calls_extend q e e'.
Proof.
  intros H. exists []. split; [|done].
  by rewrite (logged_only_calls _ _ _ H), app_nil_r.
Qed.

Lemma calls_for_extend e e' :
  calls_extend not_webpack_detected e e' ->
  calls_for "webpack_detected" e' = calls_for "webpack_detected" e.
Proof.
  intros (added & E & H). unfold calls_for. rewrite E, filter_app.
  assert (filter (fun c : string * nat * list event_arg => c.1.1 = "webpack_detected")
            added = []) as ->; [|by rewrite app_nil_r].
  clear E. induction added as [|c added IH]; [done|].
  simpl in H. apply andb_true_iff in H as [Hc H].
  rewrite filter_cons, decide_False; [by apply IH|].
  unfold not_webpack_detected in Hc. apply negb_true_iff in Hc.
  by apply bool_decide_eq_false in Hc.
Qed.

Lemma calls_for_dispatch event args ls : ∀ l,
  filter (fun c : string * nat * list event_arg => c.1.1 = event)
    (l ++ dispatch event args ls)
  = filter (fun c : string * nat * list event_arg => c.1.1 = event) l
    ++ dispatch event args ls.
Proof.
  intros l. rewrite filter_app. f_equal.
  induction ls as [|x ls IH]; [done|].
  unfold dispatch in *. cbn [fmap list_fmap].
  rewrite filter_cons, decide_True by done. by f_equal.
Qed.

Lemma classic_set_modules x :
  (∃ this addr found stack_lines, x = SetModules this addr found stack_lines) ∨
  (∀ this addr found stack_lines, x ≠ SetModules this addr found stack_lines).
Proof. destruct x; eauto 10; by right. Qed.

Section DetectedOnce.

Variable host_eval : text -> option compiled.
Variable host_new_function : text -> option compiled.

Abbreviation step1 := (run_op host_eval host_new_function).
Abbreviation steps1 := (run_ops host_eval host_new_function).

Lemma patch_loop_calls module_id ps cur str any :
  keeps (calls_extend not_webpack_detected)
    (patch_loop host_eval host_new_function module_id ps cur str any).
Proof.
  eapply keeps_weaken; [|apply returns_keeps, patch_loop_logged].
  apply logged_only_calls_extend.
Qed.

Lemma step_calls x e :
  (∀ this addr found stack_lines, x ≠ SetModules this addr found stack_lines) ->
  calls_extend not_webpack_detected e (step1 x e).
Proof.
  intros Hx.
  pose proof (emit_event_calls_extend not_webpack_detected) as Hcl.
  pose proof (patch_loop_calls) as Hpl.
  destruct x; simpl.
  - assert (keeps (calls_extend not_webpack_detected) (register_patches o ps None))
      as H by keeps_steps calls_modify. apply H.
  - assert (keeps (calls_extend not_webpack_detected)
              (add_event_listener event callback))
      as H by keeps_steps calls_modify. apply H.
  - assert (keeps (calls_extend not_webpack_detected)
              (remove_event_listener event callback))
      as H by keeps_steps calls_modify. apply H.
  - by destruct (Hx this addr found stack_lines).
  - assert (keeps (calls_extend not_webpack_detected)
              (cache_setter this cache_obj stack_lines))
      as H by keeps_steps calls_modify. apply H.
  - assert (keeps (calls_extend not_webpack_detected)
              (factories_set_trap module_id fac))
      as H by keeps_steps calls_modify. apply H.
  - destruct (module_factories e); [|reflexivity]. simpl.
    assert (keeps (calls_extend not_webpack_detected)
              (_get_or_patch_factory host_eval host_new_function module_id
                 factory_target))
      as H by keeps_steps calls_modify. apply H.
Qed.

Lemma steps_calls_after_detection xs : ∀ e,
  hook_webpack_detected e = true ->
  calls_for "webpack_detected" (steps1 xs e) = calls_for "webpack_detected" e.
Proof.
  induction xs as [|x xs IH]; intros e Hd; [done|].
  change (steps1 (x :: xs) e) with (steps1 xs (step1 x e)).
  rewrite (IH (step1 x e)).
  - destruct (classic_set_modules x) as [(this & addr & found & st & ->)|Hx].
    + simpl. by rewrite modules_setter_detected.
    + by apply calls_for_extend, step_calls.
  - destruct (step_detected_stays host_eval host_new_function x e Hd) as (-> & _).
    done.
Qed.

Lemma steps_calls_before_detection xs : ∀ e,
  (hook_webpack_detected e = false -> calls_for "webpack_detected" e = []) ->
  hook_webpack_detected (steps1 xs e) = false ->
  calls_for "webpack_detected" (steps1 xs e) = [].
Proof.
  induction xs as [|x xs IH]; intros e He Hd; [by apply He|].
  change (steps1 (x :: xs) e) with (steps1 xs (step1 x e)) in *.
  apply IH; [|done]. intros Hd1.
  destruct (classic_set_modules x) as [(this & addr & found & st & ->)|Hx].
  - simpl in *. destruct (accepted e this st) eqn:Ha.
    + destruct (modules_setter_accepted this addr found st e Ha)
        as (e' & E & Hf & _). rewrite E in Hd1. simpl in Hd1. congruence.
    + rewrite modules_setter_rejected in * by done. by apply He.
  - rewrite (calls_for_extend e (step1 x e)) by (by apply step_calls). apply He.
    destruct (step_detection_unchanged host_eval host_new_function x e Hx)
      as (Hf & _). congruence.
Qed.

(** X18. Detection happens once in a history.  Before the assignment of
    the collection of factories that the engine accepts, no listener of
    [webpack_detected] has been called; from that assignment on, whatever
    follows, no further call is made for [webpack_detected]: the calls
    are those of the one dispatch.  When the listeners subscribed at that
    moment make no call into the engine, these are one call for each of
    them, in order, with the function and the collection detected, and a
    listener subscribed later is not called. *)
Theorem webpack_detected_fires_once o random_digits xs this addr found
    stack_lines ys :
  let e1 := steps1 xs (initialize o random_digits) in
  let e2 := step1 (SetModules this addr found stack_lines) e1 in
  let e3 := steps1 ys e2 in
  accepted e1 this stack_lines = true ->
  calls_for "webpack_detected" e1 = [] ∧
  calls_for "webpack_detected" e3 = calls_for "webpack_detected" e2 ∧
  (passive_event "webpack_detected" e1 ->
   calls_for "webpack_detected" e3
   = dispatch "webpack_detected" [ArgRequire this; ArgFactories addr]
       (webpack_detected (event_listeners e1))).
Proof.
  intros e1 e2 e3 Ha.
  assert (hook_webpack_detected e1 = false) as Hd1.
  { unfold accepted in Ha. destruct (hook_webpack_detected e1); [|done].
    by destruct (hooked e1). }
  assert (calls_for "webpack_detected" e1 = []) as H1.
  { by apply steps_calls_before_detection. }
  split; [done|].
  destruct (modules_setter_accepted this addr found stack_lines e1 Ha)
    as (e2' & E2 & Hd2 & _).
  assert (calls_for "webpack_detected" e3 = calls_for "webpack_detected" e2)
    as H3.
  { subst e3. apply steps_calls_after_detection. subst e2. simpl. by rewrite E2. }
  split; [done|]. intros Hpassive. rewrite H3.
  destruct (modules_setter_entries this addr found stack_lines e1 Ha Hpassive)
    as (_ & _ & _ & Hc2).
  subst e2. simpl. unfold calls_for in *. rewrite Hc2, calls_for_dispatch.
  by rewrite H1.
Qed.

End DetectedOnce.

(** ** Histories: what stays *)

Global Instance registrars_kept_preorder : PreOrder registrars_kept.
Proof.
  split.
  - intros e. unfold registrars_kept. reflexivity.
  - intros e1 e2 e3 H12 H23. unfold registrars_kept in *. by etrans.
Qed.

Ltac kept_modify := intros []; unfold registrars_kept; simpl; reflexivity.

Section WhatStays.

Variable host_eval : text -> option compiled.
Variable host_new_function : text -> option compiled.

Abbreviation step2 := (run_op host_eval host_new_function).
Abbreviation steps2 := (run_ops host_eval host_new_function).

Lemma register_patches_registrars_kept o ps :
  keeps registrars_kept (register_patches o ps None).
Proof.
  intros e. unfold registrars_kept.
  destruct (name_given o) as [name|] eqn:Ho.
  - destruct (register_patches_spec o ps None name e Ho)
      as (e1 & e' & E1 & E' & _ & Hw' & _). rewrite E'. cbn [snd]. rewrite Hw'.
    destruct (ensure_registrar_spec name o None e) as (e1' & E1' & _ & _ & Hslot).
    rewrite E1 in E1'. injection E1' as <-.
    unfold registrar_slot in Hslot.
    destruct (window_Registrars e !! name) eqn:Hn.
    + by rewrite Hslot.
    + destruct (inherited_key name); [by rewrite Hslot|].
      destruct Hslot as (r & -> & _). by apply insert_subseteq.
  - unfold register_patches. by rewrite Ho.
Qed.

Lemma patch_loop_registrars_kept module_id ps cur str any :
  keeps registrars_kept
    (patch_loop host_eval host_new_function module_id ps cur str any).
Proof.
  eapply keeps_weaken; [|apply returns_keeps, patch_loop_logged].
  intros e e' H. apply logged_only_same, same_fields in H.
  unfold registrars_kept.
  destruct H as (_&_&_&_&_&_&_&_&_&_&_&_&_&->&_). done.
Qed.

Lemma step_window_Registrars x e :
  window_Registrars e ⊆ window_Registrars (step2 x e).
Proof.
  pose proof register_patches_registrars_kept as Hreg.
  pose proof patch_loop_registrars_kept as Hpl.
  assert (∀ {A} (m : M engine A),
            keeps registrars_kept m ->
            window_Registrars e ⊆ window_Registrars (snd (m e))) as Hkeep.
  { intros A m Hm. apply Hm. }
  destruct x; simpl.
  - apply Hkeep, Hreg.
  - apply Hkeep. keeps_steps kept_modify.
  - apply Hkeep. keeps_steps kept_modify.
  - apply Hkeep. keeps_steps kept_modify.
  - apply Hkeep. keeps_steps kept_modify.
  - apply Hkeep. keeps_steps kept_modify.
  - destruct (module_factories e) eqn:Hm; [|done]. simpl.
    apply Hkeep. keeps_steps kept_modify.
Qed.

(** X20. A registrar stays where it is.  In every history, an object that
    is under a name in [window.WebpackPatcher.Registrars] is under that
    name ever after: no registration, whatever data or functions it
    brings, and no other call replaces or removes it. *)
Theorem registrars_are_permanent xs e name r :
  window_Registrars e !! name = Some r ->
  window_Registrars (run_ops host_eval host_new_function xs e) !! name = Some r.
Proof.
  revert e. induction xs as [|x xs IH]; intros e Hr; [done|].
  change (steps2 (x :: xs) e) with (steps2 xs (step2 x e)).
  apply IH. eapply lookup_weaken; [exact Hr|apply step_window_Registrars].
Qed.

Lemma cache_setter_accepted this cache_obj stack_lines e :
  cache_accepted e this stack_lines = true ->
  cache_setter this cache_obj stack_lines e
  = (Normal tt,
     upd_log (fun l => l ++ [DebugCapturedCache])
       (upd_webpack_cache (fun _ => Some cache_obj)
          (upd_hook_cache_detected (fun _ => true) e))).
Proof.
  unfold cache_accepted, cache_setter. rewrite bind_get.
  destruct (hooked e); [|done].
  destruct (hook_cache_detected e); [done|].
  destruct (includes _ _); [|done].
  destruct (passes_filter _ _ _); [|done].
  intros _. cbn [negb]. by rewrite bind_modify, bind_modify.
Qed.

Lemma step_cache_kept x e :
  hook_cache_detected e = true ->
  hook_cache_detected (step2 x e) = true ∧
  webpack_cache (step2 x e) = webpack_cache e.
Proof.
  intros Hd.
  assert (∀ {A} (m : M engine A),
            keeps (unchanged hook_cache_detected) m ->
            keeps (unchanged webpack_cache) m ->
            hook_cache_detected (snd (m e)) = true ∧
            webpack_cache (snd (m e)) = webpack_cache e) as Hkeep.
  { intros A m H1 H2. by rewrite (H1 e), (H2 e). }
  destruct x; simpl.
  - apply Hkeep; keeps_steps same_modify.
  - apply Hkeep; keeps_steps same_modify.
  - apply Hkeep; keeps_steps same_modify.
  - apply Hkeep; keeps_steps same_modify.
  - unfold cache_setter. rewrite bind_get, Hd.
    destruct (hooked e); [|done]. simpl. by destruct e.
  - apply Hkeep; keeps_steps same_modify.
  - destruct (module_factories e) eqn:Hm; [|done].
    destruct (call_proxy_frame host_eval host_new_function module_id
                factory_target e ltac:(by rewrite Hm))
      as (_ & _ & Hw & _ & _ & _ & Hc & _).
    simpl in Hw, Hc. rewrite Hm in Hw, Hc. simpl in Hw, Hc.
    by rewrite Hw, Hc.
Qed.

(** X21. The first cache the engine accepts is the one it keeps.  From
    the accepted assignment on, whatever follows, later assignments of a
    cache included, the engine holds that object, and it is the object the
    wrapper [moduleCache] reads and writes. *)
Theorem first_cache_is_kept o random_digits xs this cache_obj stack_lines ys r :
  let e1 := steps2 xs (initialize o random_digits) in
  let e2 := step2 (SetCache this cache_obj stack_lines) e1 in
  let e3 := steps2 ys e2 in
  cache_accepted e1 this stack_lines = true ->
  attached e3 r ->
  webpack_cache e3 = Some cache_obj ∧
  captured_cache r = Some cache_obj ∧
  moduleCache_getAll r = CacheCopy cache_obj.
Proof.
  intros e1 e2 e3 Ha Hr.
  assert (hook_cache_detected e2 = true ∧ webpack_cache e2 = Some cache_obj)
    as [Hd2 Hc2].
  { subst e2. simpl. rewrite cache_setter_accepted by done. simpl.
    by destruct e1. }
  assert (hook_cache_detected e3 = true ∧ webpack_cache e3 = Some cache_obj)
    as [_ Hc3].
  { subst e3. revert Hd2 Hc2. generalize e2. clear.
    induction ys as [|y ys IH]; intros e Hd Hc; [done|].
    change (steps2 (y :: ys) e) with (steps2 ys (step2 y e)).
    destruct (step_cache_kept y e Hd) as [Hd' Hc']. apply IH; congruence. }
  split; [done|]. unfold attached in Hr.
  unfold captured_cache, moduleCache_getAll. by rewrite Hr, Hc3.
Qed.

End WhatStays.

(** ** Histories: the entries of the collection *)

Section WellKeyed.

Variable host_eval : text -> option compiled.
Variable host_new_function : text -> option compiled.

Abbreviation step3 := (run_op host_eval host_new_function).
Abbreviation steps3 := (run_ops host_eval host_new_function).

Lemma well_keyed_same e e' :
  module_factories e' = module_factories e ->
  patched_modules e ⊆ patched_modules e' ->
  well_keyed e -> well_keyed e'.
Proof.
  intros Hm Hp Hk module_id entry Hentry.
  unfold stored_entry in *. rewrite Hm in Hentry.
  specialize (Hk module_id entry Hentry). destruct entry; [done|].
  destruct Hk as [? ?]. split; [done|]. by apply Hp.
Qed.

Lemma step_module_factories x e :
  match x with
  | Register _ _ | AddListener _ _ | RemoveListener _ _ | SetCache _ _ _ => True
  | _ => False
  end ->
  module_factories (step3 x e) = module_factories e.
Proof.
  assert (∀ {A} (m : M engine A),
            keeps (unchanged module_factories) m ->
            module_factories (snd (m e)) = module_factories e) as Hkeep.
  { intros A m Hm. apply Hm. }
  destruct x; simpl; try done; intros _; apply Hkeep; keeps_steps same_modify.
Qed.

Lemma emit_event_module_factories event args :
  keeps (unchanged module_factories) (_emit_event event args).
Proof. keeps_steps same_modify. Qed.

(** What an accepted assignment leaves in the collection, whatever the
    listeners do. *)
Lemma modules_setter_wraps this addr found stack_lines e :
  accepted e this stack_lines = true ->
  module_factories (snd (modules_setter this addr found stack_lines e))
  = Some (addr, wrapped found).
Proof.
  unfold accepted, modules_setter. rewrite bind_get.
  destruct (hooked e); [|done].
  destruct (hook_webpack_detected e) eqn:Hd; [done|].
  destruct (includes _ _); [|done].
  destruct (passes_filter _ _ _); [|done].
  intros _. cbn [negb].
  rewrite bind_modify, bind_logger, bind_modify.
  set (e1 := upd_webpack_require _ _). clearbody e1.
  destruct (emit_event_returns "webpack_detected"
              [ArgRequire this; ArgFactories addr] e1 (or_introl eq_refl))
    as [e2 E2].
  rewrite (bind_normal _ _ _ _ _ E2).
  destruct (on_detect_anatomy (on_detect (options e)) this addr e2)
    as (e3 & E3 & _).
  rewrite (bind_normal _ _ _ _ _ E3), bind_modify. by destruct e3.
Qed.

Lemma set_trap_stores module_id fac e addr m :
  module_factories e = Some (addr, m) ->
  module_factories (snd (factories_set_trap module_id fac e))
  = Some (addr, <[module_id := ProxyOf module_id fac]> m).
Proof.
  intros Hm. unfold factories_set_trap. rewrite bind_get, Hm.
  pose proof (emit_event_module_factories "module_registered"
                [ArgModule module_id; ArgFactory fac] e) as Hmf.
  unfold unchanged in Hmf.
  destruct (emit_event_returns "module_registered"
              [ArgModule module_id; ArgFactory fac] e
              (or_intror (or_introl eq_refl))) as [e1 E1].
  rewrite E1 in Hmf. rewrite (bind_normal _ _ _ _ _ E1). unfold modify.
  by destruct e1.
Qed.

Lemma step_well_keyed x e : well_keyed e -> well_keyed (step3 x e).
Proof.
  intros Hk.
  assert (∀ x, (∀ module_id fac, x ≠ CallProxy module_id fac) ->
               patched_modules e ⊆ patched_modules (step3 x e)) as Hquiet.
  { intros y Hy.
    destruct (step_quiet host_eval host_new_function y e Hy) as (-> & _). done. }
  destruct x.
  - apply (well_keyed_same e); [by apply step_module_factories|by apply Hquiet|done].
  - apply (well_keyed_same e); [by apply step_module_factories|by apply Hquiet|done].
  - apply (well_keyed_same e); [by apply step_module_factories|by apply Hquiet|done].
  - simpl. destruct (accepted e this stack_lines) eqn:Ha.
    + pose proof (modules_setter_wraps this addr found stack_lines e Ha) as Hw.
      intros module_id entry Hentry. unfold stored_entry in Hentry.
      rewrite Hw, wrapped_lookup in Hentry.
      destruct (found !! module_id); [|done]. by injection Hentry as <-.
    + by rewrite modules_setter_rejected.
  - apply (well_keyed_same e); [by apply step_module_factories|by apply Hquiet|done].
  - destruct (module_factories e) as [[addr m]|] eqn:Hm.
    + pose proof (set_trap_stores module_id fac e addr m Hm) as Hs.
      intros id entry Hentry. simpl in Hentry. unfold stored_entry in Hentry.
      rewrite Hs in Hentry.
      destruct (decide (id = module_id)) as [->|Hne].
      * rewrite lookup_insert_eq in Hentry. by injection Hentry as <-.
      * rewrite lookup_insert_ne in Hentry by done.
        specialize (Hk id entry). unfold stored_entry in Hk. rewrite Hm in Hk.
        specialize (Hk Hentry). destruct entry; [done|].
        destruct Hk as [? ?]. split; [done|].
        by apply (Hquiet (SetFactory module_id fac)).
    + simpl. unfold factories_set_trap. rewrite bind_get, Hm. done.
  - simpl. destruct (module_factories e) as [[addr m]|] eqn:Hm; [|done]. simpl.
    destruct (f_original factory_target) eqn:Ho.
    { rewrite get_or_patch_marked by congruence. done. }
    destruct (decide (module_id ∈ patched_modules e)) as [Hin|Hn].
    { by rewrite get_or_patch_again. }
    destruct (get_or_patch_anatomy host_eval host_new_function module_id
                factory_target e addr m Ho Hn Hm)
      as (src & e1 & g & code & any & e2 & E1 & E2 & Hl2 & ->).
    set (e0 := upd_attempts _ e) in E1.
    destruct (get_factory_string_anatomy module_id factory_target e0)
      as (src' & e1' & E1' & _ & Hs1 & _).
    rewrite E1 in E1'. injection E1' as <- <-.
    apply same_fields in Hs1. destruct Hs1 as (_ & Hp1 & Hm1 & _).
    pose proof (logged_only_same _ _ _ Hl2) as Hs2. apply same_fields in Hs2.
    destruct Hs2 as (_ & Hp2 & Hm2 & _).
    assert (module_factories e2 = Some (addr, m) ∧
            patched_modules e2 = patched_modules e) as [Hm2' Hp2'].
    { rewrite Hm2, Hm1, Hp2, Hp1. subst e0.
      destruct (enable_cache _); by destruct e. }
    destruct any; cbn [snd]; [destruct (takes_marker g); cbn [snd]|].
    + set (patched := set_original g factory_target).
      set (e3 := upd_module_factories _ e2).
      pose proof (emit_event_patched_modules "module_patched"
                    [ArgModule module_id; ArgFactory patched;
                     ArgFactory factory_target] e3) as Hp4.
      pose proof (emit_event_module_factories "module_patched"
                    [ArgModule module_id; ArgFactory patched;
                     ArgFactory factory_target] e3) as Hm4.
      unfold unchanged in Hp4, Hm4.
      set (e4 := snd (_emit_event _ _ e3)) in *.
      assert (module_factories (upd_patched_modules (fun s => {[module_id]} ∪ s) e4)
              = Some (addr, <[module_id := Plain patched]> m) ∧
              patched_modules (upd_patched_modules (fun s => {[module_id]} ∪ s) e4)
              = {[module_id]} ∪ patched_modules e) as [Hmf Hpf].
      { split.
        - transitivity (module_factories e4); [by destruct e4|].
          rewrite Hm4. by destruct e2.
        - transitivity ({[module_id]} ∪ patched_modules e4); [by destruct e4|].
          rewrite Hp4, <- Hp2'. by destruct e2. }
      intros id entry Hentry. unfold stored_entry in Hentry.
      rewrite Hmf in Hentry. rewrite Hpf.
      destruct (decide (id = module_id)) as [->|Hne].
      * rewrite lookup_insert_eq in Hentry. injection Hentry as <-.
        split; [done|]. by apply elem_of_union_l, elem_of_singleton.
      * rewrite lookup_insert_ne in Hentry by done.
        specialize (Hk id entry). unfold stored_entry in Hk. rewrite Hm in Hk.
        specialize (Hk Hentry). destruct entry; [done|].
        destruct Hk as [? ?]. split; [done|]. by apply elem_of_union_r.
    + apply (well_keyed_same e); [by rewrite Hm2'|by rewrite Hp2'|done].
    + apply (well_keyed_same e); [| |done].
      * transitivity (module_factories e2); [by destruct e2|]. by rewrite Hm2'.
      * replace (patched_modules (upd_patched_modules _ e2))
          with ({[module_id]} ∪ patched_modules e2) by (by destruct e2).
        rewrite Hp2'. apply union_subseteq_r.
Qed.

(** X22. In every history of an initialized engine, each entry of the
    collection of factories is either a proxy made for the very id it is
    stored under, or a factory the engine has patched: it carries the
    original-factory marker and its id is in [patched_modules]. *)
Theorem stored_entries_are_well_keyed o random_digits xs :
  well_keyed (steps3 xs (initialize o random_digits)).
Proof.
  assert (well_keyed (initialize o random_digits)) as H0 by (by intros ? ? ?).
  revert H0. generalize (initialize o random_digits).
  induction xs as [|x xs IH]; intros e He; [done|].
  change (steps3 (x :: xs) e) with (steps3 xs (step3 x e)).
  by apply IH, step_well_keyed.
Qed.

End WellKeyed.

(** ** The wrapper around the cache of modules *)

Lemma heap_update_eq o f h : heap_update o f h o = f (h o).
Proof. unfold heap_update. by rewrite decide_True. Qed.

Lemma heap_update_ne o f h o' : o' ≠ o -> heap_update o f h o' = h o'.
Proof. intros H. unfold heap_update. by rewrite decide_False. Qed.

(** X23. Once a cache is captured, the wrapper writes to that object of
    the page and reads from it: a value set under an id that
    [Object.prototype] does not have is an own property of the cache and
    is in the copy [getAll] gives; [get] hands it back if it is truthy and
    gives [null] for a falsy one; after [delete] the id reads as [null].
    The other ids and the other objects are not touched. *)
Theorem cache_wrapper_round_trip r h o module_id value :
  captured_cache r = Some o ->
  inherited_key module_id = false ->
  let h1 := cache_set module_id value r h in
  h1 o !! module_id = Some value ∧
  cache_get module_id r h1 = ReadValue (if truthy value then value else JsNull) ∧
  cache_getAll r h1 = Some (<[module_id := value]> (h o)) ∧
  cache_get module_id r (cache_delete module_id r h1) = ReadValue JsNull ∧
  (∀ other, other ≠ module_id -> cache_get other r h1 = cache_get other r h) ∧
  (∀ o', o' ≠ o -> h1 o' = h o').
Proof.
  intros Hc Hk. cbv zeta.
  assert (module_id ≠ "__proto__") as Hproto.
  { intros ->. vm_compute in Hk. discriminate. }
  unfold cache_set, cache_get, cache_getAll, cache_delete.
  rewrite Hc. rewrite decide_False by done.
  rewrite !heap_update_eq, lookup_insert_eq, lookup_delete_eq, Hk.
  repeat split.
  - by destruct (truthy value).
  - intros other Hne. by rewrite lookup_insert_ne.
  - intros o' Hne. by rewrite heap_update_ne.
Qed.

(** ** The placeholder tokens *)

Lemma base36_digit_part n : identifier_part (base36_digit n) = true.
Proof.
  unfold base36_digit.
  assert (n mod 36 < 36) as H by (apply Nat.mod_upper_bound; lia).
  revert H. generalize (n mod 36). intros k Hk.
  do 36 (destruct k as [|k]; [reflexivity|]). lia.
Qed.

Lemma make_placeholder_id_parts random_digits :
  forallb identifier_part (make_placeholder_id random_digits) = true.
Proof.
  unfold make_placeholder_id. generalize (take 8 random_digits). intros l.
  induction l as [|n l IH]; [done|]. cbn [fmap list_fmap forallb].
  by rewrite base36_digit_part, IH.
Qed.

(** X24. Whatever digits the random number gives, the three placeholder
    tokens the constructor makes have the shape of a JavaScript
    identifier, so that a replacement can use them where an expression
    stands; they are three different texts, and the id in them has at
    most eight characters. *)
Theorem placeholder_tokens_are_identifiers random_digits :
  let id := make_placeholder_id random_digits in
  is_identifier (placeholder_self id) = true ∧
  is_identifier (placeholder_functions id) = true ∧
  is_identifier (placeholder_data id) = true ∧
  placeholder_self id ≠ placeholder_functions id ∧
  placeholder_self id ≠ placeholder_data id ∧
  placeholder_functions id ≠ placeholder_data id ∧
  length id <= 8.
Proof.
  cbv zeta. pose proof (make_placeholder_id_parts random_digits) as Hid.
  set (id := make_placeholder_id random_digits) in *.
  assert (∀ kind, forallb identifier_part kind = true ->
                  is_identifier (placeholder_marker ++ kind ++ id) = true) as Hshape.
  { intros kind Hkind.
    change (placeholder_marker ++ kind ++ id)
      with ("W"%char :: (tail placeholder_marker ++ kind ++ id)).
    cbn [is_identifier]. rewrite !forallb_app, Hkind, Hid. reflexivity. }
  unfold placeholder_self, placeholder_functions, placeholder_data.
  repeat split; try (apply Hshape; reflexivity).
  - intros H. apply app_inv_head in H. discriminate.
  - intros H. apply app_inv_head in H. discriminate.
  - intros H. apply app_inv_head in H. discriminate.
  - subst id. unfold make_placeholder_id. rewrite length_fmap, length_take. lia.
Qed.

(** ** A patched factory assigned again *)

Section AssignedAgain.

Variable host_eval : text -> option compiled.
Variable host_new_function : text -> option compiled.

(** X25. When a factory that carries the original-factory marker, one the
    engine has patched, is assigned to the collection again, it is wrapped
    like any other.  Calling its proxy runs the patched factory as it is,
    with no new attempt and no change of state.  Every property read
    through the proxy, [toString] included, is answered by the original
    factory; only the inner-value symbol gives the patched one. *)
Theorem patched_factory_assigned_again module_id fac e addr m original src :
  module_factories e = Some (addr, m) ->
  f_original fac = Some (original, src) ->
  let e' := snd (factories_set_trap module_id fac e) in
  stored_entry module_id e' = Some (ProxyOf module_id fac) ∧
  call_entry host_eval host_new_function (ProxyOf module_id fac) e'
    = (Normal fac, e') ∧
  entry_toString (ProxyOf module_id fac) = src ∧
  _handle_factory_get fac (PropName "toString") = PropToString original src ∧
  (∀ name, name ≠ "toString" ->
           _handle_factory_get fac (PropName name) = PropOf original (PropName name)) ∧
  _handle_factory_get fac SYM_ORIGINAL_FACTORY = PropOf original SYM_ORIGINAL_FACTORY ∧
  _handle_factory_get fac SYM_PROXY_INNER_VALUE = PropFactory fac ∧
  _handle_factory_get fac SYM_PROXY_INNER_GET = PropTrue.
Proof.
  intros Hm Ho. cbv zeta.
  split.
  { unfold stored_entry. rewrite (set_trap_stores module_id fac e addr m Hm).
    by rewrite lookup_insert_eq. }
  split.
  { simpl. apply get_or_patch_marked. congruence. }
  unfold entry_toString, _handle_factory_get_toString, _handle_factory_get,
    actual_factory. rewrite Ho. simpl.
  repeat split. intros name Hne. rewrite decide_False; [done|congruence].
Qed.

End AssignedAgain.

(** * The properties on sample values *)

Lemma sample_patch_misses_unmatched :
  Forall (fun p => _check_pattern_match (f_src unmatched_factory) p = false)
    (patches patched_history_engine).
Proof. constructor; [reflexivity|constructor]. Qed.

Lemma patched_history_unpatched module_id :
  module_id ∉ patched_modules patched_history_engine.
Proof. apply not_elem_of_empty. Qed.

Lemma unmatched_module_runs_as_is_witness :
  ∃ e',
    _get_or_patch_factory accept_all accept_all "7" unmatched_factory
      patched_history_engine = (Normal unmatched_factory, e') ∧
    module_factories e' = Some (9, wrapped {[ "42" := sample_factory ]}) ∧
    log e' = log patched_history_engine ∧
    calls e' = calls patched_history_engine ∧
    patches e' = patches patched_history_engine ∧
    patched_modules e' = {["7"]} ∪ patched_modules patched_history_engine.
Proof.
  apply (unmatched_module_runs_as_is accept_all accept_all "7" unmatched_factory
           patched_history_engine 9 (wrapped {[ "42" := sample_factory ]})
           eq_refl (patched_history_unpatched "7") eq_refl).
  - discriminate.
  - exact sample_patch_misses_unmatched.
Defined.

Lemma patched_history_stateless :
  Forall stateless_find (patches patched_history_engine).
Proof. repeat constructor. Qed.

Lemma patched_history_passive event : passive_event event patched_history_engine.
Proof.
  intros ls Hl. unfold listeners_of in Hl.
  enough (ls = []) as -> by constructor.
  repeat case_decide; try (destruct (inherited_key event); discriminate);
    injection Hl as <-; reflexivity.
Qed.

Lemma matched_module_is_patched_on_first_call_witness :
  let code := resolved (placeholder_id patched_history_engine) (Some "demo")
                (subst_first (txt "foo(1)") (txt "baz(1)") (f_src sample_factory)) in
  let patched := set_original (compiled_from sample_factory code) sample_factory in
  ∃ e',
    _get_or_patch_factory accept_all accept_all "42" sample_factory
      patched_history_engine = (Normal patched, e') ∧
    f_original patched = Some (f_ref sample_factory, f_src sample_factory) ∧
    f_src patched = code ∧
    module_factories e'
    = Some (9, <["42" := Plain patched]>
                 (wrapped {[ "42" := sample_factory ]})) ∧
    factories_get_trap "42" e' = Some patched ∧
    calls e' = calls patched_history_engine ++ dispatch "module_patched"
                 [ArgModule "42"; ArgFactory patched; ArgFactory sample_factory]
                 (module_patched (event_listeners patched_history_engine)) ∧
    patched_modules e' = {["42"]} ∪ patched_modules patched_history_engine.
Proof.
  apply (matched_module_is_patched_on_first_call accept_all accept_all "42"
           sample_factory patched_history_engine 9
           (wrapped {[ "42" := sample_factory ]}) []
           (FindStr (txt "foo(1)")) (txt "foo(1)") (txt "baz(1)") (Some "demo") []
           eq_refl (patched_history_unpatched "42") eq_refl).
  - discriminate.
  - reflexivity.
  - exact patched_history_stateless.
  - exact (patched_history_passive "module_patched").
  - constructor.
  - reflexivity.
  - reflexivity.
  - reflexivity.
  - constructor.
Defined.

Lemma unmarkable_value_escapes_witness :
  ∃ e',
    _get_or_patch_factory undefined_host undefined_host "42" sample_factory
      patched_history_engine
      = (Throw (TypeError "Cannot create property on this value"), e') ∧
    module_factories e' = Some (9, wrapped {[ "42" := sample_factory ]}) ∧
    calls e' = calls patched_history_engine ∧
    patched_modules e' = patched_modules patched_history_engine ∧
    attempts e' = attempts patched_history_engine ++ ["42"] ∧
    attempts (snd (_get_or_patch_factory undefined_host undefined_host "42"
                     sample_factory e'))
    = attempts patched_history_engine ++ ["42"; "42"].
Proof.
  apply (unmarkable_value_escapes undefined_host undefined_host "42"
           sample_factory patched_history_engine 9
           (wrapped {[ "42" := sample_factory ]}) []
           (FindStr (txt "foo(1)")) (txt "foo(1)") (txt "baz(1)") (Some "demo") []
           (CPrimitive PUndefined)
           eq_refl eq_refl (patched_history_unpatched "42") eq_refl).
  - discriminate.
  - reflexivity.
  - exact patched_history_stateless.
  - constructor.
  - reflexivity.
  - reflexivity.
  - reflexivity.
  - reflexivity.
  - constructor.
Defined.

Lemma one_matching_rule_suffices_witness :
  let s := txt "isPlayable(){const{a,b,playerIsRadio:c,d}=e}" in
  let s' := txt "isPlayable(){const{a,b,radioFlag:false,x:c,d}=e}" in
  let rules := [rule_absent] ++ rule_radio :: [rule_absent] in
  let code := resolved (placeholder_id sample_engine) (Some "demo") s' in
  _apply_patch accept_all accept_all sample_factory s rules "42"
    (Some "demo") sample_engine
  = (Normal (compiled_value (CFunction true) code sample_factory, code),
     upd_log (fun l => l ++ skipped_lines "42" (length rules) 0 (length [rule_absent])
                         ++ skipped_lines "42" (length rules)
                              (S (length [rule_absent])) (length [rule_absent]))
       sample_engine).
Proof.
  apply (one_matching_rule_suffices accept_all accept_all sample_factory
           (txt "isPlayable(){const{a,b,playerIsRadio:c,d}=e}") [rule_absent]
           rule_radio (txt "isPlayable(){const{a,b,radioFlag:false,x:c,d}=e}")
           [rule_absent] "42" (Some "demo") sample_engine (CFunction true)).
  - constructor; [|constructor].
    exists (txt "isPlayable(){const{a,b,playerIsRadio:c,d}=e}"). reflexivity.
  - reflexivity.
  - constructor; [|constructor].
    exists (txt "isPlayable(){const{a,b,radioFlag:false,x:c,d}=e}"). reflexivity.
  - reflexivity.
Defined.

Lemma global_rule_needs_global_regexp_witness :
  ∃ x e',
    _apply_patch accept_all accept_all sample_factory sample_source
      ([rule_foo_baz] ++ Replacement (PRegExp re_radio) (RFn replacer_radio) true
         :: [])
      "42" (Some "demo") sample_engine
    = (Normal (sample_factory, sample_source), e') ∧
    only_logged sample_engine e' ∧
    last (log e') = Some (ErrorPatchFailed x).
Proof.
  apply (global_rule_needs_global_regexp accept_all accept_all sample_factory
           sample_source [rule_foo_baz] re_radio (RFn replacer_radio) [] "42"
           (Some "demo") sample_engine).
  reflexivity.
Defined.

Lemma text_rule_inserts_verbatim_witness :
  apply_rule (text_rule (txt "o") (txt "$&$&") true) sample_source
  = Normal (substitute_all [(txt "o", txt "$&$&")] 0 sample_source,
            includes sample_source (txt "o")).
Proof.
  apply (text_rule_inserts_verbatim (txt "o") (txt "$&$&") true sample_source).
  discriminate.
Defined.

Lemma add_then_remove_listener_witness :
  let e1 := snd (add_event_listener "module_patched" quiet_listener sample_engine) in
  let e2 := snd (remove_event_listener "module_patched" quiet_listener e1) in
  ∃ l,
    listeners_of "module_patched" (event_listeners sample_engine) = Own l ∧
    fst (add_event_listener "module_patched" quiet_listener sample_engine)
      = Normal tt ∧
    fst (remove_event_listener "module_patched" quiet_listener e1) = Normal tt ∧
    listeners_of "module_patched" (event_listeners e2)
    = Own (match index_of quiet_listener l with
           | Some i => delete i l ++ [quiet_listener]
           | None => l
           end) ∧
    (index_of quiet_listener l = None ->
     event_listeners e2 = event_listeners sample_engine).
Proof.
  apply (add_then_remove_listener "module_patched" quiet_listener sample_engine).
  right. right. reflexivity.
Defined.

Lemma listeners_are_not_deduplicated_witness :
  let e' := Nat.iter 2
              (fun x => snd (add_event_listener "module_patched" quiet_listener x))
              sample_engine in
  ∃ l,
    listeners_of "module_patched" (event_listeners sample_engine) = Own l ∧
    listeners_of "module_patched" (event_listeners e')
    = Own (l ++ replicate 2 quiet_listener) ∧
    (passive quiet_listener ->
     Forall passive l ->
     _emit_event "module_patched" [ArgModule "42"] e'
     = (Normal tt, snd (_emit_event "module_patched" [ArgModule "42"] e')) ∧
     calls (snd (_emit_event "module_patched" [ArgModule "42"] e'))
     = calls e' ++ dispatch "module_patched" [ArgModule "42"]
                     (l ++ replicate 2 quiet_listener)).
Proof.
  apply (listeners_are_not_deduplicated "module_patched" quiet_listener 2
           [ArgModule "42"] sample_engine).
  right. right. reflexivity.
Defined.

Lemma listening_engine_passive :
  passive_event "webpack_detected"
    (snd (add_event_listener "webpack_detected" quiet_listener sample_engine)).
Proof.
  intros ls [= <-]. constructor; [|constructor]. intros args. reflexivity.
Qed.

Lemma detection_wraps_every_module_witness :
  let e := snd (add_event_listener "webpack_detected" quiet_listener
                  sample_engine) in
  let e' := snd (modules_setter sample_wreq 9 {[ "42" := sample_factory ]} [] e) in
  fst (modules_setter sample_wreq 9 {[ "42" := sample_factory ]} [] e)
    = Normal tt ∧
  webpack_require e' = Some sample_wreq ∧
  (∀ module_id,
     stored_entry module_id e'
     = ProxyOf module_id <$> ({[ "42" := sample_factory ]} : gmap string factory)
                               !! module_id ∧
     factories_get_trap module_id e'
     = ({[ "42" := sample_factory ]} : gmap string factory) !! module_id) ∧
  calls e' = calls e ++ dispatch "webpack_detected"
               [ArgRequire sample_wreq; ArgFactories 9]
               (webpack_detected (event_listeners e)).
Proof.
  apply (detection_wraps_every_module sample_wreq 9 {[ "42" := sample_factory ]} []
           (snd (add_event_listener "webpack_detected" quiet_listener
                   sample_engine))
           eq_refl listening_engine_passive).
Defined.

Lemma detected_engine_passive event : passive_event event detected_engine.
Proof.
  intros ls Hl. unfold listeners_of in Hl.
  enough (ls = []) as -> by constructor.
  repeat case_decide; try (destruct (inherited_key event); discriminate);
    injection Hl as <-; reflexivity.
Qed.

Lemma registered_factory_reads_back_witness :
  let e' := snd (factories_set_trap "42" sample_factory detected_engine) in
  fst (factories_set_trap "42" sample_factory detected_engine) = Normal tt ∧
  stored_entry "42" e' = Some (ProxyOf "42" sample_factory) ∧
  factories_get_trap "42" e' = Some sample_factory ∧
  (∀ other, other ≠ "42" ->
            stored_entry other e' = stored_entry other detected_engine ∧
            factories_get_trap other e' = factories_get_trap other detected_engine) ∧
  calls e' = calls detected_engine ++ dispatch "module_registered"
               [ArgModule "42"; ArgFactory sample_factory]
               (module_registered (event_listeners detected_engine)).
Proof.
  apply (registered_factory_reads_back "42" sample_factory detected_engine 9 ∅
           eq_refl (detected_engine_passive "module_registered")).
Defined.

Lemma attachment_replays_the_buffers_witness :
  ∃ e',
    set_patcher sample_engine buffering_front
    = (Normal tt, FrontEnd (Some e') [] [] false (buffer_serial buffering_front)) ∧
    patches e'
    = replayed_patches (patch_buffer buffering_front) (patches sample_engine) ∧
    window_Registrars e'
    = replayed_registrars (patch_buffer buffering_front)
        (window_Registrars sample_engine) ∧
    event_listeners e'
    = replayed_listeners (event_listener_buffer buffering_front)
        (event_listeners sample_engine).
Proof.
  apply (attachment_replays_the_buffers buffering_front sample_engine).
  - reflexivity.
  - reflexivity.
  - constructor; [discriminate|constructor].
  - constructor; [reflexivity|constructor].
Defined.

Lemma nameless_buffered_registration_stops_the_flush_witness :
  ∃ e',
    let r' := FrontEnd (Some e') (patch_buffer broken_front)
                (event_listener_buffer broken_front) true
                (buffer_serial broken_front) in
    set_patcher sample_engine broken_front
      = (Throw (Error "Registrar name is required"), r') ∧
    patches e'
    = replayed_patches [(demo_options, [sample_patch], buffered_registrar_obj)]
        (patches sample_engine) ∧
    event_listeners e' = event_listeners sample_engine ∧
    _flush_buffers r' = (Normal tt, r') ∧
    ∀ p2, set_patcher p2 r' = (Normal tt, r').
Proof.
  apply (nameless_buffered_registration_stops_the_flush broken_front sample_engine
           [(demo_options, [sample_patch], buffered_registrar_obj)]
           nameless [] (RegistrarObj (BufferObj 5) (BufferObj 3) (BufferObj 4)) []).
  - reflexivity.
  - reflexivity.
  - reflexivity.
  - constructor; [discriminate|constructor].
  - reflexivity.
Defined.

Lemma merged_rules_run_under_the_first_name_witness :
  let e1 := snd (register_patches demo_options
                   [Patch (FindStr (txt "foo(1)"))
                      [literal_rule (txt "foo(1)") (txt "baz(1)")] None]
                   None sample_engine) in
  let e2 := snd (register_patches (RegOptions (Some "other") None None)
                   [Patch (FindStr (txt "foo(1)"))
                      [literal_rule (txt "bar(2)")
                         (placeholder_data (placeholder_id sample_engine))] None]
                   None e1) in
  let merged := Patch (FindStr (txt "foo(1)"))
                  [literal_rule (txt "foo(1)") (txt "baz(1)");
                   literal_rule (txt "bar(2)")
                     (placeholder_data (placeholder_id sample_engine))]
                  (Some "demo") in
  patches e2 = patches sample_engine ++ [merged] ∧
  ∀ fac s module_id e',
    let code := resolved (placeholder_id e') (Some "demo")
                  (subst_first (txt "bar(2)")
                     (placeholder_data (placeholder_id sample_engine))
                     (subst_first (txt "foo(1)") (txt "baz(1)") s)) in
    includes s (txt "foo(1)") = true ->
    includes s (txt "foo(1)") = true ->
    includes (subst_first (txt "foo(1)") (txt "baz(1)") s) (txt "bar(2)") = true ->
    compile accept_all accept_all (use_eval (options e')) module_id code
      = Normal (CFunction true) ->
    patch_loop accept_all accept_all module_id [merged] fac s false e'
    = (Normal (compiled_from fac code, code, true), e').
Proof.
  apply (merged_rules_run_under_the_first_name accept_all accept_all demo_options
           (RegOptions (Some "other") None None) "demo" "other" (txt "foo(1)")
           (txt "foo(1)") (txt "baz(1)") (txt "bar(2)")
           (placeholder_data (placeholder_id sample_engine)) sample_engine).
  - reflexivity.
  - reflexivity.
  - constructor.
Defined.

Lemma accept_all_extensible : gives_extensible accept_all.
Proof. intros code c [= <-]. by left. Qed.

Lemma factory_string_cache_is_never_hit_witness :
  let e := run_ops accept_all accept_all
             (sample_history ++ [CallProxy "42" sample_factory;
                                 CallProxy "42" sample_factory])
             (initialize caching_options [10; 11; 12]) in
  (∀ module_id, DebugCacheHit module_id ∉ log e) ∧
  (∀ module_id, is_Some (factory_string_cache e !! module_id) ->
                module_id ∈ patched_modules e).
Proof.
  apply (factory_string_cache_is_never_hit accept_all accept_all caching_options
           [10; 11; 12]
           (sample_history ++ [CallProxy "42" sample_factory;
                               CallProxy "42" sample_factory])
           accept_all_extensible accept_all_extensible).
Defined.

Lemma webpack_detected_fires_once_witness :
  let e1 := run_ops accept_all accept_all
              [AddListener "webpack_detected" quiet_listener] sample_engine in
  let e2 := run_op accept_all accept_all
              (SetModules sample_wreq 9 {[ "42" := sample_factory ]} []) e1 in
  let e3 := run_ops accept_all accept_all
              [AddListener "webpack_detected" sample_listener;
               SetModules sample_wreq 10 ∅ []] e2 in
  calls_for "webpack_detected" e1 = [] ∧
  calls_for "webpack_detected" e3 = calls_for "webpack_detected" e2 ∧
  (passive_event "webpack_detected" e1 ->
   calls_for "webpack_detected" e3
   = dispatch "webpack_detected" [ArgRequire sample_wreq; ArgFactories 9]
       (webpack_detected (event_listeners e1))).
Proof.
  apply (webpack_detected_fires_once accept_all accept_all sample_options
           [10; 11; 12] [AddListener "webpack_detected" quiet_listener]
           sample_wreq 9 {[ "42" := sample_factory ]} []
           [AddListener "webpack_detected" sample_listener;
            SetModules sample_wreq 10 ∅ []]).
  reflexivity.
Defined.

Lemma registrars_are_permanent_witness :
  window_Registrars
    (run_ops accept_all accept_all
       [Register (RegOptions (Some "demo") (Some (HostObj 8)) None) [];
        CallProxy "42" sample_factory]
       patched_history_engine) !! "demo"
  = Some (RegistrarObj (EngineObj 2) (EngineObj 0) (EngineObj 1)).
Proof.
  apply (registrars_are_permanent accept_all accept_all
           [Register (RegOptions (Some "demo") (Some (HostObj 8)) None) [];
            CallProxy "42" sample_factory]
           patched_history_engine "demo"
           (RegistrarObj (EngineObj 2) (EngineObj 0) (EngineObj 1))).
  reflexivity.
Defined.

Lemma first_cache_is_kept_witness :
  let e1 := run_ops accept_all accept_all [] sample_engine in
  let e2 := run_op accept_all accept_all (SetCache sample_wreq (HostObj 3) []) e1 in
  let e3 := run_ops accept_all accept_all [SetCache sample_wreq (HostObj 4) []] e2 in
  webpack_cache e3 = Some (HostObj 3) ∧
  captured_cache (FrontEnd (Some e3) [] [] false 0) = Some (HostObj 3) ∧
  moduleCache_getAll (FrontEnd (Some e3) [] [] false 0) = CacheCopy (HostObj 3).
Proof.
  apply (first_cache_is_kept accept_all accept_all sample_options [10; 11; 12] []
           sample_wreq (HostObj 3) [] [SetCache sample_wreq (HostObj 4) []]
           (FrontEnd (Some (run_ops accept_all accept_all
                              [SetCache sample_wreq (HostObj 4) []]
                              (run_op accept_all accept_all
                                 (SetCache sample_wreq (HostObj 3) [])
                                 (run_ops accept_all accept_all [] sample_engine))))
              [] [] false 0)).
  - reflexivity.
  - reflexivity.
Defined.

Lemma cache_wrapper_round_trip_witness :
  let h1 := cache_set "42" (JsNumber 0) cache_front empty_heap in
  h1 (HostObj 3) !! "42" = Some (JsNumber 0) ∧
  cache_get "42" cache_front h1
    = ReadValue (if truthy (JsNumber 0) then JsNumber 0 else JsNull) ∧
  cache_getAll cache_front h1 = Some (<["42" := JsNumber 0]> (empty_heap (HostObj 3))) ∧
  cache_get "42" cache_front (cache_delete "42" cache_front h1) = ReadValue JsNull ∧
  (∀ other, other ≠ "42" ->
            cache_get other cache_front h1 = cache_get other cache_front empty_heap) ∧
  (∀ o', o' ≠ HostObj 3 -> h1 o' = empty_heap o').
Proof.
  apply (cache_wrapper_round_trip cache_front empty_heap (HostObj 3) "42"
           (JsNumber 0)).
  - reflexivity.
  - reflexivity.
Defined.

Lemma patched_factory_assigned_again_witness :
  let e' := snd (factories_set_trap "42" marked_factory detected_engine) in
  stored_entry "42" e' = Some (ProxyOf "42" marked_factory) ∧
  call_entry accept_all accept_all (ProxyOf "42" marked_factory) e'
    = (Normal marked_factory, e') ∧
  entry_toString (ProxyOf "42" marked_factory) = sample_source ∧
  _handle_factory_get marked_factory (PropName "toString")
    = PropToString (HostRef 1) sample_source ∧
  (∀ name, name ≠ "toString" ->
           _handle_factory_get marked_factory (PropName name)
           = PropOf (HostRef 1) (PropName name)) ∧
  _handle_factory_get marked_factory SYM_ORIGINAL_FACTORY
    = PropOf (HostRef 1) SYM_ORIGINAL_FACTORY ∧
  _handle_factory_get marked_factory SYM_PROXY_INNER_VALUE
    = PropFactory marked_factory ∧
  _handle_factory_get marked_factory SYM_PROXY_INNER_GET = PropTrue.
Proof.
  apply (patched_factory_assigned_again accept_all accept_all "42" marked_factory
           detected_engine 9 ∅ (HostRef 1) sample_source).
  - reflexivity.
  - reflexivity.
Defined.

(** * The first version: what its patcher guarantees *)

Section FirstVersion.

Import V1.

Variable host_new_function : text -> option compiled.

Local Abbreviation patch_method :=
  (patch_method_with_regexp_or_raw_string host_new_function).

(** ** Reasoning about methods *)

Lemma ensures_bind {A B} (m : M patcher A) (k : A -> M patcher B) Q p :
  ensures m (fun r p' => match r with
                         | Normal a => ensures (k a) Q p'
                         | Throw x => Q (Throw x) p'
                         end) p ->
  ensures (bind m k) Q p.
Proof. unfold ensures, bind. by destruct (m p) as [[a|x] p']. Qed.

Lemma ensures_try_catch {A} (m : M patcher A) (h : js_error -> M patcher A) Q p :
  ensures m (fun r p' => match r with
                         | Normal a => Q (Normal a) p'
                         | Throw x => ensures (h x) Q p'
                         end) p ->
  ensures (try_catch m h) Q p.
Proof. unfold ensures, try_catch. by destruct (m p) as [[a|x] p']. Qed.

Lemma ensures_mono {A} (m : M patcher A) (Q Q' : completion A -> patcher -> Prop) p :
  ensures m Q p -> (∀ r p', Q r p' -> Q' r p') -> ensures m Q' p.
Proof. unfold ensures. auto. Qed.

Lemma text_step_refl p : text_step p p.
Proof. by repeat split. Qed.

Lemma text_step_trans p q r : text_step p q -> text_step q r -> text_step p r.
Proof. unfold text_step. intuition congruence. Qed.

Lemma text_step_log f p : text_step p (upd_log f p).
Proof. by repeat split. Qed.

Lemma text_step_remembering id name s p : text_step p (remembering id name s p).
Proof. by repeat split. Qed.

Lemma text_page_step p p' : text_step p p' -> page_step p p'.
Proof.
  intros (? & Hc & ? & ? & ? & ? & ? & ?). repeat split; try done.
  intros a. by rewrite Hc.
Qed.

Lemma text_entries_step p p' : text_step p p' -> entries_step p p'.
Proof.
  intros H. split; [by apply text_page_step|].
  destruct H as (? & ? & ? & ? & ? & ?). done.
Qed.

Lemma page_step_refl p : page_step p p.
Proof. by repeat split. Qed.

Lemma page_step_trans p q r : page_step p q -> page_step q r -> page_step p r.
Proof.
  intros (? & ? & ? & ? & Ha) (? & ? & ? & ? & Hb).
  repeat split; try congruence; intros a; by rewrite Hb, Ha.
Qed.

Lemma entries_step_refl p : entries_step p p.
Proof. split; [apply page_step_refl|done]. Qed.

Lemma entries_step_trans p q r :
  entries_step p q -> entries_step q r -> entries_step p r.
Proof.
  intros (Ha & ? & ? & ?) (Hb & ? & ? & ?).
  split; [by eapply page_step_trans|]. repeat split; congruence.
Qed.

(** ** The cache of function texts *)

Lemma remembering_known id name s p :
  _function_string_cache p !! (id, name) = Some s -> remembering id name s p = p.
Proof.
  intros H. destruct p. unfold remembering, upd_function_string_cache. simpl in *.
  f_equal. by apply insert_id.
Qed.

Lemma text_of_remembering f id name s p :
  text_of f id name (remembering id name s p) = s.
Proof. unfold text_of, remembering. simpl. by rewrite lookup_insert_eq. Qed.

Lemma remembering_twice id name s s' p :
  remembering id name s' (remembering id name s p) = remembering id name s' p.
Proof.
  destruct p. unfold remembering, upd_function_string_cache. simpl. f_equal.
  apply insert_insert_eq.
Qed.

Lemma get_cached_function_string_eq f id name p :
  _get_cached_function_string (MFunction f) id name p
  = (Normal (text_of f id name p), remembering id name (text_of f id name p) p).
Proof.
  unfold _get_cached_function_string, text_of, bind, get.
  destruct (_function_string_cache p !! (id, name)) as [s|] eqn:E; simpl.
  - by rewrite remembering_known.
  - done.
Qed.

Lemma does_method_match_eq f ident id name p :
  does_method_match (MFunction f) ident id name p
  = (Normal (_matches_identifier (text_of f id name p) ident),
     remembering id name (text_of f id name p) p).
Proof.
  unfold does_method_match, bind. rewrite get_cached_function_string_eq.
  by destruct ident.
Qed.

Lemma every_identifier_eq f ids id name p :
  every_identifier (MFunction f) ids id name p
  = (Normal (forallb (_matches_identifier (text_of f id name p)) ids),
     match ids with
     | [] => p
     | _ => remembering id name (text_of f id name p) p
     end).
Proof.
  revert p. induction ids as [|i ids IH]; intros p; [done|].
  cbn [every_identifier forallb]. unfold bind. rewrite does_method_match_eq.
  destruct (_matches_identifier _ i); [|done].
  rewrite IH, text_of_remembering. simpl.
  destruct ids; [done|]. by rewrite remembering_twice.
Qed.

Lemma find_method_eq f methods id name p :
  ∃ p', find_method (MFunction f) methods id name p
        = (Normal (List.find
                     (fun m => forallb (_matches_identifier (text_of f id name p))
                                 (identifiers m)) methods), p') ∧
        (p' = p ∨ p' = remembering id name (text_of f id name p) p).
Proof.
  induction methods as [|m methods IH]; [by exists p; split; [|left]|].
  cbn [find_method List.find]. unfold bind. rewrite every_identifier_eq.
  destruct (forallb _ (identifiers m)) eqn:E.
  { eexists. split; [done|]. destruct (identifiers m); auto. }
  destruct (identifiers m) as [|i ids] eqn:Ei; [done|].
  destruct IH as (p' & IH & Hp'). clear IH.
  set (p1 := remembering id name (text_of f id name p) p).
  assert (∀ ms, ∃ p', find_method (MFunction f) ms id name p1
        = (Normal (List.find
                     (fun m => forallb (_matches_identifier (text_of f id name p))
                                 (identifiers m)) ms), p') ∧ p' = p1) as Hp1.
  { clear. induction ms as [|m ms IH]; [by exists p1|].
    cbn [find_method List.find]. unfold bind. rewrite every_identifier_eq.
    subst p1. rewrite text_of_remembering, remembering_twice.
    destruct (forallb _ (identifiers m)).
    - eexists. split; [done|]. by destruct (identifiers m).
    - destruct (identifiers m); apply IH. }
  destruct (Hp1 methods) as (p2 & -> & ->). eexists. split; [done|]. by right.
Qed.

(** ** Editing one method *)

Lemma run_rules_frame name id n i rs code total p :
  ensures (run_rules name id n i rs code total)
    (fun _ p' => text_step p p' ∧
                 _function_string_cache p' = _function_string_cache p) p.
Proof.
  revert i code total p. induction rs as [|r rs IH]; intros i code total p.
  { by split; [apply text_step_refl|]. }
  cbn [run_rules]. apply ensures_bind. unfold ensures at 1, lift. simpl.
  destruct (apply_rule r code) as [out|x]; [|by split; [apply text_step_refl|]].
  apply ensures_bind. unfold ensures at 1.
  set (p1 := snd ((if out.2 then ret tt else logger _) p)).
  assert (text_step p p1 ∧ _function_string_cache p1 = _function_string_cache p
          ∧ fst ((if out.2 then ret tt
                  else logger (WarnReplacementSkipped (S i) n name id)) p)
            = Normal tt)
    as (H1 & H1' & ->) by (subst p1; destruct out.2; by repeat split).
  apply ensures_bind. unfold ensures at 1.
  set (p2 := snd (when_benchmark _ p1)).
  assert (text_step p1 p2 ∧ _function_string_cache p2 = _function_string_cache p1
          ∧ fst (when_benchmark (DebugReplacementTimed (S i) n out.2) p1)
            = Normal tt)
    as (H2 & H2' & ->).
  { subst p2. unfold when_benchmark, bind, get. destruct (benchmark p1);
      by repeat split. }
  eapply ensures_mono; [apply IH|]. intros _ p' (H3 & H3').
  split; [eauto using text_step_trans|congruence].
Qed.

Lemma logger_eq line p :
  logger line p = (Normal tt, upd_log (fun l => l ++ [line]) p).
Proof. done. Qed.

Lemma set_cached_function_string_eq s id name p :
  _set_cached_function_string s id name p = (Normal tt, remembering id name s p).
Proof. done. Qed.

Lemma when_benchmark_eq line p :
  when_benchmark line p
  = (Normal tt, if benchmark p then upd_log (fun l => l ++ [line]) p else p).
Proof. unfold when_benchmark, bind, get. by destruct (benchmark p). Qed.

Lemma text_step_when_benchmark line p :
  text_step p (if benchmark p then upd_log (fun l => l ++ [line]) p else p) ∧
  _function_string_cache (if benchmark p then upd_log (fun l => l ++ [line]) p else p)
  = _function_string_cache p.
Proof. destruct (benchmark p); by repeat split. Qed.

Ltac step_with E := unfold bind at 1; rewrite E; cbv beta iota.

Lemma patch_method_spec f rules id name p :
  ∃ v p',
    patch_method (MFunction f) rules id name p = (Normal v, p') ∧
    text_step p p' ∧
    ((v = JsFunction f ∧
      _function_string_cache p'
      = <[(id, name) := text_of f id name p]> (_function_string_cache p)) ∨
     (∃ code, new_Function host_new_function code = Normal v ∧
              _function_string_cache p'
              = <[(id, name) := code]> (_function_string_cache p))).
Proof.
  unfold patch_method_with_regexp_or_raw_string, try_catch.
  step_with get_cached_function_string_eq.
  set (t := text_of f id name p). set (p0 := remembering id name t p).
  assert (text_step p p0) as H0 by apply text_step_remembering.
  assert (_function_string_cache p0 = <[(id, name) := t]> (_function_string_cache p))
    as C0 by done.
  pose proof (run_rules_frame name id (length rules) 0 rules t 0 p0) as Hr.
  unfold ensures in Hr. unfold bind at 1.
  destruct (run_rules _ _ _ _ _ _ _ p0) as [[out|x] p1]; cbn [fst snd] in Hr;
    destruct Hr as (H1 & C1).
  - destruct (decide (out.2 = 0)).
    { step_with logger_eq. eexists _, _. split; [done|].
      split; [eauto using text_step_trans, text_step_log|]. left.
      split; [done|]. cbn. congruence. }
    unfold bind at 1, lift.
    destruct (new_Function host_new_function out.1) as [v|x] eqn:Hc.
    + step_with logger_eq. step_with set_cached_function_string_eq.
      step_with when_benchmark_eq. eexists _, _. split; [done|].
      match goal with
      | |- context [if benchmark ?q then _ else _] =>
          destruct (text_step_when_benchmark (DebugReplacementsApplied out.2) q)
            as (H3 & C3)
      end.
      split.
      { eapply text_step_trans; [|exact H3].
        eauto using text_step_trans, text_step_log, text_step_remembering. }
      right. exists out.1. split; [done|].
      rewrite C3. cbn. rewrite C1, C0. apply insert_insert_eq.
    + unfold bind at 1, get. cbv beta iota. step_with logger_eq.
      eexists _, _. split; [done|].
      split; [eauto using text_step_trans, text_step_log|]. left.
      split; [done|]. cbn. congruence.
  - unfold bind at 1, get. cbv beta iota. step_with logger_eq.
    eexists _, _. split; [done|].
    split; [eauto using text_step_trans, text_step_log|]. left.
    split; [done|]. cbn. congruence.
Qed.

(** X26. Editing a function never throws and touches nothing but the cache
    of texts and the log.  It gives back either the very function it was
    given, with the text it worked on left in the cache, or the value that
    [new Function("return " + code)()] gave for the edited code, with that
    code in the cache under the module id and the name of the method: a
    function the host compiled from the code, or the object or the value
    that is no object which the code evaluated to. *)
Theorem patch_method_gives_the_original_or_compiled_code f rules id name p :
  ∃ v p',
    patch_method_with_regexp_or_raw_string host_new_function
      (MFunction f) rules id name p = (Normal v, p') ∧
    text_step p p' ∧
    ((v = JsFunction f ∧
      _function_string_cache p'
      = <[(id, name) := text_of f id name p]> (_function_string_cache p)) ∨
     (∃ code c,
        host_new_function (txt "return " ++ code) = Some c ∧
        v = match c with
            | CFunction _ => JsFunction (NewFunction code)
            | CObject _ => JsNewObject code
            | CPrimitive w => JsPrimitive w
            end ∧
        _function_string_cache p'
        = <[(id, name) := code]> (_function_string_cache p))).
Proof.
  destruct (patch_method_spec f rules id name p)
    as (v & p' & E & T & [H|(code & Hn & Hc)]).
  - exists v, p'. auto.
  - exists v, p'. split; [done|]. split; [done|]. right.
    unfold new_Function in Hn.
    destruct (host_new_function (txt "return " ++ code)) as [c|] eqn:Eh; [|done].
    exists code, c. split; [done|]. split; [|done].
    destruct c; by injection Hn as <-.
Qed.

(** X27. The text of a method is read once for a module id and a method
    name.  Once the cache has a text under the two, any function presented
    under them is matched against that text (for an identifier that is a
    string or an expression without the [g] flag) and edited from it: two
    different functions leave the same state, and each gets back itself or
    both get the same value that [new Function] gave. *)
Theorem cached_text_stands_for_every_function f g rules id name s p :
  _function_string_cache p !! (id, name) = Some s ->
  (∀ ident,
     stateless_identifier ident ->
     does_method_match (MFunction g) ident id name p
     = (Normal (_matches_identifier s ident), p)) ∧
  snd (patch_method_with_regexp_or_raw_string host_new_function
         (MFunction f) rules id name p)
  = snd (patch_method_with_regexp_or_raw_string host_new_function
           (MFunction g) rules id name p) ∧
  ((fst (patch_method_with_regexp_or_raw_string host_new_function
           (MFunction f) rules id name p) = Normal (JsFunction f) ∧
    fst (patch_method_with_regexp_or_raw_string host_new_function
           (MFunction g) rules id name p) = Normal (JsFunction g)) ∨
   (∃ code v,
      new_Function host_new_function code = Normal v ∧
      fst (patch_method_with_regexp_or_raw_string host_new_function
             (MFunction f) rules id name p) = Normal v ∧
      fst (patch_method_with_regexp_or_raw_string host_new_function
             (MFunction g) rules id name p) = Normal v)).
Proof.
  intros Hs.
  assert (∀ h, text_of h id name p = s) as Ht
    by (intros h; unfold text_of; by rewrite Hs).
  split.
  { intros ident _. rewrite does_method_match_eq, Ht.
    by rewrite remembering_known. }
  assert (∃ q (alt : option js_value),
            (∀ h, patch_method_with_regexp_or_raw_string host_new_function
                    (MFunction h) rules id name p
                  = (Normal (default (JsFunction h) alt), q)) ∧
            match alt with
            | Some v => ∃ code, new_Function host_new_function code = Normal v
            | None => True
            end) as (q & alt & Hq & Halt).
  { destruct (run_rules name id (length rules) 0 rules s 0 p)
      as [[out|x] p1] eqn:Er.
    - destruct (decide (out.2 = 0)) as [Hz|Hz].
      { eexists _, None. split; [|done]. intros h.
        unfold patch_method_with_regexp_or_raw_string, try_catch.
        step_with get_cached_function_string_eq.
        rewrite Ht, remembering_known by done. step_with Er.
        rewrite decide_True by done. by step_with logger_eq. }
      destruct (new_Function host_new_function out.1) as [v|x] eqn:Hc.
      + eexists _, (Some v). split; [|by eauto]. intros h.
        unfold patch_method_with_regexp_or_raw_string, try_catch.
        step_with get_cached_function_string_eq.
        rewrite Ht, remembering_known by done. step_with Er.
        rewrite decide_False by done.
        unfold bind at 1, lift. rewrite Hc. cbv beta iota.
        step_with logger_eq. step_with set_cached_function_string_eq.
        by step_with when_benchmark_eq.
      + eexists _, None. split; [|done]. intros h.
        unfold patch_method_with_regexp_or_raw_string, try_catch.
        step_with get_cached_function_string_eq.
        rewrite Ht, remembering_known by done. step_with Er.
        rewrite decide_False by done.
        unfold bind at 1, lift. rewrite Hc. cbv beta iota.
        unfold bind at 1, get. cbv beta iota. by step_with logger_eq.
    - eexists _, None. split; [|done]. intros h.
      unfold patch_method_with_regexp_or_raw_string, try_catch.
      step_with get_cached_function_string_eq.
      rewrite Ht, remembering_known by done. step_with Er.
      unfold bind at 1, get. cbv beta iota. by step_with logger_eq. }
  rewrite (Hq f), (Hq g). split; [done|]. cbn [fst].
  destruct alt as [v|]; [|by left].
  destruct Halt as (code & Hv). right. by exists code, v.
Qed.

(** ** Patching the functions of a chunk *)

Lemma set_export_ids module name v h a :
  chunk_ids <$> (set_export module name v h !! a) = chunk_ids <$> (h !! a).
Proof.
  unfold set_export.
  destruct (h !! module) as [[ids [entries|]]|] eqn:E; try done.
  destruct (decide (a = module)) as [->|Hne].
  - by rewrite lookup_insert_eq, E.
  - by rewrite lookup_insert_ne.
Qed.

Lemma entries_step_set_export module name v p :
  entries_step p (upd_chunks (set_export module name v) p).
Proof. repeat split. intros a. apply set_export_ids. Qed.

Lemma entries_step_log f p : entries_step p (upd_log f p).
Proof. apply text_entries_step, text_step_log. Qed.

Lemma patch_entries_spec module id methods cur entries k p :
  ensures (patch_entries host_new_function module id methods cur entries k)
    (fun r p' =>
       entries_step p p' ∧
       ∀ k', r = Normal k' ->
             k <= k' ∧
             (k' = k ∨ ∃ ms, patch_targets p !! id = Some ms ∧
                             cur + k' <= length ms)) p.
Proof.
  revert k p. induction entries as [|[name v] rest IH]; intros k p.
  { split; [apply entries_step_refl|]. intros k' [= <-]. auto. }
  destruct v as [f|s|o|c]; cbn [patch_entries]; [|apply IH..].
  apply ensures_bind. unfold ensures at 1, get. cbn [fst snd].
  destruct (patch_targets p !! id) as [ms|] eqn:Et.
  2:{ split; [apply entries_step_refl|]. by intros k' [=]. }
  destruct (decide (length ms <= cur + k)) as [Hfull|Hroom].
  { split; [apply entries_step_refl|]. intros k' [= <-]. auto. }
  apply ensures_bind.
  destruct (find_method_eq f methods id name p) as (p1 & E1 & Hp1).
  assert (text_step p p1) as T1.
  { destruct Hp1 as [->| ->]; [apply text_step_refl|apply text_step_remembering]. }
  unfold ensures at 1. rewrite E1. cbn [fst snd].
  destruct (List.find _ methods) as [m|].
  - apply ensures_bind.
    destruct (patch_method_spec f (matches_and_replacements m) id name p1)
      as (v & p2 & E2 & T2 & _).
    unfold ensures at 1. rewrite E2. cbn [fst snd].
    apply ensures_bind. unfold ensures at 1, modify. cbn [fst snd].
    apply ensures_bind. unfold ensures at 1. rewrite logger_eq. cbn [fst snd].
    eapply ensures_mono; [apply IH|]. intros r p5 (Hs & Hk).
    assert (entries_step p p5) as Hp5.
    { eapply entries_step_trans; [|exact Hs].
      eapply entries_step_trans; [|apply entries_step_log].
      eapply entries_step_trans; [|apply entries_step_set_export].
      apply text_entries_step. by eapply text_step_trans. }
    split; [done|]. intros k' ->. destruct (Hk k' eq_refl) as (Hle & Hb).
    split; [lia|]. right. exists ms. split; [done|].
    destruct Hb as [->|(ms' & Hms' & Hb)]; [lia|].
    cbn in Hms'. destruct T1 as (_ & _ & T1 & _), T2 as (_ & _ & T2 & _).
    rewrite T2, T1, Et in Hms'. by injection Hms' as <-.
  - eapply ensures_mono; [apply IH|]. intros r p5 (Hs & Hk).
    split; [eapply entries_step_trans; [by apply text_entries_step|done]|].
    intros k' ->. destruct (Hk k' eq_refl) as (Hle & Hb).
    split; [done|]. destruct Hb as [->|(ms' & Hms' & Hb)]; [by left|].
    right. exists ms. split; [done|].
    destruct T1 as (_ & _ & T1 & _). rewrite T1, Et in Hms'.
    by injection Hms' as <-.
Qed.

Lemma counts_within_targets_same p p' :
  patch_targets p' = patch_targets p -> patch_counts p' = patch_counts p ->
  counts_within_targets p -> counts_within_targets p'.
Proof. unfold counts_within_targets. intros -> ->. done. Qed.

Lemma counts_within_targets_counted id n p ms :
  counts_within_targets p ->
  patch_targets p !! id = Some ms -> n <= length ms ->
  counts_within_targets
    (if decide (length ms <= n)
     then upd_patch_targets (fun t => delete id t)
            (upd_patch_counts (fun c => <[id := n]> c) p)
     else upd_patch_counts (fun c => <[id := n]> c) p).
Proof.
  intros I Hms Hn j methods. destruct (decide (length ms <= n)) as [Hd|Hd]; cbn.
  - destruct (decide (j = id)) as [->|Hne].
    + by rewrite lookup_delete_eq.
    + rewrite lookup_delete_ne, lookup_insert_ne by done. apply I.
  - destruct (decide (j = id)) as [->|Hne].
    + rewrite Hms, lookup_insert_eq. intros [= <-]. exists n.
      split; [done|]. split; lia.
    + rewrite lookup_insert_ne by done. apply I.
Qed.

Lemma patch_module_spec module id methods p :
  ∃ b p', patch_module host_new_function module id methods p = (Normal b, p') ∧
          page_step p p' ∧
          (counts_within_targets p -> counts_within_targets p').
Proof.
  unfold patch_module, try_catch. unfold bind at 1, get. cbv beta iota.
  assert (∀ x q, page_step p q ->
                 (counts_within_targets p -> counts_within_targets q) ->
                 ∃ b p',
                   ((let! p0 := (fun s => (Normal s, s)) in
                     logger (ErrorPatchingModule id x (benchmark p0)) ;;
                     ret false)%M q : completion bool * patcher)
                   = (Normal b, p') ∧ page_step p p' ∧
                   (counts_within_targets p -> counts_within_targets p'))
    as Hcatch.
  { intros x q Hq Iq. unfold bind at 1. cbv beta iota. step_with logger_eq.
    eexists _, _. split; [done|].
    split; [eapply page_step_trans; [exact Hq|apply text_page_step, text_step_log]|].
    intros I. by apply Iq. }
  destruct (chunks p !! module) as [[ids [entries|]]|] eqn:Ec;
    [|apply Hcatch; [apply page_step_refl|done]..].
  unfold bind at 1.
  pose proof (patch_entries_spec module id methods
                (default 0 (patch_counts p !! id)) entries 0 p) as He.
  unfold ensures in He.
  destruct (patch_entries _ _ _ _ _ _ _ p) as [[k|x] p1]; cbn [fst snd] in He;
    destruct He as ((Hs & Ht & Hpm & Hpc) & Hk).
  2:{ apply Hcatch; [done|].
      intros I. by eapply counts_within_targets_same. }
  destruct (decide (0 < k)) as [Hpos|Hzero].
  2:{ eexists _, _. split; [done|]. split; [done|].
      intros I. by eapply counts_within_targets_same. }
  destruct (Hk k eq_refl) as (_ & [->|(ms & Hms & Hb)]); [lia|].
  unfold bind at 1, modify. cbv beta iota.
  unfold bind at 1, modify. cbv beta iota.
  unfold bind at 1, get. cbv beta iota.
  match goal with
  | |- context [patch_targets ?q !! id] =>
      change (patch_targets q) with (patch_targets p1)
  end.
  rewrite Ht, Hms.
  set (n := default 0 (patch_counts p !! id) + k) in *.
  set (p2 := upd_patched_modules (fun s => {[id]} ∪ s) p1).
  assert (counts_within_targets p -> counts_within_targets p2) as I2.
  { intros I. by eapply (counts_within_targets_same p). }
  assert (page_step p p2) as S2.
  { eapply page_step_trans; [exact Hs|]. by repeat split. }
  assert (patch_targets p2 !! id = Some ms) as Hms2 by (cbn; by rewrite Ht).
  unfold bind at 1.
  destruct (decide (length ms <= n)) as [Hd|Hd].
  - step_with logger_eq. unfold modify. cbv beta iota. step_with logger_eq.
    eexists _, _. split; [done|]. split.
    + eapply page_step_trans; [exact S2|]. by repeat split.
    + intros I. pose proof (counts_within_targets_counted id n p2 ms (I2 I) Hms2 Hb)
        as I3.
      rewrite decide_True in I3 by done.
      by eapply counts_within_targets_same; [..|exact I3].
  - unfold ret at 1. cbv beta iota. step_with logger_eq.
    eexists _, _. split; [done|]. split.
    + eapply page_step_trans; [exact S2|]. by repeat split.
    + intros I. pose proof (counts_within_targets_counted id n p2 ms (I2 I) Hms2 Hb)
        as I3.
      rewrite decide_False in I3 by done.
      by eapply counts_within_targets_same; [..|exact I3].
Qed.

(** ** The hook on [push] *)

Lemma scan_ids_spec module ids p :
  ∃ p', scan_ids host_new_function module ids p = (Normal tt, p') ∧
        page_step p p' ∧
        (counts_within_targets p -> counts_within_targets p').
Proof.
  revert p. induction ids as [|id ids IH]; intros p.
  { exists p. split; [done|]. split; [apply page_step_refl|done]. }
  cbn [scan_ids]. unfold bind at 1, get. cbv beta iota. unfold bind at 1.
  assert (∃ p1, match patch_targets p !! id with
                | Some patch_methods =>
                    if decide (id ∈ patched_modules p) then ret tt
                    else (logger (DebugTargetAdded id) ;;
                          (let! _ := patch_module host_new_function module id
                                       patch_methods in ret tt))%M
                | None => ret tt
                end p = (Normal tt, p1) ∧ page_step p p1 ∧
                (counts_within_targets p -> counts_within_targets p1))
    as (p1 & -> & S1 & I1).
  { destruct (patch_targets p !! id) as [ms|];
      [|by exists p; split; [|split; [apply page_step_refl|]]].
    destruct (decide (id ∈ patched_modules p));
      [by exists p; split; [|split; [apply page_step_refl|]]|].
    step_with logger_eq. unfold bind at 1.
    destruct (patch_module_spec module id ms
                (upd_log (fun l => l ++ [DebugTargetAdded id]) p))
      as (b & p1 & -> & S1 & I1).
    exists p1. split; [done|]. split.
    - eapply page_step_trans; [apply text_page_step, text_step_log|exact S1].
    - intros I. apply I1. by eapply counts_within_targets_same. }
  destruct (IH p1) as (p2 & -> & S2 & I2).
  exists p2. split; [done|]. split; [by eapply page_step_trans|auto].
Qed.

Lemma iterable_ids_step args p p' :
  page_step p p' -> iterable_ids args p -> iterable_ids args p'.
Proof.
  intros (_ & _ & _ & _ & Hids) Hit module c Hin Hc.
  specialize (Hids module). rewrite Hc in Hids. cbn in Hids.
  destruct (chunks p !! module) as [c0|] eqn:E0; [|done].
  injection Hids as Hids. rewrite Hids. by eapply Hit.
Qed.

Lemma iterable_ids_cons module args p :
  iterable_ids (module :: args) p ->
  (∀ c, chunks p !! module = Some c -> is_Some (chunk_ids c)) ∧
  iterable_ids args p.
Proof.
  intros H. split.
  - intros c. apply H. by left.
  - intros m c Hin. apply H. by right.
Qed.

Lemma scan_args_spec args p :
  ensures (scan_args host_new_function args)
    (fun r p' => page_step p p' ∧
                 (counts_within_targets p -> counts_within_targets p') ∧
                 (iterable_ids args p -> r = Normal tt)) p.
Proof.
  revert p. induction args as [|module args IH]; intros p.
  { split; [apply page_step_refl|done]. }
  cbn [scan_args]. apply ensures_bind. unfold ensures at 1, get. cbn [fst snd].
  apply ensures_bind.
  destruct (chunks p !! module) as [[[ids|] exports]|] eqn:Ec.
  - destruct (scan_ids_spec module ids p) as (p1 & E1 & S1 & I1).
    unfold ensures at 1. rewrite E1. cbn [fst snd].
    eapply ensures_mono; [apply IH|]. intros r p2 (S2 & I2 & N2).
    split; [by eapply page_step_trans|]. split; [auto|].
    intros Hit. apply iterable_ids_cons in Hit as [_ Hit].
    apply N2. by eapply iterable_ids_step.
  - split; [apply page_step_refl|]. split; [done|].
    intros Hit. apply iterable_ids_cons in Hit as [Hit _].
    by destruct (Hit _ Ec) as [? [=]].
  - unfold ensures at 1, ret. cbn [fst snd].
    eapply ensures_mono; [apply IH|]. intros r p2 (S2 & I2 & N2).
    split; [done|]. split; [done|].
    intros Hit. apply iterable_ids_cons in Hit as [_ Hit]. by apply N2.
Qed.

Lemma scan_ids_nothing module ids p :
  (∀ id, id ∈ ids ->
         patch_targets p !! id = None ∨ id ∈ patched_modules p) ->
  scan_ids host_new_function module ids p = (Normal tt, p).
Proof.
  induction ids as [|id ids IH]; intros H; [done|].
  cbn [scan_ids]. unfold bind at 1, get. cbv beta iota. unfold bind at 1.
  assert (match patch_targets p !! id with
          | Some patch_methods =>
              if decide (id ∈ patched_modules p) then ret tt
              else (logger (DebugTargetAdded id) ;;
                    (let! _ := patch_module host_new_function module id
                                 patch_methods in ret tt))%M
          | None => ret tt
          end p = (Normal tt, p)) as ->.
  { destruct (H id) as [-> | Hin]; [by left|done|].
    destruct (patch_targets p !! id); [|done]. by rewrite decide_True. }
  apply IH. intros j Hj. apply H. by right.
Qed.

Lemma scan_args_nothing args p :
  iterable_ids args p -> nothing_to_patch args p ->
  scan_args host_new_function args p = (Normal tt, p).
Proof.
  induction args as [|module args IH]; intros Hit Hno; [done|].
  cbn [scan_args]. unfold bind at 1, get. cbv beta iota. unfold bind at 1.
  apply iterable_ids_cons in Hit as [Hit1 Hit].
  assert (nothing_to_patch args p) as Hno'.
  { intros m c ids id Hin. apply Hno. by right. }
  destruct (chunks p !! module) as [[[ids|] exports]|] eqn:Ec.
  - rewrite scan_ids_nothing; [by apply IH|].
    intros id Hid. eapply (Hno module); [by left|exact Ec|done|done].
  - by destruct (Hit1 _ eq_refl) as [? [=]].
  - unfold ret at 1. by apply IH.
Qed.

(** X28. The function put in place of [push] hands every call on to the
    [push] the array had: when element 0 of each pushed array can be
    iterated, the scan for targets never throws, the original [push] runs
    with the same arguments in the state the scan left, and the scan has
    not touched the array, the hook or the ids of any chunk.  When no id
    of a pushed array is waiting to be patched the scan changes nothing. *)
Theorem hooked_push_reaches_the_original_push {R}
    (original_push : list nat -> M patcher R) args p :
  iterable_ids args p ->
  ∃ p', scan_args host_new_function args p = (Normal tt, p') ∧
        hooked_push host_new_function original_push args p
        = original_push args p' ∧
        page_step p p' ∧
        (nothing_to_patch args p -> p' = p).
Proof.
  intros Hit. pose proof (scan_args_spec args p) as H. unfold ensures in H.
  destruct (scan_args host_new_function args p) as [r p'] eqn:E.
  cbn [fst snd] in H. destruct H as (Hs & _ & Hn). rewrite (Hn Hit) in *.
  exists p'. split; [done|]. split.
  { unfold hooked_push, bind. by rewrite E. }
  split; [done|]. intros Hno.
  pose proof (scan_args_nothing args p Hit Hno) as E'. congruence.
Qed.

(** ** Registration and the count of patched methods *)

Lemma get_module_frame id p :
  ensures (get_module id)
    (fun _ p' => text_step p p' ∨
                 ∃ f, p' = upd_module_cache f p) p.
Proof.
  unfold get_module. apply ensures_bind. unfold ensures at 1, get. cbn [fst snd].
  destruct (_module_cache p !! id); [left; apply text_step_refl|].
  apply ensures_bind. unfold ensures at 1, lift. cbn [fst snd].
  destruct (find_in_global_obj id (global_obj p) (chunks p)) as [[e|]|x];
    try (left; apply text_step_refl).
  right. by eexists.
Qed.

Lemma counts_within_targets_registered id methods p :
  counts_within_targets p ->
  counts_within_targets
    (match patch_targets p !! id with
     | Some existing_methods =>
         upd_patch_targets (fun t => <[id := existing_methods ++ methods]> t) p
     | None =>
         upd_patch_counts (fun c => <[id := 0]> c)
           (upd_patch_targets (fun t => <[id := methods]> t) p)
     end).
Proof.
  intros I j ms. destruct (patch_targets p !! id) as [existing|] eqn:Et; cbn.
  - destruct (decide (j = id)) as [->|Hne].
    + rewrite lookup_insert_eq. intros [= <-].
      destruct (I id existing Et) as (n & Hn & Hle & Hz).
      exists n. split; [done|]. rewrite length_app. split; [lia|].
      intros Heq. assert (existing = []) as -> by (apply Hz; lia).
      cbn in *. destruct methods; [done|]. cbn in Heq. lia.
    + rewrite lookup_insert_ne by done. apply I.
  - destruct (decide (j = id)) as [->|Hne].
    + rewrite !lookup_insert_eq. intros [= <-]. exists 0. split; [done|].
      split; [lia|]. intros Heq. by destruct methods.
    + rewrite !lookup_insert_ne by done. apply I.
Qed.

Lemma register_patch_counts id methods p :
  counts_within_targets p ->
  counts_within_targets (snd (register_patch host_new_function id methods p)).
Proof.
  intros I. unfold register_patch. unfold bind at 1, get. cbv beta iota.
  unfold bind at 1.
  set (p1 := match patch_targets p !! id with
             | Some existing_methods =>
                 upd_patch_targets (fun t => <[id := existing_methods ++ methods]> t) p
             | None =>
                 upd_patch_counts (fun c => <[id := 0]> c)
                   (upd_patch_targets (fun t => <[id := methods]> t) p)
             end).
  assert (counts_within_targets p1) as I1
    by by apply counts_within_targets_registered.
  assert (match patch_targets p !! id with
          | Some existing_methods =>
              modify (upd_patch_targets
                        (fun t => <[id := existing_methods ++ methods]> t))
          | None =>
              (modify (upd_patch_targets (fun t => <[id := methods]> t)) ;;
               modify (upd_patch_counts (fun c => <[id := 0]> c)))%M
          end p = (Normal tt, p1)) as ->.
  { subst p1. by destruct (patch_targets p !! id). }
  clearbody p1. clear I p. unfold bind at 1.
  pose proof (get_module_frame id p1) as Hg. unfold ensures in Hg.
  destruct (get_module id p1) as [[existing|x] p2]; cbn [fst snd] in Hg.
  2:{ cbn [snd]. destruct Hg as [(_ & _ & Ht & _ & Hc & _)|(f & ->)];
        [by eapply counts_within_targets_same|done]. }
  assert (counts_within_targets p2) as I2.
  { destruct Hg as [(_ & _ & Ht & _ & Hc & _)|(f & ->)];
      [by eapply counts_within_targets_same|done]. }
  clear Hg I1 p1. unfold bind at 1.
  assert (∃ p3, match existing with
                | Some module =>
                    if decide (0 < length methods)
                    then (let! _ := patch_module host_new_function module id
                                      methods in ret tt)%M
                    else ret tt
                | None => ret tt
                end p2 = (Normal tt, p3) ∧ counts_within_targets p3)
    as (p3 & -> & I3).
  { destruct existing as [module|]; [|by exists p2].
    destruct (decide (0 < length methods)); [|by exists p2].
    unfold bind at 1.
    destruct (patch_module_spec module id methods p2) as (b & p3 & -> & _ & I3).
    exists p3. auto. }
  unfold bind at 1, get. cbv beta iota.
  destruct (hooked p3); [done|].
  unfold _hook_webpack_array_push. unfold bind at 1, modify. cbv beta iota.
  rewrite logger_eq. cbn [snd]. by eapply (counts_within_targets_same p3).
Qed.

Lemma register_patches_counts patches p :
  counts_within_targets p ->
  counts_within_targets (snd (register_patches host_new_function patches p)).
Proof.
  revert p. induction patches as [|[id methods] rest IH]; intros p I; [done|].
  cbn [register_patches]. unfold bind.
  pose proof (register_patch_counts id methods p I) as I1.
  destruct (register_patch host_new_function id methods p) as [[[]|x] p1];
    cbn [snd] in I1; [by apply IH|done].
Qed.

Lemma push_counts args p :
  counts_within_targets p ->
  counts_within_targets (snd (push host_new_function args p)).
Proof.
  intros I. unfold push. unfold bind at 1, get. cbv beta iota.
  assert (∀ q, counts_within_targets q ->
               counts_within_targets (snd (array_push args q))) as Hpush.
  { intros q Iq. unfold array_push, bind, modify, get. cbn [snd].
    by eapply (counts_within_targets_same q). }
  destruct (hooked p); [|by apply Hpush].
  unfold hooked_push, bind.
  pose proof (scan_args_spec args p) as H. unfold ensures in H.
  destruct (scan_args host_new_function args p) as [[[]|x] p1];
    cbn [fst snd] in H; destruct H as (_ & I1 & _).
  - apply Hpush. auto.
  - cbn [snd]. auto.
Qed.

Lemma run_op_counts o p :
  counts_within_targets p ->
  counts_within_targets (run_op host_new_function o p).
Proof.
  intros I. destruct o as [addr c|args|patches]; cbn [run_op].
  - destruct (chunks p !! addr); [done|].
    by eapply (counts_within_targets_same p).
  - by apply push_counts.
  - by apply register_patches_counts.
Qed.

(** X29. Whatever the page pushes and whoever registers patches, the count
    of patched methods the patcher keeps for a module never passes the
    number of configurations registered for it, and a registration that
    is still there has room left unless it is empty. *)
Theorem patch_count_stays_within_the_registrations ops elements heap b :
  counts_within_targets
    (run_ops host_new_function ops (new_WebpackPatcher elements heap b)).
Proof.
  assert (∀ p, counts_within_targets p ->
               counts_within_targets (run_ops host_new_function ops p)) as H.
  { induction ops as [|o ops IH]; intros p I; [done|].
    cbn. apply IH. by apply run_op_counts. }
  apply H. intros id ms. cbn. by rewrite lookup_empty.
Qed.

(** ** A page that refuses [new Function] *)

Lemma patch_entries_skip module id methods cur pre rest k p :
  forallb (fun kv => not_function kv.2) pre = true ->
  patch_entries host_new_function module id methods cur (pre ++ rest) k p
  = patch_entries host_new_function module id methods cur rest k p.
Proof.
  induction pre as [|[name v] pre IH]; [done|]. cbn [forallb app].
  intros [Hv Hpre]%andb_true_iff. destruct v; [done|by apply IH..].
Qed.

Lemma patch_entries_full module id methods cur entries k p ms :
  patch_targets p !! id = Some ms -> length ms <= cur + k ->
  patch_entries host_new_function module id methods cur entries k p
  = (Normal k, p).
Proof.
  intros Ht Hfull. induction entries as [|[name v] rest IH]; [done|].
  destruct v; cbn [patch_entries]; [|done..].
  unfold bind at 1, get. cbv beta iota. rewrite Ht. by rewrite decide_True.
Qed.

Lemma assign_same name v entries :
  NoDup (map fst entries) -> (name, v) ∈ entries ->
  assign name v entries = entries.
Proof.
  unfold assign. induction entries as [|[k w] rest IH]; [done|].
  cbn [map fst]. intros [Hk Hnd]%NoDup_cons [[= <- <-]|Hin]%elem_of_cons.
  - cbn [map fst snd]. rewrite String.eqb_refl. f_equal.
    transitivity (map id rest); [|apply map_id].
    apply map_ext_in. intros [k w] Hkw%list_elem_of_In. cbn.
    destruct (String.eqb_spec k name) as [->|]; [|done].
    destruct Hk. apply list_elem_of_In, (in_map fst _ (name, w)).
    by apply list_elem_of_In.
  - cbn [map fst snd]. destruct (String.eqb_spec k name) as [->|].
    + destruct Hk. apply list_elem_of_In, (in_map fst _ (name, v)).
      by apply list_elem_of_In.
    + f_equal. by apply IH.
Qed.

Lemma set_export_same module name v ids entries h :
  h !! module = Some (Chunk ids (Some entries)) ->
  NoDup (map fst entries) -> (name, v) ∈ entries ->
  set_export module name v h = h.
Proof.
  intros Hm Hnd Hin. unfold set_export. rewrite Hm, assign_same by done.
  by apply insert_id.
Qed.

Lemma upd_chunks_same f p : f (chunks p) = chunks p -> upd_chunks f p = p.
Proof. intros H. destruct p. unfold upd_chunks. cbn in *. by rewrite H. Qed.

(** X30. On a page that refuses [new Function], a method whose text
    matches the identifiers of the one configuration registered for its
    module still uses that configuration up: the chunk keeps the function
    it had, yet the module is marked as patched, its count goes to one and
    the registration is dropped, so that a later push of the module finds
    nothing to do. *)
Theorem refused_compile_still_uses_the_registration
    module id m ids pre name f post p :
  (∀ source, host_new_function source = None) ->
  chunks p !! module
  = Some (Chunk ids (Some (pre ++ (name, JsFunction f) :: post))) ->
  NoDup (map fst (pre ++ (name, JsFunction f) :: post)) ->
  forallb (fun kv => not_function kv.2) pre = true ->
  patch_targets p !! id = Some [m] ->
  patch_counts p !! id = Some 0 ->
  _function_string_cache p !! (id, name) = None ->
  forallb (_matches_identifier (toString f)) (identifiers m) = true ->
  ∃ p', patch_module host_new_function module id [m] p = (Normal true, p') ∧
        chunks p' = chunks p ∧
        id ∈ patched_modules p' ∧
        patch_targets p' !! id = None ∧
        patch_counts p' !! id = Some 1 ∧
        ∀ pushed, scan_ids host_new_function pushed [id] p' = (Normal tt, p').
Proof.
  intros Hrefuse Hc Hnd Hpre Ht Hn Hcache Hmatch.
  assert (text_of f id name p = toString f) as Htext
    by (unfold text_of; by rewrite Hcache).
  destruct (find_method_eq f [m] id name p) as (p1 & E1 & Hp1).
  rewrite Htext in E1. cbn [List.find] in E1. rewrite Hmatch in E1.
  assert (text_step p p1) as T1.
  { destruct Hp1 as [->| ->]; [apply text_step_refl|apply text_step_remembering]. }
  destruct (patch_method_spec f (matches_and_replacements m) id name p1)
    as (v & p2 & E2 & T2 & [[-> _]|(code & Hok & _)]);
    [|unfold new_Function in Hok; by rewrite Hrefuse in Hok].
  assert (text_step p p2) as T by by eapply text_step_trans.
  destruct T as (Tg & Tc & Tt & Tm & Tn & Th & Tb & Tmc).
  set (p3 := upd_log (fun l => l ++ [DebugPatchedMethod name id (benchmark p)]) p2).
  assert (patch_entries host_new_function module id [m] 0
            (pre ++ (name, JsFunction f) :: post) 0 p = (Normal 1, p3)) as Ee.
  { rewrite patch_entries_skip by done. cbn [patch_entries].
    unfold bind at 1, get. cbv beta iota. rewrite Ht.
    rewrite decide_False by (cbn; lia).
    step_with E1. step_with E2. unfold bind at 1, modify. cbv beta iota.
    rewrite upd_chunks_same.
    2:{ rewrite Tc. eapply set_export_same; [exact Hc|done|].
        apply elem_of_app. right. by left. }
    step_with logger_eq.
    apply (patch_entries_full _ _ _ _ _ _ _ [m]); [|cbn; lia].
    cbn. by rewrite Tt. }
  unfold patch_module, try_catch. unfold bind at 1, get. cbv beta iota.
  rewrite Hc, Hn. change (default 0 (Some 0)) with 0. step_with Ee.
  rewrite decide_True by lia.
  unfold bind at 1, modify. cbv beta iota.
  unfold bind at 1, modify. cbv beta iota.
  unfold bind at 1, get. cbv beta iota.
  match goal with
  | |- context [patch_targets ?q !! id] =>
      change (patch_targets q) with (patch_targets p2)
  end.
  rewrite Tt, Ht. rewrite decide_True by (cbn; lia).
  unfold bind at 1. step_with logger_eq. unfold modify. cbv beta iota.
  step_with logger_eq.
  eexists. split; [done|].
  split; [exact Tc|].
  split; [cbn; apply elem_of_union_l; by apply elem_of_singleton|].
  split; [cbn; by rewrite lookup_delete_eq|].
  split; [cbn; by rewrite lookup_insert_eq|].
  intros pushed. apply scan_ids_nothing. intros j ->%list_elem_of_singleton.
  left. cbn. by rewrite lookup_delete_eq.
Qed.

End FirstVersion.

(** ** The properties of the first version on sample values *)

Section FirstVersionSamples.

Import V1.

Lemma reading_patcher_cached :
  _function_string_cache reading_patcher !! (IdNumber 5, "a") = Some method_source.
Proof.
  unfold reading_patcher. rewrite get_cached_function_string_eq.
  cbn [snd]. unfold remembering. cbn. by rewrite lookup_insert_eq.
Qed.

Lemma cached_text_stands_for_every_function_witness :
  (∀ ident,
     stateless_identifier ident ->
     does_method_match (MFunction other_method) ident (IdNumber 5) "a"
       reading_patcher
     = (Normal (_matches_identifier method_source ident), reading_patcher)) ∧
  snd (patch_method_with_regexp_or_raw_string accept
         (MFunction sample_method) [rule_foo] (IdNumber 5) "a" reading_patcher)
  = snd (patch_method_with_regexp_or_raw_string accept
           (MFunction other_method) [rule_foo] (IdNumber 5) "a" reading_patcher) ∧
  ((fst (patch_method_with_regexp_or_raw_string accept
           (MFunction sample_method) [rule_foo] (IdNumber 5) "a" reading_patcher)
    = Normal (JsFunction sample_method) ∧
    fst (patch_method_with_regexp_or_raw_string accept
           (MFunction other_method) [rule_foo] (IdNumber 5) "a" reading_patcher)
    = Normal (JsFunction other_method)) ∨
   (∃ code v,
      new_Function accept code = Normal v ∧
      fst (patch_method_with_regexp_or_raw_string accept
             (MFunction sample_method) [rule_foo] (IdNumber 5) "a" reading_patcher)
      = Normal v ∧
      fst (patch_method_with_regexp_or_raw_string accept
             (MFunction other_method) [rule_foo] (IdNumber 5) "a" reading_patcher)
      = Normal v)).
Proof.
  exact (cached_text_stands_for_every_function accept sample_method other_method
           [rule_foo] (IdNumber 5) "a" method_source reading_patcher
           reading_patcher_cached).
Defined.

Lemma registered_patcher_chunks :
  chunks registered_patcher = {[ 10 := sample_chunk ]}.
Proof. reflexivity. Qed.

Lemma registered_patcher_iterable : iterable_ids [10; 99] registered_patcher.
Proof.
  intros module c _. rewrite registered_patcher_chunks.
  intros [_ <-]%lookup_singleton_Some. by eexists.
Qed.

Lemma hooked_push_reaches_the_original_push_witness :
  ∃ p', scan_args accept [10; 99] registered_patcher = (Normal tt, p') ∧
        hooked_push accept array_push [10; 99] registered_patcher
        = array_push [10; 99] p' ∧
        page_step registered_patcher p' ∧
        (nothing_to_patch [10; 99] registered_patcher -> p' = registered_patcher).
Proof.
  exact (hooked_push_reaches_the_original_push accept array_push [10; 99]
           registered_patcher registered_patcher_iterable).
Defined.

Lemma registered_patcher_chunk :
  chunks registered_patcher !! 10
  = Some (Chunk (Some [IdNumber 5])
            (Some ([] ++ ("a", JsFunction sample_method)
                         :: [("b", JsObject (HostObj 8))]))).
Proof. rewrite registered_patcher_chunks. by rewrite lookup_singleton_eq. Qed.

Lemma sample_chunk_names :
  NoDup (map fst ([] ++ ("a", JsFunction sample_method)
                        :: [("b", JsObject (HostObj 8))])).
Proof.
  cbn. apply NoDup_cons. split; [|apply NoDup_singleton].
  by intros [=]%list_elem_of_singleton.
Qed.

Lemma registered_patcher_targets :
  patch_targets registered_patcher !! IdNumber 5 = Some [sample_method_patch].
Proof. reflexivity. Qed.

Lemma registered_patcher_counts :
  patch_counts registered_patcher !! IdNumber 5 = Some 0.
Proof. reflexivity. Qed.

Lemma registered_patcher_cache :
  _function_string_cache registered_patcher !! (IdNumber 5, "a") = None.
Proof. reflexivity. Qed.

Lemma sample_method_matches :
  forallb (_matches_identifier (toString sample_method))
    (identifiers sample_method_patch) = true.
Proof. vm_compute. reflexivity. Qed.

Lemma refused_compile_still_uses_the_registration_witness :
  ∃ p', patch_module refuse 10 (IdNumber 5) [sample_method_patch]
          registered_patcher = (Normal true, p') ∧
        chunks p' = chunks registered_patcher ∧
        IdNumber 5 ∈ patched_modules p' ∧
        patch_targets p' !! IdNumber 5 = None ∧
        patch_counts p' !! IdNumber 5 = Some 1 ∧
        ∀ pushed, scan_ids refuse pushed [IdNumber 5] p' = (Normal tt, p').
Proof.
  exact (refused_compile_still_uses_the_registration refuse 10 (IdNumber 5)
           sample_method_patch (Some [IdNumber 5]) [] "a" sample_method
           [("b", JsObject (HostObj 8))] registered_patcher
           (fun _ => eq_refl) registered_patcher_chunk sample_chunk_names
           eq_refl registered_patcher_targets registered_patcher_counts
           registered_patcher_cache sample_method_matches).
Defined.

End FirstVersionSamples.
